(** * pydelphin: the TSDB flat-file store and the TSQL query front end

    A shallow embedding of [delphin/tsdb.py] and [delphin/tsql.py].

    Layout of the development:
    - [PyStr]: the [str] methods the two modules call ([replace],
      [split], [strip], [splitlines], [join], [ljust], ...);
    - [Re]: a backtracking matcher for the fragment of Python's [re]
      syntax that the sources use, with named groups;
    - [Tsdb]: fields, schemas, the value codec, dates and the table writer;
    - [Tsql]: the lexer, the recursive-descent parser, condition
      processing and the transitive join;
    - the facts proved about them.

    Text is modelled as [list ascii]; a character stands for the code
    point of the same number (0..255). *)

From Stdlib Require Import List String Ascii Bool Arith ZArith Lia.
From Stdlib Require Import DecimalString DecimalZ.
From Stdlib Require Decimal DecimalPos.
Import ListNotations.

Open Scope bool_scope.
Open Scope list_scope.

(** ** Python's [str], as far as the sources use it *)

Module PyStr.

Definition str := list ascii.

Definition lit (s : string) : str := list_ascii_of_string s.

Definition code (c : ascii) : nat := nat_of_ascii c.

Definition NL : ascii := "010"%char.
Definition CR : ascii := "013"%char.
Definition BACKSLASH : ascii := "\"%char.
Definition SPACE : ascii := " "%char.

Definition ceqb (a b : ascii) : bool := Ascii.eqb a b.

Fixpoint seqb (a b : str) : bool :=
  match a, b with
  | [], [] => true
  | x :: a', y :: b' => ceqb x y && seqb a' b'
  | _, _ => false
  end.

(** [s.startswith(p)] *)
Fixpoint startswith (p s : str) : bool :=
  match p, s with
  | [], _ => true
  | x :: p', y :: s' => ceqb x y && startswith p' s'
  | _ :: _, [] => false
  end.

(** [str.isspace] on one character; the class [\s] of [re] is the same
    set.  Code points 9..13, 28..32, 133 and 160. *)
Definition is_space (c : ascii) : bool :=
  let n := code c in
  ((9 <=? n) && (n <=? 13)) || ((28 <=? n) && (n <=? 32))
  || (n =? 133) || (n =? 160).

Definition is_digit (c : ascii) : bool :=
  let n := code c in (48 <=? n) && (n <=? 57).

Definition is_upper_ascii (c : ascii) : bool :=
  let n := code c in (65 <=? n) && (n <=? 90).

Definition is_lower_ascii (c : ascii) : bool :=
  let n := code c in (97 <=? n) && (n <=? 122).

(** The class [\w] of [re] on [str] patterns: alphanumeric (in the
    Unicode sense) or underscore.  Below 256 the alphanumerics are the
    ASCII letters and digits, the letters 170, 181, 186, 192..214,
    216..246, 248..255 and the numerics 178, 179, 185, 188..190. *)
Definition is_word (c : ascii) : bool :=
  let n := code c in
  is_digit c || is_upper_ascii c || is_lower_ascii c || (n =? 95)
  || (n =? 170) || (n =? 181) || (n =? 186)
  || ((192 <=? n) && (n <=? 214)) || ((216 <=? n) && (n <=? 246))
  || (248 <=? n)
  || (n =? 178) || (n =? 179) || (n =? 185)
  || ((188 <=? n) && (n <=? 190)).

(** The line boundaries of [str.splitlines]: LF, CR, VT, FF, FS, GS, RS
    and NEL (and CR LF taken as one). *)
Definition is_linebreak (c : ascii) : bool :=
  let n := code c in
  ((10 <=? n) && (n <=? 13)) || ((28 <=? n) && (n <=? 30)) || (n =? 133).

(** The capital letters below 256 that [str.lower] folds: the ASCII
    ones and 192..222 without the multiplication sign 215. *)
Definition is_upper (c : ascii) : bool :=
  let n := code c in
  is_upper_ascii c || ((192 <=? n) && (n <=? 222) && negb (n =? 215)).

(** [c.lower()] for one character. *)
Definition lower_char (c : ascii) : ascii :=
  if is_upper c then ascii_of_nat (code c + 32) else c.

Definition lower (s : str) : str := map lower_char s.

(** [s.replace(old, new)]: the occurrences of [old] are found left to
    right and do not overlap.  [skip] counts the characters of a match
    still to be dropped.  For an empty [old] Python inserts [new] before
    every character and at the end. *)
Fixpoint replace_from (old new : str) (skip : nat) (s : str) : str :=
  match s with
  | [] => []
  | c :: s' =>
      match skip with
      | S k => replace_from old new k s'
      | O =>
          if startswith old s
          then new ++ replace_from old new (List.length old - 1) s'
          else c :: replace_from old new 0 s'
      end
  end.

Definition replace (old new s : str) : str :=
  match old with
  | [] => new ++ flat_map (fun c => c :: new) s
  | _ :: _ => replace_from old new 0 s
  end.

(** [sep.join(parts)] *)
Fixpoint join (sep : str) (parts : list str) : str :=
  match parts with
  | [] => []
  | [p] => p
  | p :: rest => p ++ sep ++ join sep rest
  end.

(** [s.split(sep)] for a one-character separator: the pieces between
    the separators, empty pieces kept; never an empty list. *)
Fixpoint split_on (sep : ascii) (s : str) : list str :=
  match s with
  | [] => [[]]
  | c :: s' =>
      if ceqb c sep then [] :: split_on sep s'
      else match split_on sep s' with
           | p :: ps => (c :: p) :: ps
           | [] => [[c]]
           end
  end.

(** Dropping from the right while [p] holds, [s.rstrip(chars)]. *)
Fixpoint rstrip_by (p : ascii -> bool) (s : str) : str :=
  match s with
  | [] => []
  | c :: s' =>
      match rstrip_by p s' with
      | [] => if p c then [] else [c]
      | r => c :: r
      end
  end.

Fixpoint lstrip_by (p : ascii -> bool) (s : str) : str :=
  match s with
  | [] => []
  | c :: s' => if p c then lstrip_by p s' else s
  end.

(** [s.strip()] *)
Definition strip (s : str) : str := rstrip_by is_space (lstrip_by is_space s).

(** [s.rstrip('\n')] *)
Definition rstrip_nl (s : str) : str := rstrip_by (ceqb NL) s.

(** [s.split()]: the maximal runs of non-space characters.  [cur] is the
    run being read, reversed. *)
Fixpoint split_ws_from (cur : str) (s : str) : list str :=
  match s with
  | [] => match cur with [] => [] | _ => [rev cur] end
  | c :: s' =>
      if is_space c
      then match cur with
           | [] => split_ws_from [] s'
           | _ => rev cur :: split_ws_from [] s'
           end
      else split_ws_from (c :: cur) s'
  end.

Definition split_ws (s : str) : list str := split_ws_from [] s.

(** [s.splitlines()]: lines without their terminators; a terminator at
    the very end opens no further line, and the empty text has no line. *)
Fixpoint splitlines_from (cur : str) (s : str) : list str :=
  match s with
  | [] => match cur with [] => [] | _ => [rev cur] end
  | c :: s' =>
      if is_linebreak c
      then rev cur ::
           match s' with
           | d :: s'' =>
               if ceqb c CR && ceqb d NL
               then splitlines_from [] s''
               else splitlines_from [] s'
           | [] => []
           end
      else splitlines_from (c :: cur) s'
  end.

Definition splitlines (s : str) : list str := splitlines_from [] s.

(** [s.ljust(width)] *)
Definition ljust (width : nat) (s : str) : str :=
  s ++ repeat SPACE (width - List.length s).

(** [s.rpartition(sep)] for a one-character separator: the text before
    the last separator and the text after it; [(empty, s)] without one.
    The middle component is left out. *)
Fixpoint rpartition (sep : ascii) (s : str) : option (str * str) :=
  match s with
  | [] => None
  | c :: s' =>
      match rpartition sep s' with
      | Some (a, b) => Some (c :: a, b)
      | None => if ceqb c sep then Some ([], s') else None
      end
  end.

Definition rpartition2 (sep : ascii) (s : str) : str * str :=
  match rpartition sep s with
  | Some ab => ab
  | None => ([], s)
  end.

(** Equality of two sequences, element by element. *)
Fixpoint forallb2 {A B : Type} (p : A -> B -> bool) (a : list A) (b : list B)
  : bool :=
  match a, b with
  | [], [] => true
  | x :: a', y :: b' => p x y && forallb2 p a' b'
  | _, _ => false
  end.

(** [x in xs] for texts. *)
Definition mem (x : str) (xs : list str) : bool := existsb (seqb x) xs.

(** [str(n)] for an [int], where it returns: by default the interpreter
    converts between [int] and [str] numbers of at most 4300 digits
    ([sys.int_info.default_max_str_digits]) and raises [ValueError]
    above.  [int_fits] says that a number is within that limit. *)
Definition str_of_Z (z : Z) : str :=
  lit (NilZero.string_of_int (Z.to_int z)).

Definition MAX_STR_DIGITS : Z := 4300.

Definition int_digits (z : Z) : nat := List.length (str_of_Z (Z.abs z)).

Definition int_fits (z : Z) : bool :=
  (Z.of_nat (int_digits z) <=? MAX_STR_DIGITS)%Z.

End PyStr.

(** ** Regular expressions, as Python's [re] matches them *)

Module Re.
Import PyStr.

(** The syntax the sources use.  [Rep r lo hi] is the greedy repetition
    [r{lo,hi}] ([hi = None]: unbounded); [Grp] is a capturing group;
    [Bol] and [Eol] are [^] and [$] without [re.MULTILINE]. *)
Inductive re : Type :=
| Eps
| Chr (c : ascii)
| Cls (p : ascii -> bool)
| Seq (a b : re)
| Alt (a b : re)
| Rep (r : re) (lo : nat) (hi : option nat)
| Grp (name : string) (r : re)
| Bol
| Eol.

(** The groups closed so far, the last closed first. *)
Definition caps := list (string * str).

Definition chr_eq (ci : bool) (a b : ascii) : bool :=
  if ci then ceqb (lower_char a) (lower_char b) else ceqb a b.

(** The greedy repetition of a matcher [step]: up to [n] more rounds, of
    which [lo] are still required; a round is tried first, and the
    repetition stops where the rest of the pattern, [k], matches. *)
Fixpoint rep_loop {A : Type}
  (step : nat -> str -> caps -> (nat -> str -> caps -> option A) -> option A)
  (k : nat -> str -> caps -> option A)
  (n lo : nat) (pos : nat) (s : str) (cs : caps) {struct n} : option A :=
  match n with
  | O => if lo =? 0 then k pos s cs else None
  | S n' =>
      match step pos s cs
              (fun pos' s' cs' => rep_loop step k n' (pred lo) pos' s' cs') with
      | Some x => Some x
      | None => if lo =? 0 then k pos s cs else None
      end
  end.

(** The backtracking matcher in continuation-passing style: [k] is what
    remains to be matched after [r]; an alternative or a shorter
    repetition is tried when [k] fails.  [pos] is the offset of [s] in
    the subject, [ci] is [re.IGNORECASE] (the classes of the patterns
    matched with it are closed under case, so it only touches literal
    characters).  No pattern of the sources repeats a body that can match
    the empty text, so an unbounded repetition runs at most [length s]
    times. *)
Fixpoint rmatch {A : Type} (ci : bool) (r : re) (pos : nat) (s : str)
  (cs : caps) (k : nat -> str -> caps -> option A) {struct r} : option A :=
  match r with
  | Eps => k pos s cs
  | Chr c =>
      match s with
      | d :: s' => if chr_eq ci c d then k (S pos) s' cs else None
      | [] => None
      end
  | Cls p =>
      match s with
      | d :: s' => if p d then k (S pos) s' cs else None
      | [] => None
      end
  | Seq a b =>
      rmatch ci a pos s cs (fun pos' s' cs' => rmatch ci b pos' s' cs' k)
  | Alt a b =>
      match rmatch ci a pos s cs k with
      | Some x => Some x
      | None => rmatch ci b pos s cs k
      end
  | Rep r' lo hi =>
      rep_loop (rmatch ci r') k
        (match hi with Some h => h | None => List.length s end) lo pos s cs
  | Grp name r' =>
      rmatch ci r' pos s cs
        (fun pos' s' cs' => k pos' s' ((name, firstn (pos' - pos) s) :: cs'))
  | Bol => if pos =? 0 then k pos s cs else None
  | Eol =>
      match s with
      | [] => k pos s cs
      | [c] => if ceqb c NL then k pos s cs else None
      | _ => None
      end
  end.

Definition Opt (r : re) : re := Rep r 0 (Some 1).
Definition Star (r : re) : re := Rep r 0 None.
Definition Plus (r : re) : re := Rep r 1 None.
Definition Times (r : re) (lo hi : nat) : re := Rep r lo (Some hi).

Fixpoint seqs (rs : list re) : re :=
  match rs with
  | [] => Eps
  | [r] => r
  | r :: rs' => Seq r (seqs rs')
  end.

Fixpoint alts (rs : list re) : re :=
  match rs with
  | [] => Cls (fun _ => false)
  | [r] => r
  | r :: rs' => Alt r (alts rs')
  end.

(** A literal text. *)
Definition Lit (s : string) : re := seqs (map Chr (lit s)).

Definition Any : re := Cls (fun c => negb (ceqb c NL)).   (* [.] *)
Definition Space : re := Cls is_space.                     (* [\s] *)
Definition NonSpace : re := Cls (fun c => negb (is_space c)). (* [\S] *)
Definition Word : re := Cls is_word.                       (* [\w] *)
Definition Digit : re := Cls is_digit.                     (* [[0-9]], [\d] *)
Definition Not1 (c : ascii) : re := Cls (fun d => negb (ceqb d c)).

(** A match object: where the match starts and ends, its groups. *)
Record mobj : Type := MObj { m_start : nat; m_end : nat; m_caps : caps }.

(** [re.match(r, s)] *)
Definition re_match (ci : bool) (r : re) (s : str) : option mobj :=
  rmatch ci r 0 s [] (fun pos _ cs => Some (MObj 0 pos cs)).

(** [m.group(name)]: [None] for a group that took no part. *)
Fixpoint group (name : string) (cs : caps) : option str :=
  match cs with
  | [] => None
  | (n, v) :: cs' => if String.eqb n name then Some v else group name cs'
  end.

(** [m.lastindex], by name: the group closed last. *)
Definition lastgroup (m : mobj) : option string :=
  match m_caps m with
  | [] => None
  | (n, _) :: _ => Some n
  end.

(** [r.finditer(s)]: the matches from left to right, none overlapping;
    where nothing matches the scan moves on by one character, and after
    an empty match too. *)
Fixpoint finditer_from (fuel : nat) (ci : bool) (r : re) (pos : nat)
  (s : str) : list (mobj * str) :=
  match fuel with
  | O => []
  | S fuel' =>
      match rmatch ci r pos s [] (fun p rest cs => Some (p, rest, cs)) with
      | Some (p, rest, cs) =>
          (MObj pos p cs, firstn (p - pos) s) ::
          (if p =? pos
           then match s with
                | [] => []
                | _ :: s' => finditer_from fuel' ci r (S pos) s'
                end
           else finditer_from fuel' ci r p rest)
      | None =>
          match s with
          | [] => []
          | _ :: s' => finditer_from fuel' ci r (S pos) s'
          end
      end
  end.

Definition finditer (ci : bool) (r : re) (s : str) : list (mobj * str) :=
  finditer_from (S (List.length s)) ci r 0 s.

End Re.

(** ** [delphin/tsdb.py] *)

Module Tsdb.
Import PyStr Re.

(** *** Constants *)

Definition SCHEMA_FILENAME : str := lit "relations".
Definition FIELD_DELIMITER : ascii := "@"%char.

Definition TSDB_CODED_ATTRIBUTES : list (str * str) :=
  [ (lit "i-wf", lit "1");
    (lit "i-difficulty", lit "1");
    (lit "polarity", lit "-1") ].

(** [_MONTHS], the half from numbers to names ... *)
Definition _MONTHS_name : list (Z * str) :=
  [ (1, lit "jan"); (2, lit "feb"); (3, lit "mar"); (4, lit "apr");
    (5, lit "may"); (6, lit "jun"); (7, lit "jul"); (8, lit "aug");
    (9, lit "sep"); (10, lit "oct"); (11, lit "nov"); (12, lit "dec") ]%Z.

(** ... and the half from names to numbers. *)
Definition _MONTHS_number : list (str * Z) :=
  map (fun p => (snd p, fst p)) _MONTHS_name.

(** *** Exceptions

    The messages are those of the code, but for the paths of files and
    directories, which are left out; of the standard exceptions only
    [KeyError] carries what it was raised with, the key. *)

Inductive exn : Type :=
| TSDBError (msg : str)
| TSDBSchemaError (msg : str)
| AttributeError      (* a method called on [None] *)
| IndexError          (* [pop] from an empty list, an index out of range *)
| KeyError (key : str)
| TypeError
| ValueError
| OSError.            (* a file that cannot be opened or read as asked *)

(** A computation that returns or raises. *)
Definition result (A : Type) : Type := (exn + A)%type.

Definition ret {A : Type} (x : A) : result A := inr x.
Definition raise {A : Type} (e : exn) : result A := inl e.

Definition bind {A B : Type} (m : result A) (f : A -> result B) : result B :=
  match m with
  | inl e => inl e
  | inr x => f x
  end.

Notation "x <- m ;; k" := (bind m (fun x => k))
  (at level 61, m at next level, right associativity).

(** [d.get(key, default)] and [d[key]] on a dictionary kept as the list
    of its items. *)
Fixpoint dict_get {V : Type} (d : list (str * V)) (key : str) (dflt : V) : V :=
  match d with
  | [] => dflt
  | (k, v) :: d' => if seqb k key then v else dict_get d' key dflt
  end.

Fixpoint dict_find {V : Type} (d : list (str * V)) (key : str) : option V :=
  match d with
  | [] => None
  | (k, v) :: d' => if seqb k key then Some v else dict_find d' key
  end.

(** *** Fields *)

Record Field : Type := mkField {
  name : str;
  datatype : str;
  flags : list str;
  comment : option str;
  is_key : bool;
  default : str
}.

Definition key_flag (flag : str) : bool :=
  mem flag [lit ":key"; lit ":primary"] || startswith (lit ":foreign") flag.

(** [Field.__init__]; [flags] and [comment] default to [None]. *)
Definition Field_init (name datatype : str) (flags : option (list str))
  (comment : option str) : Field :=
  let flags := match flags with Some fl => fl | None => [] end in
  mkField name datatype flags comment
    (existsb key_flag flags)
    (dict_get TSDB_CODED_ATTRIBUTES name
       (if seqb datatype (lit ":integer") then lit "-1" else [])).

(** The truth value of an optional text: neither [None] nor empty. *)
Definition truthy (o : option str) : bool :=
  match o with
  | Some (_ :: _) => true
  | _ => false
  end.

(** [Field.__str__] *)
Definition Field_str (f : Field) : str :=
  let parts := [name f; datatype f] ++ flags f in
  let s := lit "  " ++ join [SPACE] parts in
  match comment f with
  | Some c => if truthy (Some c) then ljust 40 s ++ lit "# " ++ c else s
  | None => s
  end.

(** [Field.__eq__] between two fields. *)
Definition Field_eq (a b : Field) : bool :=
  seqb (name a) (name b) && seqb (datatype a) (datatype b)
  && forallb2 seqb (flags a) (flags b).

Definition Fields := list Field.

(** A schema: a dictionary from table names to fields, in insertion
    order. *)
Definition Schema := list (str * Fields).

(** [make_field_index]: a later field of the same name takes the entry. *)
Fixpoint dict_set {V : Type} (d : list (str * V)) (key : str) (v : V)
  : list (str * V) :=
  match d with
  | [] => [(key, v)]
  | (k, w) :: d' =>
      if seqb k key then (k, v) :: d' else (k, w) :: dict_set d' key v
  end.

Fixpoint make_field_index_from (i : nat) (fields : Fields)
  (d : list (str * nat)) : list (str * nat) :=
  match fields with
  | [] => d
  | f :: fs => make_field_index_from (S i) fs (dict_set d (name f) i)
  end.

Definition make_field_index (fields : Fields) : list (str * nat) :=
  make_field_index_from 0 fields [].

(** The two patterns of [_parse_schema]. *)
Definition table_re : re :=
  seqs [Bol; Grp "table" (Seq Word (Plus Any)); Chr ":"; Eol].

Definition field_re : re :=
  seqs [ Star Space;
         Grp "name" (Plus NonSpace);
         Opt (Grp "2" (Seq (Plus Space) (Grp "flags" (Plus (Not1 "#")))));
         Opt (Grp "4" (seqs [Star Space; Chr "#"; Star Space;
                             Grp "comment" (Star Any); Eol])) ].

(** A group that takes part in every match of its pattern. *)
Definition the (o : option str) : str :=
  match o with
  | Some s => s
  | None => []
  end.

(** [current_fields.append(field)]: [current_fields] is the list held by
    the last pair of [tables]. *)
Fixpoint append_field (tables : list (str * Fields)) (f : Field)
  : list (str * Fields) :=
  match tables with
  | [] => []
  | [(t, fs)] => [(t, fs ++ [f])]
  | p :: rest => p :: append_field rest f
  end.

(** The loop of [_parse_schema] over the lines still to be read. *)
Fixpoint parse_lines (lines : list str) (tables : list (str * Fields))
  (seen : list str) (current_table : str) : result (list (str * Fields)) :=
  match lines with
  | [] => ret tables
  | l :: rest =>
      let line := strip l in
      let table_m := re_match false table_re line in
      let field_m := re_match false field_re line in
      match table_m with
      | Some tm =>
          let table_name := the (group "table" (m_caps tm)) in
          if mem table_name seen
          then raise (TSDBSchemaError
                        (lit "table " ++ table_name ++ lit " redefined"))
          else parse_lines rest (tables ++ [(table_name, [])])
                 (table_name :: seen) table_name
      | None =>
          match field_m, truthy (Some current_table) with
          | Some fm, true =>
              let name := the (group "name" (m_caps fm)) in
              match group "flags" (m_caps fm) with
              | None => raise AttributeError
              | Some fl =>
                  match split_ws fl with
                  | [] => raise IndexError
                  | datatype :: flags =>
                      let comment := group "comment" (m_caps fm) in
                      parse_lines rest
                        (append_field tables
                           (Field_init name datatype (Some flags) comment))
                        seen current_table
                  end
              end
          | _, _ =>
              if negb (seqb line [])
              then raise (TSDBSchemaError
                            (lit "invalid line in schema file: " ++ line))
              else parse_lines rest tables seen current_table
          end
      end
  end.

(** [dict(tables)]: a later pair of the same name replaces the value and
    keeps the place of the first. *)
Definition dict_of_items {V : Type} (items : list (str * V)) : list (str * V) :=
  fold_left (fun d kv => dict_set d (fst kv) (snd kv)) items [].

Definition _parse_schema (s : str) : result Schema :=
  tables <- parse_lines (splitlines s) [] [] [] ;;
  ret (dict_of_items tables).

(** [_format_schema] *)
Definition format_table (entry : str * Fields) : str :=
  fst entry ++ lit ":" ++ [NL] ++ join [NL] (map Field_str (snd entry)).

Definition _format_schema (schema : Schema) : str :=
  join [NL; NL] (map format_table schema).

(** Equality of two schemas as dictionaries: the same keys, and equal
    field lists under each. *)
Definition Fields_eq (a b : Fields) : bool := forallb2 Field_eq a b.

Definition Schema_eq (a b : Schema) : bool :=
  (List.length a =? List.length b)
  && forallb (fun kv => match dict_find b (fst kv) with
                        | Some fs => Fields_eq (snd kv) fs
                        | None => false
                        end) a.

(** *** Data encoding *)

(** [escape] *)
Definition escape (string : str) : str :=
  replace [FIELD_DELIMITER] (lit "\s")
    (replace [NL] (lit "\n")
       (replace (lit "\") (lit "\\") string)).

(** [unescape] *)
Definition unescape (string : str) : str :=
  replace (lit "\s") [FIELD_DELIMITER]
    (replace (lit "\n") [NL]
       (replace (lit "\\") (lit "\") string)).

(** [datetime.datetime], without a time zone. *)
Record datetime : Type := mkDatetime {
  year : Z; month : Z; day : Z;
  hour : Z; minute : Z; second : Z; microsecond : Z
}.

(** The blanks [int] drops around a number: code points 9..13, 32, 133
    and 160, fewer than [str.isspace] knows. *)
Definition is_int_space (c : ascii) : bool :=
  let n := code c in
  ((9 <=? n) && (n <=? 13)) || (n =? 32) || (n =? 133) || (n =? 160).

(** [int(s)] for a text: blanks around it are dropped, a sign may lead,
    single underscores may stand between digits, and there are at most
    [MAX_STR_DIGITS] digits.  [None] stands for the [ValueError]. *)
Fixpoint int_body (prev_digit : bool) (s : str) : option str :=
  match s with
  | [] => if prev_digit then Some [] else None
  | c :: s' =>
      if is_digit c
      then option_map (cons c) (int_body true s')
      else if ceqb c "_"%char && prev_digit
           then match s' with
                | d :: _ => if is_digit d then int_body false s' else None
                | [] => None
                end
           else None
  end.

Definition py_int (s : str) : option Z :=
  let t := rstrip_by is_int_space (lstrip_by is_int_space s) in
  let signed :=
    match t with
    | c :: t' =>
        if ceqb c "-"%char then (true, t')
        else if ceqb c "+"%char then (false, t')
        else (false, t)
    | [] => (false, t)
    end in
  match int_body false (snd signed) with
  | Some digits =>
      if (MAX_STR_DIGITS <? Z.of_nat (List.length digits))%Z then None
      else
        match NilZero.uint_of_string (string_of_list_ascii digits) with
        | Some u =>
            Some (if fst signed then (- Z.of_uint u)%Z else Z.of_uint u)
        | None => None
        end
  | None => None
  end.

(** A number printed with at least [width] digits, zeros first. *)
Definition zpad (width : nat) (z : Z) : str :=
  let s := str_of_Z z in
  repeat "0"%char (width - List.length s) ++ s.

Definition is_leap (y : Z) : bool :=
  ((y mod 4 =? 0) && negb (y mod 100 =? 0) || (y mod 400 =? 0))%Z.

Definition days_in_month (y m : Z) : Z :=
  (if m =? 2 then (if is_leap y then 29 else 28)
   else if (m =? 4) || (m =? 6) || (m =? 9) || (m =? 11) then 30
   else 31)%Z.

(** The checks of the [datetime] constructor. *)
Definition valid_datetime (d : datetime) : bool :=
  ((1 <=? year d) && (year d <=? 9999)
   && (1 <=? month d) && (month d <=? 12)
   && (1 <=? day d) && (day d <=? days_in_month (year d) (month d))
   && (0 <=? hour d) && (hour d <=? 23)
   && (0 <=? minute d) && (minute d <=? 59)
   && (0 <=? second d) && (second d <=? 59)
   && (0 <=? microsecond d) && (microsecond d <=? 999999))%Z.

Definition range (lo hi : ascii) : re :=
  Cls (fun c => (code lo <=? code c) && (code c <=? code hi)).

(** The pattern the library builds for the format
    ['%Y-%m-%d %H:%M:%S']. *)
Definition strptime_re : re :=
  seqs [ Grp "Y" (Times Digit 4 4); Chr "-";
         Grp "m" (alts [ Seq (Chr "1") (range "0" "2");
                         Seq (Chr "0") (range "1" "9");
                         range "1" "9" ]);
         Chr "-";
         Grp "d" (alts [ Seq (Chr "3") (range "0" "1");
                         Seq (range "1" "2") Digit;
                         Seq (Chr "0") (range "1" "9");
                         range "1" "9";
                         Seq (Chr " ") (range "1" "9") ]);
         Plus Space;
         Grp "H" (alts [ Seq (Chr "2") (range "0" "3");
                         Seq (range "0" "1") Digit;
                         Digit ]);
         Chr ":";
         Grp "M" (alts [ Seq (range "0" "5") Digit; Digit ]);
         Chr ":";
         Grp "S" (alts [ Seq (Chr "6") (range "0" "1");
                         Seq (range "0" "5") Digit;
                         Digit ]) ].

Definition int_group (name : string) (cs : caps) : Z :=
  match py_int (the (group name cs)) with
  | Some z => z
  | None => 0%Z
  end.

(** [datetime.strptime(s, '%Y-%m-%d %H:%M:%S')]: the whole text has to
    match, and the fields have to make a date. *)
Definition strptime (s : str) : result datetime :=
  match re_match true strptime_re s with
  | None => raise ValueError
  | Some m =>
      if negb (m_end m =? List.length s) then raise ValueError
      else
        let cs := m_caps m in
        let d := mkDatetime (int_group "Y" cs) (int_group "m" cs)
                   (int_group "d" cs) (int_group "H" cs)
                   (int_group "M" cs) (int_group "S" cs) 0 in
        if valid_datetime d then ret d else raise ValueError
  end.

(** The patterns of [_parse_datetime]. *)
Definition now_re : re :=
  Seq (Opt (Chr ":")) (Grp "1" (Alt (Lit "today") (Lit "now"))).

Definition time_re : re :=
  Opt (seqs [ Star Space; Opt (Chr "(");
              Grp "H" (Times Digit 2 2); Chr ":";
              Grp "M" (Times Digit 2 2);
              Opt (Seq (Chr ":") (Grp "S" (Times Digit 2 2)));
              Opt (Chr ")") ]).

Definition month_re : re := Alt (Times Digit 1 2) (Times Word 3 3).

Definition ymd_re : re :=
  seqs [ Grp "y" (Times Digit 4 4); Chr "-";
         Grp "m" month_re;
         Opt (Seq (Chr "-") (Grp "d" (Times Digit 1 2)));
         time_re ].

Definition dmy_re : re :=
  seqs [ Opt (Seq (Grp "d" (Times Digit 1 2)) (Chr "-"));
         Grp "m" month_re; Chr "-";
         Grp "y" (Seq (Times Digit 2 2) (Opt (Times Digit 2 2)));
         time_re ].

(** [mo.group(name) or dflt] *)
Definition group_or (name : string) (cs : caps) (dflt : str) : str :=
  match group name cs with
  | Some (c :: s) => c :: s
  | _ => dflt
  end.

(** [_date_fix] *)
Definition _date_fix (cs : caps) : result str :=
  let y := the (group "y" cs) in
  let y :=
    if List.length y =? 2
    then (match py_int y with
          | Some n => if (93 <=? n)%Z then lit "19" else lit "20"
          | None => lit "20"
          end) ++ y
    else y in
  let m := the (group "m" cs) in
  m <- (if List.length m =? 3
        then match dict_find _MONTHS_number (lower m) with
             | Some n => ret (str_of_Z n)
             | None => raise (KeyError (lower m))
             end
        else ret m) ;;
  let d := group_or "d" cs (lit "01") in
  let H := group_or "H" cs (lit "00") in
  let M := group_or "M" cs (lit "00") in
  let S := group_or "S" cs (lit "00") in
  ret (y ++ lit "-" ++ m ++ lit "-" ++ d ++ lit " "
         ++ H ++ lit ":" ++ M ++ lit ":" ++ S).

Section Codec.

(** Python's [float]: its values, [float(text)] ([None] for the
    [ValueError]) and [str(x)]; and the clock behind [datetime.now()]. *)
Variable F : Type.
Variable float_of_str : str -> option F.
Variable str_of_float : F -> str.
Variable now : datetime.

(** A column value. *)
Inductive Value : Type :=
| VNone
| VInt (z : Z)
| VFloat (x : F)
| VStr (s : str)
| VDate (d : datetime).

Definition Record := list Value.

(** [_parse_datetime] *)
Definition _parse_datetime (s : str) : result datetime :=
  match re_match false now_re s with
  | Some _ => ret now
  | None =>
      let m :=
        match re_match false ymd_re s with
        | Some m => Some m
        | None => re_match false dmy_re s
        end in
      s <- match m with
           | Some m => _date_fix (m_caps m)
           | None => ret s
           end ;;
      strptime s
  end.

(** [cast] *)
Definition cast (datatype : str) (raw_value : option str) : result Value :=
  match raw_value with
  | None => ret VNone
  | Some [] => ret VNone
  | Some raw =>
      if seqb datatype (lit ":integer") then
        match py_int raw with
        | Some z => ret (VInt z)
        | None => raise ValueError
        end
      else if seqb datatype (lit ":float") then
        match float_of_str raw with
        | Some x => ret (VFloat x)
        | None => raise ValueError
        end
      else if seqb datatype (lit ":date") then
        d <- _parse_datetime raw ;; ret (VDate d)
      else if seqb datatype (lit ":string") then ret (VStr raw)
      else raise (TSDBError (lit "invalid datatype: " ++ datatype))
  end.

(** [str(d)] for a [datetime]. *)
Definition str_of_datetime (d : datetime) : str :=
  zpad 4 (year d) ++ lit "-" ++ zpad 2 (month d) ++ lit "-" ++ zpad 2 (day d)
  ++ lit " " ++ zpad 2 (hour d) ++ lit ":" ++ zpad 2 (minute d)
  ++ lit ":" ++ zpad 2 (second d)
  ++ (if (microsecond d =? 0)%Z then []
      else lit "." ++ zpad 6 (microsecond d)).

(** [str(value)] *)
Definition str_of_value (v : Value) : str :=
  match v with
  | VNone => lit "None"
  | VInt z => str_of_Z z
  | VFloat x => str_of_float x
  | VStr s => s
  | VDate d => str_of_datetime d
  end.

(** [_MONTHS[value.month]]; a [datetime]'s month is one of 1..12. *)
Definition month_name (m : Z) : str :=
  match find (fun p => (fst p =? m)%Z) _MONTHS_name with
  | Some p => snd p
  | None => []
  end.

(** [format]; [%Y] prints the year as the C library does, without
    padding. *)
Definition format (datatype : str) (value : Value) (default : option str)
  : str :=
  match value with
  | VNone =>
      match default with
      | None => if seqb datatype (lit ":integer") then lit "-1" else []
      | Some d => d
      end
  | VDate d =>
      if seqb datatype (lit ":date") then
        str_of_Z (day d) ++ lit "-" ++ month_name (month d) ++ lit "-"
        ++ str_of_Z (year d)
        ++ (if (hour d =? 0)%Z && (minute d =? 0)%Z && (second d =? 0)%Z
            then []
            else lit " " ++ zpad 2 (hour d) ++ lit ":" ++ zpad 2 (minute d)
                 ++ lit ":" ++ zpad 2 (second d))
      else str_of_value value
  | _ => str_of_value value
  end.

(** [_mismatched_counts] *)
Definition _mismatched_counts {A : Type} (columns fields : nat) : result A :=
  raise (TSDBError (lit "number of columns (" ++ str_of_Z (Z.of_nat columns)
                      ++ lit ") != number of fields ("
                      ++ str_of_Z (Z.of_nat fields) ++ lit ")")).

(** A sequence of computations run in order, [tuple(... for ...)]. *)
Fixpoint sequence {A : Type} (ms : list (result A)) : result (list A) :=
  match ms with
  | [] => ret []
  | m :: ms' => x <- m ;; xs <- sequence ms' ;; ret (x :: xs)
  end.

(** The columns of a line, before any cast: [None] for an empty one. *)
Definition raw_values (line : str) : list (option str) :=
  map (fun col => match col with
                  | [] => None
                  | _ => Some (unescape col)
                  end)
    (split_on FIELD_DELIMITER (rstrip_nl line)).

Definition raw_value (o : option str) : Value :=
  match o with
  | None => VNone
  | Some s => VStr s
  end.

(** The truth value of the [fields] argument: given and not empty. *)
Definition given (fields : option Fields) : option Fields :=
  match fields with
  | Some (f :: fs) => Some (f :: fs)
  | _ => None
  end.

(** [decode]; [fields] defaults to [None]. *)
Definition decode (line : str) (fields : option Fields) : result Record :=
  let raw := raw_values line in
  match given fields with
  | Some fields =>
      if negb (List.length raw =? List.length fields)
      then _mismatched_counts (List.length raw) (List.length fields)
      else sequence (map (fun cf => cast (datatype (snd cf)) (fst cf))
                       (combine raw fields))
  | None => ret (map raw_value raw)
  end.

(** [encode]; [fields] defaults to [None]. *)
Definition encode (values : Record) (fields : option Fields) : result str :=
  raw <- match given fields with
         | Some fields =>
             if negb (List.length values =? List.length fields)
             then _mismatched_counts (List.length values) (List.length fields)
             else ret (map (fun fv => format (datatype (fst fv)) (snd fv)
                                        (Some (default (fst fv))))
                         (combine fields values))
         | None =>
             ret (map (fun v => match v with
                                | VNone => []
                                | _ => str_of_value v
                                end) values)
         end ;;
  ret (join [FIELD_DELIMITER] (map escape raw)).

(** [make_record] *)
Definition make_record (colmap : list (str * Value)) (fields : Fields)
  : Record :=
  map (fun f => dict_get colmap (name f) VNone) fields.

End Codec.

Arguments VNone {F}.
Arguments VInt {F} z.
Arguments VStr {F} s.
Arguments VDate {F} d.
Arguments VFloat {F} x.

(** *** Files

    The two files a table may have in its directory, plain ([tx_path],
    the name without suffix) and compressed ([gz_path], with [.gz]).  A
    file is the sequence of what was written to it: plain bytes, or
    gzip members (an opened gzip stream writes one member when it is
    closed, even for no data). *)

Inductive segment : Type :=
| Plain (data : str)
| Gzip (data : str).

Inductive node : Type :=
| NFile (segments : list segment) (mtime : Z)
| NDir (mtime : Z).

Record tablefiles : Type := mkFiles {
  tx : option node;
  gz : option node
}.

Definition is_file (n : option node) : bool :=
  match n with
  | Some (NFile _ _) => true
  | _ => false
  end.

Definition exists_ (n : option node) : bool :=
  match n with
  | Some _ => true
  | None => false
  end.

Definition st_mtime (n : option node) : Z :=
  match n with
  | Some (NFile _ t) => t
  | Some (NDir t) => t
  | None => 0%Z
  end.



(** [_get_paths]: which of the two files is the current one. *)
Definition use_gz (st : tablefiles) : bool :=
  is_file (gz st)
  && (negb (exists_ (tx st)) || (st_mtime (tx st) <? st_mtime (gz st))%Z).

(** The path a call settles on. *)
Inductive which : Type := TxPath | GzPath.

Definition at_path (st : tablefiles) (p : which) : option node :=
  match p with
  | TxPath => tx st
  | GzPath => gz st
  end.


(** [get_path]; the message of the error is given without the path
    that the code writes into it. *)
Definition get_path (st : tablefiles) : result which :=
  let tbl_path := if use_gz st then GzPath else TxPath in
  if negb (is_file (at_path st tbl_path))
  then raise (TSDBError (lit "File does not exist"))
  else ret tbl_path.



Section Files.

Variable F : Type.
Variable float_of_str : str -> option F.
Variable str_of_float : F -> str.
Variable now : datetime.



(** *** Relations *)

(** The lines a text stream yields, each with its ['\n']; the stream
    reads CR and CR LF as ['\n']. *)
Fixpoint text_lines_from (cur : str) (s : str) : list str :=
  match s with
  | [] => match cur with [] => [] | _ => [rev cur] end
  | c :: s' =>
      if ceqb c NL then rev (NL :: cur) :: text_lines_from [] s'
      else if ceqb c CR then
        rev (NL :: cur) ::
        match s' with
        | d :: s'' =>
            if ceqb d NL then text_lines_from [] s''
            else text_lines_from [] s'
        | [] => []
        end
      else text_lines_from (c :: cur) s'
  end.

Definition text_lines (s : str) : list str := text_lines_from [] s.

(** What reading a file gives: the plain file as it is, the compressed
    file through gzip, which refuses bytes that are no gzip member. *)
Fixpoint read_plain (segs : list segment) : result str :=
  match segs with
  | [] => ret []
  | Plain d :: rest => r <- read_plain rest ;; ret (d ++ r)
  | Gzip _ :: _ => raise ValueError   (* compressed bytes are no text *)
  end.

Fixpoint read_gzip (segs : list segment) : result str :=
  match segs with
  | [] => ret []
  | Gzip d :: rest => r <- read_gzip rest ;; ret (d ++ r)
  | Plain [] :: rest => read_gzip rest
  | Plain (_ :: _) :: _ => raise OSError
  end.

(** [open]: the lines of the current file of the table, read to the
    end.  The code hands out a stream: of a file that cannot be read
    to its end it yields the lines before the fault, the model none. *)
Definition open (st : tablefiles) : result (list str) :=
  path <- get_path st ;;
  match at_path st path with
  | Some (NFile segs _) =>
      data <- match path with
              | GzPath => read_gzip segs
              | TxPath => read_plain segs
              end ;;
      ret (text_lines data)
  | _ => raise OSError
  end.

Record Relation : Type := mkRelation {
  rel_name : str;
  rel_fields : Fields;
  _field_index : list (str * nat)
}.

(** [Relation.__init__] *)
Definition Relation_init (name : str) (fields : Fields) : Relation :=
  mkRelation name fields (make_field_index fields).

(** A generator run to its end: what it yielded, and the exception that
    ended it, if one did. *)
Definition generator (A : Type) : Type := (list A * option exn)%type.

(** [Relation.__iter__] *)
Definition Relation_iter (st : tablefiles) (self : Relation)
  : generator (Record F) :=
  match open st with
  | inl e => ([], Some e)
  | inr lines =>
      (* [decode(line)] without fields raises nothing *)
      (flat_map (fun line =>
                   match decode F float_of_str now line None with
                   | inr r => [r]
                   | inl _ => []
                   end) lines, None)
  end.

(** [Relation.column_index] *)
Definition column_index (self : Relation) (name : str) : result nat :=
  match dict_find (_field_index self) name with
  | Some i => ret i
  | None => raise (KeyError name)
  end.

(** [tuple(record[idx] for idx in indices)] *)
Definition project (record : Record F) (indices : list nat)
  : result (Record F) :=
  sequence (map (fun idx => match nth_error record idx with
                            | Some v => ret v
                            | None => raise IndexError
                            end) indices).

(** The records projected one after the other, up to the first that
    fails. *)
Fixpoint project_all (records : list (Record F)) (indices : list nat)
  : generator (Record F) :=
  match records with
  | [] => ([], None)
  | r :: rest =>
      match project r indices with
      | inl e => ([], Some e)
      | inr r' =>
          let (ys, e) := project_all rest indices in (r' :: ys, e)
      end
  end.

(** [Relation.select] *)
Definition select (st : tablefiles) (self : Relation) (names : list str)
  : generator (Record F) :=
  match names with
  | [] => Relation_iter st self
  | _ =>
      match sequence
              (map (fun name =>
                      match column_index self name with
                      | inr i => ret i
                      | inl _ => raise (TSDBError (lit "no such field: " ++ name))
                      end) names) with
      | inl e => ([], Some e)
      | inr indices =>
          match Relation_iter st self with
          | (records, Some e) =>
              (* the stream failed before a record was read *)
              (fst (project_all records indices), Some e)
          | (records, None) => project_all records indices
          end
      end
  end.

End Files.

(** *** Schema files and databases

    What a path holds, as far as the schema functions look: nothing, a
    file with its text, or a directory, whose [relations] entry is
    absent, a file or a directory. *)

Inductive entry : Type :=
| EFile (text : str)
| EDir.

Inductive place : Type :=
| Nowhere
| AtFile (text : str)
| AtDir (relations : option entry).

(** [Path.read_text()]: the text of the file, CR and CR LF read as
    ['\n']. *)
Fixpoint read_text (s : str) : str :=
  match s with
  | [] => []
  | c :: s' =>
      if ceqb c CR
      then NL :: match s' with
                 | d :: s'' => if ceqb d NL then read_text s'' else read_text s'
                 | [] => []
                 end
      else c :: read_text s'
  end.

(** [read_schema] *)
Definition read_schema (path : place) : result Schema :=
  match path with
  | AtDir (Some (EFile text)) => _parse_schema (read_text text)
  | AtFile text => _parse_schema (read_text text)
  | _ => raise (TSDBSchemaError (lit "no valid schema file"))
  end.

(** [write_schema]: what the path holds afterwards. *)
Definition write_schema (path : place) (schema : Schema) : result place :=
  let text := _format_schema schema ++ [NL] in
  match path with
  | AtDir (Some EDir) => raise OSError
  | AtDir _ => ret (AtDir (Some (EFile text)))
  | _ => ret (AtFile text)
  end.

(** [is_database_directory] *)
Definition is_database_directory (path : place) : bool :=
  match path with
  | AtDir (Some (EFile _)) => true
  | _ => false
  end.

Record Database : Type := mkDatabase {
  db_path : place;
  db_schema : Schema
}.

(** [Database.__init__] *)
Definition Database_init (path : place) : result Database :=
  if negb (is_database_directory path)
  then raise (TSDBError (lit "not a valid TSDB database"))
  else schema <- read_schema path ;; ret (mkDatabase path schema).

(** [Database.__getitem__] *)
Definition Database_getitem (self : Database) (name : str) : result Relation :=
  match dict_find (db_schema self) name with
  | None => raise (TSDBError (lit "relation not defined in schema: " ++ name))
  | Some fields => ret (Relation_init name fields)
  end.

(** [_remake_records]: the records of the relation, each laid out anew
    for [fields]; [relation_fields] are the relation's own fields. *)
Definition _remake_records {F : Type} (relation_fields : Fields)
  (records : generator (Record F)) (fields : Fields)
  : generator (Record F) :=
  let field_names := map name relation_fields in
  (map (fun record =>
          let colmap := dict_of_items (combine field_names record) in
          make_record F colmap fields)
       (fst records),
   snd records).

End Tsdb.

(** ** [delphin/tsql.py] *)

Module Tsql.
Import PyStr Re.

Inductive exn : Type :=
| TSQLSyntaxError (msg : str) (lineno : nat) (text : option str)
| StopIteration       (* the token stream has run out *)
| TypeError           (* [None] used as a sequence *)
| ValueError          (* a sequence of the wrong length unpacked *)
| IndexError          (* an index past the end of a sequence *)
| NameError           (* a local variable read before it is bound *)
| KeyError (key : str)
| DateError           (* [parse_datetime] refused a literal *)
| JoinError.          (* [itsdb.join] refused two tables *)

Definition result (A : Type) : Type := (exn + A)%type.

Definition ret {A : Type} (x : A) : result A := inr x.
Definition raise {A : Type} (e : exn) : result A := inl e.

Definition bind {A B : Type} (m : result A) (f : A -> result B) : result B :=
  match m with
  | inl e => inl e
  | inr x => f x
  end.

Notation "x <- m ;; k" := (bind m (fun x => k))
  (at level 61, m at next level, right associativity).

(** *** The lexer *)

Definition DQUOTE : ascii := "034"%char.
Definition SQUOTE : ascii := "039"%char.

Definition _keywords : list string :=
  ["info"; "set"; "retrieve"; "select"; "insert";
   "from"; "where"; "report"; "*"; "."]%string.

Definition _operators : list string :=
  ["=="; "="; "!="; "~"; "!~"; "<="; "<"; ">="; ">";
   "&&"; "&"; "and"; "||"; "|"; "or"; "!"; "not"]%string.

Definition lex_d : re := Times Digit 1 2.
Definition lex_m : re :=
  alts (Times Digit 1 2 ::
        map Lit ["jan"; "feb"; "mar"; "apr"; "may"; "jun";
                 "jul"; "aug"; "sep"; "oct"; "nov"; "dec"]%string).
Definition lex_yy : re := Seq (Opt (Times Digit 2 2)) (Times Digit 2 2).
Definition lex_yyyy : re := Times Digit 4 4.
Definition lex_t : re :=
  seqs [Star Space; Chr "("; Times Digit 2 2; Chr ":"; Times Digit 2 2;
        Opt (Seq (Chr ":") (Times Digit 2 2)); Chr ")"].
Definition lex_tt : re :=
  seqs [Plus Space; Times Digit 2 2; Chr ":"; Times Digit 2 2;
        Seq (Chr ":") (Times Digit 2 2)].
Definition lex_id : re :=
  Seq (Cls (fun c => is_upper_ascii c || is_lower_ascii c))
      (Star (Cls (fun c => ceqb c "-" || ceqb c "_" || is_upper_ascii c
                           || is_lower_ascii c || is_digit c))).

(** The body of a string quoted by [q]: characters other than [q] and
    the backslash, and backslashes each with the character after it. *)
Definition quoted_body (q : ascii) : re :=
  let plain := Cls (fun c => negb (ceqb c q || ceqb c BACKSLASH)) in
  Seq (Star plain) (Star (seqs [Chr BACKSLASH; Any; Star plain])).

(** [_tsql_lex_re]; the groups are named by their numbers. *)
Definition _tsql_lex_re : re :=
  alts
    [ Grp "1" (alts (map Lit _keywords));
      Grp "2" (alts (map Lit _operators));
      Grp "3" (Alt (Chr "(") (Chr ")"));
      seqs [Chr DQUOTE; Grp "4" (quoted_body DQUOTE); Chr DQUOTE];
      seqs [Chr SQUOTE; Grp "5" (quoted_body SQUOTE); Chr SQUOTE];
      Grp "6" (seqs [lex_yyyy; Chr "-"; lex_m; Opt (Seq (Chr "-") lex_d);
                     Opt (Alt lex_t lex_tt)]);
      Grp "7" (seqs [Opt (Seq lex_d (Chr "-")); lex_m; Chr "-"; lex_yy;
                     Opt (Alt lex_t lex_tt)]);
      Grp "8" (Alt (Lit ":today") (Lit "now"));
      Grp "9" (Seq (Opt (Alt (Chr "+") (Chr "-"))) (Plus Digit));
      Grp "10" (seqs [Opt (Seq lex_id (Chr ":")); lex_id;
                      Star (seqs [Chr "@"; Opt (Seq lex_id (Chr ":"));
                                  lex_id])]);
      Grp "11" (Cls (fun c => negb (is_space c))) ].

(** [m.lastindex] as a number. *)
Definition gid_of (name : string) : nat :=
  match NilZero.uint_of_string name with
  | Some u => Nat.of_uint u
  | None => 0
  end.

(** A token: [(gid, token, line_number)]. *)
Definition token : Type := (nat * str * nat)%type.

(** The tokens of one line. *)
Fixpoint lex_line (lineno : nat) (line : str) (ms : list (mobj * str))
  : result (list token) :=
  match ms with
  | [] => ret []
  | (m, _) :: ms' =>
      match m_caps m with
      | [] => lex_line lineno line ms'
      | (g, tok) :: _ =>
          let gid := gid_of g in
          if gid =? 11
          then raise (TSQLSyntaxError (lit "unexpected input") lineno (Some line))
          else toks <- lex_line lineno line ms' ;;
               ret ((gid, tok, lineno) :: toks)
      end
  end.

Fixpoint lex_lines (lineno : nat) (lines : list str) : result (list token) :=
  match lines with
  | [] => ret []
  | line :: rest =>
      toks <- lex_line lineno line (finditer true _tsql_lex_re line) ;;
      more <- lex_lines (S lineno) rest ;;
      ret (toks ++ more)
  end.

(** [_lex], run to its end: either all the tokens, or the error raised
    at the first unexpected character. *)
Definition _lex (s : str) : result (list token) :=
  lex_lines 1 (splitlines (s ++ lit ".")).

(** *** Parsed values

    The parser builds its results from Python tuples, texts, numbers,
    dates and [None]; a condition is such a value. *)

#[warnings="-register-all"]
Inductive pyval : Type :=
| PNone
| PStr (s : str)
| PInt (z : Z)
| PDate (d : Tsdb.datetime)
| PTuple (items : list pyval).

(** [LookaheadIterator.peek] and [.next] over the tokens still to be
    read; both raise [StopIteration] when none is left. *)
Definition peek (ts : list token) : result token :=
  match ts with
  | t :: _ => ret t
  | [] => raise StopIteration
  end.

Definition next (ts : list token) : result (token * list token) :=
  match ts with
  | t :: ts' => ret (t, ts')
  | [] => raise StopIteration
  end.

(** [_expect] *)
Definition _expect (expected : bool) (tok : str) (lineno : nat) (msg : string)
  : result unit :=
  if expected then ret tt
  else raise (TSQLSyntaxError (lit "expected " ++ lit msg) lineno (Some tok)).

Definition tok_in (tok : str) (xs : list string) : bool :=
  mem tok (map lit xs).

Definition gid_in (gid : nat) (xs : list nat) : bool :=
  existsb (Nat.eqb gid) xs.

(** What the loops of the two condition parsers return. *)
Definition finish (tag : string) (conds : list pyval) : pyval :=
  match conds with
  | [] => PNone
  | [c] => c
  | _ => PTuple [PStr (lit tag); PTuple conds]
  end.

(** A parser that ran out of [fuel] gives [None]; otherwise what the
    code returns or raises. *)
Definition run (A : Type) : Type := option (result A).

Definition lift {A : Type} (m : result A) : run A := Some m.

Definition rbind {A B : Type} (m : run A) (f : A -> run B) : run B :=
  match m with
  | None => None
  | Some (inl e) => Some (inl e)
  | Some (inr x) => f x
  end.

Notation "x <-- m ;; k" := (rbind m (fun x => k))
  (at level 61, m at next level, right associativity).

Section Parser.

(** [delphin.util.parse_datetime]; [None] when it raises. *)
Variable parse_datetime : str -> option Tsdb.datetime.

(** [_parse_condition_statement] *)
Definition _parse_condition_statement (ts : list token)
  : result (pyval * list token) :=
  t1 <- next ts ;;
  let '((gid, column, lineno), ts) := t1 in
  _ <- _expect (gid =? 10) column lineno "a column name" ;;
  t2 <- next ts ;;
  let '((gid, op, lineno), ts) := t2 in
  _ <- _expect (gid =? 2) op lineno "an operator" ;;
  let op := if seqb op (lit "=") then lit "==" else op in
  t3 <- next ts ;;
  let '((gid, value, lineno), ts) := t3 in
  if tok_in op ["~"; "!~"]%string && negb (gid_in gid [4; 5])
  then raise (TSQLSyntaxError
                (lit "the '" ++ op ++ lit "' operator is only valid with strings")
                lineno (Some op))
  else if tok_in op ["<"; "<="; ">"; ">="]%string
          && negb (gid_in gid [6; 7; 8; 9])
  then raise (TSQLSyntaxError
                (lit "the '" ++ op
                 ++ lit "' operator is only valid with integers and dates")
                lineno (Some op))
  else
    value <- (if gid_in gid [6; 7; 8]
              then match parse_datetime value with
                   | Some d => ret (PDate d)
                   | None => raise DateError
                   end
              else if gid =? 9
              then match Tsdb.py_int value with
                   | Some z => ret (PInt z)
                   | None => raise ValueError
                   end
              else ret (PStr value)) ;;
    ret (PTuple [PStr op; PTuple [PStr column; value]], ts).

(** [tuple(cond)] *)
Definition to_tuple (cond : pyval) : result pyval :=
  match cond with
  | PTuple items => ret (PTuple items)
  | PStr s => ret (PTuple (map (fun c => PStr [c]) s))
  | _ => raise TypeError
  end.

(** The four mutually recursive condition parsers; the two [while True]
    loops are [disj_loop] and [conj_loop], which carry [conds] and, for
    the conjunction, the token last peeked at. *)
Fixpoint _parse_condition_disjunction (fuel : nat) (ts : list token)
  {struct fuel} : run (pyval * list token) :=
  match fuel with
  | O => None
  | S fuel' => disj_loop fuel' [] ts
  end
with disj_loop (fuel : nat) (conds : list pyval) (ts : list token)
  {struct fuel} : run (pyval * list token) :=
  match fuel with
  | O => None
  | S fuel' =>
      r <-- _parse_condition_conjunction fuel' ts ;;
      let '(cond, ts) := r in
      let conds := match cond with
                   | PNone => conds
                   | _ => conds ++ [cond]
                   end in
      t <-- lift (peek ts) ;;
      let '(_, tok, _) := t in
      if tok_in tok ["|"; "||"; "or"]%string
      then
        n <-- lift (next ts) ;;
        let ts := snd n in
        _ <-- lift (peek ts) ;;
        disj_loop fuel' conds ts
      else lift (ret (finish "or" conds, ts))
  end
with _parse_condition_conjunction (fuel : nat) (ts : list token)
  {struct fuel} : run (pyval * list token) :=
  match fuel with
  | O => None
  | S fuel' =>
      t <-- lift (peek ts) ;;
      let '(nextgid, nexttoken, nextlineno) := t in
      conj_loop fuel' [] nextgid nexttoken nextlineno ts
  end
with conj_loop (fuel : nat) (conds : list pyval)
  (nextgid : nat) (nexttoken : str) (nextlineno : nat) (ts : list token)
  {struct fuel} : run (pyval * list token) :=
  match fuel with
  | O => None
  | S fuel' =>
      let after (r : pyval * list token) : run (pyval * list token) :=
        let '(cond, ts) := r in
        let conds := conds ++ [cond] in
        t <-- lift (peek ts) ;;
        let '(_, tok, _) := t in
        if tok_in (lower tok) ["&"; "&&"; "and"]%string
        then
          n <-- lift (next ts) ;;
          let ts := snd n in
          t <-- lift (peek ts) ;;
          let '(nextgid, nexttoken, nextlineno) := t in
          conj_loop fuel' conds nextgid nexttoken nextlineno ts
        else lift (ret (finish "and" conds, ts)) in
      if (nextgid =? 2) && tok_in (lower nexttoken) ["!"; "not"]%string
      then r <-- _parse_condition_negation fuel' ts ;; after r
      else if (nextgid =? 3) && seqb nexttoken (lit "(")
      then r <-- _parse_condition_group fuel' ts ;; after r
      else if (nextgid =? 3) && seqb nexttoken (lit ")")
      then lift (ret (finish "and" conds, ts))
      else if nextgid =? 10
      then r <-- lift (_parse_condition_statement ts) ;; after r
      else lift (raise (TSQLSyntaxError
                          (lit "expected '!', 'not', '(', or a column name")
                          nextlineno (Some nexttoken)))
  end
with _parse_condition_negation (fuel : nat) (ts : list token)
  {struct fuel} : run (pyval * list token) :=
  match fuel with
  | O => None
  | S fuel' =>
      n <-- lift (next ts) ;;
      let '((gid, tok, lineno), ts) := n in
      _ <-- lift (_expect ((gid =? 2) && tok_in tok ["!"; "not"]%string)
                    tok lineno "'!' or 'not'") ;;
      r <-- _parse_condition_disjunction fuel' ts ;;
      let '(cond, ts) := r in
      lift (ret (PTuple [PStr (lit "not"); cond], ts))
  end
with _parse_condition_group (fuel : nat) (ts : list token)
  {struct fuel} : run (pyval * list token) :=
  match fuel with
  | O => None
  | S fuel' =>
      n <-- lift (next ts) ;;
      let '((gid, tok, lineno), ts) := n in
      _ <-- lift (_expect ((gid =? 3) && seqb tok (lit "(")) tok lineno "'('") ;;
      r <-- _parse_condition_disjunction fuel' ts ;;
      let '(cond, ts) := r in
      n <-- lift (next ts) ;;
      let '((gid, tok, lineno), ts) := n in
      _ <-- lift (_expect ((gid =? 3) && seqb tok (lit ")")) tok lineno "')'") ;;
      c <-- lift (to_tuple cond) ;;
      lift (ret (c, ts))
  end.

(** [_prepare_columns] *)
Fixpoint prepare_parts (table : str) (parts : list str) : list str :=
  match parts with
  | [] => []
  | part :: rest =>
      let '(tblname, colname) := rpartition2 ":" part in
      let table := match tblname with
                   | [] => table
                   | _ => tblname ++ lit ":"
                   end in
      (table ++ colname) :: prepare_parts table rest
  end.

Definition _prepare_columns (cols : list str) : list str :=
  flat_map (fun col => prepare_parts [] (split_on "@" col)) cols.

(** The projection of a query: ['*'] or the prepared columns. *)
Inductive projection : Type :=
| Star_
| Columns (cols : list str).

(** The tokens of group 10 at the head of the stream, and the rest;
    [peek] beyond the last token raises. *)
Fixpoint take_identifiers (ts : list token)
  : result (list str * list token) :=
  match ts with
  | [] => raise StopIteration
  | (gid, tok, lineno) :: ts' =>
      if gid =? 10
      then r <- take_identifiers ts' ;; ret (tok :: fst r, snd r)
      else ret ([], ts)
  end.

(** [_parse_select_projection] *)
Definition _parse_select_projection (ts : list token)
  : result (projection * list token) :=
  n <- next ts ;;
  let '((gid, tok, lineno), ts) := n in
  if seqb tok (lit "*") then ret (Star_, ts)
  else if gid =? 10 then
    r <- take_identifiers ts ;;
    ret (Columns (_prepare_columns (tok :: fst r)), snd r)
  else raise (TSQLSyntaxError (lit "expected '*' or column identifiers")
                lineno (Some tok)).

(** [_parse_select_from] *)
Definition _parse_select_from (ts : list token)
  : result (list str * list token) :=
  t <- peek ts ;;
  let '(_, tok, _) := t in
  if seqb tok (lit "from")
  then n <- next ts ;; take_identifiers (snd n)
  else ret ([], ts).

(** [_parse_select_where] *)
Definition _parse_select_where (fuel : nat) (ts : list token)
  : run (pyval * list token) :=
  t <-- lift (peek ts) ;;
  let '(_, tok, _) := t in
  if seqb tok (lit "where")
  then n <-- lift (next ts) ;; _parse_condition_disjunction fuel (snd n)
  else lift (ret (PNone, ts)).

(** The dictionary [_parse_select] returns; its [querytype] is always
    ['select']. *)
Record query : Type := mkQuery {
  q_projection : projection;
  q_tables : list str;
  q_where : pyval
}.

Definition is_star (p : projection) : bool :=
  match p with
  | Star_ => true
  | Columns _ => false
  end.

Definition is_none (v : pyval) : bool :=
  match v with
  | PNone => true
  | _ => false
  end.

(** [_parse_select] *)
Definition _parse_select (fuel : nat) (ts : list token)
  : run (query * list token) :=
  t <-- lift (peek ts) ;;
  let '(_, tok0, lineno0) := t in
  p <-- lift (_parse_select_projection ts) ;;
  let '(projection, ts) := p in
  f <-- lift (_parse_select_from ts) ;;
  let '(tables, ts) := f in
  w <-- _parse_select_where fuel ts ;;
  let '(condition, ts) := w in
  if is_star projection
     && match tables with [] => true | _ => false end
     && is_none condition
  then lift (raise (TSQLSyntaxError
                      (lit "'select *' requires a 'from' or 'where' statement")
                      lineno0 (Some tok0)))
  else lift (ret (mkQuery projection tables condition, ts)).

(** [_parse_query] *)
Definition _parse_query (fuel : nat) (ts : list token)
  : run (query * list token) :=
  n <-- lift (next ts) ;;
  let '((gid, tok, lineno), ts) := n in
  _ <-- lift (_expect ((gid =? 1)
                       && tok_in tok ["info"; "set"; "retrieve"; "select";
                                      "insert"]%string)
                tok lineno "a query type") ;;
  if negb (tok_in tok ["retrieve"; "select"]%string)
  then lift (raise (TSQLSyntaxError
                      (lit "'" ++ tok ++ lit "' queries are not supported")
                      lineno None))
  else
    r <-- _parse_select fuel ts ;;
    let '(result, ts) := r in
    n <-- lift (next ts) ;;
    let '((gid, tok, lineno), ts) := n in
    _ <-- lift (_expect ((gid =? 2) && seqb tok (lit ".")) tok lineno "'.'") ;;
    lift (ret (result, ts)).

(** The parse that [select(query, ts)] starts with: the lexer run over
    the text, then [_parse_select]. *)
Definition parse_select_text (fuel : nat) (text : str) : run query :=
  toks <-- lift (_lex text) ;;
  r <-- _parse_select fuel toks ;;
  lift (ret (fst r)).

(** The parse behind [query(query, ts)]. *)
Definition parse_query_text (fuel : nat) (text : str) : run query :=
  toks <-- lift (_lex text) ;;
  r <-- _parse_query fuel toks ;;
  lift (ret (fst r)).

End Parser.

(** *** Conditions as predicates on rows *)

Fixpoint str_ltb (a b : str) : bool :=
  match a, b with
  | [], [] => false
  | [], _ :: _ => true
  | _ :: _, [] => false
  | x :: a', y :: b' =>
      (code x <? code y) || ((code x =? code y) && str_ltb a' b')
  end.

Definition datetime_fields (d : Tsdb.datetime) : list Z :=
  [Tsdb.year d; Tsdb.month d; Tsdb.day d; Tsdb.hour d; Tsdb.minute d;
   Tsdb.second d; Tsdb.microsecond d].

Fixpoint zs_ltb (a b : list Z) : bool :=
  match a, b with
  | x :: a', y :: b' => (x <? y)%Z || ((x =? y)%Z && zs_ltb a' b')
  | [], _ :: _ => true
  | _, _ => false
  end.

(** [a == b] on parsed values. *)
Fixpoint py_eqb (a b : pyval) : bool :=
  match a, b with
  | PNone, PNone => true
  | PStr x, PStr y => seqb x y
  | PInt x, PInt y => (x =? y)%Z
  | PDate x, PDate y =>
      forallb2 Z.eqb (datetime_fields x) (datetime_fields y)
  | PTuple xs, PTuple ys =>
      (fix all2 (xs ys : list pyval) : bool :=
         match xs, ys with
         | [], [] => true
         | x :: xs', y :: ys' => py_eqb x y && all2 xs' ys'
         | _, _ => false
         end) xs ys
  | _, _ => false
  end.

(** [a < b]: numbers with numbers, texts with texts, dates with dates;
    anything else is a [TypeError]. *)
Definition py_ltb (a b : pyval) : result bool :=
  match a, b with
  | PInt x, PInt y => ret (x <? y)%Z
  | PStr x, PStr y => ret (str_ltb x y)
  | PDate x, PDate y => ret (zs_ltb (datetime_fields x) (datetime_fields y))
  | _, _ => raise TypeError
  end.

Section Conditions.

(** A row, as [row[col]] reads it, and [re.search(val, x)] as a truth
    value. *)
Variable row : Type.
Variable getitem : row -> pyval -> result pyval.
Variable re_search : pyval -> pyval -> result bool.

Definition predicate : Type := row -> result bool.

Definition p_and (l r : predicate) : predicate :=
  fun rw => b <- l rw ;; if b then r rw else ret false.

Definition p_or (l r : predicate) : predicate :=
  fun rw => b <- l rw ;; if b then ret true else r rw.

Definition p_not (n : predicate) : predicate :=
  fun rw => b <- n rw ;; ret (negb b).

Definition op_is (op : pyval) (o : string) : bool := py_eqb op (PStr (lit o)).

(** The comparison an operator stands for; [None] for an operator the
    chain of tests does not know, which leaves [func] unbound. *)
Definition compare_func (op col val : pyval) : option predicate :=
  if op_is op "~" then Some (fun rw => x <- getitem rw col ;; re_search val x)
  else if op_is op "!~"
  then Some (fun rw => x <- getitem rw col ;; b <- re_search val x ;;
                       ret (negb b))
  else if op_is op "==" then Some (fun rw => x <- getitem rw col ;; ret (py_eqb x val))
  else if op_is op "!="
  then Some (fun rw => x <- getitem rw col ;; ret (negb (py_eqb x val)))
  else if op_is op "<" then Some (fun rw => x <- getitem rw col ;; py_ltb x val)
  else if op_is op "<="
  then Some (fun rw => x <- getitem rw col ;; b <- py_ltb val x ;;
                       ret (negb b))
  else if op_is op ">" then Some (fun rw => x <- getitem rw col ;; py_ltb val x)
  else if op_is op ">="
  then Some (fun rw => x <- getitem rw col ;; b <- py_ltb x val ;;
                       ret (negb b))
  else None.

(** [a, b = v]: a pair, or a text of two characters. *)
Definition unpack2 (v : pyval) : result (pyval * pyval) :=
  match v with
  | PTuple [a; b] => ret (a, b)
  | PTuple _ => raise ValueError
  | PStr [a; b] => ret (PStr [a], PStr [b])
  | PStr _ => raise ValueError
  | _ => raise TypeError
  end.

(** [_process_condition]: the predicate of a condition and the columns
    it reads.  Of an ['and'] or ['or'] node it reads [body[0]] and
    [body[1]]. *)
Fixpoint _process_condition (condition : pyval)
  : result (predicate * list pyval) :=
  match condition with
  | PTuple [op; body] =>
      let binary (combine : predicate -> predicate -> predicate) :=
        match body with
        | PTuple [] => raise IndexError
        | PTuple [l] => _ <- _process_condition l ;; raise IndexError
        | PTuple (l :: r :: _) =>
            lp <- _process_condition l ;;
            rp <- _process_condition r ;;
            ret (combine (fst lp) (fst rp), snd lp ++ snd rp)
        | PStr [] => raise IndexError
        | PStr (_ :: _) => raise ValueError
        | _ => raise TypeError
        end in
      if op_is op "and" then binary p_and
      else if op_is op "or" then binary p_or
      else if op_is op "not" then
        np <- _process_condition body ;;
        ret (p_not (fst np), snd np)
      else
        cv <- unpack2 body ;;
        match compare_func op (fst cv) (snd cv) with
        | Some func => ret (func, [fst cv])
        | None => raise NameError
        end
  | PTuple _ => raise ValueError
  | PStr _ => raise ValueError
  | _ => raise TypeError
  end.

End Conditions.

(** *** Joins *)

(** A step of a join path: a table and one of its key fields. *)
Definition step : Type := (str * str)%type.

Definition step_eqb (a b : step) : bool :=
  seqb (fst a) (fst b) && seqb (snd a) (snd b).

(** [set(xs)] kept in the order of first occurrence. *)
Fixpoint dedup (xs : list str) : list str :=
  match xs with
  | [] => []
  | x :: xs' => x :: filter (fun y => negb (seqb x y)) (dedup xs')
  end.

Section Joins.

(** The tables of [delphin.itsdb]: a table's name, the names of its key
    fields ([table.fields.keys()]), whether it has a column
    ([column in table.fields]), [ts[name]] and [itsdb.join]. *)
Variable Table : Type.
Variable table_name : Table -> str.
Variable table_keys : Table -> list str.
Variable table_has : Table -> str -> bool.
Variable ts_get : str -> result Table.
Variable join : Table -> Table -> str -> result Table.

(** The schema behind [ts.relations]. *)
Variable rels : Tsdb.Schema.

(** Modelled from the spec: [Relations.find(name)] of [delphin.itsdb],
    the tables that declare a field of that name, in schema order. *)
Definition find (fieldname : str) : list str :=
  map fst
    (filter (fun tf => existsb (fun f => seqb (Tsdb.name f) fieldname) (snd tf))
       rels).

(** Modelled from the spec: [rels[table].keys()] of [delphin.itsdb], the
    names of the key fields of a table ([:key], [:primary] or
    [:foreign...]), in field order. *)
Definition keys_of (table : str) : list str :=
  match Tsdb.dict_find rels table with
  | Some fields => map Tsdb.name (filter Tsdb.is_key fields)
  | None => []
  end.

(** The inner loops of [_id_path] for one path that does not end at the
    target: [visited] and [newpaths] after them.  The code walks a
    [set] of tables, in an order that is not fixed; the model walks
    them in the order of the schema. *)
Definition extend_path (path : list step) (laststep : step)
  (visited : list str) (newpaths : list (list step))
  : list str * list (list step) :=
  fold_left
    (fun (acc : list str * list (list step)) table =>
       let '(visited, newpaths) := acc in
       let visited := table :: visited in
       let keys := keys_of table in
       if 1 <? List.length keys
       then (visited,
             fold_left
               (fun newpaths key =>
                  let st := (table, key) in
                  if existsb (step_eqb st) path then newpaths
                  else newpaths ++ [path ++ [st]])
               keys newpaths)
       else (visited, newpaths))
    (filter (fun t => negb (mem t visited)) (dedup (find (snd laststep))))
    (visited, newpaths).

(** The [for path in paths] loop: the path returned, or [visited] and
    [newpaths] at its end. *)
Fixpoint scan_paths (tgtkeys : list str) (paths : list (list step))
  (visited : list str) (newpaths : list (list step))
  : list step + (list str * list (list step)) :=
  match paths with
  | [] => inr (visited, newpaths)
  | path :: rest =>
      let laststep := last path ([], []) in
      if mem (snd laststep) tgtkeys then inl path
      else
        let '(visited, newpaths) := extend_path path laststep visited newpaths in
        scan_paths tgtkeys rest visited newpaths
  end.

(** The [while True] loop of [_id_path]: [Some (Some path)] when a path
    is returned, [Some None] when the loop is left and the function
    returns [None], [None] when [fuel] runs out. *)
Fixpoint id_path_loop (fuel : nat) (tgtkeys : list str)
  (paths : list (list step)) (visited : list str)
  : option (option (list step)) :=
  match fuel with
  | O => None
  | S fuel' =>
      match scan_paths tgtkeys paths visited [] with
      | inl path => Some (Some path)
      | inr (visited, newpaths) =>
          match newpaths with
          | [] => Some None
          | _ => id_path_loop fuel' tgtkeys newpaths visited
          end
      end
  end.

(** [_id_path] *)
Definition _id_path (fuel : nat) (src tgt : Table)
  : option (option (list step)) :=
  let paths := map (fun key => [(table_name src, key)]) (table_keys src) in
  let tgtkeys := table_keys tgt in
  let visited := split_on "+" (table_name src) in
  id_path_loop fuel tgtkeys paths visited.

(** The joins along [path[1:]]. *)
Fixpoint join_along (table : Table) (steps : list step) (how : str)
  : result Table :=
  match steps with
  | [] => ret table
  | (intervening, _) :: rest =>
      t <- ts_get intervening ;;
      table <- join table t how ;;
      join_along table rest how
  end.

(** [_transitive_join]: [path[1:]] of the [None] that [_id_path] returns
    without a path is a [TypeError]. *)
Definition _transitive_join (fuel : nat) (tab1 : option Table)
  (tab2 : Table) (how : str) : run Table :=
  match tab1 with
  | None => lift (ret tab2)
  | Some tab1 =>
      match _id_path fuel tab1 tab2 with
      | None => None
      | Some None => lift (raise TypeError)
      | Some (Some path) =>
          lift (table <- join_along tab1 (tl path) how ;;
                join table tab2 how)
      end
  end.

(** [_select_from] *)
Fixpoint select_from_loop (fuel : nat) (tables : list str)
  (joined : list str) (table : option Table) : run (option Table) :=
  match tables with
  | [] => lift (ret table)
  | tab :: rest =>
      if mem tab joined then select_from_loop fuel rest joined table
      else
        t <-- lift (ts_get tab) ;;
        table <-- _transitive_join fuel table t (lit "inner") ;;
        select_from_loop fuel rest (tab :: joined) (Some table)
  end.

Definition _select_from (fuel : nat) (tables : list str)
  (table : option Table) : run (option Table) :=
  let joined := match table with
                | None => []
                | Some t => split_on "+" (table_name t)
                end in
  select_from_loop fuel tables joined table.

(** [_join_if_missing] *)
Definition _join_if_missing (fuel : nat) (table : option Table) (col : str)
  (how : str) : run (option Table) :=
  let '(tab, column) := rpartition2 ":" col in
  tab <-- lift (match tab with
                | [] => match find column with
                        | t :: _ => ret t
                        | [] => raise (KeyError column)
                        end
                | _ => ret tab
                end) ;;
  if match table with
     | None => true
     | Some t => negb (table_has t column)
     end
  then
    t <-- lift (ts_get tab) ;;
    table <-- _transitive_join fuel table t how ;;
    lift (ret (Some table))
  else lift (ret table).

(** [_select_projection] *)
Fixpoint join_columns (fuel : nat) (cols : list str) (table : option Table)
  : run (option Table) :=
  match cols with
  | [] => lift (ret table)
  | p :: rest =>
      table <-- _join_if_missing fuel table p (lit "inner") ;;
      join_columns fuel rest table
  end.

Definition _select_projection (fuel : nat) (projection : projection)
  (table : option Table) : run (option Table) :=
  match projection with
  | Star_ => lift (ret table)
  | Columns cols => join_columns fuel cols table
  end.

End Joins.

End Tsql.

(** * Facts *)

(** ** Texts *)

Module PyStrFacts.
Import PyStr.

Lemma ceqb_eq (a b : ascii) : ceqb a b = true <-> a = b.
Proof. unfold ceqb. apply Ascii.eqb_eq. Qed.

Lemma ceqb_refl (a : ascii) : ceqb a a = true.
Proof. apply ceqb_eq. reflexivity. Qed.

Lemma ceqb_neq (a b : ascii) : ceqb a b = false <-> a <> b.
Proof. unfold ceqb. apply Ascii.eqb_neq. Qed.

Lemma seqb_eq (a b : str) : seqb a b = true <-> a = b.
Proof.
  revert b. induction a as [|x a IH]; intros [|y b]; simpl; split;
    try congruence; try reflexivity.
  - intros H. apply andb_true_iff in H. destruct H as [H1 H2].
    apply ceqb_eq in H1. apply IH in H2. congruence.
  - intros H. injection H as -> ->. rewrite ceqb_refl.
    apply IH. reflexivity.
Qed.

Lemma seqb_refl (a : str) : seqb a a = true.
Proof. apply seqb_eq. reflexivity. Qed.

Lemma seqb_neq (a b : str) : seqb a b = false <-> a <> b.
Proof.
  split.
  - intros H E. apply seqb_eq in E. congruence.
  - intros H. destruct (seqb a b) eqn:E; [|reflexivity].
    apply seqb_eq in E. contradiction.
Qed.

End PyStrFacts.

(** ** Patterns *)

Module ReFacts.
Import PyStr PyStrFacts Re.

(** The end of every pattern: the match object. *)
Definition K0 : nat -> str -> caps -> option mobj :=
  fun pos _ cs => Some (MObj 0 pos cs).

(** *** Greedy runs of one character class *)

Section Greedy.

Variable A : Type.
Variable ci : bool.
Variable p : ascii -> bool.
Variable k : nat -> str -> caps -> option A.

Let step := rmatch (A:=A) ci (Cls p).

Lemma step_cons (pos : nat) (c : ascii) (s : str) (cs : caps)
  (k' : nat -> str -> caps -> option A) :
  step pos (c :: s) cs k' = if p c then k' (S pos) s cs else None.
Proof. reflexivity. Qed.

Lemma step_nil (pos : nat) (cs : caps) (k' : nat -> str -> caps -> option A) :
  step pos [] cs k' = None.
Proof. reflexivity. Qed.

(** A run of [xs], all in the class, before a rest that the class does
    not continue into: when the rest of the pattern matches after the
    whole run, that is the match. *)
Lemma rep_cls_run (xs rest : str) (n lo pos : nat) (cs : caps) (y : A) :
  Forall (fun c => p c = true) xs ->
  List.length xs <= n -> lo <= List.length xs ->
  k (pos + List.length xs) rest cs = Some y ->
  match rest with c :: _ => p c = false | [] => True end ->
  rep_loop step k n lo pos (xs ++ rest) cs = Some y.
Proof.
  intros Hxs. revert n lo pos.
  induction Hxs as [|c xs Hc Hxs IH]; intros n lo pos Hn Hlo Hk Hrest.
  - cbn [List.length] in *. assert (lo = 0) by lia. subst lo.
    rewrite Nat.add_0_r in Hk. cbn [app].
    destruct n as [|n]; cbn [rep_loop Nat.eqb]; [exact Hk|].
    destruct rest as [|c rest]; [rewrite step_nil; exact Hk|].
    rewrite step_cons, Hrest. exact Hk.
  - cbn [List.length] in *. destruct n as [|n]; [lia|].
    cbn [rep_loop app]. rewrite step_cons, Hc.
    rewrite (IH n (pred lo) (S pos)); [reflexivity|lia|lia| |exact Hrest].
    rewrite <- Hk. f_equal. lia.
Qed.

(** When the rest of the pattern matches nowhere in the text, the
    repetition fails. *)
Lemma rep_cls_none (s : str) (n lo pos : nat) (cs : caps) :
  (forall pre s' pos', s = pre ++ s' -> k pos' s' cs = None) ->
  rep_loop step k n lo pos s cs = None.
Proof.
  revert s lo pos. induction n as [|n IH]; intros s lo pos H.
  - cbn [rep_loop]. destruct (lo =? 0); [|reflexivity].
    apply (H []). reflexivity.
  - cbn [rep_loop].
    assert (X : step pos s cs
                  (fun pos' s' cs' => rep_loop step k n (pred lo) pos' s' cs')
                = None).
    { destruct s as [|c s]; [apply step_nil|].
      rewrite step_cons. destruct (p c); [|reflexivity].
      apply IH. intros pre s' pos' E. apply (H (c :: pre)).
      rewrite E. reflexivity. }
    rewrite X. destruct (lo =? 0); [|reflexivity].
    apply (H []). reflexivity.
Qed.

(** A run of [xs] and one more character [c] of the class at the very
    end, where the rest of the pattern matches before [c] but not after
    it: the repetition gives [c] back. *)
Lemma rep_cls_back (xs : str) (c : ascii) (n lo pos : nat) (cs : caps) (y : A) :
  Forall (fun c => p c = true) xs -> p c = true ->
  S (List.length xs) <= n -> lo <= List.length xs ->
  k (pos + List.length xs) [c] cs = Some y ->
  (forall pos', k pos' [] cs = None) ->
  rep_loop step k n lo pos (xs ++ [c]) cs = Some y.
Proof.
  intros Hxs Hc. revert n lo pos.
  induction Hxs as [|x xs Hx Hxs IH]; intros n lo pos Hn Hlo Hk Hend.
  - cbn [List.length] in *. assert (lo = 0) by lia. subst lo.
    rewrite Nat.add_0_r in Hk. destruct n as [|n]; [lia|].
    cbn [app rep_loop Nat.eqb]. rewrite step_cons, Hc.
    assert (X : rep_loop step k n (pred 0) (S pos) [] cs = None).
    { apply rep_cls_none. intros pre s' pos' E.
      destruct pre; [|discriminate]. cbn in E. subst s'. apply Hend. }
    rewrite X. exact Hk.
  - cbn [List.length] in *. destruct n as [|n]; [lia|].
    cbn [rep_loop app]. rewrite step_cons, Hx.
    rewrite (IH n (pred lo) (S pos)); [reflexivity|lia|lia| |exact Hend].
    rewrite <- Hk. f_equal. lia.
Qed.

End Greedy.

(** *** Groups outside a pattern keep their captures *)

Fixpoint gnames (r : re) : list string :=
  match r with
  | Seq a b | Alt a b => gnames a ++ gnames b
  | Rep r' _ _ => gnames r'
  | Grp name r' => name :: gnames r'
  | _ => []
  end.

Definition keeps_groups (names : list string) (cs cs' : caps) : Prop :=
  forall name, ~ In name names -> group name cs' = group name cs.

Lemma keeps_groups_refl (names : list string) (cs : caps) :
  keeps_groups names cs cs.
Proof. intros name _. reflexivity. Qed.

Lemma keeps_groups_trans (n1 n2 : list string) (a b c : caps) :
  keeps_groups n1 a b -> keeps_groups n2 b c -> keeps_groups (n1 ++ n2) a c.
Proof.
  intros H1 H2 name Hn. rewrite H2, H1; [reflexivity| |];
    intros X; apply Hn; apply in_or_app; [left|right]; exact X.
Qed.

Lemma rmatch_keeps {A : Type} (ci : bool) (r : re) :
  forall (pos : nat) (s : str) (cs : caps)
         (k : nat -> str -> caps -> option A) (m : A),
    rmatch ci r pos s cs k = Some m ->
    exists pos' s' cs',
      k pos' s' cs' = Some m /\ keeps_groups (gnames r) cs cs'.
Proof.
  induction r as [|c|p|a IHa b IHb|a IHa b IHb|r IH lo hi|name r IH| |];
    intros pos s cs k m H; cbn [rmatch gnames] in *.
  - exists pos, s, cs. split; [exact H|apply keeps_groups_refl].
  - destruct s as [|d s]; [discriminate|].
    destruct (chr_eq ci c d); [|discriminate].
    exists (S pos), s, cs. split; [exact H|apply keeps_groups_refl].
  - destruct s as [|d s]; [discriminate|].
    destruct (p d); [|discriminate].
    exists (S pos), s, cs. split; [exact H|apply keeps_groups_refl].
  - apply IHa in H. destruct H as (p1 & s1 & c1 & H & K1).
    apply IHb in H. destruct H as (p2 & s2 & c2 & H & K2).
    exists p2, s2, c2. split; [exact H|].
    eapply keeps_groups_trans; eassumption.
  - destruct (rmatch ci a pos s cs k) eqn:E.
    + injection H as ->. apply IHa in E.
      destruct E as (p1 & s1 & c1 & E & K1).
      exists p1, s1, c1. split; [exact E|].
      intros n Hn. apply K1. intros X. apply Hn. apply in_or_app. left. exact X.
    + apply IHb in H. destruct H as (p1 & s1 & c1 & E' & K1).
      exists p1, s1, c1. split; [exact E'|].
      intros n Hn. apply K1. intros X. apply Hn. apply in_or_app. right. exact X.
  - remember (match hi with Some h => h | None => List.length s end) as n eqn:N.
    clear N. revert lo pos s cs H.
    induction n as [|n IHn]; intros lo pos s cs H; cbn [rep_loop] in H.
    + destruct (lo =? 0); [|discriminate].
      exists pos, s, cs. split; [exact H|apply keeps_groups_refl].
    + destruct (rmatch ci r pos s cs _) eqn:E.
      * injection H as ->. apply IH in E.
        destruct E as (p1 & s1 & c1 & E & K1).
        apply IHn in E. destruct E as (p2 & s2 & c2 & E & K2).
        exists p2, s2, c2. split; [exact E|].
        intros x Hx. rewrite K2, K1 by exact Hx. reflexivity.
      * destruct (lo =? 0); [|discriminate].
        exists pos, s, cs. split; [exact H|apply keeps_groups_refl].
  - apply IH in H. destruct H as (p1 & s1 & c1 & H & K1).
    eexists _, _, _. split; [exact H|].
    intros x Hx. cbn [group].
    destruct (String.eqb name x) eqn:E.
    + apply String.eqb_eq in E. subst x. exfalso. apply Hx. left. reflexivity.
    + apply K1. intros X. apply Hx. right. exact X.
  - destruct (pos =? 0); [|discriminate].
    exists pos, s, cs. split; [exact H|apply keeps_groups_refl].
  - destruct s as [|c [|d t]]; try discriminate.
    + exists pos, [], cs. split; [exact H|apply keeps_groups_refl].
    + destruct (ceqb c NL); [|discriminate].
      exists pos, [c], cs. split; [exact H|apply keeps_groups_refl].
Qed.

(** An optional part at the end of a pattern: the match succeeds with
    or without it, and the groups outside it keep their captures. *)
Lemma opt_last (r : re) (pos : nat) (s : str) (cs : caps) :
  exists m,
    rmatch false (Opt r) pos s cs K0 = Some m
    /\ keeps_groups (gnames r) cs (m_caps m).
Proof.
  destruct (rmatch false (Opt r) pos s cs K0) as [m|] eqn:E.
  - exists m. split; [reflexivity|].
    apply rmatch_keeps in E. destruct E as (p1 & s1 & c1 & E & K1).
    injection E as <-. exact K1.
  - exfalso. unfold Opt in E. cbn [rmatch rep_loop Nat.eqb] in E.
    destruct (rmatch false r pos s cs _); discriminate.
Qed.

(** *** Patterns that take a known text

    [takes ci r w rest f]: before [rest], the pattern [r] matches the
    text [w] and adds the groups [f], on the first path the matcher
    tries that the rest of the pattern accepts.  [fails ci r s]: [r]
    matches at the head of [s] on no path. *)

Definition takes (ci : bool) (r : re) (w rest : str) (f : caps -> caps) : Prop :=
  forall (A : Type) (pos : nat) (cs : caps)
         (k : nat -> str -> caps -> option A) (y : A),
    k (pos + List.length w) rest (f cs) = Some y ->
    rmatch ci r pos (w ++ rest) cs k = Some y.

Definition fails (ci : bool) (r : re) (s : str) : Prop :=
  forall (A : Type) (pos : nat) (cs : caps)
         (k : nat -> str -> caps -> option A),
    rmatch ci r pos s cs k = None.

Definition same (cs : caps) : caps := cs.

Lemma takes_chr (ci : bool) (c : ascii) (rest : str) :
  takes ci (Chr c) [c] rest same.
Proof.
  intros A pos cs k y Hk. cbn [rmatch app]. unfold chr_eq.
  destruct ci; rewrite ceqb_refl; rewrite <- Hk; f_equal; cbn; lia.
Qed.

Lemma takes_seq (ci : bool) (a b : re) (w1 w2 rest : str) (f1 f2 : caps -> caps) :
  takes ci a w1 (w2 ++ rest) f1 -> takes ci b w2 rest f2 ->
  takes ci (Seq a b) (w1 ++ w2) rest (fun cs => f2 (f1 cs)).
Proof.
  intros Ha Hb A pos cs k y Hk. cbn [rmatch]. rewrite <- app_assoc.
  apply Ha. apply Hb. rewrite <- Hk. f_equal. rewrite length_app. lia.
Qed.

Lemma takes_grp (ci : bool) (name : string) (r : re) (w rest : str)
  (f : caps -> caps) :
  takes ci r w rest f ->
  takes ci (Grp name r) w rest (fun cs => (name, w) :: f cs).
Proof.
  intros Hr A pos cs k y Hk. cbn [rmatch]. apply Hr.
  replace (pos + List.length w - pos) with (List.length w) by lia.
  rewrite firstn_app, Nat.sub_diag, firstn_all. cbn [firstn].
  rewrite app_nil_r. exact Hk.
Qed.

Lemma takes_run (ci : bool) (p : ascii -> bool) (lo : nat) (hi : option nat)
  (xs rest : str) :
  Forall (fun c => p c = true) xs ->
  lo <= List.length xs ->
  match hi with Some h => List.length xs <= h | None => True end ->
  match rest with c :: _ => p c = false | [] => True end ->
  takes ci (Rep (Cls p) lo hi) xs rest same.
Proof.
  intros Hxs Hlo Hhi Hrest A pos cs k y Hk.
  apply (rep_cls_run A ci p k xs rest
           (match hi with
            | Some h => h
            | None => List.length (xs ++ rest)
            end) lo pos cs y); try assumption.
  destruct hi as [h|]; [exact Hhi|]. rewrite length_app. lia.
Qed.

Lemma takes_exactly (ci : bool) (p : ascii -> bool) (lo : nat)
  (xs rest : str) :
  Forall (fun c => p c = true) xs ->
  lo <= List.length xs ->
  takes ci (Rep (Cls p) lo (Some (List.length xs))) xs rest same.
Proof.
  intros Hxs. revert lo.
  induction Hxs as [|c xs Hc Hxs IH]; intros lo Hlo A pos cs k y Hk.
  - cbn [List.length] in *. assert (lo = 0) by lia. subst lo.
    cbn [rmatch rep_loop Nat.eqb app]. rewrite <- Hk. f_equal. lia.
  - cbn [rmatch List.length rep_loop app]. cbn [rmatch]. rewrite Hc.
    specialize (IH (pred lo) ltac:(cbn [List.length] in Hlo; lia)
                  A (S pos) cs k y).
    cbn [rmatch] in IH. rewrite IH; [reflexivity|].
    rewrite <- Hk. f_equal. cbn [List.length]. lia.
Qed.

Lemma takes_opt (ci : bool) (r : re) (w rest : str) (f : caps -> caps) :
  takes ci r w rest f -> takes ci (Opt r) w rest f.
Proof.
  intros Hr A pos cs k y Hk. unfold Opt. cbn [rmatch rep_loop Nat.eqb pred].
  erewrite Hr; [reflexivity|]. exact Hk.
Qed.

Lemma takes_none (ci : bool) (r : re) (rest : str) :
  fails ci r rest -> takes ci (Opt r) [] rest same.
Proof.
  intros Hr A pos cs k y Hk. unfold Opt. cbn [rmatch rep_loop Nat.eqb pred app].
  rewrite Hr. rewrite <- Hk. f_equal. cbn. lia.
Qed.

Lemma takes_left (ci : bool) (a b : re) (w rest : str) (f : caps -> caps) :
  takes ci a w rest f -> takes ci (Alt a b) w rest f.
Proof.
  intros Ha A pos cs k y Hk. cbn [rmatch]. rewrite (Ha A pos cs k y Hk).
  reflexivity.
Qed.

Lemma takes_right (ci : bool) (a b : re) (w rest : str) (f : caps -> caps) :
  fails ci a (w ++ rest) -> takes ci b w rest f -> takes ci (Alt a b) w rest f.
Proof.
  intros Ha Hb A pos cs k y Hk. cbn [rmatch]. rewrite Ha.
  apply Hb. exact Hk.
Qed.

Lemma fails_chr (c : ascii) (s : str) :
  match s with d :: _ => ceqb c d = false | [] => True end ->
  fails false (Chr c) s.
Proof.
  intros H A pos cs k. cbn [rmatch]. destruct s as [|d s]; [reflexivity|].
  unfold chr_eq. rewrite H. reflexivity.
Qed.

Lemma fails_first (ci : bool) (a b : re) (s : str) :
  fails ci a s -> fails ci (Seq a b) s.
Proof. intros Ha A pos cs k. cbn [rmatch]. apply Ha. Qed.

Lemma fails_grp (ci : bool) (name : string) (r : re) (s : str) :
  fails ci r s -> fails ci (Grp name r) s.
Proof. intros Hr A pos cs k. cbn [rmatch]. apply Hr. Qed.

Lemma fails_alt (ci : bool) (a b : re) (s : str) :
  fails ci a s -> fails ci b s -> fails ci (Alt a b) s.
Proof. intros Ha Hb A pos cs k. cbn [rmatch]. rewrite Ha. apply Hb. Qed.

Lemma fails_skipped (ci : bool) (r b : re) (s : str) :
  fails ci r s -> fails ci b s -> fails ci (Seq (Opt r) b) s.
Proof.
  intros Hr Hb A pos cs k. unfold Opt.
  cbn [rmatch rep_loop Nat.eqb pred]. rewrite Hr. apply Hb.
Qed.

(** Too short a run of the class. *)
Lemma fails_short (ci : bool) (p : ascii -> bool) (lo : nat) (hi : option nat)
  (xs rest : str) :
  Forall (fun c => p c = true) xs ->
  List.length xs < lo ->
  match rest with c :: _ => p c = false | [] => True end ->
  fails ci (Rep (Cls p) lo hi) (xs ++ rest).
Proof.
  intros Hxs Hlo Hrest A pos cs k. cbn [rmatch].
  generalize (match hi with
              | Some h => h
              | None => List.length (xs ++ rest)
              end) as n.
  intros n. revert lo pos n Hlo.
  induction Hxs as [|c xs Hc Hxs IH]; intros lo pos n Hlo.
  - cbn [List.length app] in *. destruct lo as [|lo]; [lia|].
    destruct n as [|n]; cbn [rep_loop Nat.eqb]; [reflexivity|].
    destruct rest as [|c rest]; cbn [rmatch]; [reflexivity|].
    rewrite Hrest. reflexivity.
  - cbn [List.length app] in *. destruct lo as [|lo]; [lia|].
    destruct n as [|n]; cbn [rep_loop Nat.eqb]; [reflexivity|].
    cbn [rmatch]. rewrite Hc. cbn [pred]. rewrite IH by lia. reflexivity.
Qed.

Lemma takes_match (r : re) (w : str) (f : caps -> caps) :
  takes false r w [] f ->
  re_match false r w = Some (MObj 0 (List.length w) (f [])).
Proof.
  intros H. unfold re_match.
  rewrite <- (app_nil_r w) at 1. apply H. reflexivity.
Qed.

Lemma fails_match (r : re) (s : str) :
  fails false r s -> re_match false r s = None.
Proof. intros H. apply H. Qed.

(** *** Patterns that fail after a repetition

    A repetition of a class followed by more pattern fails when the
    rest fails after every run the repetition may take. *)

Lemma rep_loop_none {A : Type} (ci : bool) (p : ascii -> bool)
  (k : nat -> str -> caps -> option A) (n lo pos : nat) (s : str)
  (cs : caps) :
  (forall pre s',
      s = pre ++ s' -> lo <= List.length pre <= n ->
      Forall (fun c => p c = true) pre ->
      k (pos + List.length pre) s' cs = None) ->
  rep_loop (rmatch ci (Cls p)) k n lo pos s cs = None.
Proof.
  revert lo pos s. induction n as [|n IH]; intros lo pos s H.
  - cbn [rep_loop]. destruct (Nat.eqb_spec lo 0) as [->|]; [|reflexivity].
    rewrite <- (Nat.add_0_r pos). apply (H [] s); [reflexivity|cbn; lia|].
    constructor.
  - cbn [rep_loop].
    assert (X : rmatch ci (Cls p) pos s cs
                  (fun pos' s' cs' =>
                     rep_loop (rmatch ci (Cls p)) k n (pred lo) pos' s' cs')
                = None).
    { destruct s as [|c s]; [reflexivity|]. cbn [rmatch].
      destruct (p c) eqn:Hc; [|reflexivity].
      apply IH. intros pre s' E Hl Hp.
      replace (S pos + List.length pre)
        with (pos + List.length (c :: pre)) by (cbn; lia).
      apply (H (c :: pre) s').
      - rewrite E. reflexivity.
      - cbn [List.length]. lia.
      - constructor; assumption. }
    rewrite X. destruct (Nat.eqb_spec lo 0) as [->|]; [|reflexivity].
    rewrite <- (Nat.add_0_r pos). apply (H [] s); [reflexivity|cbn; lia|].
    constructor.
Qed.

Lemma fails_seq_rep (ci : bool) (name : string) (p : ascii -> bool)
  (lo hi : nat) (b : re) (s : str) :
  (forall pre s',
      s = pre ++ s' -> lo <= List.length pre <= hi ->
      Forall (fun c => p c = true) pre -> fails ci b s') ->
  fails ci (Seq (Grp name (Rep (Cls p) lo (Some hi))) b) s.
Proof.
  intros H A pos cs k. cbn [rmatch].
  apply (rep_loop_none ci p). intros pre s' E Hl Hp.
  apply (H pre s' E Hl Hp).
Qed.

Lemma fails_seq_alt (ci : bool) (name : string) (x1 x2 b : re) (s : str) :
  fails ci (Seq (Grp name x1) b) s -> fails ci (Seq (Grp name x2) b) s ->
  fails ci (Seq (Grp name (Alt x1 x2)) b) s.
Proof.
  intros H1 H2 A pos cs k. cbn [rmatch].
  specialize (H1 A pos cs k). specialize (H2 A pos cs k).
  cbn [rmatch] in H1, H2. rewrite H1. exact H2.
Qed.

Lemma fails_assoc (ci : bool) (a c b : re) (s : str) :
  fails ci (Seq a (Seq c b)) s -> fails ci (Seq (Seq a c) b) s.
Proof. intros H A pos cs k. exact (H A pos cs k). Qed.

(** A character taken, and nothing after it. *)
Lemma fails_after (ci : bool) (c : ascii) (b : re) (d : ascii) (s : str) :
  fails ci b s -> fails ci (Seq (Chr c) b) (d :: s).
Proof.
  intros H A pos cs k. cbn [rmatch].
  destruct (chr_eq ci c d); [apply H|reflexivity].
Qed.

(** An optional part that would leave nothing for the rest of the
    pattern is passed over. *)
Lemma takes_skip (ci : bool) (r b : re) (w rest : str) (f : caps -> caps) :
  fails ci (Seq r b) (w ++ rest) -> takes ci b w rest f ->
  takes ci (Seq (Opt r) b) w rest f.
Proof.
  intros Hr Hb A pos cs k y Hk. unfold Opt.
  cbn [rmatch rep_loop Nat.eqb pred].
  specialize (Hr A pos cs k). cbn [rmatch] in Hr. rewrite Hr.
  apply Hb. exact Hk.
Qed.

(** A class at the head of a text that does not begin with it. *)
Lemma fails_cls (ci : bool) (p : ascii -> bool) (lo : nat) (hi : option nat)
  (s : str) :
  1 <= lo ->
  match s with c :: _ => p c = false | [] => True end ->
  fails ci (Rep (Cls p) lo hi) s.
Proof.
  intros Hlo Hs.
  apply (fails_short ci p lo hi [] s); [constructor|cbn; lia|exact Hs].
Qed.

End ReFacts.

(** ** The store *)

Module TsdbFacts.
Import PyStr PyStrFacts Re ReFacts Tsdb.

(** *** Field defaults *)

Lemma dict_get_find {V : Type} (d : list (str * V)) (k : str) (dflt : V) :
  dict_get d k dflt = match dict_find d k with Some v => v | None => dflt end.
Proof.
  induction d as [|[k' v] d IH]; simpl; [reflexivity|].
  destruct (seqb k' k); [reflexivity|exact IH].
Qed.

(** C9, as the code has it: the coded-attribute table is asked first,
    by the field's name alone, so its entry is the default of a field of
    any datatype; a field whose name is not in the table gets ["-1"] when
    its datatype is [:integer] and the empty text otherwise. *)
Theorem field_default_by_name :
  forall (n d : str) (fl : option (list str)) (c : option str),
    let f := Field_init n d fl c in
    (n = lit "i-wf" \/ n = lit "i-difficulty" -> default f = lit "1")
    /\ (n = lit "polarity" -> default f = lit "-1")
    /\ (n <> lit "i-wf" /\ n <> lit "i-difficulty" /\ n <> lit "polarity" ->
        (d = lit ":integer" -> default f = lit "-1")
        /\ (d <> lit ":integer" -> default f = [])).
Proof.
  intros n d fl c f.
  assert (E : default f =
              match dict_find TSDB_CODED_ATTRIBUTES n with
              | Some coded => coded
              | None => if seqb d (lit ":integer") then lit "-1" else []
              end) by apply dict_get_find.
  repeat split.
  - intros [-> | ->]; exact E.
  - intros ->; exact E.
  - intros Hd. rewrite E. unfold TSDB_CODED_ATTRIBUTES, dict_find.
    destruct H as (H1 & H2 & H3).
    apply not_eq_sym in H1, H2, H3.
    apply seqb_neq in H1, H2, H3. rewrite H1, H2, H3.
    subst d. reflexivity.
  - intros Hd. rewrite E. unfold TSDB_CODED_ATTRIBUTES, dict_find.
    destruct H as (H1 & H2 & H3).
    apply not_eq_sym in H1, H2, H3.
    apply seqb_neq in H1, H2, H3. rewrite H1, H2, H3.
    apply seqb_neq in Hd. rewrite Hd. reflexivity.
Qed.

(** C9 as stated fails: a [:string] field named [i-wf] is not an
    integer field, and its default is ["1"], not the empty text. *)
Lemma field_default_coded_string :
  seqb (lit ":string") (lit ":integer") = false
  /\ default (Field_init (lit "i-wf") (lit ":string") None None) = lit "1"
  /\ seqb (default (Field_init (lit "i-wf") (lit ":string") None None)) []
     = false.
Proof. repeat split. Qed.

(** *** Escapes *)

(** C2 fails on a backslash followed by [n]: escaping doubles the
    backslash, and [unescape], having halved it, reads the halved
    backslash and the [n] as an escaped newline.  The text ends in an
    ordinary character. *)
Theorem unescape_escape_backslash_n :
  escape (lit "a\nb") = lit "a\\nb"
  /\ unescape (escape (lit "a\nb")) = lit "a" ++ [NL] ++ lit "b"
  /\ seqb (unescape (escape (lit "a\nb"))) (lit "a\nb") = false.
Proof. repeat split. Qed.

(** *** The round trip of texts and records *)

Lemma replace_char (a : ascii) (new s : str) :
  replace [a] new s = flat_map (fun c => if ceqb a c then new else [c]) s.
Proof.
  unfold replace. induction s as [|c s IH]; [reflexivity|].
  cbn [replace_from startswith flat_map List.length Nat.sub].
  rewrite andb_true_r. destruct (ceqb a c); simpl; rewrite IH; reflexivity.
Qed.

(** The escape of one character. *)
Definition esc_char (c : ascii) : str :=
  if ceqb c BACKSLASH then lit "\\"
  else if ceqb c NL then lit "\n"
  else if ceqb c FIELD_DELIMITER then lit "\s"
  else [c].

Lemma flat_map_flat_map {A B C : Type} (f : A -> list B) (g : B -> list C)
  (l : list A) :
  flat_map g (flat_map f l) = flat_map (fun x => flat_map g (f x)) l.
Proof.
  induction l as [|x l IH]; simpl; [reflexivity|].
  rewrite flat_map_app, IH. reflexivity.
Qed.

Lemma escape_chars (s : str) : escape s = flat_map esc_char s.
Proof.
  unfold escape.
  change (lit "\") with [BACKSLASH].
  rewrite !replace_char, !flat_map_flat_map.
  apply flat_map_ext. intros c. unfold esc_char.
  destruct (ceqb c BACKSLASH) eqn:B.
  - apply ceqb_eq in B. subst c. reflexivity.
  - destruct (ceqb c NL) eqn:N.
    + apply ceqb_eq in N. subst c. reflexivity.
    + destruct (ceqb c FIELD_DELIMITER) eqn:D.
      * apply ceqb_eq in D. subst c. reflexivity.
      * assert (B' : ceqb BACKSLASH c = false)
          by (apply ceqb_neq; apply ceqb_neq in B; congruence).
        assert (N' : ceqb NL c = false)
          by (apply ceqb_neq; apply ceqb_neq in N; congruence).
        assert (D' : ceqb FIELD_DELIMITER c = false)
          by (apply ceqb_neq; apply ceqb_neq in D; congruence).
        cbn [flat_map]. rewrite B'. cbn [flat_map app]. rewrite N'.
        cbn [flat_map app]. rewrite D'. reflexivity.
Qed.

(** No [a] directly followed by [b]. *)
Fixpoint no_digraph (a b : ascii) (s : str) : bool :=
  match s with
  | c :: s' =>
      match s' with
      | d :: _ => negb (ceqb c a && ceqb d b)
      | [] => true
      end && no_digraph a b s'
  | [] => true
  end.

(** A text that [unescape] reads back as it was: no backslash directly
    followed by [n] or by [s]. *)
Definition survives (s : str) : bool :=
  no_digraph BACKSLASH "n" s && no_digraph BACKSLASH "s" s.

Definition esc1 (c : ascii) : str :=
  if ceqb c NL then lit "\n"
  else if ceqb c FIELD_DELIMITER then lit "\s"
  else [c].

Definition esc2 (c : ascii) : str :=
  if ceqb c FIELD_DELIMITER then lit "\s" else [c].

Ltac char_cases c :=
  let E := fresh "E" in
  destruct (ceqb c BACKSLASH) eqn:E;
  [apply ceqb_eq in E; subst c|];
  [|let E2 := fresh "E" in
    destruct (ceqb c NL) eqn:E2;
    [apply ceqb_eq in E2; subst c|];
    [|let E3 := fresh "E" in
      destruct (ceqb c FIELD_DELIMITER) eqn:E3;
      [apply ceqb_eq in E3; subst c|]]].

Lemma ceqb_sym (a b : ascii) : ceqb a b = ceqb b a.
Proof. unfold ceqb. apply Ascii.eqb_sym. Qed.

Lemma undouble (s : str) :
  replace (lit "\\") (lit "\") (flat_map esc_char s) = flat_map esc1 s.
Proof.
  unfold replace. cbn [lit list_ascii_of_string].
  induction s as [|c s IH]; [reflexivity|].
  cbn [flat_map]. unfold esc_char, esc1. char_cases c.
  - cbn. f_equal. exact IH.
  - cbn. do 2 f_equal. exact IH.
  - cbn. do 2 f_equal. exact IH.
  - cbn [app replace_from startswith]. rewrite (ceqb_sym _ c).
    fold BACKSLASH. rewrite E. cbn [andb]. f_equal. exact IH.
Qed.

Definition letter (e : ascii) : Prop :=
  e <> BACKSLASH /\ e <> NL /\ e <> FIELD_DELIMITER.

Lemma head_esc1 (e : ascii) (s : str) :
  letter e ->
  startswith [e] (flat_map esc1 s)
  = match s with d :: _ => ceqb e d | [] => false end.
Proof.
  intros (Hb & Hn & Hd). destruct s as [|d s]; [reflexivity|].
  apply ceqb_neq in Hb, Hn, Hd.
  cbn [flat_map]. unfold esc1.
  destruct (ceqb d NL) eqn:N.
  - apply ceqb_eq in N. subst d. cbn [lit list_ascii_of_string app startswith].
    fold BACKSLASH. rewrite Hb, Hn. reflexivity.
  - destruct (ceqb d FIELD_DELIMITER) eqn:D.
    + apply ceqb_eq in D. subst d.
      cbn [lit list_ascii_of_string app startswith].
      fold BACKSLASH. rewrite Hb, Hd. reflexivity.
    + cbn [app startswith]. apply andb_true_r.
Qed.

Lemma head_esc2 (e : ascii) (s : str) :
  letter e ->
  startswith [e] (flat_map esc2 s)
  = match s with d :: _ => ceqb e d | [] => false end.
Proof.
  intros (Hb & Hn & Hd). destruct s as [|d s]; [reflexivity|].
  apply ceqb_neq in Hb, Hn, Hd.
  cbn [flat_map]. unfold esc2.
  destruct (ceqb d FIELD_DELIMITER) eqn:D.
  - apply ceqb_eq in D. subst d.
    cbn [lit list_ascii_of_string app startswith].
    fold BACKSLASH. rewrite Hb, Hd. reflexivity.
  - cbn [app startswith]. apply andb_true_r.
Qed.

Lemma letter_n : letter "n".
Proof. repeat split; discriminate. Qed.

Lemma letter_s : letter "s".
Proof. repeat split; discriminate. Qed.

Lemma no_digraph_tail (a b c : ascii) (s : str) :
  no_digraph a b (c :: s) = true -> no_digraph a b s = true.
Proof.
  cbn [no_digraph]. intros H. apply andb_true_iff in H. apply H.
Qed.

Lemma no_digraph_head (a b : ascii) (s : str) :
  no_digraph a b (a :: s) = true ->
  match s with d :: _ => ceqb b d | [] => false end = false.
Proof.
  destruct s as [|d s]; [reflexivity|].
  cbn [no_digraph]. rewrite ceqb_refl. cbn [andb].
  intros H. apply andb_true_iff in H. destruct H as [H _].
  apply negb_true_iff in H. rewrite ceqb_sym. exact H.
Qed.

Section Steps.

Variable e : ascii.
Variable new : str.

Let R := replace_from [BACKSLASH; e] new 0.

Lemma step_match (rest : str) :
  R (BACKSLASH :: e :: rest) = new ++ R rest.
Proof.
  unfold R. cbn [replace_from startswith List.length Nat.sub].
  rewrite !ceqb_refl. reflexivity.
Qed.

Lemma step_plain (c : ascii) (rest : str) :
  ceqb c BACKSLASH = false -> R (c :: rest) = c :: R rest.
Proof.
  intros H. unfold R. cbn [replace_from startswith].
  rewrite ceqb_sym, H. reflexivity.
Qed.

Lemma step_backslash (rest : str) :
  startswith [e] rest = false -> R (BACKSLASH :: rest) = BACKSLASH :: R rest.
Proof.
  intros H. unfold R. cbn [replace_from]. 
  change (startswith [BACKSLASH; e] (BACKSLASH :: rest))
    with (ceqb BACKSLASH BACKSLASH && startswith [e] rest).
  rewrite H, andb_false_r. reflexivity.
Qed.

End Steps.

Lemma esc1_plain (c : ascii) :
  ceqb c NL = false -> ceqb c FIELD_DELIMITER = false -> esc1 c = [c].
Proof. intros H1 H2. unfold esc1. rewrite H1, H2. reflexivity. Qed.

Lemma esc2_plain (c : ascii) :
  ceqb c FIELD_DELIMITER = false -> esc2 c = [c].
Proof. intros H. unfold esc2. rewrite H. reflexivity. Qed.

Lemma unnewline (s : str) :
  no_digraph BACKSLASH "n" s = true ->
  replace (lit "\n") [NL] (flat_map esc1 s) = flat_map esc2 s.
Proof.
  unfold replace. cbn [lit list_ascii_of_string]. fold BACKSLASH.
  induction s as [|c s IH]; [reflexivity|]. intros H.
  pose proof (no_digraph_tail _ _ _ _ H) as Ht. specialize (IH Ht).
  cbn [flat_map]. char_cases c.
  - change (esc1 BACKSLASH) with [BACKSLASH].
    change (esc2 BACKSLASH) with [BACKSLASH]. cbn [app].
    rewrite step_backslash, IH; [reflexivity|].
    rewrite (head_esc1 "n" s letter_n). apply (no_digraph_head _ _ _ H).
  - change (esc1 NL) with [BACKSLASH; "n"%char].
    change (esc2 NL) with [NL]. cbn [app].
    rewrite step_match, IH. reflexivity.
  - change (esc1 FIELD_DELIMITER) with [BACKSLASH; "s"%char].
    change (esc2 FIELD_DELIMITER) with [BACKSLASH; "s"%char]. cbn [app].
    rewrite step_backslash by reflexivity.
    rewrite step_plain by reflexivity. rewrite IH. reflexivity.
  - rewrite esc1_plain, esc2_plain by assumption. cbn [app].
    rewrite step_plain by assumption. rewrite IH. reflexivity.
Qed.

Lemma undelimit (s : str) :
  no_digraph BACKSLASH "s" s = true ->
  replace (lit "\s") [FIELD_DELIMITER] (flat_map esc2 s) = s.
Proof.
  unfold replace. cbn [lit list_ascii_of_string]. fold BACKSLASH.
  induction s as [|c s IH]; [reflexivity|]. intros H.
  pose proof (no_digraph_tail _ _ _ _ H) as Ht. specialize (IH Ht).
  cbn [flat_map]. char_cases c.
  - change (esc2 BACKSLASH) with [BACKSLASH]. cbn [app].
    rewrite step_backslash, IH; [reflexivity|].
    rewrite (head_esc2 "s" s letter_s). apply (no_digraph_head _ _ _ H).
  - change (esc2 NL) with [NL]. cbn [app].
    rewrite step_plain by reflexivity. rewrite IH. reflexivity.
  - change (esc2 FIELD_DELIMITER) with [BACKSLASH; "s"%char]. cbn [app].
    rewrite step_match, IH. reflexivity.
  - rewrite esc2_plain by assumption. cbn [app].
    rewrite step_plain by assumption. rewrite IH. reflexivity.
Qed.

(** A text without a backslash directly followed by [n] or [s] comes
    back from [escape] and [unescape] as it was. *)
Theorem unescape_escape (s : str) :
  survives s = true -> unescape (escape s) = s.
Proof.
  unfold survives. intros H. apply andb_true_iff in H. destruct H as [Hn Hs].
  rewrite escape_chars. unfold unescape.
  rewrite undouble, (unnewline _ Hn). apply undelimit. exact Hs.
Qed.

(** *** Numbers as texts *)

Definition digits_only (s : str) : Prop := Forall (fun c => is_digit c = true) s.

Lemma uint_digits (u : Decimal.uint) :
  digits_only (lit (NilEmpty.string_of_uint u)).
Proof.
  induction u; simpl; constructor; try reflexivity; assumption.
Qed.

Lemma uint_nonempty (u : Decimal.uint) :
  u <> Decimal.Nil -> lit (NilEmpty.string_of_uint u) <> [].
Proof. destruct u; simpl; congruence. Qed.

Lemma int_body_digits (s : str) (b : bool) :
  digits_only s -> (s <> [] \/ b = true) -> int_body b s = Some s.
Proof.
  revert b. induction s as [|c s IH]; intros b Hd Hs.
  - destruct Hs as [Hs | ->]; [contradiction|reflexivity].
  - inversion Hd as [|? ? Hc Hd']; subst. cbn [int_body]. rewrite Hc.
    rewrite IH; [reflexivity|assumption|right; reflexivity].
Qed.

Lemma rstrip_by_id (p : ascii -> bool) (s : str) :
  Forall (fun c => p c = false) s -> rstrip_by p s = s.
Proof.
  induction 1 as [|c s Hc Hs IH]; [reflexivity|].
  cbn [rstrip_by]. rewrite IH. destruct s; [rewrite Hc|]; reflexivity.
Qed.

Lemma lstrip_by_id (p : ascii -> bool) (s : str) :
  Forall (fun c => p c = false) s -> lstrip_by p s = s.
Proof.
  destruct 1 as [|c s Hc Hs]; [reflexivity|].
  cbn [lstrip_by]. rewrite Hc. reflexivity.
Qed.

Lemma digit_not_space (c : ascii) : is_digit c = true -> is_space c = false.
Proof.
  unfold is_digit, is_space. intros H.
  apply andb_true_iff in H. destruct H as [H1 H2].
  apply Nat.leb_le in H1, H2.
  repeat match goal with
         | |- context [(?a <=? ?b)] => destruct (Nat.leb_spec a b)
         | |- context [(?a =? ?b)] => destruct (Nat.eqb_spec a b)
         end; simpl; try reflexivity; lia.
Qed.

Lemma digit_not_int_space (c : ascii) :
  is_digit c = true -> is_int_space c = false.
Proof.
  unfold is_digit, is_int_space. intros H.
  apply andb_true_iff in H. destruct H as [H1 H2].
  apply Nat.leb_le in H1, H2.
  repeat match goal with
         | |- context [(?a <=? ?b)] => destruct (Nat.leb_spec a b)
         | |- context [(?a =? ?b)] => destruct (Nat.eqb_spec a b)
         end; simpl; try reflexivity; lia.
Qed.

Lemma int_strip_id (s : str) :
  Forall (fun c => is_int_space c = false) s ->
  rstrip_by is_int_space (lstrip_by is_int_space s) = s.
Proof.
  intros H. rewrite lstrip_by_id by exact H. apply rstrip_by_id. exact H.
Qed.

Lemma digits_not_int_space (s : str) :
  digits_only s -> Forall (fun c => is_int_space c = false) s.
Proof.
  intros H. eapply Forall_impl; [|exact H]. apply digit_not_int_space.
Qed.

Lemma uint_of_digits (u : Decimal.uint) :
  u <> Decimal.Nil ->
  NilZero.uint_of_string (string_of_list_ascii (lit (NilEmpty.string_of_uint u)))
  = Some u.
Proof.
  intros Hu. unfold lit. rewrite string_of_list_ascii_of_string.
  pose proof (NilZero.usu u Hu) as X.
  unfold NilZero.string_of_uint in X. destruct u; try exact X.
  contradiction.
Qed.

Lemma py_int_pos (u : Decimal.uint) :
  u <> Decimal.Nil ->
  (Z.of_nat (List.length (lit (NilEmpty.string_of_uint u)))
   <= MAX_STR_DIGITS)%Z ->
  py_int (lit (NilEmpty.string_of_uint u)) = Some (Z.of_uint u).
Proof.
  intros Hu Hl. pose proof (uint_digits u) as Hd.
  pose proof (uint_nonempty u Hu) as Hn.
  pose proof (uint_of_digits u Hu) as U.
  apply Z.ltb_ge in Hl.
  set (ds := lit (NilEmpty.string_of_uint u)) in *.
  unfold py_int.
  rewrite int_strip_id by (apply digits_not_int_space; exact Hd).
  destruct ds as [|c t] eqn:D; [contradiction|].
  inversion Hd as [|? ? Hc _]; subst.
  destruct (ceqb c "-") eqn:E1;
    [apply ceqb_eq in E1; subst c; discriminate|].
  destruct (ceqb c "+") eqn:E2;
    [apply ceqb_eq in E2; subst c; discriminate|].
  cbn [fst snd].
  rewrite int_body_digits; [|exact Hd|left; exact Hn].
  rewrite Hl, U. reflexivity.
Qed.

Lemma py_int_neg (u : Decimal.uint) :
  u <> Decimal.Nil ->
  (Z.of_nat (List.length (lit (NilEmpty.string_of_uint u)))
   <= MAX_STR_DIGITS)%Z ->
  py_int ("-"%char :: lit (NilEmpty.string_of_uint u))
  = Some (- Z.of_uint u)%Z.
Proof.
  intros Hu Hl. pose proof (uint_digits u) as Hd.
  pose proof (uint_nonempty u Hu) as Hn.
  pose proof (uint_of_digits u Hu) as U.
  apply Z.ltb_ge in Hl.
  set (ds := lit (NilEmpty.string_of_uint u)) in *.
  unfold py_int. rewrite int_strip_id.
  - cbn [ceqb Ascii.eqb Bool.eqb fst snd].
    rewrite int_body_digits; [|exact Hd|left; exact Hn].
    rewrite Hl, U. reflexivity.
  - constructor; [reflexivity|]. apply digits_not_int_space; exact Hd.
Qed.

Lemma str_of_Z_shape (z : Z) :
  exists (u : Decimal.uint),
    u <> Decimal.Nil
    /\ int_digits z = List.length (lit (NilEmpty.string_of_uint u))
    /\ ((str_of_Z z = lit (NilEmpty.string_of_uint u) /\ z = Z.of_uint u)
        \/ (str_of_Z z = "-"%char :: lit (NilEmpty.string_of_uint u)
            /\ z = (- Z.of_uint u)%Z)).
Proof.
  pose proof (DecimalZ.of_to z) as E. unfold int_digits, str_of_Z.
  destruct z as [|p|p]; cbn [Z.to_int Z.abs] in *.
  - exists (Decimal.D0 Decimal.Nil). split; [discriminate|].
    split; [reflexivity|]. left. split; reflexivity.
  - exists (Pos.to_uint p). split; [apply DecimalPos.Unsigned.to_uint_nonnil|].
    pose proof (DecimalPos.Unsigned.to_uint_nonnil p).
    cbn [NilZero.string_of_int]. unfold NilZero.string_of_uint.
    split; [destruct (Pos.to_uint p); try reflexivity; contradiction|].
    left. split; [|symmetry; exact E].
    destruct (Pos.to_uint p); try reflexivity. contradiction.
  - exists (Pos.to_uint p). split; [apply DecimalPos.Unsigned.to_uint_nonnil|].
    pose proof (DecimalPos.Unsigned.to_uint_nonnil p).
    cbn [NilZero.string_of_int]. unfold NilZero.string_of_uint.
    split; [destruct (Pos.to_uint p); try reflexivity; contradiction|].
    right. split; [|symmetry; exact E].
    destruct (Pos.to_uint p); try reflexivity. contradiction.
Qed.

(** [int(str(z)) == z], for a number the interpreter converts. *)
Lemma py_int_str_of_Z (z : Z) :
  int_fits z = true -> py_int (str_of_Z z) = Some z.
Proof.
  unfold int_fits. intros Hf. apply Z.leb_le in Hf.
  destruct (str_of_Z_shape z) as (u & Hu & L & [[-> Hz] | [-> Hz]]).
  - rewrite py_int_pos; [congruence|exact Hu|rewrite <- L; exact Hf].
  - rewrite py_int_neg; [congruence|exact Hu|rewrite <- L; exact Hf].
Qed.

(** Beyond the limit [int] does not read what [str_of_Z] gives. *)
Lemma py_int_beyond (z : Z) :
  int_fits z = false -> py_int (str_of_Z z) = None.
Proof.
  unfold int_fits. intros Hf. apply Z.leb_gt in Hf.
  assert (X : forall u, u <> Decimal.Nil ->
              (MAX_STR_DIGITS
               < Z.of_nat (List.length (lit (NilEmpty.string_of_uint u))))%Z ->
              py_int (lit (NilEmpty.string_of_uint u)) = None
              /\ py_int ("-"%char :: lit (NilEmpty.string_of_uint u)) = None).
  { intros u Hu Hl. pose proof (uint_digits u) as Hd.
    pose proof (uint_nonempty u Hu) as Hn. apply Z.ltb_lt in Hl.
    set (ds := lit (NilEmpty.string_of_uint u)) in *. split.
    - unfold py_int.
      rewrite int_strip_id by (apply digits_not_int_space; exact Hd).
      destruct ds as [|c t] eqn:D; [contradiction|].
      inversion Hd as [|? ? Hc _]; subst.
      destruct (ceqb c "-") eqn:E1;
        [apply ceqb_eq in E1; subst c; discriminate|].
      destruct (ceqb c "+") eqn:E2;
        [apply ceqb_eq in E2; subst c; discriminate|].
      cbn [fst snd].
      rewrite int_body_digits; [|exact Hd|left; exact Hn].
      rewrite Hl. reflexivity.
    - unfold py_int. rewrite int_strip_id.
      + cbn [ceqb Ascii.eqb Bool.eqb fst snd].
        rewrite int_body_digits; [|exact Hd|left; exact Hn].
        rewrite Hl. reflexivity.
      + constructor; [reflexivity|]. apply digits_not_int_space; exact Hd. }
  destruct (str_of_Z_shape z) as (u & Hu & L & [[-> Hz] | [-> Hz]]);
    apply X; try exact Hu; rewrite <- L; exact Hf.
Qed.

(** The text of a number: digits, after a minus sign or none, and at
    least one character. *)
Lemma str_of_Z_chars (z : Z) :
  str_of_Z z <> []
  /\ Forall (fun c => is_digit c = true \/ c = "-"%char) (str_of_Z z).
Proof.
  destruct (str_of_Z_shape z) as (u & Hu & _ & [[-> _] | [-> _]]).
  - split; [apply uint_nonempty; exact Hu|].
    eapply Forall_impl; [|apply uint_digits]. intros c H. left. exact H.
  - split; [discriminate|]. constructor; [right; reflexivity|].
    eapply Forall_impl; [|apply uint_digits]. intros c H. left. exact H.
Qed.

(** *** Lines *)

Lemma split_on_plain (sep : ascii) (p : str) :
  ~ In sep p -> split_on sep p = [p].
Proof.
  induction p as [|c p IH]; intros H; [reflexivity|].
  simpl. destruct (ceqb c sep) eqn:E.
  - apply ceqb_eq in E. subst c. exfalso. apply H. left. reflexivity.
  - rewrite IH; [reflexivity|]. intros X. apply H. right. exact X.
Qed.

Lemma split_on_app (sep : ascii) (p r : str) :
  ~ In sep p -> split_on sep (p ++ sep :: r) = p :: split_on sep r.
Proof.
  induction p as [|c p IH]; intros H.
  - simpl. rewrite ceqb_refl. reflexivity.
  - simpl. destruct (ceqb c sep) eqn:E.
    + apply ceqb_eq in E. subst c. exfalso. apply H. left. reflexivity.
    + rewrite IH; [reflexivity|]. intros X. apply H. right. exact X.
Qed.

Lemma split_on_join (sep : ascii) (xs : list str) :
  xs <> [] -> (forall x, In x xs -> ~ In sep x) ->
  split_on sep (join [sep] xs) = xs.
Proof.
  induction xs as [|x xs IH]; intros Hne H; [contradiction|].
  destruct xs as [|y xs].
  - cbn [join]. apply split_on_plain. apply H. left. reflexivity.
  - change (join [sep] (x :: y :: xs)) with (x ++ sep :: join [sep] (y :: xs)).
    rewrite split_on_app by (apply H; left; reflexivity).
    rewrite IH; [reflexivity|discriminate|].
    intros z Hz. apply H. right. exact Hz.
Qed.

Lemma in_join (c : ascii) (sep : str) (xs : list str) :
  In c (join sep xs) -> In c sep \/ exists x, In x xs /\ In c x.
Proof.
  induction xs as [|x xs IH]; [intros []|].
  destruct xs as [|y xs].
  - cbn [join]. intros H. right. exists x. split; [left; reflexivity|exact H].
  - change (join sep (x :: y :: xs)) with (x ++ sep ++ join sep (y :: xs)).
    intros H. apply in_app_or in H. destruct H as [H|H].
    + right. exists x. split; [left; reflexivity|exact H].
    + apply in_app_or in H. destruct H as [H|H]; [left; exact H|].
      destruct (IH H) as [H'|(z & Hz & Hc)]; [left; exact H'|].
      right. exists z. split; [right; exact Hz|exact Hc].
Qed.

Lemma escape_chars_safe (s : str) (c : ascii) :
  In c (escape s) -> c <> FIELD_DELIMITER /\ c <> NL.
Proof.
  rewrite escape_chars. intros H. apply in_flat_map in H.
  destruct H as (d & _ & H). unfold esc_char in H.
  destruct (ceqb d BACKSLASH).
  { destruct H as [<-|[<-|[]]]; split; discriminate. }
  destruct (ceqb d NL) eqn:N.
  { destruct H as [<-|[<-|[]]]; split; discriminate. }
  destruct (ceqb d FIELD_DELIMITER) eqn:D.
  { destruct H as [<-|[<-|[]]]; split; discriminate. }
  destruct H as [<-|[]]. split; apply ceqb_neq; assumption.
Qed.

Lemma escape_nonempty (s : str) : s <> [] -> escape s <> [].
Proof.
  rewrite escape_chars. destruct s as [|c s]; [contradiction|]. intros _.
  cbn [flat_map]. unfold esc_char.
  destruct (ceqb c BACKSLASH); [discriminate|].
  destruct (ceqb c NL); [discriminate|].
  destruct (ceqb c FIELD_DELIMITER); discriminate.
Qed.

Lemma survives_plain (s : str) :
  ~ In BACKSLASH s -> survives s = true.
Proof.
  intros H. unfold survives.
  assert (X : forall b, no_digraph BACKSLASH b s = true).
  { intros b. induction s as [|c s IH]; [reflexivity|].
    cbn [no_digraph]. rewrite IH by (intros X; apply H; right; exact X).
    assert (E : ceqb c BACKSLASH = false).
    { apply ceqb_neq. intros ->. apply H. left. reflexivity. }
    rewrite E. destruct s; reflexivity. }
  rewrite !X. reflexivity.
Qed.

Lemma str_of_Z_survives (z : Z) : survives (str_of_Z z) = true.
Proof.
  apply survives_plain. intros H.
  destruct (str_of_Z_chars z) as [_ A].
  rewrite Forall_forall in A. destruct (A _ H) as [X|X]; discriminate.
Qed.

Section RoundTrip.

Variable F : Type.
Variable float_of_str : str -> option F.
Variable str_of_float : F -> str.
Variable now : datetime.

(** A value that a field's column keeps: a number in an [:integer]
    field, of no more digits than [str] and [int] convert; in a
    [:string] field a text that is not empty and [survives]; a null in a
    field whose default is the empty text. *)
Definition keeps (f : Field) (v : Value F) : bool :=
  match v with
  | VNone => seqb (default f) []
  | VInt z => seqb (datatype f) (lit ":integer") && int_fits z
  | VStr s => seqb (datatype f) (lit ":string") && negb (seqb s [])
              && survives s
  | _ => false
  end.

(** The column a formatted value becomes, read back. *)
Definition column (raw : str) : option str :=
  match escape raw with
  | [] => None
  | _ => Some (unescape (escape raw))
  end.

Lemma column_survivor (raw : str) :
  raw <> [] -> survives raw = true -> column raw = Some raw.
Proof.
  intros Hn Hs. unfold column. rewrite (unescape_escape _ Hs).
  destruct (escape raw) eqn:E; [|reflexivity].
  exfalso. revert E. apply escape_nonempty. exact Hn.
Qed.

Lemma cast_kept (f : Field) (v : Value F) :
  keeps f v = true ->
  cast F float_of_str now (datatype f)
    (column (format F str_of_float (datatype f) v (Some (default f))))
  = inr v.
Proof.
  destruct v as [|z|x|s|d]; cbn [keeps]; intros H; try discriminate.
  - apply seqb_eq in H. cbn [format]. rewrite H. reflexivity.
  - apply andb_true_iff in H. destruct H as [H Hz].
    cbn [format str_of_value].
    rewrite column_survivor;
      [|apply str_of_Z_chars|apply str_of_Z_survives].
    unfold cast. rewrite H, (py_int_str_of_Z z Hz).
    destruct (str_of_Z z) eqn:E; [|reflexivity].
    exfalso. revert E. apply str_of_Z_chars.
  - apply andb_true_iff in H. destruct H as [H Hs].
    apply andb_true_iff in H. destruct H as [Hd Hn].
    apply negb_true_iff in Hn. apply seqb_neq in Hn.
    apply seqb_eq in Hd.
    cbn [format str_of_value]. rewrite column_survivor by assumption.
    unfold cast. rewrite Hd. destruct s; [contradiction|reflexivity].
Qed.

Lemma forallb2_length {A B : Type} (p : A -> B -> bool) (a : list A)
  (b : list B) :
  forallb2 p a b = true -> List.length a = List.length b.
Proof.
  revert b. induction a as [|x a IH]; intros [|y b] H; try discriminate.
  - reflexivity.
  - cbn in H. apply andb_true_iff in H. cbn. f_equal. apply IH. apply H.
Qed.

Lemma rstrip_nl_id (s : str) : ~ In NL s -> rstrip_nl s = s.
Proof.
  intros H. apply rstrip_by_id. apply Forall_forall. intros c Hc.
  rewrite ceqb_sym. apply ceqb_neq. intros ->. contradiction.
Qed.

End RoundTrip.

(** The float functions left out, for examples that hold no float. *)
Definition no_float (s : str) : option unit := None.
Definition unit_str (u : unit) : str := lit "0.0".


(** A clock for examples that read no clock. *)
Definition epoch : datetime := mkDatetime 1970 1 1 0 0 0 0.

(** C1 as stated fails on a null in an [:integer] field: it is encoded
    as the field's default, ["-1"], which decodes to the number. *)
Lemma decode_encode_null_integer :
  encode unit unit_str [VNone]
    (Some [Field_init (lit "i-length") (lit ":integer") None None])
  = inr (lit "-1")
  /\ decode unit no_float epoch (lit "-1")
       (Some [Field_init (lit "i-length") (lit ":integer") None None])
     = inr [VInt (-1)].
Proof. split; reflexivity. Qed.


(** *** Schema files *)

(** C7 fails inside a table block: the field pattern matches every
    non-blank line, so a line with a name and nothing else is taken for a
    field, and splitting the flags it does not have raises
    [AttributeError]; a name followed only by a comment raises
    [IndexError].  Before any table the same lines raise
    [TSDBSchemaError]. *)
Theorem parse_schema_bare_name :
  _parse_schema (lit "item:" ++ [NL] ++ lit "  i-id") = inl AttributeError
  /\ _parse_schema (lit "item:" ++ [NL] ++ lit "  i-id   # the id")
     = inl IndexError
  /\ _parse_schema (lit "  i-id")
     = inl (TSDBSchemaError (lit "invalid line in schema file: i-id")).
Proof. repeat split. Qed.

(** *** Untyped records *)

Section Untyped.

Variable F : Type.
Variable float_of_str : str -> option F.
Variable now : datetime.

(** A raw value: null, or a text that is not empty. *)
Definition is_raw (v : Value F) : bool :=
  match v with
  | VNone => true
  | VStr (_ :: _) => true
  | _ => false
  end.

Lemma replace_nonempty (old new s : str) :
  old <> [] -> new <> [] -> s <> [] -> replace old new s <> [].
Proof.
  intros Ho Hn Hs. destruct old as [|o old]; [contradiction|].
  destruct s as [|c s]; [contradiction|].
  unfold replace. simpl replace_from.
  destruct (ceqb o c && startswith old s).
  - destruct new; [contradiction|discriminate].
  - discriminate.
Qed.

Lemma unescape_nonempty (s : str) : s <> [] -> unescape s <> [].
Proof.
  intros H. unfold unescape.
  repeat apply replace_nonempty; try discriminate. exact H.
Qed.

Lemma raw_values_raw (line : str) :
  forallb is_raw (map (@raw_value F) (raw_values line)) = true.
Proof.
  unfold raw_values. rewrite map_map. apply forallb_forall.
  intros v Hv. apply in_map_iff in Hv. destruct Hv as (col & <- & _).
  destruct col as [|c col]; [reflexivity|].
  simpl. destruct (unescape (c :: col)) eqn:E; [|reflexivity].
  exfalso. revert E. apply unescape_nonempty. discriminate.
Qed.

Lemma decode_untyped (line : str) :
  decode F float_of_str now line None
  = inr (map (@raw_value F) (raw_values line)).
Proof. reflexivity. Qed.

Lemma iter_records_raw (st : tablefiles) (rel : Relation) (r : Record F) :
  In r (fst (Relation_iter F float_of_str now st rel)) ->
  forallb is_raw r = true.
Proof.
  unfold Relation_iter. destruct (open st) as [e|lines]; cbn [fst];
    [intros []|].
  intros H. apply in_flat_map in H. destruct H as (line & _ & H).
  rewrite decode_untyped in H. destruct H as [<-|[]].
  apply raw_values_raw.
Qed.

Lemma sequence_inr {A : Type} (ms : list (result A)) (xs : list A) :
  sequence ms = inr xs -> ms = map inr xs.
Proof.
  revert xs. induction ms as [|m ms IH]; simpl; intros xs H.
  - injection H as <-. reflexivity.
  - destruct m as [e|x]; simpl in H; [discriminate|].
    destruct (sequence ms) as [e|ys]; simpl in H; [discriminate|].
    injection H as <-. simpl. f_equal. apply IH. reflexivity.
Qed.

Lemma project_raw (r r' : Record F) (indices : list nat) :
  project F r indices = inr r' ->
  forallb is_raw r = true -> forallb is_raw r' = true.
Proof.
  unfold project. intros H Hr. apply sequence_inr in H.
  rewrite forallb_forall in *. intros v Hv.
  apply (in_map (@inr exn (Value F))) in Hv. rewrite <- H in Hv.
  apply in_map_iff in Hv. destruct Hv as (idx & E & _).
  destruct (nth_error r idx) as [w|] eqn:N; [|discriminate].
  injection E as ->. apply Hr. eapply nth_error_In. exact N.
Qed.

Lemma project_all_raw (records : list (Record F)) (indices : list nat)
  (r : Record F) :
  (forall x, In x records -> forallb is_raw x = true) ->
  In r (fst (project_all F records indices)) -> forallb is_raw r = true.
Proof.
  induction records as [|x records IH]; simpl; intros Hall H; [tauto|].
  destruct (project F x indices) as [e|x'] eqn:P; simpl in H; [tauto|].
  destruct (project_all F records indices) as [ys e] eqn:Q. simpl in *.
  destruct H as [<-|H].
  - eapply project_raw; [exact P|]. apply Hall. left. reflexivity.
  - apply IH; [|exact H]. intros y Hy. apply Hall. right. exact Hy.
Qed.

(** C10: whatever fields a relation declares, a record that iterating
    it yields is a line decoded without them, each column to null when
    empty and to its unescaped text otherwise; and a record that
    iterating it or selecting from it yields holds nothing but nulls and
    texts that are not empty. *)
Theorem relation_yields_raw :
  forall (st : tablefiles) (rel : Relation) (names : list str)
         (r : Record F),
    (In r (fst (Relation_iter F float_of_str now st rel)) ->
     exists line,
       r = map (fun col => match col with
                           | [] => VNone
                           | _ => VStr (unescape col)
                           end)
             (split_on FIELD_DELIMITER (rstrip_nl line)))
    /\ (In r (fst (Relation_iter F float_of_str now st rel))
        \/ In r (fst (select F float_of_str now st rel names)) ->
        Forall (fun v => v = VNone \/ exists s, s <> [] /\ v = VStr s) r).
Proof.
  intros st rel names r. split.
  - unfold Relation_iter. destruct (open st) as [e|lines]; cbn [fst];
      [intros []|].
    intros H'. apply in_flat_map in H'. destruct H' as (line & _ & H').
    rewrite decode_untyped in H'. destruct H' as [<-|[]].
    exists line. unfold raw_values. rewrite map_map.
    apply map_ext. intros [|c col]; reflexivity.
  - intros H.
    assert (R : forallb is_raw r = true).
    { destruct H as [H|H]; [eapply iter_records_raw; exact H|].
      unfold select in H. destruct names as [|n names].
      - eapply iter_records_raw; exact H.
      - destruct (sequence _) as [e|indices]; simpl in H; [tauto|].
        destruct (Relation_iter F float_of_str now st rel)
          as [records e] eqn:I.
        assert (Hall : forall x, In x records -> forallb is_raw x = true).
        { intros x Hx. apply (iter_records_raw st rel).
          rewrite I. exact Hx. }
        destruct e; eapply project_all_raw; eauto. }
    apply Forall_forall. intros v Hv.
    rewrite forallb_forall in R. specialize (R v Hv).
    destruct v as [| | |[|c s]|]; try discriminate.
    + left. reflexivity.
    + right. exists (c :: s). split; [discriminate|reflexivity].
Qed.

End Untyped.

(** *** Writing a table *)




Section Writing.

Variable F : Type.
Variable str_of_float : F -> str.


End Writing.



(** *** The round trip of schemas *)

Lemma any_char (c : ascii) : is_linebreak c = false -> negb (ceqb c NL) = true.
Proof.
  intros H. apply negb_true_iff. apply ceqb_neq. intros ->. discriminate.
Qed.

Lemma table_re_header (w : ascii) (rest : str) :
  is_word w = true -> rest <> [] ->
  Forall (fun c => is_linebreak c = false) rest ->
  re_match false table_re (w :: rest ++ [":"%char])
  = Some (MObj 0 (S (S (List.length rest))) [("table"%string, w :: rest)]).
Proof.
  intros Hw Hne Hrest.
  unfold re_match, table_re, seqs, Plus, Word.
  cbn [rmatch Nat.eqb]. rewrite Hw.
  rewrite (rep_cls_back _ false (fun c => negb (ceqb c NL)) _ rest ":"%char
             _ 1 1 [] (MObj 0 (S (S (List.length rest)))
                         [("table"%string, w :: rest)])).
  - reflexivity.
  - eapply Forall_impl; [|exact Hrest]. apply any_char.
  - reflexivity.
  - rewrite length_app. cbn. lia.
  - destruct rest; [contradiction|cbn; lia].
  - cbn [rmatch chr_eq ceqb]. 
    change (Ascii.eqb ":" ":") with true. cbn [rmatch].
    rewrite Nat.sub_0_r. cbn [Nat.add firstn]. rewrite firstn_app.
    rewrite firstn_all, Nat.sub_diag. cbn [firstn]. rewrite app_nil_r.
    reflexivity.
  - intros pos'. reflexivity.
Qed.

Lemma table_re_no_colon (s : str) :
  Forall (fun c => is_linebreak c = false) s ->
  last s SPACE <> ":"%char ->
  re_match false table_re s = None.
Proof.
  intros Hs Hl.
  unfold re_match, table_re, seqs, Plus, Word.
  cbn [rmatch Nat.eqb].
  destruct s as [|w s]; [reflexivity|].
  destruct (is_word w); [|reflexivity].
  apply (rep_cls_none _ false (fun c => negb (ceqb c NL))).
  intros pre s' pos' E. cbn [rmatch].
  destruct s' as [|c t]; [reflexivity|].
  unfold chr_eq. destruct (ceqb ":" c) eqn:C; [|reflexivity].
  apply ceqb_eq in C. subst c.
  destruct t as [|d t]; cbn [rmatch].
  - exfalso. apply Hl. rewrite E.
    change (w :: pre ++ [":"%char]) with ((w :: pre) ++ [":"%char]).
    apply last_last.
  - destruct t; [|reflexivity].
    destruct (ceqb d NL) eqn:D; [|reflexivity].
    apply ceqb_eq in D. subst d. exfalso.
    rewrite E in Hs. rewrite Forall_forall in Hs.
    assert (X : is_linebreak NL = false).
    { apply Hs. right. apply in_or_app. right. right. left. reflexivity. }
    discriminate.
Qed.

Section FieldLine.

(** The field pattern with its optional comment part left open. *)
Variable last_part : re.
Hypothesis last_matches :
  forall pos s cs,
    exists m,
      rmatch false last_part pos s cs K0 = Some m
      /\ group "name" (m_caps m) = group "name" cs
      /\ group "flags" (m_caps m) = group "flags" cs.

Lemma field_line_groups (name body tail : str) :
  name <> [] -> Forall (fun c => is_space c = false) name ->
  Forall (fun c => negb (ceqb c "#") = true) body ->
  match body with c :: _ => is_space c = false | [] => False end ->
  match tail with c :: _ => c = "#"%char | [] => True end ->
  exists m,
    rmatch false
      (Seq (Star Space)
         (Seq (Grp "name" (Plus NonSpace))
            (Seq (Opt (Grp "2" (Seq (Plus Space)
                                  (Grp "flags" (Plus (Not1 "#"))))))
               last_part)))
      0 (name ++ SPACE :: body ++ tail) [] K0 = Some m
    /\ group "name" (m_caps m) = Some name
    /\ group "flags" (m_caps m) = Some body.
Proof.
  intros Hn Hname Hbody Hb0 Htail.
  unfold Star, Plus, Opt.
  cbn [rmatch].
  set (pos3 := S (List.length name) + List.length body).
  set (cs3 := [("2"%string, SPACE :: body); ("flags"%string, body);
               ("name"%string, name)]).
  destruct (last_matches pos3 tail cs3) as (m & Hm & Hk1 & Hk2).
  exists m. split; [|split; [rewrite Hk1|rewrite Hk2]; reflexivity].
  apply (rep_cls_run _ false is_space _ [] (name ++ SPACE :: body ++ tail));
    [constructor|cbn; lia|cbn; lia| |].
  2:{ destruct name as [|c name]; [contradiction|].
      inversion Hname; assumption. }
  cbn [List.length Nat.add].
  apply (rep_cls_run _ false (fun c => negb (is_space c)) _ name
           (SPACE :: body ++ tail)).
  - eapply Forall_impl; [|exact Hname]. intros c Hc. rewrite Hc. reflexivity.
  - rewrite length_app. lia.
  - destruct name; [contradiction|cbn; lia].
  - cbn [rep_loop Nat.eqb Nat.pred Nat.add].
    rewrite Nat.sub_0_r, firstn_app, firstn_all, Nat.sub_diag.
    cbn [firstn]. rewrite app_nil_r.
    rewrite (rep_cls_run _ false is_space _ [SPACE] (body ++ tail) _ 1
               (List.length name) _ m).
    + reflexivity.
    + repeat constructor.
    + cbn. lia.
    + cbn. lia.
    + cbn [List.length].
      rewrite (rep_cls_run _ false (fun d => negb (ceqb d "#")) _ body tail
                 _ 1 _ _ m).
      * reflexivity.
      * exact Hbody.
      * rewrite length_app. lia.
      * destruct body; [contradiction|cbn; lia].
      * rewrite <- Hm. unfold pos3, cs3. 
        replace (List.length name + 1 + List.length body - List.length name)
          with (S (List.length body)) by lia.
        replace (List.length name + 1 + List.length body
                 - (List.length name + 1)) with (List.length body) by lia.
        rewrite firstn_app, firstn_all, Nat.sub_diag. cbn [firstn].
        rewrite app_nil_r.
        change (firstn (S (List.length body)) (SPACE :: body ++ tail))
          with (SPACE :: firstn (List.length body) (body ++ tail)).
        rewrite firstn_app, firstn_all, Nat.sub_diag. cbn [firstn].
        rewrite app_nil_r.
        replace (List.length name + 1 + List.length body)
          with (S (List.length name) + List.length body) by lia.
        reflexivity.
      * destruct tail as [|c tail]; [exact I|]. subst c. reflexivity.
    + destruct body as [|c body]; [contradiction|exact Hb0].
  - reflexivity.
Qed.

End FieldLine.

Lemma field_re_line (name body tail : str) :
  name <> [] -> Forall (fun c => is_space c = false) name ->
  Forall (fun c => negb (ceqb c "#") = true) body ->
  match body with c :: _ => is_space c = false | [] => False end ->
  match tail with c :: _ => c = "#"%char | [] => True end ->
  exists m,
    re_match false field_re (name ++ SPACE :: body ++ tail) = Some m
    /\ group "name" (m_caps m) = Some name
    /\ group "flags" (m_caps m) = Some body.
Proof.
  intros. unfold re_match, field_re, seqs.
  apply field_line_groups; try assumption.
  intros pos s cs.
  destruct (opt_last
              (Grp "4" (Seq (Star Space)
                          (Seq (Chr "#")
                             (Seq (Star Space)
                                (Seq (Grp "comment" (Star Any)) Eol)))))
              pos s cs) as (m & Hm & Hk).
  exists m. split; [exact Hm|].
  split; apply Hk; cbn; intros [X|[X|[]]]; discriminate.
Qed.

(** *** Lines and blanks *)

Lemma rstrip_by_keep (p : ascii -> bool) (xs ys : str) (d : ascii) :
  p d = false -> rstrip_by p (xs ++ d :: ys) = xs ++ d :: rstrip_by p ys.
Proof.
  intros Hd. induction xs as [|x xs IH].
  - cbn [app rstrip_by]. destruct (rstrip_by p ys); [rewrite Hd|]; reflexivity.
  - cbn [app rstrip_by]. rewrite IH.
    destruct xs; reflexivity.
Qed.

Lemma lstrip_by_spaces (k : nat) (s : str) :
  lstrip_by is_space (repeat SPACE k ++ s) = lstrip_by is_space s.
Proof. induction k as [|k IH]; [reflexivity|exact IH]. Qed.

Lemma split_ws_token (t cur rest : str) :
  Forall (fun c => is_space c = false) t ->
  split_ws_from cur (t ++ rest) = split_ws_from (rev t ++ cur) rest.
Proof.
  intros H. revert cur. induction H as [|c t Hc Ht IH]; intros cur.
  - reflexivity.
  - cbn [app split_ws_from]. rewrite Hc, IH. cbn [rev].
    rewrite <- app_assoc. reflexivity.
Qed.

Lemma split_ws_spaces (k : nat) : split_ws_from [] (repeat SPACE k) = [].
Proof. induction k as [|k IH]; [reflexivity|exact IH]. Qed.

Definition token (t : str) : Prop :=
  t <> [] /\ Forall (fun c => is_space c = false) t.

Lemma split_ws_tokens (t : str) (ts : list str) (k : nat) :
  token t -> Forall token ts ->
  split_ws (join [SPACE] (t :: ts) ++ repeat SPACE k) = t :: ts.
Proof.
  unfold split_ws. intros Ht Hts. revert t Ht.
  induction Hts as [|t' ts Ht' Hts IH]; intros t [Hn Hs].
  - cbn [join]. rewrite split_ws_token by exact Hs. rewrite app_nil_r.
    destruct k as [|k].
    + cbn [repeat split_ws_from]. rewrite rev_involutive.
      destruct (rev t) eqn:E; [|reflexivity].
      apply (f_equal (@rev _)) in E. rewrite rev_involutive in E.
      contradiction.
    + cbn [repeat split_ws_from]. change (is_space SPACE) with true.
      cbn iota. rewrite rev_involutive, split_ws_spaces.
      destruct (rev t) eqn:E; [|reflexivity].
      apply (f_equal (@rev _)) in E. rewrite rev_involutive in E.
      contradiction.
  - change (join [SPACE] (t :: t' :: ts))
      with (t ++ SPACE :: join [SPACE] (t' :: ts)).
    rewrite <- app_assoc. rewrite split_ws_token by exact Hs.
    rewrite app_nil_r. cbn [app split_ws_from].
    change (is_space SPACE) with true. cbn iota.
    rewrite rev_involutive, (IH t' Ht').
    destruct (rev t) eqn:E; [|reflexivity].
    apply (f_equal (@rev _)) in E. rewrite rev_involutive in E.
    contradiction.
Qed.

(** *** Well-formed schemas *)

Definition tokenb (t : str) : bool :=
  negb (seqb t []) && forallb (fun c => negb (is_space c)) t.

Definition flagb (t : str) : bool :=
  tokenb t && forallb (fun c => negb (ceqb c "#")) t.

Definition no_linebreak (s : str) : bool :=
  forallb (fun c => negb (is_linebreak c)) s.

(** A field the schema file can hold: its name, datatype and flags are
    words without blanks (and, but for the name, without [#]), its
    comment has no line break, and its line does not end in a colon. *)
Definition wf_field (f : Field) : bool :=
  tokenb (name f) && flagb (datatype f) && forallb flagb (flags f)
  && match comment f with
     | Some c => no_linebreak c
     | None => true
     end
  && negb (ceqb (last (strip (Field_str f)) SPACE) ":").

(** A table name the schema file can hold: two characters or more, the
    first a word character, none a line break. *)
Definition wf_table_name (t : str) : bool :=
  match t with
  | w :: _ :: _ => is_word w && no_linebreak t
  | _ => false
  end.

Fixpoint distinct (xs : list str) : bool :=
  match xs with
  | [] => true
  | x :: xs' => negb (mem x xs') && distinct xs'
  end.

Definition wf_schema (schema : Schema) : bool :=
  distinct (map fst schema)
  && forallb (fun entry => wf_table_name (fst entry)
                           && forallb wf_field (snd entry)) schema.

Lemma tokenb_token (t : str) : tokenb t = true -> token t.
Proof.
  unfold tokenb, token. intros H. apply andb_true_iff in H.
  destruct H as [H1 H2]. split.
  - apply negb_true_iff in H1. apply seqb_neq in H1. exact H1.
  - apply Forall_forall. intros c Hc. rewrite forallb_forall in H2.
    apply negb_true_iff. apply H2. exact Hc.
Qed.

Lemma flagb_token (t : str) : flagb t = true -> token t.
Proof.
  unfold flagb. intros H. apply andb_true_iff in H. apply tokenb_token, H.
Qed.

Lemma flagb_nohash (t : str) :
  flagb t = true -> Forall (fun c => negb (ceqb c "#") = true) t.
Proof.
  unfold flagb. intros H. apply andb_true_iff in H. destruct H as [_ H].
  apply Forall_forall. rewrite forallb_forall in H. exact H.
Qed.

Lemma linebreak_is_space (c : ascii) :
  is_space c = false -> is_linebreak c = false.
Proof.
  unfold is_space, is_linebreak. intros H.
  repeat match goal with
         | |- context [(?a <=? ?b)] => destruct (Nat.leb_spec a b)
         | |- context [(?a =? ?b)] => destruct (Nat.eqb_spec a b)
         end; simpl; try reflexivity;
  repeat match type of H with
         | context [(?a <=? ?b)] => destruct (Nat.leb_spec a b)
         | context [(?a =? ?b)] => destruct (Nat.eqb_spec a b)
         end; simpl in H; try discriminate; lia.
Qed.

Lemma word_not_space (c : ascii) : is_word c = true -> is_space c = false.
Proof.
  destruct c as [[|] [|] [|] [|] [|] [|] [|] [|]]; vm_compute;
    intros H; try reflexivity; discriminate.
Qed.

Lemma forall_join (P : ascii -> Prop) (sep : str) (xs : list str) :
  Forall P sep -> Forall (Forall P) xs -> Forall P (join sep xs).
Proof.
  intros Hs H. induction H as [|x xs Hx Hxs IH]; [constructor|].
  destruct xs as [|y xs]; [exact Hx|].
  change (join sep (x :: y :: xs)) with (x ++ sep ++ join sep (y :: xs)).
  apply Forall_app. split; [exact Hx|].
  apply Forall_app. split; [exact Hs|exact IH].
Qed.

Lemma last_app_nonempty (a b : str) (d : ascii) :
  b <> [] -> last (a ++ b) d = last b d.
Proof.
  intros Hb. induction a as [|x a IH]; [reflexivity|].
  cbn [app]. destruct (a ++ b) eqn:E.
  - destruct a; [cbn in E; contradiction|discriminate].
  - rewrite <- IH. reflexivity.
Qed.

Lemma last_forall (P : ascii -> Prop) (s : str) (d : ascii) :
  s <> [] -> Forall P s -> P (last s d).
Proof.
  intros Hn H. induction H as [|c s Hc Hs IH]; [contradiction|].
  destruct s as [|c' s]; [exact Hc|].
  change (last (c :: c' :: s) d) with (last (c' :: s) d).
  apply IH. discriminate.
Qed.

Lemma join_nonempty (sep : str) (t : str) (ts : list str) :
  t <> [] -> join sep (t :: ts) <> [].
Proof.
  intros H. destruct ts; cbn [join];
    destruct t; try contradiction; discriminate.
Qed.

Lemma last_join_tokens (t : str) (ts : list str) :
  token t -> Forall token ts ->
  is_space (last (join [SPACE] (t :: ts)) SPACE) = false.
Proof.
  intros Ht Hts. revert t Ht.
  induction Hts as [|t' ts Ht' Hts IH]; intros t [Hn Hs].
  - cbn [join]. apply (last_forall (fun c => is_space c = false)); assumption.
  - change (join [SPACE] (t :: t' :: ts))
      with (t ++ SPACE :: join [SPACE] (t' :: ts)).
    change (t ++ SPACE :: join [SPACE] (t' :: ts))
      with (t ++ [SPACE] ++ join [SPACE] (t' :: ts)).
    rewrite app_assoc, last_app_nonempty.
    + apply IH. exact Ht'.
    + apply join_nonempty. apply Ht'.
Qed.

Lemma rstrip_by_last (p : ascii -> bool) (s : str) :
  s <> [] -> p (last s SPACE) = false -> rstrip_by p s = s.
Proof.
  induction s as [|c s IH]; [contradiction|]. intros _ H.
  destruct s as [|c' s].
  - cbn in *. rewrite H. reflexivity.
  - change (last (c :: c' :: s) SPACE) with (last (c' :: s) SPACE) in H.
    cbn [rstrip_by]. cbn [rstrip_by] in IH. rewrite IH by (discriminate || exact H).
    reflexivity.
Qed.

Lemma forall_strip (P : ascii -> Prop) (s : str) :
  Forall P s -> Forall P (strip s).
Proof.
  intros H. unfold strip.
  assert (L : Forall P (lstrip_by is_space s)).
  { induction H as [|c s Hc Hs IH]; [constructor|].
    cbn [lstrip_by]. destruct (is_space c); [exact IH|].
    constructor; assumption. }
  revert L. generalize (lstrip_by is_space s). intros t Ht.
  induction Ht as [|c t Hc Ht IH]; [constructor|].
  cbn [rstrip_by]. destruct (rstrip_by is_space t).
  - destruct (is_space c); constructor; [exact Hc|constructor].
  - constructor; assumption.
Qed.

(** The head of a field's line: two blanks and the words. *)
Definition words (f : Field) : str :=
  join [SPACE] (datatype f :: flags f).

Lemma field_str_words (f : Field) :
  Field_str f
  = match comment f with
    | Some (c :: cm) =>
        lit "  " ++ name f ++ SPACE :: words f
        ++ repeat SPACE (40 - List.length (lit "  " ++ name f ++ SPACE :: words f))
        ++ lit "# " ++ c :: cm
    | _ => lit "  " ++ name f ++ SPACE :: words f
    end.
Proof.
  unfold Field_str, words, ljust.
  change (join [SPACE] ([name f; datatype f] ++ flags f))
    with (name f ++ SPACE :: join [SPACE] (datatype f :: flags f)).
  destruct (comment f) as [[|c cm]|]; cbn [truthy]; try reflexivity.
  rewrite <- !app_assoc. reflexivity.
Qed.

Lemma wf_field_parts (f : Field) :
  wf_field f = true ->
  token (name f) /\ token (datatype f) /\ Forall token (flags f)
  /\ Forall (fun c => negb (ceqb c "#") = true) (words f)
  /\ last (strip (Field_str f)) SPACE <> ":"%char
  /\ match comment f with
     | Some c => Forall (fun c => is_linebreak c = false) c
     | None => True
     end.
Proof.
  unfold wf_field. intros H.
  apply andb_true_iff in H. destruct H as [H Hl].
  apply andb_true_iff in H. destruct H as [H Hcm].
  apply andb_true_iff in H. destruct H as [H Hfl].
  apply andb_true_iff in H. destruct H as [Hname Hdt].
  split; [apply tokenb_token; exact Hname|].
  split; [apply flagb_token; exact Hdt|].
  assert (Hfl' : Forall (fun t => flagb t = true) (flags f)).
  { apply Forall_forall. rewrite forallb_forall in Hfl. exact Hfl. }
  split; [eapply Forall_impl; [|exact Hfl']; apply flagb_token|].
  split.
  { unfold words. apply forall_join; [repeat constructor|].
    constructor; [apply flagb_nohash; exact Hdt|].
    eapply Forall_impl; [|exact Hfl']. apply flagb_nohash. }
  split.
  { apply negb_true_iff in Hl. apply ceqb_neq in Hl. exact Hl. }
  destruct (comment f) as [c|]; [|exact I].
  apply Forall_forall. unfold no_linebreak in Hcm.
  rewrite forallb_forall in Hcm. intros x Hx.
  apply negb_true_iff. apply Hcm. exact Hx.
Qed.

Lemma token_head (t rest : str) :
  token t ->
  match t ++ rest with c :: _ => is_space c = false | [] => False end.
Proof.
  intros [Hn Hs]. destruct t as [|c t]; [contradiction|].
  inversion Hs; assumption.
Qed.

Lemma words_head (f : Field) (rest : str) :
  token (datatype f) ->
  match words f ++ rest with c :: _ => is_space c = false | [] => False end.
Proof.
  intros H. unfold words. destruct (flags f) as [|fl fls].
  - cbn [join]. apply token_head. exact H.
  - change (join [SPACE] (datatype f :: fl :: fls))
      with (datatype f ++ SPACE :: join [SPACE] (fl :: fls)).
    rewrite <- app_assoc. apply token_head. exact H.
Qed.

(** The line of a field, stripped: the name, a blank, the words (and
    the padding before a comment), and nothing or a [#] and more. *)
Lemma field_line_shape (f : Field) :
  wf_field f = true ->
  exists body tail,
    strip (Field_str f) = name f ++ SPACE :: body ++ tail
    /\ Forall (fun c => negb (ceqb c "#") = true) body
    /\ match body with c :: _ => is_space c = false | [] => False end
    /\ match tail with c :: _ => c = "#"%char | [] => True end
    /\ split_ws body = datatype f :: flags f.
Proof.
  intros Hwf.
  destruct (wf_field_parts f Hwf) as (Hn & Hd & Hf & Hw & _ & _).
  pose proof (token_head (name f) (SPACE :: words f) Hn) as Hh.
  assert (Hl : forall rest,
             lstrip_by is_space (lit "  " ++ name f ++ SPACE :: rest)
             = name f ++ SPACE :: rest).
  { intros rest. cbn [lit list_ascii_of_string app lstrip_by].
    change (is_space " ") with true. cbn iota.
    destruct Hn as [Hn Hs]. destruct (name f) as [|c t]; [contradiction|].
    inversion Hs as [|? ? Hc _]; subst.
    cbn [app lstrip_by]. rewrite Hc. reflexivity. }
  rewrite field_str_words. unfold strip.
  destruct (comment f) as [[|c cm]|].
  3:{ exists (words f), []. rewrite Hl, app_nil_r.
      split; [|split; [exact Hw|split; [|split; [exact I|]]]].
      - apply rstrip_by_last.
        + destruct (name f); discriminate.
        + change (name f ++ SPACE :: words f)
            with (name f ++ [SPACE] ++ words f).
          rewrite app_assoc, last_app_nonempty
            by (apply join_nonempty; apply Hd).
          apply last_join_tokens; assumption.
      - pose proof (words_head f [] Hd) as X. rewrite app_nil_r in X. exact X.
      - unfold words. 
        pose proof (split_ws_tokens (datatype f) (flags f) 0 Hd Hf) as X.
        cbn [repeat] in X. rewrite app_nil_r in X. exact X. }
  1:{ exists (words f), []. rewrite Hl, app_nil_r.
      split; [|split; [exact Hw|split; [|split; [exact I|]]]].
      - apply rstrip_by_last.
        + destruct (name f); discriminate.
        + change (name f ++ SPACE :: words f)
            with (name f ++ [SPACE] ++ words f).
          rewrite app_assoc, last_app_nonempty
            by (apply join_nonempty; apply Hd).
          apply last_join_tokens; assumption.
      - pose proof (words_head f [] Hd) as X. rewrite app_nil_r in X. exact X.
      - unfold words. 
        pose proof (split_ws_tokens (datatype f) (flags f) 0 Hd Hf) as X.
        cbn [repeat] in X. rewrite app_nil_r in X. exact X. }
  set (k := 40 - List.length (lit "  " ++ name f ++ SPACE :: words f)).
  exists (words f ++ repeat SPACE k),
         ("#"%char :: rstrip_by is_space (SPACE :: c :: cm)).
  split; [|split; [|split; [|split; [reflexivity|]]]].
  - replace (lit "  " ++ name f ++ SPACE :: words f ++ repeat SPACE k
             ++ lit "# " ++ c :: cm)
      with (lit "  " ++ name f ++ SPACE
            :: ((words f ++ repeat SPACE k) ++ "#"%char :: SPACE :: c :: cm)).
    2:{ rewrite <- app_assoc. reflexivity. }
    rewrite Hl.
    replace (name f ++ SPACE
             :: (words f ++ repeat SPACE k) ++ "#"%char :: SPACE :: c :: cm)
      with ((name f ++ SPACE :: words f ++ repeat SPACE k)
            ++ "#"%char :: SPACE :: c :: cm).
    2:{ rewrite <- app_assoc. reflexivity. }
    rewrite rstrip_by_keep by reflexivity.
    rewrite <- app_assoc. reflexivity.
  - apply Forall_app. split; [exact Hw|].
    apply Forall_forall. intros x Hx. apply repeat_spec in Hx. subst x.
    reflexivity.
  - apply words_head. exact Hd.
  - apply split_ws_tokens; assumption.
Qed.

(** *** The parser, line by line *)

Lemma forallb2_seqb_refl (xs : list str) : forallb2 seqb xs xs = true.
Proof.
  induction xs as [|x xs IH]; [reflexivity|].
  cbn [forallb2]. rewrite seqb_refl, IH. reflexivity.
Qed.

Lemma token_no_linebreak (t : str) :
  token t -> Forall (fun c => is_linebreak c = false) t.
Proof.
  intros [_ H]. eapply Forall_impl; [|exact H]. apply linebreak_is_space.
Qed.

Lemma field_str_no_linebreak (f : Field) :
  wf_field f = true -> Forall (fun c => is_linebreak c = false) (Field_str f).
Proof.
  intros Hwf.
  destruct (wf_field_parts f Hwf) as (Hn & Hd & Hf & _ & _ & Hc).
  pose proof (token_no_linebreak _ Hn) as P2.
  assert (P3 : Forall (fun c => is_linebreak c = false) (words f)).
  { unfold words. apply forall_join; [repeat constructor|].
    constructor; [apply token_no_linebreak; exact Hd|].
    eapply Forall_impl; [|exact Hf]. apply token_no_linebreak. }
  assert (P4 : forall k, Forall (fun c => is_linebreak c = false)
                           (repeat SPACE k)).
  { intros k. apply Forall_forall. intros x Hx. apply repeat_spec in Hx.
    subst x. reflexivity. }
  rewrite field_str_words.
  destruct (comment f) as [[|c cm]|];
    repeat first [ apply Forall_app; split
                 | apply Forall_cons; [reflexivity|]
                 | assumption
                 | apply P4
                 | apply Forall_nil ].
Qed.

Lemma parse_field_line (f : Field) (rest : list str)
  (tables : list (str * Fields)) (seen : list str) (t : str) :
  wf_field f = true -> t <> [] ->
  exists f',
    Field_eq f' f = true
    /\ parse_lines (Field_str f :: rest) tables seen t
       = parse_lines rest (append_field tables f') seen t.
Proof.
  intros Hwf Ht.
  destruct (field_line_shape f Hwf) as (body & tail & Hs & Hb & Hb0 & Htl & Hsp).
  destruct (wf_field_parts f Hwf) as (Hn & _ & _ & _ & Hl & _).
  assert (Htab : re_match false table_re (strip (Field_str f)) = None).
  { apply table_re_no_colon; [|exact Hl].
    apply forall_strip. apply field_str_no_linebreak. exact Hwf. }
  destruct (field_re_line (name f) body tail) as (m & Hm & Hg1 & Hg2);
    try assumption; try apply Hn.
  rewrite <- Hs in Hm.
  exists (Field_init (name f) (datatype f) (Some (flags f))
            (group "comment" (m_caps m))).
  split.
  - unfold Field_eq, Field_init. cbn [name datatype flags].
    rewrite !seqb_refl, forallb2_seqb_refl. reflexivity.
  - cbn [parse_lines]. rewrite Htab, Hm.
    destruct t as [|c t]; [contradiction|]. cbn [truthy].
    rewrite Hg1, Hg2, Hsp. reflexivity.
Qed.

Lemma strip_header (t : str) :
  wf_table_name t = true -> strip (t ++ [":"%char]) = t ++ [":"%char].
Proof.
  intros H. unfold wf_table_name in H.
  destruct t as [|w [|c t]]; try discriminate.
  apply andb_true_iff in H. destruct H as [Hw _].
  unfold strip. cbn [app lstrip_by]. rewrite (word_not_space w Hw).
  apply rstrip_by_last; [discriminate|].
  change (w :: c :: t ++ [":"%char]) with ((w :: c :: t) ++ [":"%char]).
  rewrite last_last. reflexivity.
Qed.

Lemma parse_header (t : str) (rest : list str)
  (tables : list (str * Fields)) (seen : list str) (cur : str) :
  wf_table_name t = true -> mem t seen = false ->
  parse_lines ((t ++ [":"%char]) :: rest) tables seen cur
  = parse_lines rest (tables ++ [(t, [])]) (t :: seen) t.
Proof.
  intros Hwf Hseen. cbn [parse_lines]. rewrite (strip_header t Hwf).
  unfold wf_table_name in Hwf.
  destruct t as [|w [|c t]]; try discriminate.
  apply andb_true_iff in Hwf. destruct Hwf as [Hw Hnl].
  assert (Hrest : Forall (fun x => is_linebreak x = false) (c :: t)).
  { unfold no_linebreak in Hnl. rewrite forallb_forall in Hnl.
    apply Forall_forall. intros x Hx.
    apply negb_true_iff. apply Hnl. right. exact Hx. }
  change ((w :: c :: t) ++ [":"%char]) with (w :: (c :: t) ++ [":"%char]).
  rewrite (table_re_header w (c :: t) Hw); [|discriminate|exact Hrest].
  cbn [m_caps group String.eqb Ascii.eqb Bool.eqb the].
  rewrite Hseen. reflexivity.
Qed.

Definition nonblank (l : str) : bool := negb (seqb (strip l) []).

Lemma parse_blank (l : str) (rest : list str)
  (tables : list (str * Fields)) (seen : list str) (cur : str) :
  nonblank l = false ->
  parse_lines (l :: rest) tables seen cur = parse_lines rest tables seen cur.
Proof.
  unfold nonblank. intros H. apply negb_false_iff in H. apply seqb_eq in H.
  cbn [parse_lines]. rewrite H.
  change (re_match false table_re []) with (@None mobj).
  change (re_match false field_re []) with (@None mobj).
  reflexivity.
Qed.

Lemma parse_skip_blanks (lines : list str) :
  forall (tables : list (str * Fields)) (seen : list str) (cur : str),
    parse_lines lines tables seen cur
    = parse_lines (filter nonblank lines) tables seen cur.
Proof.
  induction lines as [|l lines IH]; intros tables seen cur; [reflexivity|].
  cbn [filter]. destruct (nonblank l) eqn:B.
  - cbn [parse_lines].
    repeat match goal with
           | |- context [match ?x with _ => _ end] =>
               destruct x; try reflexivity
           end; apply IH.
  - rewrite parse_blank by exact B. apply IH.
Qed.

(** *** The lines of a serialised schema *)

Definition plain_line (l : str) : Prop :=
  Forall (fun c => is_linebreak c = false) l.

Lemma splitlines_line (l cur rest : str) :
  plain_line l ->
  splitlines_from cur (l ++ NL :: rest)
  = (rev cur ++ l) :: splitlines_from [] rest.
Proof.
  intros H. revert cur. induction H as [|c l Hc Hl IH]; intros cur.
  - cbn [app splitlines_from]. change (is_linebreak NL) with true. cbn iota.
    rewrite app_nil_r. f_equal. destruct rest; reflexivity.
  - cbn [app splitlines_from]. rewrite Hc, IH. cbn [rev].
    rewrite <- app_assoc. reflexivity.
Qed.

Lemma splitlines_end (l cur : str) :
  plain_line l ->
  splitlines_from cur l
  = match rev cur ++ l with [] => [] | x => [x] end.
Proof.
  intros H. revert cur. induction H as [|c l Hc Hl IH]; intros cur.
  - cbn [splitlines_from]. rewrite app_nil_r.
    destruct cur as [|x cur]; [reflexivity|].
    destruct (rev (x :: cur)) eqn:E; [|reflexivity].
    apply (f_equal (@rev _)) in E. rewrite rev_involutive in E. discriminate.
  - cbn [splitlines_from]. rewrite Hc, IH. cbn [rev].
    rewrite <- app_assoc. reflexivity.
Qed.

Lemma nonblank_nil : nonblank [] = false.
Proof. reflexivity. Qed.

Lemma splitlines_join (ls : list str) :
  Forall plain_line ls ->
  filter nonblank (splitlines (join [NL] ls)) = filter nonblank ls.
Proof.
  unfold splitlines. intros H. induction H as [|l ls Hl Hls IH]; [reflexivity|].
  destruct ls as [|l' ls].
  - cbn [join]. rewrite splitlines_end by exact Hl. cbn [rev app].
    destruct l; reflexivity.
  - change (join [NL] (l :: l' :: ls)) with (l ++ NL :: join [NL] (l' :: ls)).
    rewrite splitlines_line by exact Hl. cbn [rev app filter].
    rewrite IH. reflexivity.
Qed.

Lemma join_app (sep : str) (a b : list str) :
  a <> [] -> b <> [] -> join sep (a ++ b) = join sep a ++ sep ++ join sep b.
Proof.
  intros Ha Hb. induction a as [|x a IH]; [contradiction|].
  destruct a as [|y a].
  - cbn [app join]. destruct b; [contradiction|reflexivity].
  - change (join sep ((x :: y :: a) ++ b))
      with (x ++ sep ++ join sep ((y :: a) ++ b)).
    rewrite IH by discriminate.
    change (join sep (x :: y :: a)) with (x ++ sep ++ join sep (y :: a)).
    rewrite <- !app_assoc. reflexivity.
Qed.

(** The lines of a table as [format_table] joins them: without fields,
    the header is followed by an empty line. *)
Definition table_lines (entry : str * Fields) : list str :=
  (fst entry ++ [":"%char])
  :: match snd entry with
     | [] => [[]]
     | fs => map Field_str fs
     end.

Lemma format_table_lines (entry : str * Fields) :
  format_table entry = join [NL] (table_lines entry).
Proof.
  unfold format_table, table_lines. destruct entry as [t fs]. cbn [fst snd].
  destruct fs as [|f fs].
  - cbn [map join lit list_ascii_of_string app].
    rewrite <- app_assoc. reflexivity.
  - change (join [NL] ((t ++ [":"%char]) :: map Field_str (f :: fs)))
      with ((t ++ [":"%char]) ++ [NL] ++ join [NL] (map Field_str (f :: fs))).
    cbn [lit list_ascii_of_string]. rewrite <- !app_assoc. reflexivity.
Qed.

(** Groups of lines with an empty line between two groups. *)
Fixpoint glue (groups : list (list str)) : list str :=
  match groups with
  | [] => []
  | [g] => g
  | g :: rest => g ++ [] :: glue rest
  end.

Lemma glue_nonempty (g : list str) (gs : list (list str)) :
  g <> [] -> glue (g :: gs) <> [].
Proof. intros H. destruct gs; cbn [glue]; destruct g; try contradiction; discriminate. Qed.

Lemma join_glue (groups : list (list str)) :
  Forall (fun g => g <> []) groups ->
  join [NL; NL] (map (join [NL]) groups) = join [NL] (glue groups).
Proof.
  intros H. induction H as [|g gs Hg Hgs IH]; [reflexivity|].
  destruct gs as [|g' gs]; [reflexivity|].
  change (join [NL; NL] (map (join [NL]) (g :: g' :: gs)))
    with (join [NL] g ++ [NL; NL] ++ join [NL; NL] (map (join [NL]) (g' :: gs))).
  rewrite IH.
  change (glue (g :: g' :: gs)) with (g ++ [] :: glue (g' :: gs)).
  rewrite join_app by (exact Hg || discriminate).
  inversion Hgs as [|? ? Hg' _]; subst.
  pose proof (glue_nonempty g' gs Hg') as X.
  destruct (glue (g' :: gs)) as [|x xs] eqn:E; [contradiction|].
  change (join [NL] ([] :: x :: xs)) with ([] ++ [NL] ++ join [NL] (x :: xs)).
  reflexivity.
Qed.

Definition wf_entry (entry : str * Fields) : bool :=
  wf_table_name (fst entry) && forallb wf_field (snd entry).

Lemma wf_entry_parts (entry : str * Fields) :
  wf_entry entry = true ->
  wf_table_name (fst entry) = true
  /\ Forall (fun f => wf_field f = true) (snd entry).
Proof.
  unfold wf_entry. intros H. apply andb_true_iff in H. destruct H as [H1 H2].
  split; [exact H1|]. apply Forall_forall. rewrite forallb_forall in H2.
  exact H2.
Qed.

Lemma header_nonblank (t : str) :
  wf_table_name t = true -> nonblank (t ++ [":"%char]) = true.
Proof.
  intros H. unfold nonblank. rewrite (strip_header t H).
  destruct t; reflexivity.
Qed.

Lemma field_nonblank (f : Field) :
  wf_field f = true -> nonblank (Field_str f) = true.
Proof.
  intros H. unfold nonblank.
  destruct (field_line_shape f H) as (body & tail & -> & _).
  destruct (wf_field_parts f H) as ([Hn _] & _).
  destruct (name f); [contradiction|reflexivity].
Qed.

Lemma header_plain (t : str) :
  wf_table_name t = true -> plain_line (t ++ [":"%char]).
Proof.
  intros H. unfold wf_table_name in H.
  destruct t as [|w [|c t]]; try discriminate.
  apply andb_true_iff in H. destruct H as [_ H].
  unfold no_linebreak in H. rewrite forallb_forall in H.
  apply Forall_app. split; [|repeat constructor].
  apply Forall_forall. intros x Hx. apply negb_true_iff. apply H. exact Hx.
Qed.

(** The lines of a table that are not blank. *)
Definition table_text (entry : str * Fields) : list str :=
  (fst entry ++ [":"%char]) :: map Field_str (snd entry).

Lemma filter_all {A : Type} (p : A -> bool) (xs : list A) :
  Forall (fun x => p x = true) xs -> filter p xs = xs.
Proof.
  induction 1 as [|x xs Hx Hxs IH]; [reflexivity|].
  cbn [filter]. rewrite Hx, IH. reflexivity.
Qed.

Lemma table_lines_nonblank (entry : str * Fields) :
  wf_entry entry = true ->
  filter nonblank (table_lines entry) = table_text entry.
Proof.
  intros H. destruct (wf_entry_parts entry H) as [Ht Hf].
  unfold table_lines, table_text. cbn [filter].
  rewrite (header_nonblank _ Ht). f_equal.
  destruct (snd entry) as [|f fs]; [reflexivity|].
  apply filter_all. apply Forall_map.
  eapply Forall_impl; [|exact Hf]. apply field_nonblank.
Qed.

Lemma table_lines_plain (entry : str * Fields) :
  wf_entry entry = true -> Forall plain_line (table_lines entry).
Proof.
  intros H. destruct (wf_entry_parts entry H) as [Ht Hf].
  unfold table_lines. constructor; [apply header_plain; exact Ht|].
  destruct (snd entry) as [|f fs]; [repeat constructor|].
  apply Forall_map. eapply Forall_impl; [|exact Hf].
  apply field_str_no_linebreak.
Qed.

Lemma glue_lines (schema : Schema) :
  Forall (fun e => wf_entry e = true) schema ->
  filter nonblank (glue (map table_lines schema))
  = List.concat (map table_text schema)
  /\ Forall plain_line (glue (map table_lines schema)).
Proof.
  intros H. induction H as [|e es He Hes [IH1 IH2]];
    [split; [reflexivity|constructor]|].
  destruct es as [|e' es].
  - cbn [map glue List.concat]. rewrite app_nil_r. split.
    + apply table_lines_nonblank. exact He.
    + apply table_lines_plain. exact He.
  - change (glue (map table_lines (e :: e' :: es)))
      with (table_lines e ++ [] :: glue (map table_lines (e' :: es))).
    split.
    + rewrite filter_app. cbn [filter]. rewrite nonblank_nil, IH1.
      rewrite (table_lines_nonblank e He). reflexivity.
    + apply Forall_app. split; [apply table_lines_plain; exact He|].
      constructor; [constructor|exact IH2].
Qed.

Lemma format_schema_lines (schema : Schema) :
  Forall (fun e => wf_entry e = true) schema ->
  filter nonblank (splitlines (_format_schema schema))
  = List.concat (map table_text schema).
Proof.
  intros H. unfold _format_schema.
  rewrite (map_ext _ _ format_table_lines).
  rewrite <- map_map. rewrite join_glue.
  - destruct (glue_lines schema H) as [G1 G2].
    rewrite splitlines_join by exact G2. exact G1.
  - apply Forall_map. apply Forall_forall. intros e _.
    unfold table_lines. discriminate.
Qed.

(** *** The round trip *)

Lemma append_field_last (tables : list (str * Fields)) (t : str)
  (fs : Fields) (f : Field) :
  append_field (tables ++ [(t, fs)]) f = tables ++ [(t, fs ++ [f])].
Proof.
  induction tables as [|[t' fs'] tables IH]; [reflexivity|].
  cbn [app append_field]. rewrite IH.
  destruct (tables ++ [(t, fs)]) eqn:E; [|reflexivity].
  destruct tables; discriminate.
Qed.

Lemma parse_fields (fs : Fields) :
  Forall (fun f => wf_field f = true) fs ->
  forall (rest : list str) (tables : list (str * Fields)) (seen : list str)
         (t : str) (acc : Fields),
    t <> [] ->
    exists fs',
      Fields_eq fs' fs = true
      /\ parse_lines (map Field_str fs ++ rest) (tables ++ [(t, acc)]) seen t
         = parse_lines rest (tables ++ [(t, acc ++ fs')]) seen t.
Proof.
  induction 1 as [|f fs Hf Hfs IH]; intros rest tables seen t acc Ht.
  - exists []. split; [reflexivity|]. rewrite app_nil_r. reflexivity.
  - destruct (parse_field_line f (map Field_str fs ++ rest)
                (tables ++ [(t, acc)]) seen t Hf Ht) as (f' & Ef & Ep).
    destruct (IH rest tables seen t (acc ++ [f']) Ht) as (fs' & Efs & Eps).
    exists (f' :: fs'). split.
    + unfold Fields_eq. cbn [forallb2]. rewrite Ef. exact Efs.
    + cbn [map app]. rewrite Ep, append_field_last.
      rewrite <- app_assoc in Eps. exact Eps.
Qed.

Lemma table_name_nonempty (t : str) : wf_table_name t = true -> t <> [].
Proof. destruct t; [discriminate|discriminate]. Qed.

Definition entry_eq (a b : str * Fields) : bool :=
  seqb (fst a) (fst b) && Fields_eq (snd a) (snd b).

Lemma parse_tables (schema : Schema) :
  Forall (fun e => wf_entry e = true) schema ->
  forall (tables : list (str * Fields)) (seen : list str) (cur : str),
    distinct (map fst schema) = true ->
    (forall t, In t (map fst schema) -> mem t seen = false) ->
    exists parsed,
      forallb2 entry_eq parsed schema = true
      /\ parse_lines (List.concat (map table_text schema)) tables seen cur
         = inr (tables ++ parsed).
Proof.
  induction 1 as [|[t fs] es He Hes IH]; intros tables seen cur Hd Hs.
  - exists []. split; [reflexivity|]. rewrite app_nil_r. reflexivity.
  - destruct (wf_entry_parts _ He) as [Ht Hf]. cbn [fst snd] in *.
    cbn [map fst distinct] in Hd. apply andb_true_iff in Hd.
    destruct Hd as [Hd1 Hd2]. apply negb_true_iff in Hd1.
    assert (E1 : parse_lines
                   (List.concat (map table_text ((t, fs) :: es)))
                   tables seen cur
                 = parse_lines (map Field_str fs ++ List.concat (map table_text es))
                     (tables ++ [(t, [])]) (t :: seen) t).
    { cbn [map List.concat table_text fst snd app].
      apply parse_header; [exact Ht|apply Hs; left; reflexivity]. }
    destruct (parse_fields fs Hf (List.concat (map table_text es)) tables
                (t :: seen) t [] (table_name_nonempty t Ht))
      as (fs' & Efs & Eps).
    cbn [app] in Eps.
    destruct (IH (tables ++ [(t, fs')]) (t :: seen) t Hd2) as (parsed & Ep & Epl).
    { intros t' Ht'. cbn [mem existsb]. cbn [map] in Hs.
      fold (mem t' seen).
      rewrite (Hs t') by (right; exact Ht'). rewrite orb_false_r.
      apply seqb_neq. intros ->. unfold mem in Hd1.
      assert (X : existsb (seqb t) (map fst es) = true).
      { apply existsb_exists. exists t. split; [exact Ht'|apply seqb_refl]. }
      congruence. }
    exists ((t, fs') :: parsed). split.
    + cbn [forallb2]. unfold entry_eq at 1. cbn [fst snd].
      rewrite seqb_refl, Efs. exact Ep.
    + rewrite E1. etransitivity; [exact Eps|]. etransitivity; [exact Epl|].
      rewrite <- app_assoc. reflexivity.
Qed.

Lemma dict_set_fresh {V : Type} (d : list (str * V)) (k : str) (v : V) :
  mem k (map fst d) = false -> dict_set d k v = d ++ [(k, v)].
Proof.
  induction d as [|[k' w] d IH]; [reflexivity|].
  cbn [map fst mem existsb dict_set app]. intros H.
  apply orb_false_iff in H. destruct H as [H1 H2].
  rewrite seqb_neq in H1.
  assert (E : seqb k' k = false) by (apply seqb_neq; congruence).
  rewrite E. f_equal. apply IH. exact H2.
Qed.

Lemma mem_app (k : str) (a b : list str) :
  mem k (a ++ b) = mem k a || mem k b.
Proof. unfold mem. apply existsb_app. Qed.

Lemma dict_of_items_distinct {V : Type} (items : list (str * V)) :
  distinct (map fst items) = true -> dict_of_items items = items.
Proof.
  unfold dict_of_items.
  assert (G : forall d,
             distinct (map fst items) = true ->
             (forall k, In k (map fst items) -> mem k (map fst d) = false) ->
             fold_left (fun d kv => dict_set d (fst kv) (snd kv)) items d
             = d ++ items).
  { induction items as [|[k v] items IH]; intros d Hd Hf.
    - rewrite app_nil_r. reflexivity.
    - cbn [fold_left fst snd]. cbn [map fst distinct] in Hd.
      apply andb_true_iff in Hd. destruct Hd as [Hd1 Hd2].
      apply negb_true_iff in Hd1.
      rewrite dict_set_fresh by (apply Hf; left; reflexivity).
      rewrite IH; [rewrite <- app_assoc; reflexivity|exact Hd2|].
      intros k' Hk'. rewrite map_app, mem_app.
      rewrite Hf by (right; exact Hk'). cbn [map fst mem existsb].
      rewrite orb_false_r. apply seqb_neq. intros ->.
      assert (X : mem k (map fst items) = true).
      { apply existsb_exists. exists k. split; [exact Hk'|apply seqb_refl]. }
      congruence. }
  intros H. apply (G [] H). intros k _. reflexivity.
Qed.

Lemma entry_eq_names (parsed schema : list (str * Fields)) :
  forallb2 entry_eq parsed schema = true -> map fst parsed = map fst schema.
Proof.
  revert schema. induction parsed as [|p ps IH]; intros [|e es] H;
    try discriminate; [reflexivity|].
  cbn [forallb2] in H. apply andb_true_iff in H. destruct H as [H1 H2].
  unfold entry_eq in H1. apply andb_true_iff in H1. destruct H1 as [H1 _].
  apply seqb_eq in H1. cbn [map]. rewrite H1, (IH es H2). reflexivity.
Qed.

Lemma schema_eq_entries (parsed schema : list (str * Fields)) :
  forallb2 entry_eq parsed schema = true ->
  distinct (map fst schema) = true ->
  Schema_eq parsed schema = true.
Proof.
  intros H Hd. unfold Schema_eq.
  rewrite (forallb2_length _ _ _ H), Nat.eqb_refl. cbn [andb].
  revert schema H Hd. induction parsed as [|p ps IH]; intros [|e es] H Hd;
    try discriminate; [reflexivity|].
  cbn [forallb2] in H. apply andb_true_iff in H. destruct H as [H1 H2].
  pose proof (entry_eq_names _ _ H2) as Hn.
  unfold entry_eq in H1. apply andb_true_iff in H1. destruct H1 as [Hk Hf].
  apply seqb_eq in Hk.
  cbn [map fst distinct] in Hd. apply andb_true_iff in Hd.
  destruct Hd as [Hd1 Hd2]. apply negb_true_iff in Hd1.
  cbn [forallb]. apply andb_true_iff. split.
  - destruct e as [k fs]. cbn [dict_find fst snd] in *. subst k.
    rewrite seqb_refl. exact Hf.
  - specialize (IH es H2 Hd2). rewrite forallb_forall in *.
    intros kv Hkv. specialize (IH kv Hkv).
    destruct e as [k fs]. cbn [dict_find fst] in *.
    assert (E : seqb k (fst kv) = false).
    { apply seqb_neq. intros ->.
      assert (X : mem (fst kv) (map fst es) = true).
      { apply existsb_exists. exists (fst kv). split; [|apply seqb_refl].
        rewrite <- Hn. apply in_map. exact Hkv. }
      congruence. }
    rewrite E. exact IH.
Qed.

Lemma wf_schema_parts (schema : Schema) :
  wf_schema schema = true ->
  distinct (map fst schema) = true
  /\ Forall (fun e => wf_entry e = true) schema.
Proof.
  unfold wf_schema. intros H. apply andb_true_iff in H.
  destruct H as [H1 H2]. split; [exact H1|].
  apply Forall_forall. rewrite forallb_forall in H2. exact H2.
Qed.

(** C6, as the code has it: a schema of distinct, well-formed table
    names and well-formed fields is serialised to a text that parses to
    an equal schema. *)
Theorem parse_format_schema :
  forall schema : Schema,
    wf_schema schema = true ->
    exists parsed,
      _parse_schema (_format_schema schema) = inr parsed
      /\ Schema_eq parsed schema = true.
Proof.
  intros schema H. destruct (wf_schema_parts schema H) as [Hd Hw].
  destruct (parse_tables schema Hw [] [] [] Hd) as (parsed & Ep & El).
  { intros t _. reflexivity. }
  exists parsed. split.
  - unfold _parse_schema. rewrite parse_skip_blanks.
    rewrite (format_schema_lines schema Hw), El. cbn [app bind ret].
    rewrite dict_of_items_distinct; [reflexivity|].
    rewrite (entry_eq_names _ _ Ep). exact Hd.
  - apply schema_eq_entries; assumption.
Qed.

(** C6 as stated fails on a table whose name is one character: the
    header pattern asks for two, the header is taken for a field line
    before any table, and the parser raises. *)
Lemma parse_format_short_name :
  distinct [lit "a"] = true
  /\ _parse_schema
       (_format_schema
          [(lit "a", [Field_init (lit "x") (lit ":integer") None None])])
     = inl (TSDBSchemaError (lit "invalid line in schema file: a:")).
Proof. split; reflexivity. Qed.

Lemma parse_format_schema_witness :
  exists parsed,
    _parse_schema
      (_format_schema
         [(lit "item",
           [Field_init (lit "i-id") (lit ":integer") (Some [lit ":key"])
              (Some (lit "item id"));
            Field_init (lit "i-input") (lit ":string") None None]);
          (lit "fold", [])])
    = inr parsed
    /\ Schema_eq parsed
         [(lit "item",
           [Field_init (lit "i-id") (lit ":integer") (Some [lit ":key"])
              (Some (lit "item id"));
            Field_init (lit "i-input") (lit ":string") None None]);
          (lit "fold", [])]
       = true.
Proof.
  apply parse_format_schema. reflexivity.
Defined.

(** *** What [unescape] makes of every escaped text *)

Definition head_is (b : ascii) (s : str) : bool :=
  match s with
  | d :: _ => ceqb b d
  | [] => false
  end.

Lemma startswith_head (b : ascii) (s : str) : startswith [b] s = head_is b s.
Proof. destruct s as [|d s]; [reflexivity|]. simpl. apply andb_true_r. Qed.

Lemma head_is_eq (b : ascii) (s : str) :
  head_is b s = true -> exists rest, s = b :: rest.
Proof.
  destruct s as [|d s]; [discriminate|]. simpl. intros H.
  apply ceqb_eq in H. subst d. exists s. reflexivity.
Qed.

Lemma unnewline_any (n : nat) (s : str) :
  List.length s <= n ->
  replace_from [BACKSLASH; "n"%char] [NL] 0 (flat_map esc1 s)
  = flat_map esc2 (replace_from [BACKSLASH; "n"%char] [NL] 0 s).
Proof.
  revert s. induction n as [|n IH]; intros s Hn.
  { destruct s; [reflexivity|simpl in Hn; lia]. }
  destruct s as [|c s]; [reflexivity|]. simpl in Hn.
  cbn [flat_map]. char_cases c.
  - change (esc1 BACKSLASH) with [BACKSLASH]. cbn [app].
    destruct (head_is "n" s) eqn:Hd.
    + destruct (head_is_eq _ _ Hd) as (rest & ->). simpl in Hn.
      cbn [flat_map]. change (esc1 "n") with ["n"%char]. cbn [app].
      rewrite !step_match. cbn [app flat_map].
      change (esc2 NL) with [NL]. cbn [app]. rewrite IH by lia. reflexivity.
    + rewrite step_backslash
        by (rewrite (head_esc1 "n" s letter_n); exact Hd).
      rewrite step_backslash by (rewrite startswith_head; exact Hd).
      cbn [flat_map]. change (esc2 BACKSLASH) with [BACKSLASH]. cbn [app].
      rewrite IH by lia. reflexivity.
  - change (esc1 NL) with [BACKSLASH; "n"%char]. cbn [app].
    rewrite step_match. rewrite step_plain by reflexivity.
    cbn [flat_map app]. change (esc2 NL) with [NL]. cbn [app].
    rewrite IH by lia. reflexivity.
  - change (esc1 FIELD_DELIMITER) with [BACKSLASH; "s"%char]. cbn [app].
    rewrite step_backslash by reflexivity.
    rewrite step_plain by reflexivity.
    rewrite (step_plain _ _ FIELD_DELIMITER) by reflexivity.
    cbn [flat_map]. change (esc2 FIELD_DELIMITER) with [BACKSLASH; "s"%char].
    cbn [app]. rewrite IH by lia. reflexivity.
  - rewrite esc1_plain by assumption. cbn [app].
    rewrite !step_plain by assumption. cbn [flat_map].
    rewrite esc2_plain by assumption. cbn [app]. rewrite IH by lia.
    reflexivity.
Qed.

Lemma undelimit_any (n : nat) (s : str) :
  List.length s <= n ->
  replace_from [BACKSLASH; "s"%char] [FIELD_DELIMITER] 0 (flat_map esc2 s)
  = replace_from [BACKSLASH; "s"%char] [FIELD_DELIMITER] 0 s.
Proof.
  revert s. induction n as [|n IH]; intros s Hn.
  { destruct s; [reflexivity|simpl in Hn; lia]. }
  destruct s as [|c s]; [reflexivity|]. simpl in Hn.
  cbn [flat_map]. char_cases c.
  - change (esc2 BACKSLASH) with [BACKSLASH]. cbn [app].
    destruct (head_is "s" s) eqn:Hd.
    + destruct (head_is_eq _ _ Hd) as (rest & ->). simpl in Hn.
      cbn [flat_map]. change (esc2 "s") with ["s"%char]. cbn [app].
      rewrite !step_match. rewrite IH by lia. reflexivity.
    + rewrite step_backslash
        by (rewrite (head_esc2 "s" s letter_s); exact Hd).
      rewrite step_backslash by (rewrite startswith_head; exact Hd).
      rewrite IH by lia. reflexivity.
  - change (esc2 NL) with [NL]. cbn [app].
    rewrite !step_plain by reflexivity. rewrite IH by lia. reflexivity.
  - change (esc2 FIELD_DELIMITER) with [BACKSLASH; "s"%char]. cbn [app].
    rewrite step_match. rewrite step_plain by reflexivity.
    rewrite IH by lia. reflexivity.
  - rewrite esc2_plain by assumption. cbn [app].
    rewrite !step_plain by assumption. rewrite IH by lia. reflexivity.
Qed.

(** What [unescape] makes of an escaped text, pair by pair. *)
Lemma unescape_escape_pairs (s : str) :
  unescape (escape s)
  = replace_from [BACKSLASH; "s"%char] [FIELD_DELIMITER] 0
      (replace_from [BACKSLASH; "n"%char] [NL] 0 s).
Proof.
  rewrite escape_chars. unfold unescape. rewrite undouble.
  unfold replace. cbn [lit list_ascii_of_string]. fold BACKSLASH.
  rewrite (unnewline_any (List.length s)) by lia.
  apply (undelimit_any (List.length (replace_from [BACKSLASH; "n"%char] [NL] 0 s))).
  lia.
Qed.

(** Escaping and unescaping any text gives the text with its own
    backslash-[n] pairs read as newlines and then its backslash-[s]
    pairs read as delimiters: the doubled backslashes are undone, and
    nothing else is. *)
Theorem unescape_escape_reads_pairs (s : str) :
  unescape (escape s)
  = replace (lit "\s") [FIELD_DELIMITER] (replace (lit "\n") [NL] s).
Proof.
  unfold replace. cbn [lit list_ascii_of_string]. fold BACKSLASH.
  apply unescape_escape_pairs.
Qed.

Section Pairs.

Variable e x : ascii.

Let R := replace_from [BACKSLASH; e] [x] 0.

Lemma pair_cases (s : str) :
  (exists rest, s = BACKSLASH :: e :: rest /\ R s = x :: R rest)
  \/ (exists c rest, s = c :: rest /\ R s = c :: R rest
                     /\ no_digraph BACKSLASH e s = no_digraph BACKSLASH e rest)
  \/ s = [].
Proof.
  destruct s as [|c s]; [right; right; reflexivity|].
  destruct (ceqb c BACKSLASH) eqn:B.
  - apply ceqb_eq in B. subst c. destruct (head_is e s) eqn:Hd.
    + destruct (head_is_eq _ _ Hd) as (rest & ->). left. exists rest.
      split; [reflexivity|]. apply step_match.
    + right. left. exists BACKSLASH, s. split; [reflexivity|]. split.
      * apply step_backslash. rewrite startswith_head. exact Hd.
      * cbn [no_digraph]. destruct s as [|d s]; [reflexivity|].
        simpl in Hd. rewrite ceqb_refl, (ceqb_sym d e), Hd. reflexivity.
  - right. left. exists c, s. split; [reflexivity|]. split.
    + apply step_plain. exact B.
    + cbn [no_digraph]. rewrite B. destruct s; reflexivity.
Qed.

Lemma pair_length (n : nat) (s : str) :
  List.length s <= n -> List.length (R s) <= List.length s.
Proof.
  revert s. induction n as [|n IH]; intros s Hn.
  { destruct s; [simpl; lia|simpl in Hn; lia]. }
  destruct (pair_cases s) as [(rest & -> & E)|[(c & rest & -> & E & _)| ->]].
  - rewrite E. simpl in *. specialize (IH rest). lia.
  - rewrite E. simpl in *. specialize (IH rest). lia.
  - simpl. lia.
Qed.

Lemma pair_kept (n : nat) (s : str) :
  List.length s <= n ->
  List.length (R s) = List.length s -> no_digraph BACKSLASH e s = true.
Proof.
  revert s. induction n as [|n IH]; intros s Hn.
  { destruct s; [reflexivity|simpl in Hn; lia]. }
  destruct (pair_cases s) as [(rest & -> & E)|[(c & rest & -> & E & N)| ->]].
  - rewrite E. simpl in *. intros H.
    pose proof (pair_length (List.length rest) rest (le_n _)). lia.
  - rewrite E, N. simpl in *. intros H. apply IH; lia.
  - reflexivity.
Qed.

Lemma pair_none (n : nat) (s : str) :
  List.length s <= n -> no_digraph BACKSLASH e s = true -> R s = s.
Proof.
  revert s. induction n as [|n IH]; intros s Hn.
  { destruct s; [reflexivity|simpl in Hn; lia]. }
  destruct (pair_cases s) as [(rest & -> & E)|[(c & rest & -> & E & N)| ->]].
  - cbn [no_digraph]. rewrite !ceqb_refl. discriminate.
  - rewrite E, N. simpl in Hn. intros H. rewrite IH by (assumption || lia).
    reflexivity.
  - reflexivity.
Qed.

End Pairs.

(** The round trip of [escape] and [unescape] gives a text back exactly
    when the text has no backslash directly followed by [n] or by [s]. *)
Theorem unescape_escape_exactly (s : str) :
  unescape (escape s) = s <-> survives s = true.
Proof.
  split; [|apply unescape_escape].
  rewrite unescape_escape_pairs. unfold survives.
  set (t := replace_from [BACKSLASH; "n"%char] [NL] 0 s).
  intros H.
  pose proof (pair_length "n" NL _ s (le_n _)) as L1. fold t in L1.
  pose proof (pair_length "s" FIELD_DELIMITER _ t (le_n _)) as L2.
  rewrite H in L2.
  assert (E1 : List.length t = List.length s) by lia.
  pose proof (pair_kept "n" NL _ s (le_n _) E1) as N1.
  pose proof (pair_none "n" NL _ s (le_n _) N1) as I1. fold t in I1.
  rewrite I1 in H.
  rewrite N1. cbn [andb].
  apply (pair_kept "s" FIELD_DELIMITER _ s (le_n _)). rewrite H. reflexivity.
Qed.

(** An escaped text holds neither a field delimiter nor a newline,
    whatever the text was. *)
Theorem escape_no_delimiter (s : str) :
  forallb (fun c => negb (ceqb c FIELD_DELIMITER) && negb (ceqb c NL))
    (escape s) = true.
Proof.
  apply forallb_forall. intros c H. apply escape_chars_safe in H.
  destruct H as [H1 H2]. apply ceqb_neq in H1, H2. rewrite H1, H2.
  reflexivity.
Qed.

Lemma esc_char_shape (c : ascii) :
  (esc_char c = [c] /\ c <> BACKSLASH)
  \/ exists d, esc_char c = [BACKSLASH; d]
               /\ (d = BACKSLASH /\ c = BACKSLASH
                   \/ d = "n"%char /\ c = NL
                   \/ d = "s"%char /\ c = FIELD_DELIMITER).
Proof.
  unfold esc_char. char_cases c.
  - right. exists BACKSLASH. split; [reflexivity|]. left. split; reflexivity.
  - right. exists "n"%char. split; [reflexivity|]. right. left.
    split; reflexivity.
  - right. exists "s"%char. split; [reflexivity|]. right. right.
    split; reflexivity.
  - left. split; [reflexivity|]. apply ceqb_neq. exact E.
Qed.

(** [escape] loses nothing: two texts with the same escape are the same
    text. *)
Theorem escape_injective (s t : str) : escape s = escape t -> s = t.
Proof.
  rewrite !escape_chars. revert t.
  induction s as [|c s IH]; intros [|d t]; cbn [flat_map]; intros H.
  - reflexivity.
  - exfalso. destruct (esc_char_shape d) as [[E _]|(x & E & _)];
      rewrite E in H; discriminate.
  - exfalso. destruct (esc_char_shape c) as [[E _]|(x & E & _)];
      rewrite E in H; discriminate.
  - destruct (esc_char_shape c) as [[Ec Nc]|(x & Ec & Cc)];
      destruct (esc_char_shape d) as [[Ed Nd]|(y & Ed & Cd)];
      rewrite Ec, Ed in H; cbn [app] in H.
    + injection H as -> H. f_equal. apply IH. exact H.
    + injection H as -> H. contradiction.
    + injection H as <- H. contradiction.
    + injection H as -> H. f_equal; [|apply IH; exact H].
      destruct Cc as [[X ->]|[[X ->]|[X ->]]];
        destruct Cd as [[Y ->]|[[Y ->]|[Y ->]]];
        try reflexivity; rewrite X in Y; discriminate.
Qed.

Lemma escape_injective_witness :
  lit "C:\new@home" = lit "C:\new@home".
Proof. apply escape_injective. reflexivity. Defined.

(** *** Columns and fields *)

Lemma split_on_length (sep : ascii) (s : str) :
  List.length (split_on sep s) = S (count_occ ascii_dec s sep).
Proof.
  induction s as [|c s IH]; [reflexivity|].
  cbn [split_on count_occ]. destruct (ceqb c sep) eqn:E.
  - apply ceqb_eq in E. subst c.
    destruct (ascii_dec sep sep); [|contradiction]. cbn. rewrite IH. reflexivity.
  - apply ceqb_neq in E. destruct (ascii_dec c sep); [contradiction|].
    destruct (split_on sep s); simpl in *; [discriminate|exact IH].
Qed.

Lemma sequence_length {A : Type} (ms : list (result A)) (xs : list A) :
  sequence ms = inr xs -> List.length xs = List.length ms.
Proof.
  revert xs. induction ms as [|m ms IH]; intros xs H.
  - inversion H. reflexivity.
  - cbn [sequence] in H. destruct m as [e|x]; [discriminate|].
    cbn [bind] in H. destruct (sequence ms) as [e|ys]; [discriminate|].
    inversion H. cbn. f_equal. apply IH. reflexivity.
Qed.

Lemma count_occ_none (s : str) (c : ascii) :
  ~ In c s -> count_occ ascii_dec s c = 0.
Proof. intros H. apply count_occ_not_In. exact H. Qed.

Lemma count_occ_join (sep : ascii) (xs : list str) :
  (forall x, In x xs -> ~ In sep x) ->
  count_occ ascii_dec (join [sep] xs) sep = List.length xs - 1.
Proof.
  induction xs as [|x xs IH]; intros H; [reflexivity|].
  destruct xs as [|y xs].
  - cbn [join]. rewrite count_occ_none by (apply H; left; reflexivity).
    reflexivity.
  - change (join [sep] (x :: y :: xs)) with (x ++ sep :: join [sep] (y :: xs)).
    rewrite count_occ_app, count_occ_cons_eq by reflexivity.
    rewrite count_occ_none by (apply H; left; reflexivity).
    rewrite IH by (intros z Hz; apply H; right; exact Hz).
    cbn [List.length]. lia.
Qed.

Section Counts.

Variable F : Type.
Variable float_of_str : str -> option F.
Variable str_of_float : F -> str.
Variable now : datetime.

(** An integer printed by [format] is read back by [cast] as the same
    integer, whatever its sign, when it has no more digits than [str]
    and [int] convert. *)
Theorem cast_format_integer (z : Z) (dflt : option str) :
  int_fits z = true ->
  cast F float_of_str now (lit ":integer")
    (Some (format F str_of_float (lit ":integer") (VInt z) dflt))
  = inr (VInt z).
Proof.
  intros Hz. cbn [format str_of_value]. unfold cast.
  destruct (str_of_Z z) eqn:E.
  - exfalso. revert E. apply str_of_Z_chars.
  - rewrite <- E, (py_int_str_of_Z z Hz). reflexivity.
Qed.

(** With fields, [decode] counts the columns of a line as its
    delimiters and one: a different number of fields is a [TSDBError],
    and a record that is returned has one value for each field. *)
Theorem decode_counts_columns (line : str) (f : Field) (fs : Fields) :
  let columns := S (count_occ ascii_dec (rstrip_nl line) FIELD_DELIMITER) in
  (columns <> List.length (f :: fs) ->
   decode F float_of_str now line (Some (f :: fs))
   = _mismatched_counts columns (List.length (f :: fs)))
  /\ (forall record,
        decode F float_of_str now line (Some (f :: fs)) = inr record ->
        columns = List.length (f :: fs)
        /\ List.length record = List.length (f :: fs)).
Proof.
  intros columns. unfold decode. cbn [given].
  assert (L : List.length (raw_values line) = columns).
  { unfold raw_values. rewrite length_map. apply split_on_length. }
  rewrite L. split.
  - intros H. apply Nat.eqb_neq in H. rewrite H. reflexivity.
  - intros record H.
    destruct (columns =? List.length (f :: fs)) eqn:E; [|discriminate].
    apply Nat.eqb_eq in E. split; [exact E|].
    cbn [negb] in H. apply sequence_length in H.
    rewrite H, length_map, length_combine, L. lia.
Qed.

(** With fields, [encode] refuses a record of another length with a
    [TSDBError]; a line it returns has one delimiter fewer than there
    are fields and no newline, whatever the values hold. *)
Theorem encode_line_shape (record : Record F) (f : Field) (fs : Fields) :
  (List.length record <> List.length (f :: fs) ->
   encode F str_of_float record (Some (f :: fs))
   = _mismatched_counts (List.length record) (List.length (f :: fs)))
  /\ (forall line,
        encode F str_of_float record (Some (f :: fs)) = inr line ->
        List.length record = List.length (f :: fs)
        /\ count_occ ascii_dec line FIELD_DELIMITER = List.length fs
        /\ count_occ ascii_dec line NL = 0).
Proof.
  unfold encode. cbn [given]. split.
  - intros H. apply Nat.eqb_neq in H. rewrite H. reflexivity.
  - intros line H.
    destruct (List.length record =? List.length (f :: fs)) eqn:E;
      [|discriminate].
    apply Nat.eqb_eq in E. cbn [negb bind ret] in H. injection H as <-.
    split; [exact E|]. split.
    + rewrite count_occ_join.
      * rewrite !length_map. destruct record as [|v record]; [discriminate|].
        cbn [List.length] in *. rewrite length_combine. lia.
      * intros x Hx Hc. apply in_map_iff in Hx. destruct Hx as (r & <- & _).
        apply escape_chars_safe in Hc. destruct Hc as [Hc _]. apply Hc.
        reflexivity.
    + apply count_occ_none. intros Hc. apply in_join in Hc.
      destruct Hc as [Hc|(x & Hx & Hc)].
      * destruct Hc as [Hc|[]]. discriminate.
      * apply in_map_iff in Hx. destruct Hx as (r & <- & _).
        apply escape_chars_safe in Hc. destruct Hc as [_ Hc]. apply Hc.
        reflexivity.
Qed.

End Counts.

Lemma cast_format_integer_witness :
  cast unit no_float epoch (lit ":integer")
    (Some (format unit unit_str (lit ":integer") (VInt (-1024)) None))
  = inr (VInt (-1024)).
Proof. apply cast_format_integer. reflexivity. Defined.

(** *** The index of a relation's columns *)

Lemma dict_find_set {V : Type} (d : list (str * V)) (k key : str) (v : V) :
  dict_find (dict_set d k v) key
  = if seqb k key then Some v else dict_find d key.
Proof.
  induction d as [|[k' w] d IH]; [reflexivity|].
  cbn [dict_set]. destruct (seqb k' k) eqn:E.
  - apply seqb_eq in E. subst k'. cbn [dict_find].
    destruct (seqb k key); reflexivity.
  - cbn [dict_find]. rewrite IH. destruct (seqb k' key) eqn:E2; [|reflexivity].
    apply seqb_eq in E2. subst k'. rewrite seqb_neq in E.
    assert (X : seqb k key = false) by (apply seqb_neq; congruence).
    rewrite X. reflexivity.
Qed.

Lemma field_index_from (fields : Fields) :
  forall (i : nat) (d : list (str * nat)) (key : str),
    match dict_find (make_field_index_from i fields d) key with
    | Some j =>
        (exists f, nth_error fields (j - i) = Some f /\ name f = key
                   /\ i <= j
                   /\ forall j' f', nth_error fields j' = Some f' ->
                                    name f' = key -> i + j' <= j)
        \/ (dict_find d key = Some j
            /\ forall f, In f fields -> name f <> key)
    | None => dict_find d key = None
              /\ forall f, In f fields -> name f <> key
    end.
Proof.
  induction fields as [|f fields IH]; intros i d key.
  - cbn [make_field_index_from]. destruct (dict_find d key).
    + right. split; [reflexivity|]. intros f [].
    + split; [reflexivity|]. intros f [].
  - cbn [make_field_index_from].
    specialize (IH (S i) (dict_set d (name f) i) key).
    destruct (dict_find (make_field_index_from (S i) fields
                           (dict_set d (name f) i)) key) as [j|].
    + destruct IH as [(g & Hg & Hn & Hi & Hlast)|[Hd Hnone]].
      * left. exists g. split; [|split; [exact Hn|split; [lia|]]].
        { replace (j - i) with (S (j - S i)) by lia. exact Hg. }
        intros j' f' Hj' Hf'. destruct j' as [|j'].
        { lia. }
        cbn [nth_error] in Hj'. specialize (Hlast j' f' Hj' Hf'). lia.
      * rewrite dict_find_set in Hd. destruct (seqb (name f) key) eqn:E.
        { left. apply seqb_eq in E. inversion Hd. subst j.
          exists f. rewrite Nat.sub_diag. split; [reflexivity|].
          split; [exact E|]. split; [lia|].
          intros j' f' Hj' Hf'. destruct j' as [|j']; [lia|].
          cbn [nth_error] in Hj'. apply nth_error_In in Hj'.
          exfalso. apply (Hnone f' Hj' Hf'). }
        { right. split; [exact Hd|]. intros g [<-|Hg].
          - apply seqb_neq. exact E.
          - apply Hnone. exact Hg. }
    + destruct IH as [Hd Hnone]. rewrite dict_find_set in Hd.
      destruct (seqb (name f) key) eqn:E; [discriminate|].
      split; [exact Hd|]. intros g [<-|Hg].
      * apply seqb_neq. exact E.
      * apply Hnone. exact Hg.
Qed.

(** [column_index] gives the place of the last field of that name in
    the relation, and raises [KeyError] exactly when no field has the
    name. *)
Theorem column_index_last (n : str) (fields : Fields) (key : str) :
  match column_index (Relation_init n fields) key with
  | inr i =>
      (exists f, nth_error fields i = Some f /\ name f = key)
      /\ forall j f', nth_error fields j = Some f' -> name f' = key -> j <= i
  | inl e => e = KeyError key /\ forall f, In f fields -> name f <> key
  end.
Proof.
  unfold column_index, Relation_init, make_field_index. cbn [_field_index].
  pose proof (field_index_from fields 0 [] key) as H.
  destruct (dict_find (make_field_index_from 0 fields []) key) as [j|].
  - destruct H as [(f & Hf & Hn & _ & Hlast)|[Hd _]]; [|discriminate].
    rewrite Nat.sub_0_r in Hf. split; [exists f; split; assumption|].
    intros j' f' Hj' Hf'. apply (Hlast j' f' Hj' Hf').
  - destruct H as [_ H]. split; [reflexivity|exact H].
Qed.

Lemma sequence_first_error {A B : Type} (g : A -> result B)
  (known : list A) (x : A) (rest : list A) (e : exn) :
  Forall (fun a => exists b, g a = inr b) known ->
  g x = inl e ->
  sequence (map g (known ++ x :: rest)) = inl e.
Proof.
  intros Hk Hx. induction Hk as [|a known (b & Ha) _ IH].
  - cbn [app map sequence]. rewrite Hx. reflexivity.
  - cbn [app map sequence]. rewrite Ha. cbn [bind]. rewrite IH. reflexivity.
Qed.

Lemma column_index_known (n : str) (fields : Fields) (key : str) :
  (exists f, In f fields /\ name f = key) ->
  exists i, column_index (Relation_init n fields) key = inr i.
Proof.
  intros (f & Hf & Hn).
  unfold column_index, Relation_init, make_field_index. cbn [_field_index].
  pose proof (field_index_from fields 0 [] key) as H.
  destruct (dict_find (make_field_index_from 0 fields []) key) as [j|].
  - exists j. reflexivity.
  - destruct H as [_ H]. exfalso. apply (H f Hf Hn).
Qed.

Lemma column_index_unknown (n : str) (fields : Fields) (key : str) :
  (forall f, In f fields -> name f <> key) ->
  column_index (Relation_init n fields) key = inl (KeyError key).
Proof.
  intros Hnone.
  unfold column_index, Relation_init, make_field_index. cbn [_field_index].
  pose proof (field_index_from fields 0 [] key) as H.
  destruct (dict_find (make_field_index_from 0 fields []) key) as [j|];
    [|reflexivity].
  destruct H as [(f & Hf & Hn & _)|[Hd _]]; [|discriminate].
  exfalso. apply nth_error_In in Hf. apply (Hnone f Hf Hn).
Qed.

Section Selecting.

Variable F : Type.
Variable float_of_str : str -> option F.
Variable now : datetime.

(** [select] with a name that no field of the relation has yields no
    record and raises [TSDBError] for the first such name, whatever the
    files of the table are. *)
Theorem select_unknown_field (st : tablefiles) (n : str) (fields : Fields)
  (known : list str) (key : str) (rest : list str) :
  Forall (fun x => exists f, In f fields /\ name f = x) known ->
  (forall f, In f fields -> name f <> key) ->
  select F float_of_str now st (Relation_init n fields) (known ++ key :: rest)
  = ([], Some (TSDBError (lit "no such field: " ++ key))).
Proof.
  intros Hk Hnone. unfold select.
  rewrite (sequence_first_error _ known key rest
             (TSDBError (lit "no such field: " ++ key))).
  - destruct known; reflexivity.
  - eapply Forall_impl; [|exact Hk]. intros x Hx.
    destruct (column_index_known n fields x Hx) as (i & ->).
    exists i. reflexivity.
  - rewrite (column_index_unknown n fields key Hnone). reflexivity.
Qed.

End Selecting.

Lemma select_unknown_field_witness :
  select unit no_float epoch (mkFiles None None)
    (Relation_init (lit "item")
       [Field_init (lit "i-id") (lit ":integer") (Some [lit ":key"]) None;
        Field_init (lit "i-input") (lit ":string") None None])
    ([lit "i-id"] ++ lit "i-length" :: [lit "i-input"])
  = ([], Some (TSDBError (lit "no such field: " ++ lit "i-length"))).
Proof.
  apply select_unknown_field.
  - constructor; [|constructor]. eexists. split; [left; reflexivity|reflexivity].
  - intros f [<-|[<-|[]]]; discriminate.
Defined.

(** *** More of the schema parser *)

Lemma parse_header_seen (t : str) (rest : list str)
  (tables : list (str * Fields)) (seen : list str) (cur : str) :
  wf_table_name t = true -> mem t seen = true ->
  parse_lines ((t ++ [":"%char]) :: rest) tables seen cur
  = inl (TSDBSchemaError (lit "table " ++ t ++ lit " redefined")).
Proof.
  intros Hwf Hseen. cbn [parse_lines]. rewrite (strip_header t Hwf).
  unfold wf_table_name in Hwf.
  destruct t as [|w [|c t]]; try discriminate.
  apply andb_true_iff in Hwf. destruct Hwf as [Hw Hnl].
  assert (Hrest : Forall (fun x => is_linebreak x = false) (c :: t)).
  { unfold no_linebreak in Hnl. rewrite forallb_forall in Hnl.
    apply Forall_forall. intros x Hx.
    apply negb_true_iff. apply Hnl. right. exact Hx. }
  change ((w :: c :: t) ++ [":"%char]) with (w :: (c :: t) ++ [":"%char]).
  rewrite (table_re_header w (c :: t) Hw); [|discriminate|exact Hrest].
  cbn [m_caps group String.eqb Ascii.eqb Bool.eqb the].
  rewrite Hseen. reflexivity.
Qed.

(** The tables of a serialised schema, parsed with lines still to come:
    the parser goes on with every table name seen. *)
Lemma parse_tables_then (schema : Schema) :
  Forall (fun e => wf_entry e = true) schema ->
  forall (rest : list str) (tables : list (str * Fields)) (seen : list str)
         (cur : str),
    distinct (map fst schema) = true ->
    (forall t, In t (map fst schema) -> mem t seen = false) ->
    exists parsed seen' cur',
      forallb2 entry_eq parsed schema = true
      /\ (forall t, In t (map fst schema) -> mem t seen' = true)
      /\ (forall t, mem t seen = true -> mem t seen' = true)
      /\ parse_lines (List.concat (map table_text schema) ++ rest)
           tables seen cur
         = parse_lines rest (tables ++ parsed) seen' cur'.
Proof.
  induction 1 as [|[t fs] es He Hes IH]; intros rest tables seen cur Hd Hs.
  - exists [], seen, cur. split; [reflexivity|].
    split; [intros t []|]. split; [intros t Ht; exact Ht|].
    rewrite app_nil_r. reflexivity.
  - destruct (wf_entry_parts _ He) as [Ht Hf]. cbn [fst snd] in *.
    cbn [map fst distinct] in Hd. apply andb_true_iff in Hd.
    destruct Hd as [Hd1 Hd2]. apply negb_true_iff in Hd1.
    assert (E1 : parse_lines
                   (List.concat (map table_text ((t, fs) :: es)) ++ rest)
                   tables seen cur
                 = parse_lines
                     (map Field_str fs
                      ++ (List.concat (map table_text es) ++ rest))
                     (tables ++ [(t, [])]) (t :: seen) t).
    { cbn [map List.concat table_text fst snd app].
      rewrite <- app_assoc.
      apply parse_header; [exact Ht|apply Hs; left; reflexivity]. }
    destruct (parse_fields fs Hf (List.concat (map table_text es) ++ rest)
                tables (t :: seen) t [] (table_name_nonempty t Ht))
      as (fs' & Efs & Eps).
    cbn [app] in Eps.
    destruct (IH rest (tables ++ [(t, fs')]) (t :: seen) t Hd2)
      as (parsed & seen' & cur' & Ep & Hin & Hmono & Epl).
    { intros t' Ht'. cbn [mem existsb]. cbn [map] in Hs.
      fold (mem t' seen).
      rewrite (Hs t') by (right; exact Ht'). rewrite orb_false_r.
      apply seqb_neq. intros ->. unfold mem in Hd1.
      assert (X : existsb (seqb t) (map fst es) = true).
      { apply existsb_exists. exists t. split; [exact Ht'|apply seqb_refl]. }
      congruence. }
    exists ((t, fs') :: parsed), seen', cur'. split; [|split; [|split]].
    + cbn [forallb2]. unfold entry_eq at 1. cbn [fst snd].
      rewrite seqb_refl, Efs. exact Ep.
    + intros t' [<-|Ht'].
      * apply Hmono. cbn [mem existsb]. rewrite seqb_refl. reflexivity.
      * apply Hin. exact Ht'.
    + intros t' Ht'. apply Hmono. cbn [mem existsb]. fold (mem t' seen).
      rewrite Ht'. apply orb_true_r.
    + rewrite E1. etransitivity; [exact Eps|]. etransitivity; [exact Epl|].
      rewrite <- app_assoc. reflexivity.
Qed.

Lemma mem_in (t : str) (xs : list str) : mem t xs = true -> In t xs.
Proof.
  unfold mem. intros H. apply existsb_exists in H.
  destruct H as (x & Hx & E). apply seqb_eq in E. subst x. exact Hx.
Qed.

(** A serialised schema followed by a header that names one of its
    tables again is refused with [TSDBSchemaError]: a table is defined
    once. *)
Theorem parse_schema_redefined (schema : Schema) (t : str) :
  wf_schema schema = true ->
  mem t (map fst schema) = true ->
  _parse_schema (_format_schema schema ++ [NL] ++ t ++ lit ":")
  = inl (TSDBSchemaError (lit "table " ++ t ++ lit " redefined")).
Proof.
  intros H Ht. destruct (wf_schema_parts schema H) as [Hd Hw].
  apply mem_in in Ht.
  assert (Hwt : wf_table_name t = true).
  { apply in_map_iff in Ht. destruct Ht as (e & <- & He).
    rewrite Forall_forall in Hw. apply (wf_entry_parts e (Hw e He)). }
  assert (Hlines : filter nonblank
                     (splitlines (_format_schema schema ++ [NL] ++ t ++ lit ":"))
                   = List.concat (map table_text schema) ++ [t ++ [":"%char]]).
  { unfold _format_schema.
    rewrite (map_ext _ _ format_table_lines).
    rewrite <- map_map. rewrite join_glue.
    - destruct (glue_lines schema Hw) as [G1 G2].
      assert (Hne : glue (map table_lines schema) <> []).
      { destruct schema as [|e es]; [destruct Ht|].
        cbn [map]. apply glue_nonempty. unfold table_lines. discriminate. }
      change (lit ":") with [":"%char].
      change (t ++ [":"%char]) with (join [NL] [t ++ [":"%char]]) at 1.
      rewrite <- join_app by (exact Hne || discriminate).
      rewrite splitlines_join.
      + rewrite filter_app, G1. cbn [filter].
        rewrite (header_nonblank t Hwt). reflexivity.
      + apply Forall_app. split; [exact G2|].
        constructor; [apply header_plain; exact Hwt|constructor].
    - apply Forall_map. apply Forall_forall. intros e _.
      unfold table_lines. discriminate. }
  unfold _parse_schema. rewrite parse_skip_blanks, Hlines.
  destruct (parse_tables_then schema Hw [t ++ [":"%char]] [] [] [] Hd)
    as (parsed & seen' & cur' & _ & Hin & _ & El).
  { intros t' _. reflexivity. }
  rewrite El. rewrite (parse_header_seen t [] _ seen' cur' Hwt (Hin t Ht)).
  reflexivity.
Qed.

Lemma parse_schema_redefined_witness :
  _parse_schema
    (_format_schema
       [(lit "item",
         [Field_init (lit "i-id") (lit ":integer") (Some [lit ":key"]) None]);
        (lit "parse", [])]
     ++ [NL] ++ lit "item" ++ lit ":")
  = inl (TSDBSchemaError (lit "table " ++ lit "item" ++ lit " redefined")).
Proof.
  apply parse_schema_redefined; reflexivity.
Defined.

(** Lines that are empty or hold only blanks do not count: a schema
    text parses to the same result, or the same error, with them taken
    out. *)
Theorem parse_schema_blank_lines (lines : list str) :
  Forall plain_line lines ->
  _parse_schema (join [NL] lines)
  = _parse_schema (join [NL] (filter nonblank lines)).
Proof.
  intros H. unfold _parse_schema.
  rewrite parse_skip_blanks, (parse_skip_blanks (splitlines (join [NL] (filter nonblank lines)))).
  rewrite !splitlines_join.
  - assert (E : filter nonblank (filter nonblank lines) = filter nonblank lines).
    { clear H. induction lines as [|l ls IH]; [reflexivity|].
      cbn [filter]. destruct (nonblank l) eqn:B; [|exact IH].
      cbn [filter]. rewrite B, IH. reflexivity. }
    rewrite E. reflexivity.
  - apply Forall_forall. intros l Hl. apply filter_In in Hl.
    rewrite Forall_forall in H. apply H. apply Hl.
  - exact H.
Qed.

Lemma parse_schema_blank_lines_witness :
  _parse_schema
    (join [NL] [[]; lit "item:"; lit "   "; lit "  i-id :integer :key";
                []; lit "  i-input :string"])
  = _parse_schema
      (join [NL]
         (filter nonblank
            [[]; lit "item:"; lit "   "; lit "  i-id :integer :key";
             []; lit "  i-input :string"])).
Proof.
  apply parse_schema_blank_lines. repeat constructor.
Defined.

(** *** Dates as [format] writes them *)

Definition digits (n : nat) (w : str) : Prop :=
  List.length w = n /\ Forall (fun c => is_digit c = true) w.

Lemma digit_not (c d : ascii) :
  is_digit d = true -> is_digit c = false -> ceqb c d = false.
Proof.
  intros Hd Hc. apply ceqb_neq. intros ->. congruence.
Qed.

Lemma digits_head (n : nat) (w rest : str) (c : ascii) :
  digits (S n) w -> is_digit c = false ->
  match w ++ rest with d :: _ => ceqb c d = false | [] => True end.
Proof.
  intros [Hl Hd] Hc. destruct w as [|d w]; [discriminate|].
  inversion Hd; subst. cbn [app]. apply digit_not; assumption.
Qed.

Lemma digits_no_space (n : nat) (w rest : str) :
  digits (S n) w ->
  match w ++ rest with d :: _ => is_space d = false | [] => True end.
Proof.
  intros [Hl Hd]. destruct w as [|d w]; [discriminate|].
  inversion Hd; subst. cbn [app]. apply digit_not_space. assumption.
Qed.

Section DayMonthYear.

(** The parts of a date: the day in one or two digits, the month in
    three letters, the year in four digits, and the time, if it is
    there, in three pairs of digits. *)
Variables D mon Y1 Y2 hh mm ss : str.
Hypothesis D_digits : Forall (fun c => is_digit c = true) D.
Hypothesis D_length : 1 <= List.length D <= 2.
Hypothesis mon_letters : Forall (fun c => is_word c = true) mon.
Hypothesis mon_length : List.length mon = 3.
Hypothesis mon_head :
  match mon with c :: _ => is_digit c = false | [] => True end.
Hypothesis Y1_digits : digits 2 Y1.
Hypothesis Y2_digits : digits 2 Y2.
Hypothesis hh_digits : digits 2 hh.
Hypothesis mm_digits : digits 2 mm.
Hypothesis ss_digits : digits 2 ss.

Lemma takes_digits (n : nat) (w rest : str) :
  digits n w -> takes false (Times Digit n n) w rest same.
Proof.
  intros [Hl Hd]. unfold Times, Digit. rewrite <- Hl.
  apply takes_exactly; [exact Hd|lia].
Qed.

Lemma takes_day (rest : str) :
  takes false (Opt (Seq (Grp "d" (Times Digit 1 2)) (Chr "-")))
    (D ++ ["-"%char]) rest (fun cs => ("d"%string, D) :: cs).
Proof.
  apply takes_opt.
  apply (takes_seq false _ _ D ["-"%char] rest
           (fun cs => ("d"%string, D) :: same cs) same).
  - apply (takes_grp false "d" _ D _ same). unfold Times, Digit.
    apply takes_run; [exact D_digits|lia|lia|reflexivity].
  - apply takes_chr.
Qed.

Lemma takes_month (rest : str) :
  takes false (Grp "m" month_re) mon rest (fun cs => ("m"%string, mon) :: cs).
Proof.
  apply (takes_grp false "m" _ mon _ same). unfold month_re.
  apply takes_right.
  - unfold Times, Digit. apply (fails_short false is_digit 1 (Some 2) []).
    + constructor.
    + cbn. lia.
    + destruct mon as [|c mon']; [discriminate|]. exact mon_head.
  - unfold Times, Word. rewrite <- mon_length.
    apply takes_exactly; [exact mon_letters|lia].
Qed.

Lemma takes_year (rest : str) :
  takes false (Grp "y" (Seq (Times Digit 2 2) (Opt (Times Digit 2 2))))
    (Y1 ++ Y2) rest (fun cs => ("y"%string, Y1 ++ Y2) :: cs).
Proof.
  apply (takes_grp false "y" _ (Y1 ++ Y2) _ same).
  apply (takes_seq false _ _ Y1 Y2 rest same same).
  - apply takes_digits. exact Y1_digits.
  - apply takes_opt. apply takes_digits. exact Y2_digits.
Qed.

Lemma takes_no_time : takes false time_re [] [] same.
Proof.
  unfold time_re. apply takes_none. intros A pos cs k. reflexivity.
Qed.

Lemma takes_time :
  takes false time_re
    ([SPACE] ++ hh ++ [":"%char] ++ mm ++ ([":"%char] ++ ss) ++ [])
    []
    (fun cs => ("S"%string, ss) :: ("M"%string, mm) :: ("H"%string, hh) :: cs).
Proof.
  unfold time_re. apply takes_opt. cbn [seqs].
  apply (takes_seq false _ _ [SPACE] _ [] same
           (fun cs => ("S"%string, ss) :: ("M"%string, mm)
                      :: ("H"%string, hh) :: cs)).
  { unfold Star, Space. apply takes_run.
    - repeat constructor.
    - cbn. lia.
    - exact I.
    - rewrite <- app_assoc. apply (digits_no_space 1 hh). exact hh_digits. }
  change (hh ++ [":"%char] ++ mm ++ ([":"%char] ++ ss) ++ [])
    with ([] ++ hh ++ [":"%char] ++ mm ++ ([":"%char] ++ ss) ++ []).
  apply (takes_seq false _ _ [] _ [] same
           (fun cs => ("S"%string, ss) :: ("M"%string, mm)
                      :: ("H"%string, hh) :: cs)).
  { apply takes_none. apply fails_chr. rewrite <- app_assoc.
    apply (digits_head 1 hh _ "("%char hh_digits). reflexivity. }
  apply (takes_seq false _ _ hh _ [] (fun cs => ("H"%string, hh) :: cs)
           (fun cs => ("S"%string, ss) :: ("M"%string, mm) :: cs)).
  { apply (takes_grp false "H" _ hh _ same). apply takes_digits.
    exact hh_digits. }
  apply (takes_seq false _ _ [":"%char] _ [] same
           (fun cs => ("S"%string, ss) :: ("M"%string, mm) :: cs)).
  { apply takes_chr. }
  apply (takes_seq false _ _ mm _ [] (fun cs => ("M"%string, mm) :: cs)
           (fun cs => ("S"%string, ss) :: cs)).
  { apply (takes_grp false "M" _ mm _ same). apply takes_digits.
    exact mm_digits. }
  apply (takes_seq false _ _ ([":"%char] ++ ss) [] []
           (fun cs => ("S"%string, ss) :: cs) same).
  { apply takes_opt.
    apply (takes_seq false _ _ [":"%char] ss _ same
             (fun cs => ("S"%string, ss) :: cs)).
    - apply takes_chr.
    - apply (takes_grp false "S" _ ss _ same). apply takes_digits.
      exact ss_digits. }
  apply takes_none. apply fails_chr. exact I.
Qed.

(** The text of a date without a time, and the groups the day-first
    pattern finds in it. *)
Definition date_text : str :=
  (D ++ ["-"%char]) ++ mon ++ ["-"%char] ++ (Y1 ++ Y2) ++ [].

Definition date_time_text : str :=
  (D ++ ["-"%char]) ++ mon ++ ["-"%char] ++ (Y1 ++ Y2)
  ++ ([SPACE] ++ hh ++ [":"%char] ++ mm ++ ([":"%char] ++ ss) ++ []).

Lemma dmy_date :
  re_match false dmy_re date_text
  = Some (MObj 0 (List.length date_text)
            [("y"%string, Y1 ++ Y2); ("m"%string, mon); ("d"%string, D)]).
Proof.
  apply (takes_match dmy_re date_text
           (fun cs => ("y"%string, Y1 ++ Y2) :: ("m"%string, mon)
                      :: ("d"%string, D) :: cs)).
  unfold dmy_re, date_text. cbn [seqs].
  apply (takes_seq false _ _ (D ++ ["-"%char]) _ []
           (fun cs => ("d"%string, D) :: cs)
           (fun cs => ("y"%string, Y1 ++ Y2) :: ("m"%string, mon) :: cs));
    [apply takes_day|].
  apply (takes_seq false _ _ mon _ []
           (fun cs => ("m"%string, mon) :: cs)
           (fun cs => ("y"%string, Y1 ++ Y2) :: cs));
    [apply takes_month|].
  apply (takes_seq false _ _ ["-"%char] _ [] same
           (fun cs => ("y"%string, Y1 ++ Y2) :: cs));
    [apply takes_chr|].
  apply (takes_seq false _ _ (Y1 ++ Y2) [] []
           (fun cs => ("y"%string, Y1 ++ Y2) :: cs) same);
    [apply takes_year|].
  apply takes_no_time.
Qed.

Lemma dmy_date_time :
  re_match false dmy_re date_time_text
  = Some (MObj 0 (List.length date_time_text)
            [("S"%string, ss); ("M"%string, mm); ("H"%string, hh);
             ("y"%string, Y1 ++ Y2); ("m"%string, mon); ("d"%string, D)]).
Proof.
  apply (takes_match dmy_re date_time_text
           (fun cs => ("S"%string, ss) :: ("M"%string, mm)
                      :: ("H"%string, hh) :: ("y"%string, Y1 ++ Y2)
                      :: ("m"%string, mon) :: ("d"%string, D) :: cs)).
  unfold dmy_re, date_time_text. cbn [seqs].
  apply (takes_seq false _ _ (D ++ ["-"%char]) _ []
           (fun cs => ("d"%string, D) :: cs)
           (fun cs => ("S"%string, ss) :: ("M"%string, mm)
                      :: ("H"%string, hh) :: ("y"%string, Y1 ++ Y2)
                      :: ("m"%string, mon) :: cs));
    [apply takes_day|].
  apply (takes_seq false _ _ mon _ []
           (fun cs => ("m"%string, mon) :: cs)
           (fun cs => ("S"%string, ss) :: ("M"%string, mm)
                      :: ("H"%string, hh) :: ("y"%string, Y1 ++ Y2) :: cs));
    [apply takes_month|].
  apply (takes_seq false _ _ ["-"%char] _ [] same
           (fun cs => ("S"%string, ss) :: ("M"%string, mm)
                      :: ("H"%string, hh) :: ("y"%string, Y1 ++ Y2) :: cs));
    [apply takes_chr|].
  apply (takes_seq false _ _ (Y1 ++ Y2) _ []
           (fun cs => ("y"%string, Y1 ++ Y2) :: cs)
           (fun cs => ("S"%string, ss) :: ("M"%string, mm)
                      :: ("H"%string, hh) :: cs));
    [apply takes_year|].
  apply takes_time.
Qed.

End DayMonthYear.

Section DayFirst.

Variable D : str.
Hypothesis D_digits : Forall (fun c => is_digit c = true) D.
Hypothesis D_length : 1 <= List.length D <= 2.

(** Neither of the two patterns tried first takes the text: it begins
    with a digit, and with fewer than four. *)
Lemma now_fails (rest : str) : fails false now_re ((D ++ ["-"%char]) ++ rest).
Proof.
  unfold now_re.
  assert (H : forall c, is_digit c = false ->
                        match (D ++ ["-"%char]) ++ rest with
                        | d :: _ => ceqb c d = false
                        | [] => True
                        end).
  { intros c Hc. destruct D as [|d D']; [cbn in D_length; lia|].
    inversion D_digits; subst. cbn [app]. apply digit_not; assumption. }
  apply fails_skipped.
  - apply fails_chr. apply H. reflexivity.
  - apply fails_grp. apply fails_alt.
    + unfold Lit. cbn [lit list_ascii_of_string map seqs].
      apply fails_first. apply fails_chr. apply H. reflexivity.
    + unfold Lit. cbn [lit list_ascii_of_string map seqs].
      apply fails_first. apply fails_chr. apply H. reflexivity.
Qed.

Lemma ymd_fails (rest : str) : fails false ymd_re ((D ++ ["-"%char]) ++ rest).
Proof.
  unfold ymd_re. cbn [seqs]. apply fails_first. apply fails_grp.
  unfold Times, Digit. rewrite <- app_assoc.
  apply fails_short; [exact D_digits|lia|reflexivity].
Qed.

End DayFirst.

(** *** Numbers of a date as texts *)

Definition all_digits (w : str) : bool := forallb is_digit w.

Lemma all_digits_forall (w : str) :
  all_digits w = true -> Forall (fun c => is_digit c = true) w.
Proof.
  intros H. apply Forall_forall. unfold all_digits in H.
  rewrite forallb_forall in H. exact H.
Qed.

Definition reads_back (w : str) (z : Z) : bool :=
  match py_int w with
  | Some v => (v =? z)%Z
  | None => false
  end.

Lemma reads_back_int (w : str) (z : Z) :
  reads_back w z = true -> py_int w = Some z.
Proof.
  unfold reads_back. destruct (py_int w) as [v|]; [|discriminate].
  intros H. apply Z.eqb_eq in H. subst v. reflexivity.
Qed.

(** A number of two digits, as [%H], [%M] and [%S] print it. *)
Definition pair_ok (n : nat) : bool :=
  let w := zpad 2 (Z.of_nat n) in
  (List.length w =? 2) && all_digits w && reads_back w (Z.of_nat n).

Lemma pairs_ok : forallb pair_ok (seq 0 100) = true.
Proof. vm_compute. reflexivity. Qed.

Lemma pair_digits (z : Z) :
  (0 <= z < 100)%Z ->
  digits 2 (zpad 2 z) /\ py_int (zpad 2 z) = Some z.
Proof.
  intros Hz. pose proof pairs_ok as H. rewrite forallb_forall in H.
  specialize (H (Z.to_nat z)). rewrite in_seq in H.
  specialize (H ltac:(lia)). unfold pair_ok in H.
  rewrite Z2Nat.id in H by lia.
  apply andb_true_iff in H. destruct H as [H H3].
  apply andb_true_iff in H. destruct H as [H1 H2].
  apply Nat.eqb_eq in H1. split; [split|].
  - exact H1.
  - apply all_digits_forall. exact H2.
  - apply reads_back_int. exact H3.
Qed.

(** The numbers of a date are far below the limit of [int]. *)
Lemma smalls_fit :
  forallb (fun n => int_fits (Z.of_nat n)) (seq 0 (100 * 100)) = true.
Proof. vm_compute. reflexivity. Qed.

Lemma small_fits (z : Z) : (0 <= z <= 9999)%Z -> int_fits z = true.
Proof.
  intros Hz. pose proof smalls_fit as H. rewrite forallb_forall in H.
  specialize (H (Z.to_nat z)). rewrite in_seq in H.
  specialize (H ltac:(lia)). rewrite Z2Nat.id in H by lia. exact H.
Qed.

(** A year of four digits. *)
Definition year_ok (n : nat) : bool :=
  match str_of_Z (Z.of_nat n) with
  | [a; b; c; d] => all_digits [a; b; c; d]
  | _ => false
  end.

Lemma years_ok : forallb year_ok (seq (10 * 100) (90 * 100)) = true.
Proof. vm_compute. reflexivity. Qed.

Lemma year_digits (z : Z) :
  (1000 <= z <= 9999)%Z ->
  exists Y1 Y2, str_of_Z z = Y1 ++ Y2 /\ digits 2 Y1 /\ digits 2 Y2.
Proof.
  intros Hz. pose proof years_ok as H. rewrite forallb_forall in H.
  specialize (H (Z.to_nat z)). rewrite in_seq in H.
  specialize (H ltac:(lia)). unfold year_ok in H.
  rewrite Z2Nat.id in H by lia.
  destruct (str_of_Z z) as [|a [|b [|c [|d [|e w]]]]]; try discriminate.
  apply all_digits_forall in H.
  inversion H as [|? ? Ha H1]; subst. inversion H1 as [|? ? Hb H2]; subst.
  exists [a; b], [c; d]. split; [reflexivity|].
  split; split; try reflexivity; [repeat constructor; assumption|exact H2].
Qed.

(** The name of a month: three letters that the table of months takes
    back to the number. *)
Definition month_ok (n : nat) : bool :=
  let w := month_name (Z.of_nat n) in
  (List.length w =? 3) && forallb is_word w
  && match w with c :: _ => negb (is_digit c) | [] => false end
  && match dict_find _MONTHS_number (lower w) with
     | Some v => (v =? Z.of_nat n)%Z
     | None => false
     end.

Lemma months_ok : forallb month_ok (seq 1 12) = true.
Proof. vm_compute. reflexivity. Qed.

Lemma month_letters (z : Z) :
  (1 <= z <= 12)%Z ->
  List.length (month_name z) = 3
  /\ Forall (fun c => is_word c = true) (month_name z)
  /\ match month_name z with c :: _ => is_digit c = false | [] => True end
  /\ dict_find _MONTHS_number (lower (month_name z)) = Some z.
Proof.
  intros Hz. pose proof months_ok as H. rewrite forallb_forall in H.
  specialize (H (Z.to_nat z)). rewrite in_seq in H.
  specialize (H ltac:(lia)). unfold month_ok in H.
  rewrite Z2Nat.id in H by lia.
  apply andb_true_iff in H. destruct H as [H H4].
  apply andb_true_iff in H. destruct H as [H H3].
  apply andb_true_iff in H. destruct H as [H1 H2].
  apply Nat.eqb_eq in H1. repeat split.
  - exact H1.
  - apply Forall_forall. rewrite forallb_forall in H2. exact H2.
  - destruct (month_name z); [exact I|]. apply negb_true_iff. exact H3.
  - destruct (dict_find _MONTHS_number (lower (month_name z))) as [v|];
      [|discriminate].
    apply Z.eqb_eq in H4. subst v. reflexivity.
Qed.

(** The day of a month, in one or two digits. *)
Definition day_ok (n : nat) : bool :=
  let w := str_of_Z (Z.of_nat n) in
  (1 <=? List.length w) && (List.length w <=? 2) && all_digits w.

Lemma days_ok : forallb day_ok (seq 1 31) = true.
Proof. vm_compute. reflexivity. Qed.

Lemma day_digits (z : Z) :
  (1 <= z <= 31)%Z ->
  Forall (fun c => is_digit c = true) (str_of_Z z)
  /\ 1 <= List.length (str_of_Z z) <= 2.
Proof.
  intros Hz. pose proof days_ok as H. rewrite forallb_forall in H.
  specialize (H (Z.to_nat z)). rewrite in_seq in H.
  specialize (H ltac:(lia)). unfold day_ok in H.
  rewrite Z2Nat.id in H by lia.
  apply andb_true_iff in H. destruct H as [H H3].
  apply andb_true_iff in H. destruct H as [H1 H2].
  apply Nat.leb_le in H1, H2. split; [|lia].
  apply all_digits_forall. exact H3.
Qed.

(** *** The fields of [strptime] *)

Lemma Z_cases (P : Z -> Prop) (lo : Z) (n : nat) :
  (forall i, i < n -> P (lo + Z.of_nat i)%Z) ->
  forall z, (lo <= z < lo + Z.of_nat n)%Z -> P z.
Proof.
  intros H z Hz.
  replace z with (lo + Z.of_nat (Z.to_nat (z - lo)))%Z by lia.
  apply H. lia.
Qed.

(** One value of a field: the pattern is run on its text. *)
Ltac run_pattern :=
  let A := fresh "A" in
  let pos := fresh "pos" in
  let cs := fresh "cs" in
  let k := fresh "k" in
  let y := fresh "y" in
  let Hk := fresh "Hk" in
  intros A pos cs k y Hk;
  rewrite Nat.add_comm in Hk; vm_compute in Hk; vm_compute;
  rewrite Hk; reflexivity.

Definition strp_m : re :=
  alts [ Seq (Chr "1") (range "0" "2");
         Seq (Chr "0") (range "1" "9");
         range "1" "9" ].

Definition strp_d : re :=
  alts [ Seq (Chr "3") (range "0" "1");
         Seq (range "1" "2") Digit;
         Seq (Chr "0") (range "1" "9");
         range "1" "9";
         Seq (Chr " ") (range "1" "9") ].

Definition strp_H : re :=
  alts [ Seq (Chr "2") (range "0" "3");
         Seq (range "0" "1") Digit;
         Digit ].

Definition strp_M : re := alts [ Seq (range "0" "5") Digit; Digit ].

Definition strp_S : re :=
  alts [ Seq (Chr "6") (range "0" "1");
         Seq (range "0" "5") Digit;
         Digit ].

Lemma takes_strp_m (rest : str) (z : Z) :
  (1 <= z < 1 + Z.of_nat 12)%Z ->
  takes true strp_m (str_of_Z z) ("-"%char :: rest) same.
Proof.
  revert z. apply Z_cases. intros i Hi.
  do 12 (destruct i as [|i]; [run_pattern|]). lia.
Qed.

Lemma takes_strp_d (rest : str) (z : Z) :
  (1 <= z < 1 + Z.of_nat 31)%Z ->
  takes true strp_d (str_of_Z z) (SPACE :: rest) same.
Proof.
  revert z. apply Z_cases. intros i Hi.
  do 31 (destruct i as [|i]; [run_pattern|]). lia.
Qed.

Lemma takes_strp_H (rest : str) (z : Z) :
  (0 <= z < 0 + Z.of_nat 24)%Z ->
  takes true strp_H (zpad 2 z) (":"%char :: rest) same.
Proof.
  revert z. apply Z_cases. intros i Hi.
  do 24 (destruct i as [|i]; [run_pattern|]). lia.
Qed.

Lemma takes_strp_M (rest : str) (z : Z) :
  (0 <= z < 0 + Z.of_nat 60)%Z ->
  takes true strp_M (zpad 2 z) (":"%char :: rest) same.
Proof.
  revert z. apply Z_cases. intros i Hi.
  do 60 (destruct i as [|i]; [run_pattern|]). lia.
Qed.

Lemma takes_strp_S (z : Z) :
  (0 <= z < 0 + Z.of_nat 60)%Z ->
  takes true strp_S (zpad 2 z) [] same.
Proof.
  revert z. apply Z_cases. intros i Hi.
  do 60 (destruct i as [|i]; [run_pattern|]). lia.
Qed.

(** *** A date printed in full, read by [strptime] *)

Lemma days_in_month_most (y m : Z) : (days_in_month y m <= 31)%Z.
Proof.
  unfold days_in_month.
  destruct (m =? 2)%Z; [destruct (is_leap y); lia|].
  destruct ((m =? 4) || (m =? 6) || (m =? 9) || (m =? 11))%Z; lia.
Qed.

Lemma valid_datetime_ranges (d : datetime) :
  valid_datetime d = true ->
  (1 <= year d <= 9999 /\ 1 <= month d <= 12 /\ 1 <= day d <= 31
   /\ 0 <= hour d <= 23 /\ 0 <= minute d <= 59 /\ 0 <= second d <= 59)%Z.
Proof.
  unfold valid_datetime. intros H.
  repeat match type of H with
         | (_ && _ = true) =>
             let H' := fresh "H" in
             apply andb_true_iff in H; destruct H as [H H']
         end.
  repeat match goal with
         | X : (_ <=? _)%Z = true |- _ => apply Z.leb_le in X
         end.
  pose proof (days_in_month_most (year d) (month d)). lia.
Qed.

Lemma strptime_full (y mo d h mi s : Z) :
  (1000 <= y <= 9999)%Z ->
  valid_datetime (mkDatetime y mo d h mi s 0) = true ->
  strptime (str_of_Z y ++ lit "-" ++ str_of_Z mo ++ lit "-" ++ str_of_Z d
            ++ lit " " ++ zpad 2 h ++ lit ":" ++ zpad 2 mi ++ lit ":"
            ++ zpad 2 s)
  = inr (mkDatetime y mo d h mi s 0).
Proof.
  intros Hy Hv. pose proof (valid_datetime_ranges _ Hv) as R.
  cbn [year month day hour minute second] in R.
  destruct R as (_ & Hmo & Hd & Hh & Hmi & Hs).
  destruct (year_digits y Hy) as (Y1 & Y2 & EY & HY1 & HY2).
  destruct (pair_digits h ltac:(lia)) as (Dh & Ih).
  destruct (pair_digits mi ltac:(lia)) as (Dmi & Imi).
  destruct (pair_digits s ltac:(lia)) as (Ds & Is).
  set (text := str_of_Z y ++ lit "-" ++ str_of_Z mo ++ lit "-" ++ str_of_Z d
               ++ lit " " ++ zpad 2 h ++ lit ":" ++ zpad 2 mi ++ lit ":"
               ++ zpad 2 s).
  assert (M : re_match true strptime_re text
              = Some (MObj 0 (List.length text)
                        [("S"%string, zpad 2 s); ("M"%string, zpad 2 mi);
                         ("H"%string, zpad 2 h); ("d"%string, str_of_Z d);
                         ("m"%string, str_of_Z mo); ("Y"%string, str_of_Z y)])).
  { unfold re_match. rewrite <- (app_nil_r text) at 1.
    assert (T : takes true strptime_re text []
                  (fun cs => ("S"%string, zpad 2 s) :: ("M"%string, zpad 2 mi)
                             :: ("H"%string, zpad 2 h)
                             :: ("d"%string, str_of_Z d)
                             :: ("m"%string, str_of_Z mo)
                             :: ("Y"%string, str_of_Z y) :: cs)).
    { unfold strptime_re, text. cbn [seqs].
      apply (takes_seq true _ _ (str_of_Z y) _ []
               (fun cs => ("Y"%string, str_of_Z y) :: cs)
               (fun cs => ("S"%string, zpad 2 s) :: ("M"%string, zpad 2 mi)
                          :: ("H"%string, zpad 2 h)
                          :: ("d"%string, str_of_Z d)
                          :: ("m"%string, str_of_Z mo) :: cs)).
      { apply (takes_grp true "Y" _ (str_of_Z y) _ same).
        unfold Times, Digit.
        assert (L : List.length (str_of_Z y) = 4).
        { rewrite EY, length_app. destruct HY1 as [-> _], HY2 as [-> _].
          reflexivity. }
        rewrite <- L. apply takes_exactly; [|lia].
        rewrite EY. apply Forall_app. split; [apply HY1|apply HY2]. }
      apply (takes_seq true _ _ ["-"%char] _ [] same
               (fun cs => ("S"%string, zpad 2 s) :: ("M"%string, zpad 2 mi)
                          :: ("H"%string, zpad 2 h)
                          :: ("d"%string, str_of_Z d)
                          :: ("m"%string, str_of_Z mo) :: cs));
        [apply takes_chr|].
      apply (takes_seq true _ _ (str_of_Z mo) _ []
               (fun cs => ("m"%string, str_of_Z mo) :: cs)
               (fun cs => ("S"%string, zpad 2 s) :: ("M"%string, zpad 2 mi)
                          :: ("H"%string, zpad 2 h)
                          :: ("d"%string, str_of_Z d) :: cs)).
      { apply (takes_grp true "m" strp_m (str_of_Z mo) _ same).
        apply takes_strp_m. lia. }
      apply (takes_seq true _ _ ["-"%char] _ [] same
               (fun cs => ("S"%string, zpad 2 s) :: ("M"%string, zpad 2 mi)
                          :: ("H"%string, zpad 2 h)
                          :: ("d"%string, str_of_Z d) :: cs));
        [apply takes_chr|].
      apply (takes_seq true _ _ (str_of_Z d) _ []
               (fun cs => ("d"%string, str_of_Z d) :: cs)
               (fun cs => ("S"%string, zpad 2 s) :: ("M"%string, zpad 2 mi)
                          :: ("H"%string, zpad 2 h) :: cs)).
      { apply (takes_grp true "d" strp_d (str_of_Z d) _ same).
        apply takes_strp_d. lia. }
      apply (takes_seq true _ _ [SPACE] _ [] same
               (fun cs => ("S"%string, zpad 2 s) :: ("M"%string, zpad 2 mi)
                          :: ("H"%string, zpad 2 h) :: cs)).
      { unfold Plus, Space. apply takes_run.
        - repeat constructor.
        - cbn. lia.
        - exact I.
        - rewrite <- app_assoc. apply (digits_no_space 1 (zpad 2 h)).
          exact Dh. }
      apply (takes_seq true _ _ (zpad 2 h) _ []
               (fun cs => ("H"%string, zpad 2 h) :: cs)
               (fun cs => ("S"%string, zpad 2 s) :: ("M"%string, zpad 2 mi)
                          :: cs)).
      { apply (takes_grp true "H" strp_H (zpad 2 h) _ same).
        apply takes_strp_H. lia. }
      apply (takes_seq true _ _ [":"%char] _ [] same
               (fun cs => ("S"%string, zpad 2 s) :: ("M"%string, zpad 2 mi)
                          :: cs));
        [apply takes_chr|].
      apply (takes_seq true _ _ (zpad 2 mi) _ []
               (fun cs => ("M"%string, zpad 2 mi) :: cs)
               (fun cs => ("S"%string, zpad 2 s) :: cs)).
      { apply (takes_grp true "M" strp_M (zpad 2 mi) _ same).
        apply takes_strp_M. lia. }
      apply (takes_seq true _ _ [":"%char] (zpad 2 s) [] same
               (fun cs => ("S"%string, zpad 2 s) :: cs));
        [apply takes_chr|].
      apply (takes_grp true "S" strp_S (zpad 2 s) _ same).
      apply takes_strp_S. lia. }
    apply T. reflexivity. }
  unfold strptime. rewrite M. cbn [m_end m_caps]. rewrite Nat.eqb_refl.
  cbn [negb]. unfold int_group.
  cbn [group String.eqb Ascii.eqb Bool.eqb the].
  rewrite !py_int_str_of_Z by (apply small_fits; lia).
  rewrite Ih, Imi, Is. rewrite Hv. reflexivity.
Qed.

(** *** Dates come back from [format] and [cast] *)

Section DatesBack.

Variable F : Type.
Variable float_of_str : str -> option F.
Variable str_of_float : F -> str.
Variable now : datetime.

Lemma date_fix_plain (D mon Y1 Y2 : str) (mo : Z) :
  digits 2 Y1 -> digits 2 Y2 -> List.length mon = 3 ->
  dict_find _MONTHS_number (lower mon) = Some mo ->
  D <> [] ->
  _date_fix [("y"%string, Y1 ++ Y2); ("m"%string, mon); ("d"%string, D)]
  = inr ((Y1 ++ Y2) ++ lit "-" ++ str_of_Z mo ++ lit "-" ++ D ++ lit " "
         ++ lit "00" ++ lit ":" ++ lit "00" ++ lit ":" ++ lit "00").
Proof.
  intros [L1 _] [L2 _] Lm Hm HD. unfold _date_fix.
  cbn [group String.eqb Ascii.eqb Bool.eqb the group_or].
  rewrite length_app, L1, L2, Lm. cbn [Nat.add Nat.eqb]. rewrite Hm.
  cbn [bind ret]. destruct D as [|c D]; [contradiction|]. reflexivity.
Qed.

Lemma date_fix_time (D mon Y1 Y2 hh mm ss : str) (mo : Z) :
  digits 2 Y1 -> digits 2 Y2 -> List.length mon = 3 ->
  dict_find _MONTHS_number (lower mon) = Some mo ->
  D <> [] -> digits 2 hh -> digits 2 mm -> digits 2 ss ->
  _date_fix [("S"%string, ss); ("M"%string, mm); ("H"%string, hh);
             ("y"%string, Y1 ++ Y2); ("m"%string, mon); ("d"%string, D)]
  = inr ((Y1 ++ Y2) ++ lit "-" ++ str_of_Z mo ++ lit "-" ++ D ++ lit " "
         ++ hh ++ lit ":" ++ mm ++ lit ":" ++ ss).
Proof.
  intros [L1 _] [L2 _] Lm Hm HD [Lh _] [Lmi _] [Ls _]. unfold _date_fix.
  cbn [group String.eqb Ascii.eqb Bool.eqb the group_or].
  rewrite length_app, L1, L2, Lm. cbn [Nat.add Nat.eqb]. rewrite Hm.
  cbn [bind ret]. destruct D as [|c D]; [contradiction|].
  destruct hh as [|? ?]; [discriminate|].
  destruct mm as [|? ?]; [discriminate|].
  destruct ss as [|? ?]; [discriminate|]. reflexivity.
Qed.

Lemma cast_date_text (raw : str) :
  raw <> [] ->
  cast F float_of_str now (lit ":date") (Some raw)
  = bind (_parse_datetime now raw) (fun d => ret (VDate d)).
Proof. destruct raw; [contradiction|]. reflexivity. Qed.

Lemma format_date_nonempty (d : datetime) (dflt : option str) :
  format F str_of_float (lit ":date") (VDate d) dflt <> [].
Proof.
  cbn [format]. change (seqb (lit ":date") (lit ":date")) with true. cbn iota.
  destruct (str_of_Z (day d)) eqn:E; [|discriminate].
  exfalso. revert E. apply str_of_Z_chars.
Qed.

(** [_parse_datetime] reads the text [format] writes for a date: it is
    no [:today], not year first, and day first. *)
Lemma parse_datetime_written (d : datetime) (dflt : option str) :
  valid_datetime d = true ->
  (1000 <= year d)%Z ->
  microsecond d = 0%Z ->
  _parse_datetime now (format F str_of_float (lit ":date") (VDate d) dflt)
  = inr d.
Proof.
  intros Hv Hy Hus. pose proof (valid_datetime_ranges d Hv) as R.
  destruct d as [y mo dd h mi s us]. cbn [year month day hour minute second
                                            microsecond] in *.
  subst us. destruct R as (Hy' & Hmo & Hd & Hh & Hmi & Hs).
  destruct (year_digits y ltac:(lia)) as (Y1 & Y2 & EY & HY1 & HY2).
  destruct (month_letters mo Hmo) as (Lm & Wm & Hm & Fm).
  destruct (day_digits dd Hd) as (DD & LD).
  assert (ND : str_of_Z dd <> []) by apply str_of_Z_chars.
  destruct (pair_digits h ltac:(lia)) as (Dh & _).
  destruct (pair_digits mi ltac:(lia)) as (Dmi & _).
  destruct (pair_digits s ltac:(lia)) as (Ds & _).
  cbn [format]. change (seqb (lit ":date") (lit ":date")) with true.
  cbn iota. cbn [year month day hour minute second].
  destruct ((h =? 0)%Z && (mi =? 0)%Z && (s =? 0)%Z) eqn:T.
  - apply andb_true_iff in T. destruct T as [T Ts].
    apply andb_true_iff in T. destruct T as [Th Tmi].
    apply Z.eqb_eq in Th, Tmi, Ts. subst h mi s.
    assert (E : str_of_Z dd ++ lit "-" ++ month_name mo ++ lit "-"
                ++ str_of_Z y ++ []
                = date_text (str_of_Z dd) (month_name mo) Y1 Y2).
    { unfold date_text. rewrite EY, <- !app_assoc. reflexivity. }
    rewrite E.
    unfold _parse_datetime.
    rewrite (fails_match now_re (date_text _ _ _ _)
               (now_fails (str_of_Z dd) DD LD _)).
    rewrite (fails_match ymd_re (date_text _ _ _ _)
               (ymd_fails (str_of_Z dd) DD LD _)).
    rewrite (dmy_date (str_of_Z dd) (month_name mo) Y1 Y2 DD LD Wm Lm Hm
               HY1 HY2).
    cbn [m_caps].
    rewrite (date_fix_plain _ _ _ _ mo HY1 HY2 Lm Fm ND). cbn [bind].
    rewrite <- EY.
    change (lit "00") with (zpad 2 0).
    rewrite (strptime_full y mo dd 0 0 0 ltac:(lia) Hv). reflexivity.
  - assert (E : str_of_Z dd ++ lit "-" ++ month_name mo ++ lit "-"
                ++ str_of_Z y
                ++ lit " " ++ zpad 2 h ++ lit ":" ++ zpad 2 mi ++ lit ":"
                ++ zpad 2 s
                = date_time_text (str_of_Z dd) (month_name mo) Y1 Y2
                    (zpad 2 h) (zpad 2 mi) (zpad 2 s)).
    { unfold date_time_text. rewrite EY, <- !app_assoc.
      rewrite app_nil_r. reflexivity. }
    rewrite E.
    unfold _parse_datetime.
    rewrite (fails_match now_re (date_time_text _ _ _ _ _ _ _)
               (now_fails (str_of_Z dd) DD LD _)).
    rewrite (fails_match ymd_re (date_time_text _ _ _ _ _ _ _)
               (ymd_fails (str_of_Z dd) DD LD _)).
    rewrite (dmy_date_time (str_of_Z dd) (month_name mo) Y1 Y2
               (zpad 2 h) (zpad 2 mi) (zpad 2 s)
               DD LD Wm Lm Hm HY1 HY2 Dh Dmi Ds).
    cbn [m_caps].
    rewrite (date_fix_time _ _ _ _ _ _ _ mo HY1 HY2 Lm Fm ND Dh Dmi Ds).
    cbn [bind]. rewrite <- EY.
    rewrite (strptime_full y mo dd h mi s ltac:(lia) Hv). reflexivity.
Qed.

(** A date of a year of four digits, without microseconds, is read by
    [cast] from the text [format] writes for it. *)
Theorem cast_format_date (d : datetime) (dflt : option str) :
  valid_datetime d = true ->
  (1000 <= year d)%Z ->
  microsecond d = 0%Z ->
  cast F float_of_str now (lit ":date")
    (Some (format F str_of_float (lit ":date") (VDate d) dflt))
  = inr (VDate d).
Proof.
  intros Hv Hy Hus. rewrite cast_date_text by apply format_date_nonempty.
  rewrite parse_datetime_written by assumption. reflexivity.
Qed.

End DatesBack.

Lemma cast_format_date_witness :
  cast unit no_float epoch (lit ":date")
    (Some (format unit unit_str (lit ":date")
             (VDate (mkDatetime 1999 9 8 15 31 1 0)) None))
  = inr (VDate (mkDatetime 1999 9 8 15 31 1 0)).
Proof. apply cast_format_date; [reflexivity|cbn; lia|reflexivity]. Defined.

(** *** The grammar of dates

    The texts the documentation of [cast] describes, and the date each
    stands for. *)

(** The time of a date: blanks, maybe an opening parenthesis, the hour
    and the minute in two digits each, maybe the second, maybe a
    closing parenthesis. *)
Record time_parts : Type := mkTime {
  t_blanks : str;
  t_open : bool;
  t_hour : str;
  t_minute : str;
  t_second : option str;
  t_close : bool
}.

(** A date: maybe the day, the month in digits or in three letters, the
    year, and maybe the time. *)
Record date_parts : Type := mkDate {
  d_day : option str;
  d_month : str;
  d_year : str;
  d_time : option time_parts
}.

Definition time_str (t : option time_parts) : str :=
  match t with
  | None => []
  | Some t =>
      t_blanks t ++ (if t_open t then ["("%char] else [])
      ++ t_hour t ++ [":"%char] ++ t_minute t
      ++ match t_second t with
         | Some s => ":"%char :: s
         | None => []
         end
      ++ (if t_close t then [")"%char] else [])
  end.

(** [DD-MM-YY], the day first. *)
Definition day_first (d : date_parts) : str :=
  match d_day d with
  | Some x => x ++ ["-"%char]
  | None => []
  end
  ++ d_month d ++ ["-"%char] ++ d_year d ++ time_str (d_time d).

(** [YYYY-MM-DD], the year first. *)
Definition year_first (d : date_parts) : str :=
  d_year d ++ ["-"%char] ++ d_month d
  ++ match d_day d with
     | Some x => "-"%char :: x
     | None => []
     end
  ++ time_str (d_time d).

Definition all_digits_of (n : nat) (w : str) : bool :=
  (List.length w =? n) && forallb is_digit w.

(** One digit or two. *)
Definition short_number (w : str) : bool :=
  all_digits_of 1 w || all_digits_of 2 w.

(** A month in digits, or in three letters that the table of months
    knows in lower case. *)
Definition month_word (w : str) : bool :=
  (List.length w =? 3)
  && match dict_find _MONTHS_number (lower w) with
     | Some _ => true
     | None => false
     end.

Definition wf_month (w : str) : bool := short_number w || month_word w.

Definition wf_day (o : option str) : bool :=
  match o with
  | Some w => short_number w
  | None => true
  end.

Definition wf_time (o : option time_parts) : bool :=
  match o with
  | None => true
  | Some t =>
      forallb is_space (t_blanks t)
      && all_digits_of 2 (t_hour t) && all_digits_of 2 (t_minute t)
      && match t_second t with
         | Some s => all_digits_of 2 s
         | None => true
         end
  end.

(** The time is set off from what comes before it, by a blank or a
    parenthesis; or there is no time. *)
Definition set_off (o : option time_parts) : bool :=
  match o with
  | None => true
  | Some t => negb (seqb (t_blanks t) []) || t_open t
  end.

(** A text with the day first: a year of two digits is set off from the
    time, which would else lend it two digits. *)
Definition wf_day_first (d : date_parts) : bool :=
  wf_day (d_day d) && wf_month (d_month d)
  && (all_digits_of 2 (d_year d) && set_off (d_time d)
      || all_digits_of 4 (d_year d))
  && wf_time (d_time d).

(** A text with the year first: what ends in a single digit, the day
    or without a day the month, is set off from the time. *)
Definition wf_year_first (d : date_parts) : bool :=
  all_digits_of 4 (d_year d) && wf_month (d_month d) && wf_day (d_day d)
  && wf_time (d_time d)
  && match d_day d with
     | Some x => negb (all_digits_of 1 x) || set_off (d_time d)
     | None => negb (all_digits_of 1 (d_month d)) || set_off (d_time d)
     end.

(** The number a text of digits stands for, in base ten. *)
Definition number (w : str) : Z :=
  fold_left (fun n c => (10 * n + Z.of_nat (code c - 48))%Z) w 0%Z.

(** The year: two digits stand for 19xx from 93 on, for 20xx below. *)
Definition year_value (w : str) : Z :=
  if List.length w =? 2
  then (if (93 <=? number w)%Z then 1900 + number w else 2000 + number w)%Z
  else number w.

Definition month_value (w : str) : Z :=
  if List.length w =? 3
  then dict_get _MONTHS_number (lower w) 0%Z
  else number w.

(** The date a text stands for: without a day the first of the month,
    without a time midnight, without seconds the full minute. *)
Definition date_value (d : date_parts) : datetime :=
  mkDatetime
    (year_value (d_year d))
    (month_value (d_month d))
    (match d_day d with Some x => number x | None => 1%Z end)
    (match d_time d with Some t => number (t_hour t) | None => 0%Z end)
    (match d_time d with Some t => number (t_minute t) | None => 0%Z end)
    (match d_time d with
     | Some t => match t_second t with
                 | Some s => number s
                 | None => 0%Z
                 end
     | None => 0%Z
     end)
    0.

(** *** Digits and letters, one by one *)

Definition digit (i : nat) : ascii := ascii_of_nat (48 + i).

Lemma digit_cases (c : ascii) :
  is_digit c = true -> exists i, i < 10 /\ c = digit i.
Proof.
  intros H. exists (code c - 48). unfold is_digit in H.
  apply andb_true_iff in H. destruct H as [H1 H2].
  apply Nat.leb_le in H1, H2. split; [lia|].
  unfold digit. replace (48 + (code c - 48)) with (code c) by lia.
  unfold code. symmetry. apply ascii_nat_embedding.
Qed.

Lemma all_digits_of_spec (n : nat) (w : str) :
  all_digits_of n w = true <-> digits n w.
Proof.
  unfold all_digits_of, digits. rewrite andb_true_iff, Nat.eqb_eq.
  rewrite forallb_forall, Forall_forall. reflexivity.
Qed.

(** The texts of one digit and of two. *)
Lemma one_digit (w : str) :
  all_digits_of 1 w = true -> exists i, i < 10 /\ w = [digit i].
Proof.
  intros H. apply all_digits_of_spec in H. destruct H as [L D].
  destruct w as [|a [|b w]]; try discriminate.
  inversion D as [|? ? Ha _]; subst.
  destruct (digit_cases a Ha) as (i & Hi & ->). exists i. auto.
Qed.

Lemma two_digits (w : str) :
  all_digits_of 2 w = true ->
  exists i j, i < 10 /\ j < 10 /\ w = [digit i; digit j].
Proof.
  intros H. apply all_digits_of_spec in H. destruct H as [L D].
  destruct w as [|a [|b [|c w]]]; try discriminate.
  inversion D as [|? ? Ha D']; subst. inversion D' as [|? ? Hb _]; subst.
  destruct (digit_cases a Ha) as (i & Hi & ->).
  destruct (digit_cases b Hb) as (j & Hj & ->). exists i, j. auto.
Qed.

Lemma four_digits (w : str) :
  all_digits_of 4 w = true ->
  exists p q, all_digits_of 2 p = true /\ all_digits_of 2 q = true
              /\ w = p ++ q.
Proof.
  intros H. apply all_digits_of_spec in H. destruct H as [L D].
  destruct w as [|a [|b [|c [|e [|x w]]]]]; try discriminate.
  inversion D as [|? ? Ha D1]; subst. inversion D1 as [|? ? Hb D2]; subst.
  exists [a; b], [c; e]. repeat split.
  - apply all_digits_of_spec. split; [reflexivity|].
    repeat constructor; assumption.
  - apply all_digits_of_spec. split; [reflexivity|exact D2].
Qed.

(** [int] reads a text of one, two or four digits as its number. *)
Definition digit_chars : str := map digit (seq 0 10).

Definition digit_pairs : list str :=
  flat_map (fun a => map (fun b => [a; b]) digit_chars) digit_chars.

Definition read_ok (w : str) : bool := reads_back w (number w).

Lemma short_texts_read :
  forallb read_ok (map (fun a => [a]) digit_chars ++ digit_pairs) = true.
Proof. vm_compute. reflexivity. Qed.

Lemma long_texts_read :
  forallb read_ok (flat_map (fun p => map (app p) digit_pairs) digit_pairs)
  = true.
Proof. vm_compute. reflexivity. Qed.

Lemma digit_char (i : nat) : i < 10 -> In (digit i) digit_chars.
Proof.
  intros H. unfold digit_chars. apply in_map. apply in_seq. lia.
Qed.

Lemma digit_pair (w : str) : all_digits_of 2 w = true -> In w digit_pairs.
Proof.
  intros H. destruct (two_digits w H) as (i & j & Hi & Hj & ->).
  unfold digit_pairs. apply in_flat_map. exists (digit i).
  split; [apply digit_char; exact Hi|].
  apply (in_map (fun b => [digit i; b])). apply digit_char. exact Hj.
Qed.

Lemma int_number (w : str) :
  all_digits_of 1 w || all_digits_of 2 w || all_digits_of 4 w = true ->
  py_int w = Some (number w).
Proof.
  intros H. apply reads_back_int. change (read_ok w = true).
  apply orb_true_iff in H. destruct H as [H|H].
  - pose proof short_texts_read as A. rewrite forallb_forall in A. apply A.
    apply in_or_app. apply orb_true_iff in H. destruct H as [H|H].
    + left. destruct (one_digit w H) as (i & Hi & ->).
      apply (in_map (fun a => [a])). apply digit_char. exact Hi.
    + right. apply digit_pair. exact H.
  - pose proof long_texts_read as A. rewrite forallb_forall in A. apply A.
    destruct (four_digits w H) as (p & q & Hp & Hq & ->).
    apply in_flat_map. exists p. split; [apply digit_pair; exact Hp|].
    apply in_map. apply digit_pair. exact Hq.
Qed.

Lemma int_short (w : str) :
  short_number w = true -> py_int w = Some (number w).
Proof.
  intros H. apply int_number. unfold short_number in H. rewrite H.
  reflexivity.
Qed.

Lemma int_pair (w : str) :
  all_digits_of 2 w = true -> py_int w = Some (number w).
Proof.
  intros H. apply int_number. rewrite H. rewrite orb_true_r. reflexivity.
Qed.

Lemma int_four (w : str) :
  all_digits_of 4 w = true -> py_int w = Some (number w).
Proof.
  intros H. apply int_number. rewrite H. apply orb_true_r.
Qed.

Lemma short_number_digits (w : str) :
  short_number w = true ->
  Forall (fun c => is_digit c = true) w /\ 1 <= List.length w <= 2.
Proof.
  unfold short_number. intros H. apply orb_true_iff in H.
  destruct H as [H|H]; apply all_digits_of_spec in H; destruct H as [L D];
    split; try exact D; lia.
Qed.

Lemma short_number_cases (w : str) :
  short_number w = true ->
  all_digits_of 1 w = true \/ all_digits_of 2 w = true.
Proof. unfold short_number. intros H. apply orb_true_iff in H. exact H. Qed.

(** One case of a letter: a letter of a month's name is that letter,
    small or capital. *)
Lemma lower_char_letter (a x : ascii) :
  lower_char a = x -> is_lower_ascii x = true ->
  a = x \/ a = ascii_of_nat (code x - 32).
Proof.
  intros <-.
  destruct a as [[] [] [] [] [] [] [] []];
    (intros H; vm_compute in H; try discriminate H);
    vm_compute; auto.
Qed.

Lemma dict_find_in {V : Type} (d : list (str * V)) (key : str) (v : V) :
  dict_find d key = Some v -> In (key, v) d.
Proof.
  induction d as [|[k w] d IH]; [discriminate|]. cbn [dict_find].
  destruct (seqb k key) eqn:E.
  - apply seqb_eq in E. subst k. intros H. injection H as ->.
    left. reflexivity.
  - intros H. right. apply IH. exact H.
Qed.

(** What there is to know of a month in three letters, however it
    is spelled: its number, that its letters are of the class [\w] and
    the first no digit, and that it is no [now]. *)
Definition month_spelled (w : str) : Prop :=
  exists n,
    dict_find _MONTHS_number (lower w) = Some n
    /\ (1 <= n <= 12)%Z
    /\ Forall (fun c => is_word c = true) w
    /\ match w with c :: _ => is_digit c = false | [] => True end
    /\ forall rest, fails false now_re (w ++ rest).

Ltac spelled :=
  eexists; split; [vm_compute; reflexivity|]; split; [lia|];
  split; [repeat constructor|];
  split; [reflexivity|];
  let rest := fresh "rest" in
  let A := fresh "A" in
  let pos := fresh "pos" in
  let cs := fresh "cs" in
  let k := fresh "k" in
  intros rest A pos cs k; reflexivity.

Ltac either_case H :=
  apply lower_char_letter in H; [|reflexivity];
  destruct H as [H|H]; vm_compute in H; subst.

Lemma month_word_spelled (w : str) :
  month_word w = true -> List.length w = 3 /\ month_spelled w.
Proof.
  unfold month_word. intros H. apply andb_true_iff in H.
  destruct H as [L H]. apply Nat.eqb_eq in L. split; [exact L|].
  destruct (dict_find _MONTHS_number (lower w)) as [n|] eqn:E;
    [clear H|discriminate].
  destruct w as [|a [|b [|c [|e w]]]]; try discriminate. clear L.
  apply dict_find_in in E. unfold _MONTHS_number, _MONTHS_name in E.
  cbn [map fst snd lower In] in E.
  repeat match type of E with
         | _ \/ _ => destruct E as [E|E]
         | False => destruct E
         end;
    cbn [lit list_ascii_of_string] in E;
    injection E as E1 E2 E3 En; clear n En;
    symmetry in E1, E2, E3;
    either_case E1; either_case E2; either_case E3; spelled.
Qed.

(** *** The parts of a date in the two patterns *)

(** The head of a text is not of a class. *)
Definition head_not (p : ascii -> bool) (s : str) : Prop :=
  match s with
  | c :: _ => p c = false
  | [] => True
  end.

Definition day_caps (o : option str) (cs : caps) : caps :=
  match o with
  | Some x => ("d"%string, x) :: cs
  | None => cs
  end.

Definition time_caps (o : option time_parts) (cs : caps) : caps :=
  match o with
  | None => cs
  | Some t =>
      match t_second t with
      | Some s => [("S"%string, s)]
      | None => []
      end
      ++ ("M"%string, t_minute t) :: ("H"%string, t_hour t) :: cs
  end.

Lemma takes_seq_last (ci : bool) (a b : re) (w1 w2 : str)
  (f1 f2 : caps -> caps) :
  takes ci a w1 w2 f1 -> takes ci b w2 [] f2 ->
  takes ci (Seq a b) (w1 ++ w2) [] (fun cs => f2 (f1 cs)).
Proof.
  intros Ha Hb. apply takes_seq; [rewrite app_nil_r; exact Ha|exact Hb].
Qed.

Lemma digit_head (n : nat) (w rest : str) (p : ascii -> bool) :
  digits (S n) w -> (forall c, is_digit c = true -> p c = false) ->
  head_not p (w ++ rest).
Proof.
  intros [L D] H. destruct w as [|c w]; [discriminate|].
  inversion D; subst. cbn. apply H. assumption.
Qed.

(** The head of a time: a blank, a parenthesis or a digit. *)
Lemma time_head (t : option time_parts) (p : ascii -> bool) :
  wf_time t = true ->
  (forall c, is_space c = true -> p c = false) ->
  p "("%char = false ->
  (forall c, is_digit c = true -> p c = false) ->
  head_not p (time_str t).
Proof.
  intros W Hs Hp Hd. destruct t as [t|]; [|exact I].
  cbn [wf_time] in W.
  apply andb_true_iff in W. destruct W as [W _].
  apply andb_true_iff in W. destruct W as [W _].
  apply andb_true_iff in W. destruct W as [Wb Wh].
  apply all_digits_of_spec in Wh. cbn [time_str].
  destruct (t_blanks t) as [|c bs].
  - cbn [app]. destruct (t_open t); [exact Hp|].
    cbn [app]. apply (digit_head 1 _ _ p Wh Hd).
  - cbn [forallb] in Wb. apply andb_true_iff in Wb. destruct Wb as [Wc _].
    cbn. apply Hs. exact Wc.
Qed.

(** A time that is set off does not begin with a digit or a letter. *)
Lemma set_off_head (t : option time_parts) (p : ascii -> bool) :
  wf_time t = true -> set_off t = true ->
  (forall c, is_space c = true -> p c = false) ->
  p "("%char = false ->
  head_not p (time_str t).
Proof.
  intros W S Hs Hp. destruct t as [t|]; [|exact I].
  cbn [wf_time] in W.
  apply andb_true_iff in W. destruct W as [W _].
  apply andb_true_iff in W. destruct W as [W _].
  apply andb_true_iff in W. destruct W as [Wb _].
  cbn [set_off] in S. cbn [time_str].
  destruct (t_blanks t) as [|c bs].
  - cbn in S. destruct (t_open t); [exact Hp|discriminate].
  - cbn [forallb] in Wb. apply andb_true_iff in Wb. destruct Wb as [Wc _].
    cbn. apply Hs. exact Wc.
Qed.

Lemma space_no_digit (c : ascii) : is_space c = true -> is_digit c = false.
Proof.
  intros H. destruct (is_digit c) eqn:E; [|reflexivity].
  rewrite (digit_not_space c E) in H. discriminate.
Qed.

Lemma space_no_word (c : ascii) : is_space c = true -> is_word c = false.
Proof.
  destruct c as [[] [] [] [] [] [] [] []]; vm_compute;
    intros H; try reflexivity; discriminate H.
Qed.

Lemma space_no_dash (c : ascii) :
  is_space c = true -> ceqb "-"%char c = false.
Proof.
  intros H. apply ceqb_neq. intros <-. discriminate.
Qed.

Lemma digit_no_dash (c : ascii) :
  is_digit c = true -> ceqb "-"%char c = false.
Proof.
  intros H. apply ceqb_neq. intros <-. discriminate.
Qed.

Lemma takes_count (n : nat) (w rest : str) :
  digits n w -> takes false (Times Digit n n) w rest same.
Proof.
  intros [Hl Hd]. unfold Times, Digit. rewrite <- Hl.
  apply takes_exactly; [exact Hd|apply Nat.le_refl].
Qed.

(** The time at the end of a pattern. *)
Lemma takes_time_text (t : option time_parts) :
  wf_time t = true ->
  takes false time_re (time_str t) [] (time_caps t).
Proof.
  intros W. destruct t as [t|]; [|apply takes_no_time].
  cbn [wf_time] in W.
  apply andb_true_iff in W. destruct W as [W Ws].
  apply andb_true_iff in W. destruct W as [W Wm].
  apply andb_true_iff in W. destruct W as [Wb Wh].
  apply all_digits_of_spec in Wh, Wm.
  unfold time_re. apply takes_opt. cbn [seqs time_str].
  (* blanks *)
  apply (takes_seq_last false _ _ (t_blanks t) _ same (time_caps (Some t))).
  { unfold Star, Space. apply takes_run.
    - apply Forall_forall. rewrite forallb_forall in Wb. exact Wb.
    - lia.
    - exact I.
    - destruct (t_open t); [reflexivity|]. cbn [app].
      apply (digits_no_space 1 _ _ Wh). }
  (* the opening parenthesis *)
  apply (takes_seq_last false _ _ (if t_open t then ["("%char] else []) _
           same (time_caps (Some t))).
  { destruct (t_open t).
    - apply takes_opt. apply takes_chr.
    - apply takes_none. apply fails_chr.
      apply (digits_head 1 _ _ "("%char Wh). reflexivity. }
  (* hour, colon, minute *)
  apply (takes_seq_last false _ _ (t_hour t) _
           (fun cs => ("H"%string, t_hour t) :: cs)
           (fun cs => match t_second t with
                      | Some s => [("S"%string, s)]
                      | None => []
                      end ++ ("M"%string, t_minute t) :: cs)).
  { apply (takes_grp false "H" _ _ _ same). apply takes_count. exact Wh. }
  apply (takes_seq_last false _ _ [":"%char] _ same
           (fun cs => match t_second t with
                      | Some s => [("S"%string, s)]
                      | None => []
                      end ++ ("M"%string, t_minute t) :: cs)).
  { apply takes_chr. }
  apply (takes_seq_last false _ _ (t_minute t) _
           (fun cs => ("M"%string, t_minute t) :: cs)
           (fun cs => match t_second t with
                      | Some s => [("S"%string, s)]
                      | None => []
                      end ++ cs)).
  { apply (takes_grp false "M" _ _ _ same). apply takes_count. exact Wm. }
  (* the second and the closing parenthesis *)
  apply (takes_seq_last false _ _
           (match t_second t with Some s => ":"%char :: s | None => [] end) _
           (fun cs => match t_second t with
                      | Some s => [("S"%string, s)]
                      | None => []
                      end ++ cs) same).
  { destruct (t_second t) as [s|].
    - apply all_digits_of_spec in Ws. apply takes_opt.
      apply (takes_seq false _ _ [":"%char] s _ same
               (fun cs => ("S"%string, s) :: cs)).
      + apply takes_chr.
      + apply (takes_grp false "S" _ _ _ same). apply takes_count.
        exact Ws.
    - apply takes_none. apply fails_first. apply fails_chr.
      destruct (t_close t); [reflexivity|exact I]. }
  destruct (t_close t).
  - apply takes_opt. apply takes_chr.
  - apply takes_none. apply fails_chr. exact I.
Qed.

(** One digit or two, before what is no digit; two digits before
    anything. *)
Lemma takes_short_number (w rest : str) :
  short_number w = true ->
  (all_digits_of 1 w = true -> head_not is_digit rest) ->
  takes false (Times Digit 1 2) w rest same.
Proof.
  intros H Hr. apply short_number_cases in H. destruct H as [H|H].
  - specialize (Hr H). apply all_digits_of_spec in H. destruct H as [L D].
    unfold Times, Digit. apply takes_run; [exact D|lia|lia|exact Hr].
  - apply all_digits_of_spec in H. destruct H as [L D].
    unfold Times, Digit. rewrite <- L. apply takes_exactly; [exact D|lia].
Qed.

Lemma takes_month_text (w rest : str) :
  wf_month w = true ->
  (all_digits_of 1 w = true -> head_not is_digit rest) ->
  takes false (Grp "m" month_re) w rest (fun cs => ("m"%string, w) :: cs).
Proof.
  intros H Hr. apply (takes_grp false "m" _ w _ same). unfold month_re.
  unfold wf_month in H. apply orb_true_iff in H. destruct H as [H|H].
  - apply takes_left. apply takes_short_number; assumption.
  - apply month_word_spelled in H. destruct H as (L & n & _ & _ & W & D & _).
    apply takes_right.
    + apply fails_cls; [lia|]. destruct w; [discriminate|exact D].
    + unfold Times, Word. rewrite <- L. apply takes_exactly; [exact W|lia].
Qed.

Lemma takes_year_text (w rest : str) :
  all_digits_of 4 w = true
  \/ (all_digits_of 2 w = true /\ head_not is_digit rest) ->
  takes false (Grp "y" (Seq (Times Digit 2 2) (Opt (Times Digit 2 2))))
    w rest (fun cs => ("y"%string, w) :: cs).
Proof.
  intros H. apply (takes_grp false "y" _ w _ same). destruct H as [H|[H Hr]].
  - apply all_digits_of_spec in H. destruct H as [L D].
    destruct w as [|a [|b [|c [|e [|x w]]]]]; try discriminate.
    inversion D as [|? ? Ha D1]; subst. inversion D1 as [|? ? Hb D2]; subst.
    apply (takes_seq false _ _ [a; b] [c; e] rest same same).
    + apply takes_count. split; [reflexivity|]. repeat constructor; assumption.
    + apply takes_opt. apply takes_count. split; [reflexivity|exact D2].
  - apply all_digits_of_spec in H.
    rewrite <- (app_nil_r w).
    apply (takes_seq false _ _ w [] rest same same).
    + apply takes_count. exact H.
    + apply takes_none. apply fails_cls; [lia|exact Hr].
Qed.

(** The day before the month, with its hyphen. *)
Lemma takes_day_text (x rest : str) :
  short_number x = true ->
  takes false (Opt (Seq (Grp "d" (Times Digit 1 2)) (Chr "-")))
    (x ++ ["-"%char]) rest (fun cs => ("d"%string, x) :: cs).
Proof.
  intros H. apply takes_opt.
  apply (takes_seq false _ _ x ["-"%char] rest
           (fun cs => ("d"%string, x) :: same cs) same).
  - apply (takes_grp false "d" _ x _ same).
    apply takes_short_number; [exact H|]. intros _. reflexivity.
  - apply takes_chr.
Qed.

(** The day after the month, behind its hyphen, or no day. *)
Lemma takes_day_last (o : option str) (rest : str) :
  wf_day o = true ->
  match o with
  | Some x => all_digits_of 1 x = true -> head_not is_digit rest
  | None => head_not (ceqb "-"%char) rest
  end ->
  takes false (Opt (Seq (Chr "-") (Grp "d" (Times Digit 1 2))))
    (match o with Some x => "-"%char :: x | None => [] end) rest
    (day_caps o).
Proof.
  intros H Hr. destruct o as [x|]; cbn [wf_day day_caps] in *.
  - apply takes_opt.
    apply (takes_seq false _ _ ["-"%char] x rest same
             (fun cs => ("d"%string, x) :: cs)).
    + apply takes_chr.
    + apply (takes_grp false "d" _ x _ same).
      apply takes_short_number; assumption.
  - apply takes_none. apply fails_first. apply fails_chr. exact Hr.
Qed.

(** The month, the year and the time of a text with the day first. *)
Definition month_year_time : re :=
  seqs [ Grp "m" month_re; Chr "-";
         Grp "y" (Seq (Times Digit 2 2) (Opt (Times Digit 2 2)));
         time_re ].

Lemma takes_month_year_time (d : date_parts) :
  wf_day_first d = true ->
  takes false month_year_time
    (d_month d ++ ["-"%char] ++ d_year d ++ time_str (d_time d)) []
    (fun cs => time_caps (d_time d)
                 (("y"%string, d_year d) :: ("m"%string, d_month d) :: cs)).
Proof.
  unfold wf_day_first. intros W.
  apply andb_true_iff in W. destruct W as [W Wt].
  apply andb_true_iff in W. destruct W as [W Wy].
  apply andb_true_iff in W. destruct W as [_ Wm].
  unfold month_year_time. cbn [seqs].
  apply (takes_seq_last false _ _ (d_month d) _
           (fun cs => ("m"%string, d_month d) :: cs)
           (fun cs => time_caps (d_time d) (("y"%string, d_year d) :: cs))).
  { apply takes_month_text; [exact Wm|]. intros _. reflexivity. }
  apply (takes_seq_last false _ _ ["-"%char] _ same
           (fun cs => time_caps (d_time d) (("y"%string, d_year d) :: cs))).
  { apply takes_chr. }
  apply (takes_seq_last false _ _ (d_year d) _
           (fun cs => ("y"%string, d_year d) :: cs) (time_caps (d_time d))).
  { apply takes_year_text. apply orb_true_iff in Wy.
    destruct Wy as [Wy|Wy]; [right|left; exact Wy].
    apply andb_true_iff in Wy. destruct Wy as [Wy Ws]. split; [exact Wy|].
    apply set_off_head; try assumption; [apply space_no_digit|reflexivity]. }
  apply takes_time_text. exact Wt.
Qed.

Lemma fails_no_dash (b : re) (s : str) :
  head_not (ceqb "-"%char) s -> fails false (Seq (Chr "-") b) s.
Proof. intros H. apply fails_first. apply fails_chr. exact H. Qed.

Lemma time_no_dash (t : option time_parts) :
  wf_time t = true -> head_not (ceqb "-"%char) (time_str t).
Proof.
  intros W. apply time_head; [exact W| | |].
  - apply space_no_dash.
  - reflexivity.
  - apply digit_no_dash.
Qed.

(** After a year there is no month: a year is no month before a
    hyphen. *)
Lemma month_year_time_fails (y : str) (t : option time_parts) :
  all_digits_of 2 y && set_off t || all_digits_of 4 y = true ->
  wf_time t = true ->
  fails false month_year_time (y ++ time_str t).
Proof.
  intros Wy Wt. unfold month_year_time. cbn [seqs]. unfold month_re.
  pose proof (time_no_dash t Wt) as Td.
  apply orb_true_iff in Wy. destruct Wy as [Wy|Wy].
  - apply andb_true_iff in Wy. destruct Wy as [Wy Ws].
    apply all_digits_of_spec in Wy. destruct Wy as [L D].
    destruct y as [|y1 [|y2 [|y3 y]]]; try discriminate.
    inversion D as [|? ? H1 D1]; subst. inversion D1 as [|? ? H2 _]; subst.
    apply fails_seq_alt; unfold Times, Digit, Word; apply fails_seq_rep;
      intros pre s' E Hl Hp.
    + destruct pre as [|x [|z [|u pre]]]; cbn [List.length] in Hl; try lia;
        cbn [app] in E; injection E as ? ?; subst; apply fails_no_dash.
      * cbn. apply digit_no_dash. exact H2.
      * exact Td.
    + destruct pre as [|x [|z [|u [|v pre]]]]; cbn [List.length] in Hl;
        try lia.
      cbn [app] in E. injection E as ? ? E; subst.
      exfalso.
      pose proof (set_off_head t is_word Wt Ws space_no_word eq_refl) as X.
      rewrite E in X. cbn in X.
      inversion Hp as [|? ? _ Hp1]; subst.
      inversion Hp1 as [|? ? _ Hp2]; subst.
      inversion Hp2 as [|? ? Hu _]; subst. congruence.
  - apply all_digits_of_spec in Wy. destruct Wy as [L D].
    destruct y as [|y1 [|y2 [|y3 [|y4 [|y5 y]]]]]; try discriminate.
    inversion D as [|? ? H1 D1]; subst. inversion D1 as [|? ? H2 D2]; subst.
    inversion D2 as [|? ? H3 D3]; subst. inversion D3 as [|? ? H4 _]; subst.
    apply fails_seq_alt; unfold Times, Digit, Word; apply fails_seq_rep;
      intros pre s' E Hl Hp.
    + destruct pre as [|x [|z [|u pre]]]; cbn [List.length] in Hl; try lia;
        cbn [app] in E; injection E as ? ?; subst; apply fails_no_dash;
        cbn; apply digit_no_dash; assumption.
    + destruct pre as [|x [|z [|u [|v pre]]]]; cbn [List.length] in Hl;
        try lia.
      cbn [app] in E. injection E as ? ? ? E; subst.
      apply fails_no_dash. cbn. apply digit_no_dash. exact H4.
Qed.

(** Without a day the first part of the pattern finds none: what it
    would take for one is the month, and no month follows. *)
Lemma day_skipped (d : date_parts) :
  wf_day_first d = true ->
  fails false
    (Seq (Seq (Grp "d" (Times Digit 1 2)) (Chr "-")) month_year_time)
    (d_month d ++ ["-"%char] ++ d_year d ++ time_str (d_time d)).
Proof.
  unfold wf_day_first. intros W.
  apply andb_true_iff in W. destruct W as [W Wt].
  apply andb_true_iff in W. destruct W as [W Wy].
  apply andb_true_iff in W. destruct W as [_ Wm].
  pose proof (month_year_time_fails _ _ Wy Wt) as R.
  unfold wf_month in Wm. apply orb_true_iff in Wm. destruct Wm as [Wm|Wm].
  - apply fails_assoc. unfold Times, Digit. apply fails_seq_rep.
    intros pre s' E Hl Hp.
    apply short_number_cases in Wm. destruct Wm as [Wm|Wm];
      apply all_digits_of_spec in Wm; destruct Wm as [L D].
    + destruct (d_month d) as [|a [|b m]]; try discriminate.
      destruct pre as [|x [|z [|u pre]]]; cbn [List.length] in Hl; try lia;
        cbn [app] in E.
      * injection E as ? ?; subst. apply fails_after. exact R.
      * injection E as ? ? ?; subst.
        inversion Hp as [|? ? _ Hp1]; subst.
        inversion Hp1 as [|? ? Hz _]; subst. discriminate Hz.
    + destruct (d_month d) as [|a [|b [|c m]]]; try discriminate.
      inversion D as [|? ? Ha D1]; subst. inversion D1 as [|? ? Hb _]; subst.
      destruct pre as [|x [|z [|u pre]]]; cbn [List.length] in Hl; try lia;
        cbn [app] in E.
      * injection E as ? ?; subst. apply fails_no_dash. cbn.
        apply digit_no_dash. exact Hb.
      * injection E as ? ? ?; subst. apply fails_after. exact R.
  - apply month_word_spelled in Wm. destruct Wm as (L & n & _ & _ & _ & D & _).
    apply fails_first. apply fails_first. apply fails_grp.
    apply fails_cls; [lia|].
    destruct (d_month d); [discriminate|exact D].
Qed.

(** The day-first pattern on a text with the day first. *)
Lemma dmy_match (d : date_parts) :
  wf_day_first d = true ->
  re_match false dmy_re (day_first d)
  = Some (MObj 0 (List.length (day_first d))
            (time_caps (d_time d)
               (("y"%string, d_year d) :: ("m"%string, d_month d)
                :: day_caps (d_day d) []))).
Proof.
  intros W.
  apply (takes_match dmy_re (day_first d)
           (fun cs => time_caps (d_time d)
                        (("y"%string, d_year d) :: ("m"%string, d_month d)
                         :: day_caps (d_day d) cs))).
  change dmy_re
    with (Seq (Opt (Seq (Grp "d" (Times Digit 1 2)) (Chr "-")))
            month_year_time).
  unfold day_first. destruct (d_day d) as [x|] eqn:Ed.
  - apply (takes_seq_last false _ _ (x ++ ["-"%char]) _
             (fun cs => ("d"%string, x) :: cs)
             (fun cs => time_caps (d_time d)
                          (("y"%string, d_year d)
                           :: ("m"%string, d_month d) :: cs))).
    + apply takes_day_text. unfold wf_day_first in W. rewrite Ed in W.
      cbn [wf_day] in W.
      apply andb_true_iff in W. destruct W as [W _].
      apply andb_true_iff in W. destruct W as [W _].
      apply andb_true_iff in W. destruct W as [W _]. exact W.
    + apply takes_month_year_time. exact W.
  - cbn [app day_caps]. apply takes_skip.
    + rewrite app_nil_r. apply day_skipped. exact W.
    + apply takes_month_year_time. exact W.
Qed.

(** The year-first pattern on a text with the year first. *)
Lemma ymd_match (d : date_parts) :
  wf_year_first d = true ->
  re_match false ymd_re (year_first d)
  = Some (MObj 0 (List.length (year_first d))
            (time_caps (d_time d)
               (day_caps (d_day d)
                  [("m"%string, d_month d); ("y"%string, d_year d)]))).
Proof.
  unfold wf_year_first. intros W.
  apply andb_true_iff in W. destruct W as [W Ws].
  apply andb_true_iff in W. destruct W as [W Wt].
  apply andb_true_iff in W. destruct W as [W Wd].
  apply andb_true_iff in W. destruct W as [Wy Wm].
  apply all_digits_of_spec in Wy.
  apply (takes_match ymd_re (year_first d)
           (fun cs => time_caps (d_time d)
                        (day_caps (d_day d)
                           (("m"%string, d_month d)
                            :: ("y"%string, d_year d) :: cs)))).
  unfold ymd_re, year_first. cbn [seqs].
  apply (takes_seq_last false _ _ (d_year d) _
           (fun cs => ("y"%string, d_year d) :: cs)
           (fun cs => time_caps (d_time d)
                        (day_caps (d_day d)
                           (("m"%string, d_month d) :: cs)))).
  { apply (takes_grp false "y" _ _ _ same). apply takes_count. exact Wy. }
  apply (takes_seq_last false _ _ ["-"%char] _ same
           (fun cs => time_caps (d_time d)
                        (day_caps (d_day d)
                           (("m"%string, d_month d) :: cs)))).
  { apply takes_chr. }
  apply (takes_seq_last false _ _ (d_month d) _
           (fun cs => ("m"%string, d_month d) :: cs)
           (fun cs => time_caps (d_time d) (day_caps (d_day d) cs))).
  { apply takes_month_text; [exact Wm|]. intros M1.
    destruct (d_day d) as [x|]; [reflexivity|].
    rewrite M1 in Ws. cbn [negb orb app] in Ws.
    apply set_off_head; try assumption; [apply space_no_digit|reflexivity]. }
  apply (takes_seq_last false _ _
           (match d_day d with Some x => "-"%char :: x | None => [] end) _
           (day_caps (d_day d)) (time_caps (d_time d))).
  { apply takes_day_last; [exact Wd|].
    destruct (d_day d) as [x|].
    - intros X1. rewrite X1 in Ws. cbn [negb orb] in Ws.
      apply set_off_head; try assumption; [apply space_no_digit|reflexivity].
    - apply time_no_dash. exact Wt. }
  apply takes_time_text. exact Wt.
Qed.

(** Neither text is a [now]. *)
Lemma now_fails_digit (c : ascii) (s : str) :
  is_digit c = true -> fails false now_re (c :: s).
Proof.
  intros H. unfold now_re.
  assert (X : forall x, is_digit x = false -> ceqb x c = false)
    by (intros x Hx; apply digit_not; assumption).
  apply fails_skipped.
  - apply fails_chr. apply X. reflexivity.
  - apply fails_grp. apply fails_alt;
      unfold Lit; cbn [lit list_ascii_of_string map seqs];
      apply fails_first; apply fails_chr; apply X; reflexivity.
Qed.

Lemma short_number_head (w rest : str) :
  short_number w = true ->
  exists c s, w ++ rest = c :: s /\ is_digit c = true.
Proof.
  intros H. apply short_number_digits in H. destruct H as [D L].
  destruct w as [|c w]; [cbn in L; lia|].
  inversion D; subst. exists c, (w ++ rest). split; [reflexivity|assumption].
Qed.

Lemma day_first_no_now (d : date_parts) :
  wf_day_first d = true -> fails false now_re (day_first d).
Proof.
  unfold wf_day_first. intros W.
  apply andb_true_iff in W. destruct W as [W _].
  apply andb_true_iff in W. destruct W as [W _].
  apply andb_true_iff in W. destruct W as [Wd Wm].
  unfold day_first. destruct (d_day d) as [x|].
  - cbn [wf_day] in Wd. rewrite <- app_assoc.
    destruct (short_number_head x
                (["-"%char] ++ d_month d ++ ["-"%char] ++ d_year d
                 ++ time_str (d_time d)) Wd) as (c & s & -> & Hc).
    apply now_fails_digit. exact Hc.
  - rewrite app_nil_l. unfold wf_month in Wm. apply orb_true_iff in Wm.
    destruct Wm as [Wm|Wm].
    + destruct (short_number_head (d_month d)
                  (["-"%char] ++ d_year d ++ time_str (d_time d)) Wm)
        as (c & s & -> & Hc).
      apply now_fails_digit. exact Hc.
    + apply month_word_spelled in Wm.
      destruct Wm as (_ & n & _ & _ & _ & _ & N). apply N.
Qed.

Lemma year_first_no_now (d : date_parts) :
  wf_year_first d = true -> fails false now_re (year_first d).
Proof.
  unfold wf_year_first. intros W.
  apply andb_true_iff in W. destruct W as [W _].
  apply andb_true_iff in W. destruct W as [W _].
  apply andb_true_iff in W. destruct W as [W _].
  apply andb_true_iff in W. destruct W as [Wy _].
  apply all_digits_of_spec in Wy. destruct Wy as [L D].
  unfold year_first. destruct (d_year d) as [|c y]; [discriminate|].
  inversion D; subst. apply now_fails_digit. assumption.
Qed.

(** A text with the day first is none with the year first: it begins
    with fewer than four digits. *)
Lemma day_first_no_year (d : date_parts) :
  wf_day_first d = true -> fails false ymd_re (day_first d).
Proof.
  unfold wf_day_first. intros W.
  apply andb_true_iff in W. destruct W as [W _].
  apply andb_true_iff in W. destruct W as [W _].
  apply andb_true_iff in W. destruct W as [Wd Wm].
  unfold ymd_re. cbn [seqs]. apply fails_first. apply fails_grp.
  unfold Times, Digit. unfold day_first. destruct (d_day d) as [x|].
  - cbn [wf_day] in Wd. apply short_number_digits in Wd.
    destruct Wd as [D L]. rewrite <- app_assoc.
    apply fails_short; [exact D|lia|reflexivity].
  - rewrite app_nil_l. unfold wf_month in Wm. apply orb_true_iff in Wm.
    destruct Wm as [Wm|Wm].
    + apply short_number_digits in Wm. destruct Wm as [D L].
      apply fails_short; [exact D|lia|reflexivity].
    + apply month_word_spelled in Wm.
      destruct Wm as (L & n & _ & _ & _ & D & _).
      apply fails_cls; [lia|].
      destruct (d_month d); [discriminate|exact D].
Qed.

(** *** The fields of [strptime], for any digits *)

Definition in_range (lo hi : Z) (w : str) : bool :=
  ((lo <=? number w) && (number w <=? hi))%Z.

(** One text of a field: out of range, or the pattern is run on it. *)
Ltac run_text H :=
  first [ exfalso; vm_compute in H; discriminate H | run_pattern ].

Ltac each_digit i Hi tac :=
  do 10 (destruct i as [|i]; [tac|]); exfalso; lia.

Lemma takes_strp_m_text (w rest : str) :
  short_number w = true -> in_range 1 12 w = true ->
  takes true strp_m w ("-"%char :: rest) same.
Proof.
  intros W H. apply short_number_cases in W. destruct W as [W|W].
  - destruct (one_digit w W) as (i & Hi & ->). clear W.
    each_digit i Hi ltac:(run_text H).
  - destruct (two_digits w W) as (i & j & Hi & Hj & ->). clear W.
    each_digit i Hi ltac:(each_digit j Hj ltac:(run_text H)).
Qed.

Lemma takes_strp_d_text (w rest : str) :
  short_number w = true -> in_range 1 31 w = true ->
  takes true strp_d w (SPACE :: rest) same.
Proof.
  intros W H. apply short_number_cases in W. destruct W as [W|W].
  - destruct (one_digit w W) as (i & Hi & ->). clear W.
    each_digit i Hi ltac:(run_text H).
  - destruct (two_digits w W) as (i & j & Hi & Hj & ->). clear W.
    each_digit i Hi ltac:(each_digit j Hj ltac:(run_text H)).
Qed.

Lemma takes_strp_H_text (w rest : str) :
  all_digits_of 2 w = true -> in_range 0 23 w = true ->
  takes true strp_H w (":"%char :: rest) same.
Proof.
  intros W H. destruct (two_digits w W) as (i & j & Hi & Hj & ->). clear W.
  each_digit i Hi ltac:(each_digit j Hj ltac:(run_text H)).
Qed.

Lemma takes_strp_M_text (w rest : str) :
  all_digits_of 2 w = true -> in_range 0 59 w = true ->
  takes true strp_M w (":"%char :: rest) same.
Proof.
  intros W H. destruct (two_digits w W) as (i & j & Hi & Hj & ->). clear W.
  each_digit i Hi ltac:(each_digit j Hj ltac:(run_text H)).
Qed.

Lemma takes_strp_S_text (w : str) :
  all_digits_of 2 w = true -> in_range 0 59 w = true ->
  takes true strp_S w [] same.
Proof.
  intros W H. destruct (two_digits w W) as (i & j & Hi & Hj & ->). clear W.
  each_digit i Hi ltac:(each_digit j Hj ltac:(run_text H)).
Qed.

(** *** A date in digits, read by [strptime] *)

Lemma in_range_of (lo hi : Z) (w : str) :
  (lo <= number w <= hi)%Z -> in_range lo hi w = true.
Proof.
  intros H. unfold in_range. apply andb_true_iff.
  split; apply Z.leb_le; lia.
Qed.

Lemma strptime_digits (Y m dd H Mi S : str) :
  all_digits_of 4 Y = true -> short_number m = true ->
  short_number dd = true -> all_digits_of 2 H = true ->
  all_digits_of 2 Mi = true -> all_digits_of 2 S = true ->
  valid_datetime
    (mkDatetime (number Y) (number m) (number dd) (number H) (number Mi)
       (number S) 0) = true ->
  strptime (Y ++ lit "-" ++ m ++ lit "-" ++ dd ++ lit " " ++ H ++ lit ":"
            ++ Mi ++ lit ":" ++ S)
  = inr (mkDatetime (number Y) (number m) (number dd) (number H) (number Mi)
           (number S) 0).
Proof.
  intros WY Wm Wd WH WM WS Hv.
  pose proof (valid_datetime_ranges _ Hv) as R.
  cbn [year month day hour minute second] in R.
  destruct R as (_ & Rm & Rd & RH & RM & RS).
  pose proof (proj1 (all_digits_of_spec 4 Y) WY) as DY.
  pose proof (proj1 (all_digits_of_spec 2 H) WH) as DH.
  set (text := Y ++ lit "-" ++ m ++ lit "-" ++ dd ++ lit " " ++ H ++ lit ":"
               ++ Mi ++ lit ":" ++ S).
  assert (M : re_match true strptime_re text
              = Some (MObj 0 (List.length text)
                        [("S"%string, S); ("M"%string, Mi);
                         ("H"%string, H); ("d"%string, dd);
                         ("m"%string, m); ("Y"%string, Y)])).
  { unfold re_match. rewrite <- (app_nil_r text) at 1.
    assert (T : takes true strptime_re text []
                  (fun cs => ("S"%string, S) :: ("M"%string, Mi)
                             :: ("H"%string, H) :: ("d"%string, dd)
                             :: ("m"%string, m) :: ("Y"%string, Y) :: cs)).
    { unfold strptime_re, text. cbn [seqs].
      apply (takes_seq true _ _ Y _ []
               (fun cs => ("Y"%string, Y) :: cs)
               (fun cs => ("S"%string, S) :: ("M"%string, Mi)
                          :: ("H"%string, H) :: ("d"%string, dd)
                          :: ("m"%string, m) :: cs)).
      { apply (takes_grp true "Y" _ Y _ same). unfold Times, Digit.
        destruct DY as [L D]. rewrite <- L.
        apply takes_exactly; [exact D|lia]. }
      apply (takes_seq true _ _ ["-"%char] _ [] same
               (fun cs => ("S"%string, S) :: ("M"%string, Mi)
                          :: ("H"%string, H) :: ("d"%string, dd)
                          :: ("m"%string, m) :: cs));
        [apply takes_chr|].
      apply (takes_seq true _ _ m _ []
               (fun cs => ("m"%string, m) :: cs)
               (fun cs => ("S"%string, S) :: ("M"%string, Mi)
                          :: ("H"%string, H) :: ("d"%string, dd) :: cs)).
      { apply (takes_grp true "m" strp_m m _ same).
        apply takes_strp_m_text; [exact Wm|apply in_range_of; lia]. }
      apply (takes_seq true _ _ ["-"%char] _ [] same
               (fun cs => ("S"%string, S) :: ("M"%string, Mi)
                          :: ("H"%string, H) :: ("d"%string, dd) :: cs));
        [apply takes_chr|].
      apply (takes_seq true _ _ dd _ []
               (fun cs => ("d"%string, dd) :: cs)
               (fun cs => ("S"%string, S) :: ("M"%string, Mi)
                          :: ("H"%string, H) :: cs)).
      { apply (takes_grp true "d" strp_d dd _ same).
        apply takes_strp_d_text; [exact Wd|apply in_range_of; lia]. }
      apply (takes_seq true _ _ [SPACE] _ [] same
               (fun cs => ("S"%string, S) :: ("M"%string, Mi)
                          :: ("H"%string, H) :: cs)).
      { unfold Plus, Space. apply takes_run.
        - repeat constructor.
        - cbn. lia.
        - exact I.
        - rewrite <- app_assoc. apply (digits_no_space 1 H). exact DH. }
      apply (takes_seq true _ _ H _ []
               (fun cs => ("H"%string, H) :: cs)
               (fun cs => ("S"%string, S) :: ("M"%string, Mi) :: cs)).
      { apply (takes_grp true "H" strp_H H _ same).
        apply takes_strp_H_text; [exact WH|apply in_range_of; lia]. }
      apply (takes_seq true _ _ [":"%char] _ [] same
               (fun cs => ("S"%string, S) :: ("M"%string, Mi) :: cs));
        [apply takes_chr|].
      apply (takes_seq true _ _ Mi _ []
               (fun cs => ("M"%string, Mi) :: cs)
               (fun cs => ("S"%string, S) :: cs)).
      { apply (takes_grp true "M" strp_M Mi _ same).
        apply takes_strp_M_text; [exact WM|apply in_range_of; lia]. }
      apply (takes_seq true _ _ [":"%char] S [] same
               (fun cs => ("S"%string, S) :: cs));
        [apply takes_chr|].
      apply (takes_grp true "S" strp_S S _ same).
      apply takes_strp_S_text; [exact WS|apply in_range_of; lia]. }
    apply T. reflexivity. }
  unfold strptime. rewrite M. cbn [m_end m_caps]. rewrite Nat.eqb_refl.
  cbn [negb]. unfold int_group.
  cbn [group String.eqb Ascii.eqb Bool.eqb the].
  rewrite (int_four Y WY), (int_short m Wm), (int_short dd Wd),
    (int_pair H WH), (int_pair Mi WM), (int_pair S WS).
  rewrite Hv. reflexivity.
Qed.

(** *** What [_date_fix] makes of the parts *)

(** The parts alone, in whichever order they stand. *)
Definition wf_parts (d : date_parts) : bool :=
  wf_day (d_day d) && wf_month (d_month d)
  && (all_digits_of 2 (d_year d) || all_digits_of 4 (d_year d))
  && wf_time (d_time d).

Lemma wf_day_first_parts (d : date_parts) :
  wf_day_first d = true -> wf_parts d = true.
Proof.
  unfold wf_day_first, wf_parts. intros W.
  apply andb_true_iff in W. destruct W as [W Wt].
  apply andb_true_iff in W. destruct W as [W Wy].
  rewrite W, Wt. cbn [andb]. rewrite andb_true_r.
  apply orb_true_iff in Wy. destruct Wy as [Wy|Wy].
  - apply andb_true_iff in Wy. destruct Wy as [Wy _]. rewrite Wy.
    reflexivity.
  - rewrite Wy. apply orb_true_r.
Qed.

Lemma wf_year_first_parts (d : date_parts) :
  wf_year_first d = true -> wf_parts d = true.
Proof.
  unfold wf_year_first, wf_parts. intros W.
  apply andb_true_iff in W. destruct W as [W _].
  apply andb_true_iff in W. destruct W as [W Wt].
  apply andb_true_iff in W. destruct W as [W Wd].
  apply andb_true_iff in W. destruct W as [Wy Wm].
  rewrite Wd, Wm, Wy, Wt. rewrite orb_true_r. reflexivity.
Qed.

Definition fixed_year (y : str) : str :=
  if List.length y =? 2
  then (if (93 <=? number y)%Z then lit "19" else lit "20") ++ y
  else y.

Definition fixed_month (m : str) : str :=
  if List.length m =? 3 then str_of_Z (month_value m) else m.

(** The text [_date_fix] hands to [strptime]. *)
Definition fixed (d : date_parts) : str :=
  fixed_year (d_year d) ++ lit "-" ++ fixed_month (d_month d) ++ lit "-"
  ++ match d_day d with Some x => x | None => lit "01" end
  ++ lit " "
  ++ match d_time d with Some t => t_hour t | None => lit "00" end
  ++ lit ":"
  ++ match d_time d with Some t => t_minute t | None => lit "00" end
  ++ lit ":"
  ++ match d_time d with
     | Some t => match t_second t with Some s => s | None => lit "00" end
     | None => lit "00"
     end.

Lemma group_or_some (name : string) (cs : caps) (w dflt : str) :
  group name cs = Some w -> w <> [] -> group_or name cs dflt = w.
Proof.
  intros H Hw. unfold group_or. rewrite H.
  destruct w; [contradiction|reflexivity].
Qed.

Lemma group_or_none (name : string) (cs : caps) (dflt : str) :
  group name cs = None -> group_or name cs dflt = dflt.
Proof. intros H. unfold group_or. rewrite H. reflexivity. Qed.

Lemma all_digits_nonempty (n : nat) (w : str) :
  all_digits_of (S n) w = true -> w <> [].
Proof.
  intros H. apply all_digits_of_spec in H. destruct H as [L _].
  destruct w; [discriminate|discriminate].
Qed.

Lemma short_number_nonempty (w : str) : short_number w = true -> w <> [].
Proof.
  intros H. apply short_number_digits in H. destruct H as [_ L].
  destruct w; [cbn in L; lia|discriminate].
Qed.

(** [_date_fix] reads the parts from the groups, whatever their
    order. *)
Lemma date_fix_groups (d : date_parts) (cs : caps) :
  wf_parts d = true ->
  group "y" cs = Some (d_year d) ->
  group "m" cs = Some (d_month d) ->
  group "d" cs = d_day d ->
  group "H" cs = option_map t_hour (d_time d) ->
  group "M" cs = option_map t_minute (d_time d) ->
  group "S" cs = match d_time d with
                 | Some t => t_second t
                 | None => None
                 end ->
  _date_fix cs = inr (fixed d).
Proof.
  unfold wf_parts. intros W Gy Gm Gd GH GM GS.
  apply andb_true_iff in W. destruct W as [W Wt].
  apply andb_true_iff in W. destruct W as [W Wy].
  apply andb_true_iff in W. destruct W as [Wd Wm].
  unfold _date_fix, fixed. rewrite Gy, Gm. cbn [the].
  assert (Y : (if List.length (d_year d) =? 2
               then match py_int (d_year d) with
                    | Some n => if (93 <=? n)%Z then lit "19" else lit "20"
                    | None => lit "20"
                    end ++ d_year d
               else d_year d) = fixed_year (d_year d)).
  { unfold fixed_year. destruct (List.length (d_year d) =? 2) eqn:L;
      [|reflexivity].
    apply orb_true_iff in Wy. destruct Wy as [Wy|Wy].
    - rewrite (int_pair _ Wy). reflexivity.
    - apply all_digits_of_spec in Wy. destruct Wy as [L4 _].
      rewrite L4 in L. discriminate. }
  rewrite Y. clear Y.
  assert (M : (if List.length (d_month d) =? 3
               then match dict_find _MONTHS_number (lower (d_month d)) with
                    | Some n => ret (str_of_Z n)
                    | None => raise (KeyError (lower (d_month d)))
                    end
               else ret (d_month d)) = inr (fixed_month (d_month d))).
  { unfold fixed_month, month_value.
    destruct (List.length (d_month d) =? 3) eqn:L; [|reflexivity].
    unfold wf_month in Wm. apply orb_true_iff in Wm.
    destruct Wm as [Wm|Wm].
    - apply short_number_digits in Wm. apply Nat.eqb_eq in L. lia.
    - apply month_word_spelled in Wm. destruct Wm as (_ & n & E & _).
      rewrite dict_get_find, E. reflexivity. }
  rewrite M. clear M. cbn [bind ret].
  assert (D : group_or "d" cs (lit "01")
              = match d_day d with Some x => x | None => lit "01" end).
  { destruct (d_day d) as [x|].
    - apply group_or_some; [exact Gd|].
      apply short_number_nonempty. exact Wd.
    - apply group_or_none. exact Gd. }
  rewrite D. clear D.
  destruct (d_time d) as [t|]; cbn [option_map] in *.
  - cbn [wf_time] in Wt.
    apply andb_true_iff in Wt. destruct Wt as [Wt Ws].
    apply andb_true_iff in Wt. destruct Wt as [Wt Wmi].
    apply andb_true_iff in Wt. destruct Wt as [_ Wh].
    rewrite (group_or_some "H" cs _ _ GH (all_digits_nonempty 1 _ Wh)).
    rewrite (group_or_some "M" cs _ _ GM (all_digits_nonempty 1 _ Wmi)).
    destruct (t_second t) as [s|].
    + rewrite (group_or_some "S" cs _ _ GS (all_digits_nonempty 1 _ Ws)).
      reflexivity.
    + rewrite (group_or_none "S" cs _ GS). reflexivity.
  - rewrite (group_or_none "H" cs _ GH), (group_or_none "M" cs _ GM),
      (group_or_none "S" cs _ GS). reflexivity.
Qed.

(** *** The date the fixed text stands for *)

Lemma fixed_year_value (y : str) :
  all_digits_of 2 y || all_digits_of 4 y = true ->
  all_digits_of 4 (fixed_year y) = true
  /\ number (fixed_year y) = year_value y.
Proof.
  intros H. apply orb_true_iff in H. destruct H as [H|H].
  - destruct (two_digits y H) as (i & j & Hi & Hj & ->). clear H.
    do 10 (destruct i as [|i];
           [do 10 (destruct j as [|j]; [split; vm_compute; reflexivity|]);
            exfalso; lia|]).
    exfalso. lia.
  - pose proof (proj1 (all_digits_of_spec 4 y) H) as [L _].
    unfold fixed_year, year_value. rewrite L. cbn [Nat.eqb].
    split; [exact H|reflexivity].
Qed.

Lemma short_number_of (w : str) :
  Forall (fun c => is_digit c = true) w -> 1 <= List.length w <= 2 ->
  short_number w = true.
Proof.
  intros D L. unfold short_number. apply orb_true_iff.
  destruct w as [|a [|b [|c w]]]; cbn [List.length] in L; try lia.
  - left. apply all_digits_of_spec. split; [reflexivity|exact D].
  - right. apply all_digits_of_spec. split; [reflexivity|exact D].
Qed.

Lemma number_str_of_Z (z : Z) :
  (1 <= z <= 31)%Z -> number (str_of_Z z) = z.
Proof.
  intros H. destruct (day_digits z H) as (D & L).
  pose proof (int_short _ (short_number_of _ D L)) as E.
  rewrite py_int_str_of_Z in E by (apply small_fits; lia).
  injection E as E. symmetry. exact E.
Qed.

Lemma fixed_month_value (m : str) :
  wf_month m = true ->
  short_number (fixed_month m) = true
  /\ number (fixed_month m) = month_value m.
Proof.
  intros W. unfold wf_month in W. apply orb_true_iff in W.
  destruct W as [W|W].
  - pose proof (short_number_digits m W) as [_ L].
    unfold fixed_month, month_value.
    destruct (List.length m =? 3) eqn:E;
      [apply Nat.eqb_eq in E; lia|].
    split; [exact W|reflexivity].
  - apply month_word_spelled in W. destruct W as (L & n & E & R & _).
    unfold fixed_month, month_value. rewrite L. cbn [Nat.eqb].
    rewrite dict_get_find, E.
    destruct (day_digits n ltac:(lia)) as (D & Ln).
    split; [apply short_number_of; assumption|].
    apply number_str_of_Z. lia.
Qed.

(** The fixed text is read by [strptime] as the date the parts stand
    for. *)
Lemma strptime_fixed (d : date_parts) :
  wf_parts d = true ->
  valid_datetime (date_value d) = true ->
  strptime (fixed d) = inr (date_value d).
Proof.
  unfold wf_parts. intros W Hv.
  apply andb_true_iff in W. destruct W as [W Wt].
  apply andb_true_iff in W. destruct W as [W Wy].
  apply andb_true_iff in W. destruct W as [Wd Wm].
  destruct (fixed_year_value _ Wy) as (Y4 & Yv).
  destruct (fixed_month_value _ Wm) as (Ms & Mv).
  set (dd := match d_day d with Some x => x | None => lit "01" end).
  set (hh := match d_time d with Some t => t_hour t | None => lit "00" end).
  set (mi := match d_time d with Some t => t_minute t | None => lit "00" end).
  set (ss := match d_time d with
             | Some t => match t_second t with
                         | Some s => s
                         | None => lit "00"
                         end
             | None => lit "00"
             end).
  assert (Dd : short_number dd = true
               /\ number dd
                  = match d_day d with Some x => number x | None => 1%Z end).
  { unfold dd. destruct (d_day d) as [x|]; split;
      try reflexivity; exact Wd. }
  assert (Th : all_digits_of 2 hh = true
               /\ number hh
                  = match d_time d with
                    | Some t => number (t_hour t)
                    | None => 0%Z
                    end).
  { unfold hh. destruct (d_time d) as [t|]; [|split; reflexivity].
    cbn [wf_time] in Wt.
    apply andb_true_iff in Wt. destruct Wt as [Wt _].
    apply andb_true_iff in Wt. destruct Wt as [Wt _].
    apply andb_true_iff in Wt. destruct Wt as [_ Wh].
    split; [exact Wh|reflexivity]. }
  assert (Tm : all_digits_of 2 mi = true
               /\ number mi
                  = match d_time d with
                    | Some t => number (t_minute t)
                    | None => 0%Z
                    end).
  { unfold mi. destruct (d_time d) as [t|]; [|split; reflexivity].
    cbn [wf_time] in Wt.
    apply andb_true_iff in Wt. destruct Wt as [Wt _].
    apply andb_true_iff in Wt. destruct Wt as [_ Wmi].
    split; [exact Wmi|reflexivity]. }
  assert (Ts : all_digits_of 2 ss = true
               /\ number ss
                  = match d_time d with
                    | Some t => match t_second t with
                                | Some s => number s
                                | None => 0%Z
                                end
                    | None => 0%Z
                    end).
  { unfold ss. destruct (d_time d) as [t|]; [|split; reflexivity].
    cbn [wf_time] in Wt.
    apply andb_true_iff in Wt. destruct Wt as [_ Ws].
    destruct (t_second t) as [s|]; [|split; reflexivity].
    split; [exact Ws|reflexivity]. }
  destruct Dd as (Dd & Dv), Th as (Th & Hv'), Tm as (Tm & Mv'),
    Ts as (Ts & Sv).
  assert (E : date_value d
              = mkDatetime (number (fixed_year (d_year d)))
                  (number (fixed_month (d_month d))) (number dd)
                  (number hh) (number mi) (number ss) 0).
  { unfold date_value. rewrite Yv, Mv, Dv, Hv', Mv', Sv. reflexivity. }
  rewrite E in Hv |- *.
  change (fixed d)
    with (fixed_year (d_year d) ++ lit "-" ++ fixed_month (d_month d)
          ++ lit "-" ++ dd ++ lit " " ++ hh ++ lit ":" ++ mi ++ lit ":" ++ ss).
  apply strptime_digits; assumption.
Qed.

(** *** Dates read by [cast] *)

Section DateGrammar.

Variable F : Type.
Variable float_of_str : str -> option F.
Variable now : datetime.

Lemma parse_day_first (d : date_parts) :
  wf_day_first d = true ->
  valid_datetime (date_value d) = true ->
  _parse_datetime now (day_first d) = inr (date_value d).
Proof.
  intros W Hv. unfold _parse_datetime.
  rewrite (fails_match now_re _ (day_first_no_now d W)).
  rewrite (fails_match ymd_re _ (day_first_no_year d W)).
  rewrite (dmy_match d W). cbn [m_caps].
  rewrite (date_fix_groups d).
  - cbn [bind]. apply strptime_fixed; [|exact Hv].
    apply wf_day_first_parts. exact W.
  - apply wf_day_first_parts. exact W.
  - unfold time_caps, day_caps.
    destruct (d_time d) as [t|]; [destruct (t_second t)|];
      destruct (d_day d); reflexivity.
  - unfold time_caps, day_caps.
    destruct (d_time d) as [t|]; [destruct (t_second t)|];
      destruct (d_day d); reflexivity.
  - unfold time_caps, day_caps.
    destruct (d_time d) as [t|]; [destruct (t_second t)|];
      destruct (d_day d); reflexivity.
  - unfold time_caps, day_caps.
    destruct (d_time d) as [t|]; [destruct (t_second t)|];
      destruct (d_day d); reflexivity.
  - unfold time_caps, day_caps.
    destruct (d_time d) as [t|]; [destruct (t_second t)|];
      destruct (d_day d); reflexivity.
  - unfold time_caps, day_caps.
    destruct (d_time d) as [t|]; [destruct (t_second t)|];
      destruct (d_day d); reflexivity.
Qed.

Lemma parse_year_first (d : date_parts) :
  wf_year_first d = true ->
  valid_datetime (date_value d) = true ->
  _parse_datetime now (year_first d) = inr (date_value d).
Proof.
  intros W Hv. unfold _parse_datetime.
  rewrite (fails_match now_re _ (year_first_no_now d W)).
  rewrite (ymd_match d W). cbn [m_caps].
  rewrite (date_fix_groups d).
  - cbn [bind]. apply strptime_fixed; [|exact Hv].
    apply wf_year_first_parts. exact W.
  - apply wf_year_first_parts. exact W.
  - unfold time_caps, day_caps.
    destruct (d_time d) as [t|]; [destruct (t_second t)|];
      destruct (d_day d); reflexivity.
  - unfold time_caps, day_caps.
    destruct (d_time d) as [t|]; [destruct (t_second t)|];
      destruct (d_day d); reflexivity.
  - unfold time_caps, day_caps.
    destruct (d_time d) as [t|]; [destruct (t_second t)|];
      destruct (d_day d); reflexivity.
  - unfold time_caps, day_caps.
    destruct (d_time d) as [t|]; [destruct (t_second t)|];
      destruct (d_day d); reflexivity.
  - unfold time_caps, day_caps.
    destruct (d_time d) as [t|]; [destruct (t_second t)|];
      destruct (d_day d); reflexivity.
  - unfold time_caps, day_caps.
    destruct (d_time d) as [t|]; [destruct (t_second t)|];
      destruct (d_day d); reflexivity.
Qed.

Lemma cast_parsed (raw : str) (c : ascii) (d : datetime) :
  In c raw -> _parse_datetime now raw = inr d ->
  cast F float_of_str now (lit ":date") (Some raw) = inr (VDate d).
Proof.
  intros Hc H. destruct raw as [|x raw]; [destruct Hc|].
  cbn [cast]. change (seqb (lit ":date") (lit ":integer")) with false.
  change (seqb (lit ":date") (lit ":float")) with false.
  change (seqb (lit ":date") (lit ":date")) with true. cbn iota.
  rewrite H. reflexivity.
Qed.

(** C8: [cast] reads every text of the grammar as the date it stands
    for.  With the day first, [D-M-Y] or [M-Y]: the day and the month
    in one or two digits, or the month in three letters of any case,
    the year in four digits or in two, which stand for 19xx from 93 on
    and for 20xx below; with the year first, [Y-M-D] or [Y-M], the year
    in four digits.  A time may follow, [HH:MM] or [HH:MM:SS], after
    blanks or none and within parentheses or not.  Without a day the
    date is the first of the month, without a time it is midnight.  And
    the two examples of the documentation. *)
Theorem cast_date_grammar :
  (forall d : date_parts,
      wf_day_first d = true ->
      valid_datetime (date_value d) = true ->
      cast F float_of_str now (lit ":date") (Some (day_first d))
      = inr (VDate (date_value d)))
  /\ (forall d : date_parts,
         wf_year_first d = true ->
         valid_datetime (date_value d) = true ->
         cast F float_of_str now (lit ":date") (Some (year_first d))
         = inr (VDate (date_value d)))
  /\ cast F float_of_str now (lit ":date") (Some (lit "01-dec-02 (15:31:01)"))
     = inr (VDate (mkDatetime 2002 12 1 15 31 1 0))
  /\ cast F float_of_str now (lit ":date") (Some (lit "apr-95"))
     = inr (VDate (mkDatetime 1995 4 1 0 0 0 0)).
Proof.
  split; [|split; [|split; reflexivity]].
  - intros d W Hv. apply (cast_parsed _ "-"%char).
    + unfold day_first. apply in_or_app. right. apply in_or_app. right.
      left. reflexivity.
    + apply parse_day_first; assumption.
  - intros d W Hv. apply (cast_parsed _ "-"%char).
    + unfold year_first. apply in_or_app. right. left. reflexivity.
    + apply parse_year_first; assumption.
Qed.

End DateGrammar.

(** The first example of the documentation is a text with the day
    first, and the last of it a text with the year first. *)
Lemma cast_date_grammar_witness :
  cast unit no_float epoch (lit ":date") (Some (lit "01-dec-02 (15:31:01)"))
  = inr (VDate (mkDatetime 2002 12 1 15 31 1 0))
  /\ cast unit no_float epoch (lit ":date") (Some (lit "2008-10-12 10:51"))
     = inr (VDate (mkDatetime 2008 10 12 10 51 0 0)).
Proof.
  split.
  - exact (proj1 (cast_date_grammar unit no_float epoch)
             (mkDate (Some (lit "01")) (lit "dec") (lit "02")
                (Some (mkTime (lit " ") true (lit "15") (lit "31")
                         (Some (lit "01")) true)))
             eq_refl eq_refl).
  - exact (proj1 (proj2 (cast_date_grammar unit no_float epoch))
             (mkDate (Some (lit "12")) (lit "10") (lit "2008")
                (Some (mkTime (lit " ") false (lit "10") (lit "51")
                         None false)))
             eq_refl eq_refl).
Defined.

(** *** Writing a table and reading it back *)





Section Storage.

Variable F : Type.
Variable float_of_str : str -> option F.
Variable str_of_float : F -> str.
Variable now : datetime.


(** A value that a field's column holds: one it [keeps], or in a
    [:date] field a date of a year of four digits, without
    microseconds. *)
Definition holds (f : Field) (v : Value F) : bool :=
  keeps F f v
  || match v with
     | VDate d =>
         seqb (datatype f) (lit ":date") && valid_datetime d
         && (1000 <=? year d)%Z && (microsecond d =? 0)%Z
     | _ => false
     end.

Definition date_char (c : ascii) : Prop :=
  is_digit c = true \/ is_word c = true
  \/ c = "-"%char \/ c = SPACE \/ c = ":"%char.

Lemma number_date_chars (z : Z) (c : ascii) :
  In c (str_of_Z z) -> date_char c.
Proof.
  intros H. destruct (str_of_Z_chars z) as [_ A]. rewrite Forall_forall in A.
  destruct (A _ H) as [X|X]; [left; exact X|right; right; left; exact X].
Qed.

Lemma pair_date_chars (z : Z) (c : ascii) :
  (0 <= z < 100)%Z -> In c (zpad 2 z) -> date_char c.
Proof.
  intros Hz H. destruct (pair_digits z Hz) as ([_ A] & _).
  rewrite Forall_forall in A. left. apply A. exact H.
Qed.

Lemma format_date_chars (d : datetime) (dflt : option str) (c : ascii) :
  valid_datetime d = true ->
  In c (format F str_of_float (lit ":date") (VDate d) dflt) -> date_char c.
Proof.
  intros Hv. pose proof (valid_datetime_ranges d Hv) as R.
  destruct R as (_ & Hmo & _ & Hh & Hmi & Hs).
  cbn [format]. change (seqb (lit ":date") (lit ":date")) with true. cbn iota.
  intros H. apply in_app_or in H. destruct H as [H|H];
    [apply (number_date_chars _ _ H)|].
  apply in_app_or in H. destruct H as [H|H];
    [destruct H as [<-|[]]; right; right; left; reflexivity|].
  apply in_app_or in H. destruct H as [H|H].
  { destruct (month_letters (month d) Hmo) as (_ & W & _).
    rewrite Forall_forall in W. right. left. apply W. exact H. }
  apply in_app_or in H. destruct H as [H|H];
    [destruct H as [<-|[]]; right; right; left; reflexivity|].
  apply in_app_or in H. destruct H as [H|H];
    [apply (number_date_chars _ _ H)|].
  destruct ((hour d =? 0)%Z && (minute d =? 0)%Z && (second d =? 0)%Z);
    [destruct H|].
  apply in_app_or in H. destruct H as [H|H];
    [destruct H as [<-|[]]; right; right; right; left; reflexivity|].
  apply in_app_or in H. destruct H as [H|H];
    [apply (pair_date_chars (hour d)); [lia|exact H]|].
  apply in_app_or in H. destruct H as [H|H];
    [destruct H as [<-|[]]; right; right; right; right; reflexivity|].
  apply in_app_or in H. destruct H as [H|H];
    [apply (pair_date_chars (minute d)); [lia|exact H]|].
  apply in_app_or in H. destruct H as [H|H];
    [destruct H as [<-|[]]; right; right; right; right; reflexivity|].
  apply (pair_date_chars (second d)); [lia|exact H].
Qed.

Lemma date_char_not (c : ascii) :
  date_char c -> c <> BACKSLASH /\ c <> CR.
Proof.
  intros [H|[H|[H|[H|H]]]]; split; intros ->; discriminate.
Qed.

Lemma cast_held (f : Field) (v : Value F) :
  holds f v = true ->
  cast F float_of_str now (datatype f)
    (column (format F str_of_float (datatype f) v (Some (default f))))
  = inr v.
Proof.
  unfold holds. intros H. apply orb_true_iff in H. destruct H as [H|H];
    [apply cast_kept; exact H|].
  destruct v as [|z|x|s|d]; try discriminate.
  apply andb_true_iff in H. destruct H as [H Hus].
  apply andb_true_iff in H. destruct H as [H Hy].
  apply andb_true_iff in H. destruct H as [Hd Hv].
  apply seqb_eq in Hd. apply Z.leb_le in Hy. apply Z.eqb_eq in Hus.
  rewrite Hd. rewrite column_survivor.
  - rewrite cast_date_text by apply format_date_nonempty.
    rewrite parse_datetime_written by assumption. reflexivity.
  - apply format_date_nonempty.
  - apply survives_plain. intros X.
    apply (format_date_chars d _ _ Hv) in X.
    apply date_char_not in X. destruct X as [X _]. apply X. reflexivity.
Qed.


(** The line [encode] makes of a record. *)
Definition line_of (fields : Fields) (record : Record F) : str :=
  join [FIELD_DELIMITER]
    (map escape
       (map (fun fv => format F str_of_float (datatype (fst fv)) (snd fv)
                         (Some (default (fst fv))))
          (combine fields record))).

Lemma line_of_no_newline (fields : Fields) (record : Record F) :
  ~ In NL (line_of fields record).
Proof.
  unfold line_of. intros Hc. apply in_join in Hc.
  destruct Hc as [Hc|(x & Hx & Hc)].
  - destruct Hc as [Hc|[]]. discriminate.
  - apply in_map_iff in Hx. destruct Hx as (r & <- & _).
    apply escape_chars_safe in Hc. destruct Hc as [_ Hc]. apply Hc.
    reflexivity.
Qed.





(** A value that comes back from its column: one the field [holds],
    or in a [:float] field a float whose text is not empty, [survives]
    and is read by [float] as the same float. *)
Definition comes_back (f : Field) (v : Value F) : Prop :=
  match v with
  | VFloat x =>
      datatype f = lit ":float"
      /\ str_of_float x <> []
      /\ survives (str_of_float x) = true
      /\ float_of_str (str_of_float x) = Some x
  | _ => holds f v = true
  end.

Lemma cast_back (f : Field) (v : Value F) :
  comes_back f v ->
  cast F float_of_str now (datatype f)
    (column (format F str_of_float (datatype f) v (Some (default f))))
  = inr v.
Proof.
  destruct v as [|z|x|s|d]; cbn [comes_back]; try apply cast_held.
  intros (Hd & Hn & Hs & Hx). cbn [format str_of_value].
  rewrite column_survivor by assumption.
  unfold cast. rewrite Hd.
  change (seqb (lit ":float") (lit ":integer")) with false.
  change (seqb (lit ":float") (lit ":float")) with true. cbn iota.
  rewrite Hx. destruct (str_of_float x); [contradiction|reflexivity].
Qed.

Lemma cast_all_back (fields : Fields) (record : Record F) :
  Forall2 comes_back fields record ->
  sequence
    (map (fun cf => cast F float_of_str now (datatype (snd cf)) (fst cf))
       (combine
          (map column
             (map (fun fv => format F str_of_float (datatype (fst fv))
                               (snd fv) (Some (default (fst fv))))
                (combine fields record)))
          fields))
  = inr record.
Proof.
  induction 1 as [|f v fields record Hv _ IH]; [reflexivity|].
  cbn [combine map sequence fst snd].
  rewrite (cast_back f v Hv). cbn [bind]. rewrite IH. reflexivity.
Qed.

(** C1, as the code has it: a record whose values come back from the
    columns of their fields is encoded to a line that decodes to the
    same record.  These are the numbers of [:integer] fields that [str]
    and [int] convert, the floats of [:float] fields that [float] reads
    back from their text, the texts of [:string] fields that are not
    empty and hold no backslash before [n] or [s], the dates of [:date]
    fields with a year of four digits and no microseconds, and the
    nulls of fields whose default is empty. *)
Theorem decode_encode_kept :
  forall (fields : Fields) (record : Record F),
    fields <> [] ->
    Forall2 comes_back fields record ->
    exists line,
      encode F str_of_float record (Some fields) = inr line
      /\ decode F float_of_str now line (Some fields) = inr record.
Proof.
  intros fields record Hne H.
  pose proof (Forall2_length H) as Hlen.
  set (raws := map (fun fv => format F str_of_float (datatype (fst fv))
                                (snd fv) (Some (default (fst fv))))
                 (combine fields record)).
  exists (join [FIELD_DELIMITER] (map escape raws)).
  assert (G : given (Some fields) = Some fields)
    by (destruct fields; [contradiction|reflexivity]).
  assert (Hr : List.length raws = List.length fields).
  { unfold raws. rewrite length_map, length_combine. lia. }
  split.
  - unfold encode. rewrite G. rewrite <- Hlen, Nat.eqb_refl. reflexivity.
  - unfold decode. rewrite G.
    assert (Hcols : raw_values (join [FIELD_DELIMITER] (map escape raws))
                    = map column raws).
    { unfold raw_values. rewrite rstrip_nl_id.
      - rewrite split_on_join.
        + rewrite map_map. apply map_ext. intros r. unfold column.
          destruct (escape r); reflexivity.
        + destruct raws; [|discriminate]. destruct fields; [contradiction|].
          discriminate.
        + intros x Hx Hc. apply in_map_iff in Hx. destruct Hx as (r & <- & _).
          apply escape_chars_safe in Hc. destruct Hc as [Hc _]. apply Hc.
          reflexivity.
      - apply (line_of_no_newline fields record). }
    rewrite Hcols. rewrite length_map, Hr, Nat.eqb_refl. cbn [negb].
    apply cast_all_back. exact H.
Qed.







End Storage.

(** A [float] for examples: the one float [0.0]. *)
Definition one_float (s : str) : option unit :=
  if seqb s (lit "0.0") then Some tt else None.

Lemma decode_encode_kept_witness :
  exists line,
    encode unit unit_str
      [VInt 10; VFloat tt; VStr (lit "It rained.");
       VDate (mkDatetime 1999 9 8 15 31 1 0); VNone]
      (Some [Field_init (lit "i-id") (lit ":integer") (Some [lit ":key"]) None;
             Field_init (lit "i-weight") (lit ":float") None None;
             Field_init (lit "i-input") (lit ":string") None None;
             Field_init (lit "i-date") (lit ":date") None None;
             Field_init (lit "i-comment") (lit ":string") None None])
    = inr line
    /\ decode unit one_float epoch line
         (Some [Field_init (lit "i-id") (lit ":integer") (Some [lit ":key"]) None;
                Field_init (lit "i-weight") (lit ":float") None None;
                Field_init (lit "i-input") (lit ":string") None None;
                Field_init (lit "i-date") (lit ":date") None None;
                Field_init (lit "i-comment") (lit ":string") None None])
       = inr [VInt 10; VFloat tt; VStr (lit "It rained.");
              VDate (mkDatetime 1999 9 8 15 31 1 0); VNone].
Proof.
  apply decode_encode_kept; [discriminate|].
  repeat constructor. discriminate.
Defined.

(** What the round trip does not keep, besides the null of an
    [:integer] field: a record without fields, an empty text, a date
    with microseconds, and a date of a year of fewer than four
    digits. *)
Lemma decode_encode_no_fields :
  encode unit unit_str [] (Some []) = inr []
  /\ decode unit no_float epoch [] (Some []) = inr [VNone].
Proof. split; reflexivity. Qed.

Lemma decode_encode_empty_text :
  encode unit unit_str [VStr []]
    (Some [Field_init (lit "i-input") (lit ":string") None None])
  = inr []
  /\ decode unit no_float epoch []
       (Some [Field_init (lit "i-input") (lit ":string") None None])
     = inr [VNone].
Proof. split; reflexivity. Qed.

Lemma decode_encode_microseconds :
  encode unit unit_str [VDate (mkDatetime 2000 1 2 3 4 5 6)]
    (Some [Field_init (lit "i-date") (lit ":date") None None])
  = inr (lit "2-jan-2000 03:04:05")
  /\ decode unit no_float epoch (lit "2-jan-2000 03:04:05")
       (Some [Field_init (lit "i-date") (lit ":date") None None])
     = inr [VDate (mkDatetime 2000 1 2 3 4 5 0)].
Proof. split; reflexivity. Qed.

Lemma decode_encode_short_year :
  encode unit unit_str [VDate (mkDatetime 999 1 2 0 0 0 0)]
    (Some [Field_init (lit "i-date") (lit ":date") None None])
  = inr (lit "2-jan-999")
  /\ decode unit no_float epoch (lit "2-jan-999")
       (Some [Field_init (lit "i-date") (lit ":date") None None])
     = inr [VDate (mkDatetime 1999 1 2 0 0 0 0)].
Proof. split; reflexivity. Qed.




(** *** The schema file of a database *)

Lemma read_text_plain (s : str) : ~ In CR s -> read_text s = s.
Proof.
  induction s as [|c s IH]; intros H; [reflexivity|].
  cbn [read_text].
  assert (E : ceqb c CR = false).
  { apply ceqb_neq. intros ->. apply H. left. reflexivity. }
  rewrite E, IH; [reflexivity|]. intros X. apply H. right. exact X.
Qed.

Lemma join_lines_no_cr (ls : list str) :
  Forall plain_line ls -> ~ In CR (join [NL] ls ++ [NL]).
Proof.
  intros H X. apply in_app_or in X. destruct X as [X|[X|[]]]; [|discriminate].
  apply in_join in X. destruct X as [[X|[]]|(l & Hl & X)]; [discriminate|].
  rewrite Forall_forall in H. specialize (H l Hl).
  unfold plain_line in H. rewrite Forall_forall in H. specialize (H _ X).
  discriminate.
Qed.

Lemma schema_file_lines (schema : Schema) :
  schema <> [] ->
  Forall (fun e => wf_entry e = true) schema ->
  filter nonblank (splitlines (read_text (_format_schema schema ++ [NL])))
  = List.concat (map table_text schema).
Proof.
  intros Hne H. unfold _format_schema.
  rewrite (map_ext _ _ format_table_lines).
  rewrite <- map_map. rewrite join_glue.
  - destruct (glue_lines schema H) as [G1 G2].
    rewrite read_text_plain by (apply join_lines_no_cr; exact G2).
    assert (Hg : glue (map table_lines schema) <> []).
    { destruct schema as [|e es]; [contradiction|].
      cbn [map]. apply glue_nonempty. unfold table_lines. discriminate. }
    change [NL] with ([NL] ++ join [NL] [[]]) at 2.
    rewrite <- join_app by (exact Hg || discriminate).
    rewrite splitlines_join.
    + rewrite filter_app, G1. cbn [filter]. rewrite nonblank_nil.
      apply app_nil_r.
    + apply Forall_app. split; [exact G2|]. repeat constructor.
  - apply Forall_map. apply Forall_forall. intros e _.
    unfold table_lines. discriminate.
Qed.

Lemma parse_schema_file (schema : Schema) :
  wf_schema schema = true ->
  exists parsed,
    _parse_schema (read_text (_format_schema schema ++ [NL])) = inr parsed
    /\ forallb2 entry_eq parsed schema = true
    /\ Schema_eq parsed schema = true.
Proof.
  intros H. destruct schema as [|e es].
  { exists []. repeat split. }
  destruct (wf_schema_parts _ H) as [Hd Hw].
  destruct (parse_tables _ Hw [] [] [] Hd) as (parsed & Ep & El).
  { intros t _. reflexivity. }
  exists parsed. split; [|split].
  - unfold _parse_schema. rewrite parse_skip_blanks.
    rewrite (schema_file_lines (e :: es) ltac:(discriminate) Hw), El.
    cbn [app bind ret].
    rewrite dict_of_items_distinct; [reflexivity|].
    rewrite (entry_eq_names _ _ Ep). exact Hd.
  - exact Ep.
  - apply schema_eq_entries; assumption.
Qed.

(** A well-formed schema written with [write_schema] is read back by
    [read_schema] as an equal schema, through a file or through the
    [relations] file of a directory. *)
Theorem write_then_read_schema (path : place) (schema : Schema) :
  wf_schema schema = true ->
  path <> AtDir (Some EDir) ->
  exists path' parsed,
    write_schema path schema = inr path'
    /\ read_schema path' = inr parsed
    /\ Schema_eq parsed schema = true.
Proof.
  intros H Hp. destruct (parse_schema_file schema H) as (parsed & E & _ & Q).
  destruct path as [|text|[[text|]|]].
  - exists (AtFile (_format_schema schema ++ [NL])), parsed.
    repeat split; assumption.
  - exists (AtFile (_format_schema schema ++ [NL])), parsed.
    repeat split; assumption.
  - exists (AtDir (Some (EFile (_format_schema schema ++ [NL])))), parsed.
    repeat split; assumption.
  - contradiction.
  - exists (AtDir (Some (EFile (_format_schema schema ++ [NL])))), parsed.
    repeat split; assumption.
Qed.

Lemma entries_find (parsed schema : list (str * Fields)) (name : str) :
  forallb2 entry_eq parsed schema = true ->
  match dict_find schema name with
  | Some fields =>
      exists fields', dict_find parsed name = Some fields'
                      /\ Fields_eq fields' fields = true
  | None => dict_find parsed name = None
  end.
Proof.
  revert schema. induction parsed as [|[k' fs'] ps IH]; intros [|[k fs] es] H;
    try discriminate; [reflexivity|].
  cbn [forallb2] in H. apply andb_true_iff in H. destruct H as [H1 H2].
  unfold entry_eq in H1. cbn [fst snd] in H1.
  apply andb_true_iff in H1. destruct H1 as [Hk Hf].
  apply seqb_eq in Hk. subst k'. cbn [dict_find].
  destruct (seqb k name).
  - exists fs'. split; [reflexivity|exact Hf].
  - apply IH. exact H2.
Qed.

(** The database over a directory to which a well-formed schema was
    written: it opens, each table of the schema is a relation of that
    name with equal fields, and any other name is a [TSDBError]. *)
Theorem database_of_written_schema (relations : option entry)
  (schema : Schema) :
  wf_schema schema = true ->
  relations <> Some EDir ->
  exists path' db,
    write_schema (AtDir relations) schema = inr path'
    /\ Database_init path' = inr db
    /\ forall name,
         match dict_find schema name with
         | Some fields =>
             exists r, Database_getitem db name = inr r
                       /\ rel_name r = name
                       /\ Fields_eq (rel_fields r) fields = true
         | None =>
             Database_getitem db name
             = inl (TSDBError (lit "relation not defined in schema: " ++ name))
         end.
Proof.
  intros H Hp. destruct (parse_schema_file schema H) as (parsed & E & Ep & _).
  exists (AtDir (Some (EFile (_format_schema schema ++ [NL])))).
  exists (mkDatabase (AtDir (Some (EFile (_format_schema schema ++ [NL]))))
            parsed).
  split; [|split].
  - destruct relations as [[text|]|]; try reflexivity. contradiction.
  - unfold Database_init. cbn [is_database_directory negb read_schema].
    rewrite E. reflexivity.
  - intros name. pose proof (entries_find parsed schema name Ep) as X.
    unfold Database_getitem. cbn [db_schema].
    destruct (dict_find schema name) as [fields|].
    + destruct X as (fields' & -> & Hf). eexists. split; [reflexivity|].
      split; [reflexivity|exact Hf].
    + rewrite X. reflexivity.
Qed.

Lemma write_then_read_schema_witness :
  exists path' parsed,
    write_schema (AtDir None)
      [(lit "item",
        [Field_init (lit "i-id") (lit ":integer") (Some [lit ":key"])
           (Some (lit "item id"));
         Field_init (lit "i-input") (lit ":string") None None]);
       (lit "fold", [])]
    = inr path'
    /\ read_schema path' = inr parsed
    /\ Schema_eq parsed
         [(lit "item",
           [Field_init (lit "i-id") (lit ":integer") (Some [lit ":key"])
              (Some (lit "item id"));
            Field_init (lit "i-input") (lit ":string") None None]);
          (lit "fold", [])]
       = true.
Proof. apply write_then_read_schema; [reflexivity|discriminate]. Defined.

Lemma database_of_written_schema_witness :
  exists path' db,
    write_schema (AtDir (Some (EFile (lit "old:"))))
      [(lit "item",
        [Field_init (lit "i-id") (lit ":integer") (Some [lit ":key"]) None])]
    = inr path'
    /\ Database_init path' = inr db
    /\ forall name,
         match dict_find
                 [(lit "item",
                   [Field_init (lit "i-id") (lit ":integer")
                      (Some [lit ":key"]) None])] name with
         | Some fields =>
             exists r, Database_getitem db name = inr r
                       /\ rel_name r = name
                       /\ Fields_eq (rel_fields r) fields = true
         | None =>
             Database_getitem db name
             = inl (TSDBError (lit "relation not defined in schema: " ++ name))
         end.
Proof. apply database_of_written_schema; [reflexivity|discriminate]. Defined.

(** *** A line read without fields and written with them *)

Lemma replace_absent (a : ascii) (p new s : str) :
  ~ In a s -> replace (a :: p) new s = s.
Proof.
  unfold replace. induction s as [|c s IH]; intros H; [reflexivity|].
  cbn [replace_from startswith].
  assert (E : ceqb a c = false).
  { apply ceqb_neq. intros ->. apply H. left. reflexivity. }
  rewrite E. cbn [andb]. rewrite IH; [reflexivity|].
  intros X. apply H. right. exact X.
Qed.

Lemma unescape_plain (s : str) : ~ In BACKSLASH s -> unescape s = s.
Proof.
  intros H. unfold unescape. cbn [lit list_ascii_of_string].
  fold BACKSLASH.
  rewrite (replace_absent BACKSLASH [BACKSLASH] [BACKSLASH] s H).
  rewrite (replace_absent BACKSLASH ["n"%char] [NL] s H).
  apply replace_absent. exact H.
Qed.

(** A column as it stands in a file, with nothing to escape. *)
Definition plain_column (c : str) : Prop :=
  ~ In FIELD_DELIMITER c /\ ~ In NL c /\ ~ In BACKSLASH c.

Lemma escape_plain (s : str) : plain_column s -> escape s = s.
Proof.
  intros (Hd & Hn & Hb). rewrite escape_chars.
  induction s as [|c s IH]; [reflexivity|]. cbn [flat_map].
  rewrite IH.
  - unfold esc_char.
    assert (E1 : ceqb c BACKSLASH = false)
      by (apply ceqb_neq; intros ->; apply Hb; left; reflexivity).
    assert (E2 : ceqb c NL = false)
      by (apply ceqb_neq; intros ->; apply Hn; left; reflexivity).
    assert (E3 : ceqb c FIELD_DELIMITER = false)
      by (apply ceqb_neq; intros ->; apply Hd; left; reflexivity).
    rewrite E1, E2, E3. reflexivity.
  - intros X. apply Hd. right. exact X.
  - intros X. apply Hn. right. exact X.
  - intros X. apply Hb. right. exact X.
Qed.

(** What a column becomes: an empty one is filled with the default of
    its field. *)
Definition refill (f : Field) (col : str) : str :=
  match col with
  | [] => escape (default f)
  | _ => col
  end.

Section Reencode.

Variable F : Type.
Variable float_of_str : str -> option F.
Variable str_of_float : F -> str.
Variable now : datetime.

Lemma raw_values_columns (cols : list str) :
  cols <> [] -> Forall plain_column cols ->
  map (@raw_value F) (raw_values (join [FIELD_DELIMITER] cols))
  = map (fun col => match col with [] => VNone | _ => VStr col end) cols.
Proof.
  intros Hne H. unfold raw_values. rewrite Forall_forall in H.
  rewrite rstrip_nl_id.
  - rewrite split_on_join;
      [|exact Hne|intros x Hx; exact (proj1 (H x Hx))].
    rewrite map_map. apply map_ext_in. intros col Hc.
    destruct col as [|c col]; [reflexivity|].
    cbn [raw_value]. rewrite unescape_plain; [reflexivity|].
    exact (proj2 (proj2 (H _ Hc))).
  - intros X. apply in_join in X. destruct X as [[X|[]]|(x & Hx & X)];
      [discriminate|]. exact (proj1 (proj2 (H x Hx)) X).
Qed.

Lemma format_columns (fields : Fields) :
  forall cols,
    List.length cols = List.length fields ->
    Forall plain_column cols ->
    map escape
      (map (fun fv => format F str_of_float (datatype (fst fv)) (snd fv)
                        (Some (default (fst fv))))
         (combine fields
            (map (fun col => match col with [] => VNone | _ => VStr col end)
               cols)))
    = map (fun fc => refill (fst fc) (snd fc)) (combine fields cols).
Proof.
  induction fields as [|f fields IH]; intros [|col cols] Hl H;
    try discriminate; [reflexivity|].
  inversion H as [|? ? Hc Hcs]; subst.
  cbn [map combine fst snd]. rewrite IH by (cbn in Hl; lia || assumption).
  f_equal. destruct col as [|c col]; [reflexivity|].
  cbn [format str_of_value refill]. apply escape_plain. exact Hc.
Qed.

(** A line of columns that hold nothing to escape, decoded without
    fields and encoded again with them, as when the records of one
    relation are written to another: the columns come back as they
    were, but for the empty ones, which take the defaults of their
    fields. *)
Theorem encode_decoded_line (fields : Fields) (cols : list str) :
  fields <> [] ->
  List.length cols = List.length fields ->
  Forall plain_column cols ->
  exists record,
    decode F float_of_str now (join [FIELD_DELIMITER] cols) None = inr record
    /\ encode F str_of_float record (Some fields)
       = inr (join [FIELD_DELIMITER]
                (map (fun fc => refill (fst fc) (snd fc))
                   (combine fields cols))).
Proof.
  intros Hne Hl H.
  assert (Hc : cols <> []).
  { destruct cols; [|discriminate]. destruct fields; [contradiction|].
    discriminate. }
  exists (map (fun col => match col with [] => VNone | _ => VStr col end) cols).
  split.
  - unfold decode. cbn [given ret]. rewrite (raw_values_columns cols Hc H).
    reflexivity.
  - unfold encode.
    assert (G : given (Some fields) = Some fields)
      by (destruct fields; [contradiction|reflexivity]).
    assert (L : List.length
                  (map (fun col => match col with
                                   | [] => @VNone F
                                   | _ => VStr col
                                   end) cols)
                = List.length fields) by (rewrite length_map; exact Hl).
    rewrite G, L, Nat.eqb_refl. cbn [negb bind ret].
    rewrite (format_columns fields cols Hl H). reflexivity.
Qed.

End Reencode.

Lemma encode_decoded_line_witness :
  exists record,
    decode unit no_float epoch
      (join [FIELD_DELIMITER] [lit "10"; lit "It rained."; []]) None
    = inr record
    /\ encode unit unit_str record
         (Some [Field_init (lit "i-id") (lit ":integer") (Some [lit ":key"]) None;
                Field_init (lit "i-input") (lit ":string") None None;
                Field_init (lit "i-length") (lit ":integer") None None])
       = inr (join [FIELD_DELIMITER]
                (map (fun fc => refill (fst fc) (snd fc))
                   (combine
                      [Field_init (lit "i-id") (lit ":integer")
                         (Some [lit ":key"]) None;
                       Field_init (lit "i-input") (lit ":string") None None;
                       Field_init (lit "i-length") (lit ":integer") None None]
                      [lit "10"; lit "It rained."; []]))).
Proof.
  apply encode_decoded_line; [discriminate|reflexivity|].
  repeat constructor; intros H;
    repeat (destruct H as [H|H]; [discriminate|]); exact H.
Defined.

Lemma mem_later (k n : str) (ns : list str) :
  mem k ns = false -> In n ns -> seqb k n = false.
Proof.
  unfold mem. intros H Hin.
  destruct (seqb k n) eqn:E; [|reflexivity].
  rewrite <- H. symmetry. apply existsb_exists. exists n. split; assumption.
Qed.

Lemma dict_get_later {V : Type} (k : str) (v : V) (d : list (str * V))
  (ns : list str) (dflt : V) :
  mem k ns = false ->
  map (fun n => dict_get ((k, v) :: d) n dflt) ns
  = map (fun n => dict_get d n dflt) ns.
Proof.
  intros H. apply map_ext_in. intros n Hin. cbn [dict_get].
  rewrite (mem_later k n ns H Hin). reflexivity.
Qed.

Lemma dict_get_columns {V : Type} (ns : list str) (vs : list V) (dflt : V) :
  distinct ns = true -> List.length vs = List.length ns ->
  map (fun n => dict_get (combine ns vs) n dflt) ns = vs.
Proof.
  revert vs. induction ns as [|k ns IH]; intros [|v vs] Hd Hl;
    try discriminate; [reflexivity|].
  cbn [distinct] in Hd. apply andb_true_iff in Hd as [Hk Hd].
  apply negb_true_iff in Hk.
  cbn [combine map]. f_equal.
  - cbn [dict_get]. rewrite seqb_refl. reflexivity.
  - rewrite (dict_get_later k v _ ns dflt Hk). apply IH; [assumption|].
    cbn in Hl. lia.
Qed.

Lemma combine_names {V : Type} (ns : list str) (vs : list V) :
  List.length vs = List.length ns -> map fst (combine ns vs) = ns.
Proof.
  revert vs. induction ns as [|k ns IH]; intros [|v vs] Hl;
    try discriminate; [reflexivity|].
  cbn. f_equal. apply IH. cbn in Hl. lia.
Qed.

Section Remaking.

Variable F : Type.

(** [_remake_records] gives every record one column for each of the
    fields asked for, whatever the record held; and remaking a relation
    for its own fields changes nothing, when the field names are distinct
    and every record has one column for each field. *)
Theorem remake_own_fields (relation_fields fields : Fields)
  (records : generator (Record F)) :
  Forall (fun r => List.length r = List.length fields)
    (fst (_remake_records relation_fields records fields))
  /\ (distinct (map name fields) = true ->
      Forall (fun r => List.length r = List.length fields) (fst records) ->
      _remake_records fields records fields = records).
Proof.
  split.
  - unfold _remake_records. cbn [fst]. apply Forall_map, Forall_forall.
    intros r _. unfold make_record. apply length_map.
  - intros Hd Hl. destruct records as [rs e]. unfold _remake_records.
    cbn [fst snd] in *. f_equal.
    rewrite <- (map_id rs) at 2. apply map_ext_in. intros r Hin.
    assert (L : List.length r = List.length (map name fields)).
    { rewrite length_map. exact (proj1 (Forall_forall _ rs) Hl r Hin). }
    rewrite dict_of_items_distinct
      by (rewrite combine_names; assumption).
    unfold make_record.
    rewrite <- (map_map name (fun n => dict_get _ n VNone)).
    apply dict_get_columns; assumption.
Qed.

End Remaking.

Lemma remake_own_fields_witness :
  _remake_records
    [Field_init (lit "i-id") (lit ":integer") None None;
     Field_init (lit "i-input") (lit ":string") None None]
    ([[VStr (lit "10"); VStr (lit "rain")]; [VStr (lit "11"); VNone]],
     @None exn)
    [Field_init (lit "i-id") (lit ":integer") None None;
     Field_init (lit "i-input") (lit ":string") None None]
  = ([[@VStr unit (lit "10"); VStr (lit "rain")];
      [VStr (lit "11"); VNone]], None).
Proof.
  apply (proj2 (remake_own_fields unit
                  [Field_init (lit "i-id") (lit ":integer") None None;
                   Field_init (lit "i-input") (lit ":string") None None]
                  [Field_init (lit "i-id") (lit ":integer") None None;
                   Field_init (lit "i-input") (lit ":string") None None]
                  ([[VStr (lit "10"); VStr (lit "rain")];
                    [VStr (lit "11"); VNone]], None))).
  - reflexivity.
  - repeat constructor.
Defined.

End TsdbFacts.

(** ** The query language *)

Module TsqlFacts.
Import PyStr PyStrFacts Re Tsql.

(** *** Condition trees *)

(** The condition tree as the specification describes it: [And] and
    [Or] of two conditions, [Not] of one, and a comparison of a column
    with a literal. *)
Fixpoint spec_condition_tree (v : pyval) : bool :=
  match v with
  | PTuple [PStr op; body] =>
      if seqb op (lit "and") || seqb op (lit "or")
      then match body with
           | PTuple [l; r] => spec_condition_tree l && spec_condition_tree r
           | _ => false
           end
      else if seqb op (lit "not") then spec_condition_tree body
      else match body with
           | PTuple [PStr _; (PStr _ | PInt _ | PDate _)] => true
           | _ => false
           end
  | _ => false
  end.

(** The rows of the examples: a column and its value, pair by pair. *)
Definition example_row : Type := list (str * pyval).

Definition example_getitem (rw : example_row) (col : pyval) : result pyval :=
  match col with
  | PStr k =>
      match Tsdb.dict_find rw k with
      | Some v => ret v
      | None => raise (KeyError k)
      end
  | _ => raise TypeError
  end.

Definition no_search (pattern x : pyval) : result bool := raise TypeError.

Definition cmp (op col : string) (z : Z) : pyval :=
  PTuple [PStr (lit op); PTuple [PStr (lit col); PInt z]].

(** C3 fails on a disjunction of three comparisons: the parser gathers
    all three under one ['or'] node, which is no tree of the specified
    shape; and [_process_condition], which reads the first two children
    of a node only, then tests and lists the first two comparisons: a
    row that satisfies the third alone is turned down. *)
Theorem three_way_or :
  forall parse_datetime : str -> option Tsdb.datetime,
    let where_ := PTuple [PStr (lit "or");
                          PTuple [cmp "==" "i-wf" 0; cmp "==" "i-wf" 1;
                                  cmp "==" "i-length" 2]] in
    parse_select_text parse_datetime 10
      (lit "* from item where i-wf = 0 or i-wf = 1 or i-length = 2")
    = Some (inr (mkQuery Star_ [lit "item"] where_))
    /\ spec_condition_tree where_ = false
    /\ match _process_condition example_row example_getitem no_search
               where_ with
       | inr (func, fields) =>
           fields = [PStr (lit "i-wf"); PStr (lit "i-wf")]
           /\ func [(lit "i-wf", PInt 5); (lit "i-length", PInt 2)]
              = inr false
       | inl _ => False
       end.
Proof.
  intros parse_datetime where_. split; [vm_compute; reflexivity|].
  split; [reflexivity|]. split; reflexivity.
Qed.

(** *** Joins without a path *)

Section NoPath.

Variable Table : Type.
Variable table_name : Table -> str.
Variable table_keys : Table -> list str.
Variable ts_get : str -> result Table.
Variable join : Table -> Table -> str -> result Table.
Variable rels : Tsdb.Schema.

(** C4 fails: when the search leaves its loop without a path,
    [_id_path] returns [None], and [_transitive_join] raises a
    [TypeError] slicing it; no join is attempted, the direct one
    included. *)
Theorem transitive_join_without_path :
  forall (fuel : nat) (tab1 tab2 : Table) (how : str),
    _id_path Table table_name table_keys rels fuel tab1 tab2 = Some None ->
    _transitive_join Table table_name table_keys ts_get join rels fuel
      (Some tab1) tab2 how
    = Some (inl TypeError).
Proof.
  intros fuel tab1 tab2 how H. unfold _transitive_join. rewrite H.
  reflexivity.
Qed.

End NoPath.

(** Two tables that share no key, in a schema with nothing else; a
    table is its name and its key fields. *)
Definition example_schema : Tsdb.Schema :=
  [ (lit "item",
     [Tsdb.Field_init (lit "i-id") (lit ":integer") (Some [lit ":key"]) None;
      Tsdb.Field_init (lit "i-input") (lit ":string") None None]);
    (lit "fold",
     [Tsdb.Field_init (lit "f-id") (lit ":integer") (Some [lit ":key"]) None]) ].

Definition example_table : Type := (str * list str)%type.

Definition example_ts_get (name : str) : result example_table :=
  match Tsdb.dict_find example_schema name with
  | Some fields =>
      ret (name, map Tsdb.name (filter Tsdb.is_key fields))
  | None => raise (KeyError name)
  end.

(** A join that would accept any two tables. *)
Definition example_join (a b : example_table) (how : str)
  : result example_table :=
  ret (fst a ++ lit "+" ++ fst b, snd a ++ snd b).

Lemma transitive_join_without_path_witness :
  _id_path example_table fst snd example_schema 5
    (lit "item", [lit "i-id"]) (lit "fold", [lit "f-id"]) = Some None
  /\ _transitive_join example_table fst snd example_ts_get example_join
       example_schema 5
       (Some (lit "item", [lit "i-id"])) (lit "fold", [lit "f-id"])
       (lit "inner")
     = Some (inl TypeError).
Proof.
  split; [reflexivity|].
  apply transitive_join_without_path. reflexivity.
Defined.

(** *** The condition parsers *)

Lemma rbind_inr {A B : Type} (m : run A) (f : A -> run B) (y : B) :
  rbind m f = Some (inr y) -> exists x, m = Some (inr x) /\ f x = Some (inr y).
Proof.
  destruct m as [[e|x]|]; cbn [rbind]; intros H; try discriminate.
  exists x. split; [reflexivity|exact H].
Qed.

Lemma lift_inr {A : Type} (m : result A) (x : A) :
  lift m = Some (inr x) -> m = inr x.
Proof. unfold lift. intros H. injection H as ->. reflexivity. Qed.

(** The tokens left are an end of the tokens given. *)
Definition suffix (rest ts : list token) : Prop := exists pre, ts = pre ++ rest.

Lemma suffix_refl (ts : list token) : suffix ts ts.
Proof. exists []. reflexivity. Qed.

Lemma suffix_trans (a b c : list token) : suffix a b -> suffix b c -> suffix a c.
Proof.
  intros (p & ->) (q & ->). exists (q ++ p). rewrite app_assoc. reflexivity.
Qed.

Lemma suffix_cons (t : token) (rest ts : list token) :
  suffix rest ts -> suffix rest (t :: ts).
Proof. intros (p & ->). exists (t :: p). reflexivity. Qed.

Lemma suffix_length (rest ts : list token) :
  suffix rest ts -> List.length rest <= List.length ts.
Proof. intros (p & ->). rewrite length_app. lia. Qed.

Lemma suffix_in (t : token) (rest ts : list token) :
  suffix rest ts -> In t rest -> In t ts.
Proof. intros (p & ->) H. apply in_or_app. right. exact H. Qed.

Section ParserFacts.

Variable pd : str -> option Tsdb.datetime.

Local Abbreviation pD := (_parse_condition_disjunction pd).
Local Abbreviation pDL := (disj_loop pd).
Local Abbreviation pC := (_parse_condition_conjunction pd).
Local Abbreviation pCL := (conj_loop pd).
Local Abbreviation pN := (_parse_condition_negation pd).
Local Abbreviation pG := (_parse_condition_group pd).
Local Abbreviation pS := (_parse_condition_statement pd).

(** What the conjunction loop does with a condition it has parsed. *)
Definition after_cond (f : nat) (conds : list pyval) (r : pyval * list token)
  : run (pyval * list token) :=
  let '(cond, ts) := r in
  let conds := conds ++ [cond] in
  t <-- lift (peek ts) ;;
  let '(_, tok, _) := t in
  if tok_in (lower tok) ["&"; "&&"; "and"]%string
  then
    n <-- lift (next ts) ;;
    let ts := snd n in
    t <-- lift (peek ts) ;;
    let '(nextgid, nexttoken, nextlineno) := t in
    pCL f conds nextgid nexttoken nextlineno ts
  else lift (ret (finish "and" conds, ts)).

Lemma disjunction_eq (f : nat) (ts : list token) : pD (S f) ts = pDL f [] ts.
Proof. reflexivity. Qed.

Lemma disj_loop_eq (f : nat) (conds : list pyval) (ts : list token) :
  pDL (S f) conds ts
  = (r <-- pC f ts ;;
     let '(cond, ts) := r in
     let conds := match cond with
                  | PNone => conds
                  | _ => conds ++ [cond]
                  end in
     t <-- lift (peek ts) ;;
     let '(_, tok, _) := t in
     if tok_in tok ["|"; "||"; "or"]%string
     then
       n <-- lift (next ts) ;;
       let ts := snd n in
       _ <-- lift (peek ts) ;;
       pDL f conds ts
     else lift (ret (finish "or" conds, ts))).
Proof. reflexivity. Qed.

Lemma conjunction_eq (f : nat) (ts : list token) :
  pC (S f) ts
  = (t <-- lift (peek ts) ;;
     let '(nextgid, nexttoken, nextlineno) := t in
     pCL f [] nextgid nexttoken nextlineno ts).
Proof. reflexivity. Qed.

Lemma conj_loop_eq (f : nat) (conds : list pyval) (g : nat) (tok : str)
  (l : nat) (ts : list token) :
  pCL (S f) conds g tok l ts
  = (if (g =? 2) && tok_in (lower tok) ["!"; "not"]%string
     then r <-- pN f ts ;; after_cond f conds r
     else if (g =? 3) && seqb tok (lit "(")
     then r <-- pG f ts ;; after_cond f conds r
     else if (g =? 3) && seqb tok (lit ")")
     then lift (ret (finish "and" conds, ts))
     else if g =? 10
     then r <-- lift (pS ts) ;; after_cond f conds r
     else lift (raise (TSQLSyntaxError
                         (lit "expected '!', 'not', '(', or a column name")
                         l (Some tok)))).
Proof. reflexivity. Qed.

Lemma negation_eq (f : nat) (ts : list token) :
  pN (S f) ts
  = (n <-- lift (next ts) ;;
     let '((gid, tok, lineno), ts) := n in
     _ <-- lift (_expect ((gid =? 2) && tok_in tok ["!"; "not"]%string)
                   tok lineno "'!' or 'not'") ;;
     r <-- pD f ts ;;
     let '(cond, ts) := r in
     lift (ret (PTuple [PStr (lit "not"); cond], ts))).
Proof. reflexivity. Qed.

Lemma group_eq (f : nat) (ts : list token) :
  pG (S f) ts
  = (n <-- lift (next ts) ;;
     let '((gid, tok, lineno), ts) := n in
     _ <-- lift (_expect ((gid =? 3) && seqb tok (lit "(")) tok lineno "'('") ;;
     r <-- pD f ts ;;
     let '(cond, ts) := r in
     n <-- lift (next ts) ;;
     let '((gid, tok, lineno), ts) := n in
     _ <-- lift (_expect ((gid =? 3) && seqb tok (lit ")")) tok lineno "')'") ;;
     c <-- lift (to_tuple cond) ;;
     lift (ret (c, ts))).
Proof. reflexivity. Qed.

(** A literal of a comparison: a text, a number or a date. *)
Definition is_literal (v : pyval) : bool :=
  match v with
  | PStr _ | PInt _ | PDate _ => true
  | _ => false
  end.

Lemma statement_inr (ts : list token) (c : pyval) (rest : list token) :
  pS ts = inr (c, rest) ->
  exists g1 col l1 g2 op l2 g3 v l3 op' value,
    ts = (g1, col, l1) :: (g2, op, l2) :: (g3, v, l3) :: rest
    /\ c = PTuple [PStr op'; PTuple [PStr col; value]]
    /\ is_literal value = true.
Proof.
  unfold _parse_condition_statement.
  destruct ts as [|[[g1 col] l1] ts]; [discriminate|]. cbn [next bind ret].
  destruct (g1 =? 10); [|discriminate]. cbn [_expect bind ret].
  destruct ts as [|[[g2 op] l2] ts]; [discriminate|]. cbn [next bind ret].
  destruct (g2 =? 2); [|discriminate]. cbn [_expect bind ret].
  destruct ts as [|[[g3 v] l3] ts]; [discriminate|]. cbn [next bind ret].
  set (op' := if seqb op (lit "=") then lit "==" else op).
  destruct (tok_in op' ["~"; "!~"]%string && negb (gid_in g3 [4; 5]));
    [discriminate|].
  destruct (tok_in op' ["<"; "<="; ">"; ">="]%string
            && negb (gid_in g3 [6; 7; 8; 9])); [discriminate|].
  intros H.
  assert (X : exists value,
             is_literal value = true
             /\ inr (PTuple [PStr op'; PTuple [PStr col; value]], ts)
                = (inr (c, rest) : result (pyval * list token))).
  { destruct (gid_in g3 [6; 7; 8]).
    - destruct (pd v) as [d|]; [|discriminate]. exists (PDate d).
      split; [reflexivity|exact H].
    - destruct (g3 =? 9).
      + destruct (Tsdb.py_int v) as [z|]; [|discriminate]. exists (PInt z).
        split; [reflexivity|exact H].
      + exists (PStr v). split; [reflexivity|exact H]. }
  destruct X as (value & Hl & E). injection E as <- <-.
  exists g1, col, l1, g2, op, l2, g3, v, l3, op', value.
  repeat split. exact Hl.
Qed.

Lemma after_cond_inr (f : nat) (conds : list pyval) (cond : pyval)
  (ts : list token) (c : pyval) (rest : list token) :
  after_cond f conds (cond, ts) = Some (inr (c, rest)) ->
  (c = finish "and" (conds ++ [cond]) /\ rest = ts)
  \/ exists t g tok l ts',
       ts = t :: (g, tok, l) :: ts'
       /\ pCL f (conds ++ [cond]) g tok l ((g, tok, l) :: ts')
          = Some (inr (c, rest)).
Proof.
  unfold after_cond.
  destruct ts as [|[[g0 tok0] l0] ts]; [discriminate|].
  cbn [peek lift rbind ret].
  destruct (tok_in (lower tok0) ["&"; "&&"; "and"]%string).
  - cbn [next lift rbind ret snd].
    destruct ts as [|[[g tok] l] ts']; [discriminate|].
    cbn [peek lift rbind ret]. intros H. right.
    exists (g0, tok0, l0), g, tok, l, ts'. split; [reflexivity|exact H].
  - intros H. injection H as <- <-. left. split; reflexivity.
Qed.

(** Every parser leaves an end of its tokens; a negation and a group
    take at least one. *)
Definition leaves (f : nat) : Prop :=
  (forall ts c rest, pD f ts = Some (inr (c, rest)) -> suffix rest ts)
  /\ (forall conds ts c rest,
        pDL f conds ts = Some (inr (c, rest)) -> suffix rest ts)
  /\ (forall ts c rest, pC f ts = Some (inr (c, rest)) -> suffix rest ts)
  /\ (forall conds g tok l ts c rest,
        pCL f conds g tok l ts = Some (inr (c, rest)) -> suffix rest ts)
  /\ (forall ts c rest,
        pN f ts = Some (inr (c, rest)) ->
        exists t ts', ts = t :: ts' /\ suffix rest ts')
  /\ (forall ts c rest,
        pG f ts = Some (inr (c, rest)) ->
        exists t ts', ts = t :: ts' /\ suffix rest ts').

Lemma after_cond_leaves (f : nat) (conds : list pyval) (cond : pyval)
  (ts : list token) (c : pyval) (rest : list token) :
  leaves f ->
  after_cond f conds (cond, ts) = Some (inr (c, rest)) -> suffix rest ts.
Proof.
  intros (_ & _ & _ & HCL & _) H. apply after_cond_inr in H.
  destruct H as [[_ ->]|(t & g & tok & l & ts' & -> & H)].
  - apply suffix_refl.
  - apply suffix_cons. eapply HCL. exact H.
Qed.

Lemma parsers_leave (f : nat) : leaves f.
Proof.
  induction f as [|f IH].
  { repeat split; intros; discriminate. }
  pose proof IH as (HD & HDL & HC & HCL & HN & HG).
  unfold leaves. repeat match goal with |- _ /\ _ => split end.
  - intros ts c rest H. rewrite disjunction_eq in H. eapply HDL. exact H.
  - intros conds ts c rest H. rewrite disj_loop_eq in H.
    apply rbind_inr in H. destruct H as ([cond ts1] & H1 & H).
    apply HC in H1.
    destruct ts1 as [|[[g0 tok0] l0] ts1]; [discriminate|].
    cbn [peek lift rbind ret] in H.
    destruct (tok_in tok0 ["|"; "||"; "or"]%string).
    + cbn [next lift rbind ret snd] in H.
      destruct ts1 as [|t ts2]; [discriminate|]. cbn [peek lift rbind ret] in H.
      apply HDL in H. eapply suffix_trans; [|exact H1].
      apply suffix_cons. exact H.
    + injection H as <- <-. exact H1.
  - intros ts c rest H. rewrite conjunction_eq in H.
    destruct ts as [|[[g tok] l] ts]; [discriminate|].
    cbn [peek lift rbind ret] in H. eapply HCL. exact H.
  - intros conds g tok l ts c rest H. rewrite conj_loop_eq in H.
    destruct ((g =? 2) && tok_in (lower tok) ["!"; "not"]%string).
    { apply rbind_inr in H. destruct H as ([cond ts1] & H1 & H).
      apply HN in H1. destruct H1 as (t & ts' & -> & H1).
      apply (after_cond_leaves _ _ _ _ _ _ IH) in H.
      apply suffix_cons. eapply suffix_trans; eassumption. }
    destruct ((g =? 3) && seqb tok (lit "(")).
    { apply rbind_inr in H. destruct H as ([cond ts1] & H1 & H).
      apply HG in H1. destruct H1 as (t & ts' & -> & H1).
      apply (after_cond_leaves _ _ _ _ _ _ IH) in H.
      apply suffix_cons. eapply suffix_trans; eassumption. }
    destruct ((g =? 3) && seqb tok (lit ")")).
    { injection H as <- <-. apply suffix_refl. }
    destruct (g =? 10); [|discriminate].
    apply rbind_inr in H. destruct H as ([cond ts1] & H1 & H).
    apply lift_inr in H1. apply statement_inr in H1.
    destruct H1 as (g1 & col & l1 & g2 & op & l2 & g3 & v & l3 & op' & value
                    & -> & _).
    apply (after_cond_leaves _ _ _ _ _ _ IH) in H.
    do 3 apply suffix_cons. exact H.
  - intros ts c rest H. rewrite negation_eq in H.
    destruct ts as [|[[g tok] l] ts]; [discriminate|].
    cbn [next lift rbind ret] in H.
    destruct ((g =? 2) && tok_in tok ["!"; "not"]%string); [|discriminate].
    cbn [_expect lift rbind ret] in H.
    apply rbind_inr in H. destruct H as ([cond ts1] & H1 & H).
    injection H as <- <-. exists (g, tok, l), ts. split; [reflexivity|].
    eapply HD. exact H1.
  - intros ts c rest H. rewrite group_eq in H.
    destruct ts as [|[[g tok] l] ts]; [discriminate|].
    cbn [next lift rbind ret] in H.
    destruct ((g =? 3) && seqb tok (lit "(")); [|discriminate].
    cbn [_expect lift rbind ret] in H.
    apply rbind_inr in H. destruct H as ([cond ts1] & H1 & H).
    apply HD in H1.
    destruct ts1 as [|[[g' tok'] l'] ts1]; [discriminate|].
    cbn [next lift rbind ret] in H.
    destruct ((g' =? 3) && seqb tok' (lit ")")); [|discriminate].
    cbn [_expect lift rbind ret] in H.
    destruct (to_tuple cond) as [e|c']; [discriminate|].
    injection H as <- <-. exists (g, tok, l), ts. split; [reflexivity|].
    eapply suffix_trans; [|exact H1]. apply suffix_cons. apply suffix_refl.
Qed.

End ParserFacts.

(** *** The shape of a parsed condition *)

(** A condition as the parsers build it: a comparison of a column with
    a literal; a ['not'] over a condition or over [None]; an ['and'] or
    ['or'] over two or more conditions. *)
Fixpoint nary_condition_tree (v : pyval) : bool :=
  match v with
  | PTuple [PStr op; body] =>
      match body with
      | PTuple [PStr _; value] => is_literal value
      | _ => false
      end
      || (seqb op (lit "not") && (is_none body || nary_condition_tree body))
      || ((seqb op (lit "and") || seqb op (lit "or"))
          && match body with
             | PTuple conds =>
                 (2 <=? List.length conds) && forallb nary_condition_tree conds
             | _ => false
             end)
  | _ => false
  end.

Definition none_or_tree (v : pyval) : bool :=
  is_none v || nary_condition_tree v.

Lemma tree_not_none (v : pyval) :
  nary_condition_tree v = true -> exists items, v = PTuple items.
Proof. destruct v; try discriminate. intros _. eexists. reflexivity. Qed.

Lemma finish_tree (tag : string) (conds : list pyval) :
  tag = "and"%string \/ tag = "or"%string ->
  forallb nary_condition_tree conds = true ->
  none_or_tree (finish tag conds) = true.
Proof.
  intros Htag H. destruct conds as [|c [|c' conds]].
  - reflexivity.
  - cbn [finish]. cbn [forallb] in H. apply andb_true_iff in H.
    unfold none_or_tree. destruct H as [-> _]. apply orb_true_r.
  - cbn [finish]. unfold none_or_tree. cbn [is_none orb].
    cbn [nary_condition_tree].
    assert (E : (seqb (lit tag) (lit "and") || seqb (lit tag) (lit "or")) = true)
      by (destruct Htag as [-> | ->]; reflexivity).
    rewrite E. cbn [List.length Nat.leb andb]. fold nary_condition_tree.
    rewrite H. apply orb_true_r.
Qed.

Lemma forallb_snoc {A : Type} (p : A -> bool) (xs : list A) (x : A) :
  forallb p xs = true -> p x = true -> forallb p (xs ++ [x]) = true.
Proof.
  intros H1 H2. rewrite forallb_app, H1. cbn [forallb]. rewrite H2. reflexivity.
Qed.

Section ShapeFacts.

Variable pd : str -> option Tsdb.datetime.

Local Abbreviation pD := (_parse_condition_disjunction pd).
Local Abbreviation pDL := (disj_loop pd).
Local Abbreviation pC := (_parse_condition_conjunction pd).
Local Abbreviation pCL := (conj_loop pd).
Local Abbreviation pN := (_parse_condition_negation pd).
Local Abbreviation pG := (_parse_condition_group pd).
Local Abbreviation pS := (_parse_condition_statement pd).

Definition shaped (f : nat) : Prop :=
  (forall ts c rest, pD f ts = Some (inr (c, rest)) -> none_or_tree c = true)
  /\ (forall conds ts c rest,
        forallb nary_condition_tree conds = true ->
        pDL f conds ts = Some (inr (c, rest)) -> none_or_tree c = true)
  /\ (forall ts c rest, pC f ts = Some (inr (c, rest)) -> none_or_tree c = true)
  /\ (forall conds g tok l ts c rest,
        forallb nary_condition_tree conds = true ->
        pCL f conds g tok l ts = Some (inr (c, rest)) -> none_or_tree c = true)
  /\ (forall ts c rest,
        pN f ts = Some (inr (c, rest)) -> nary_condition_tree c = true)
  /\ (forall ts c rest,
        pG f ts = Some (inr (c, rest)) -> nary_condition_tree c = true).

Lemma after_cond_shaped (f : nat) (conds : list pyval) (cond : pyval)
  (ts : list token) (c : pyval) (rest : list token) :
  shaped f ->
  forallb nary_condition_tree conds = true ->
  nary_condition_tree cond = true ->
  after_cond pd f conds (cond, ts) = Some (inr (c, rest)) ->
  none_or_tree c = true.
Proof.
  intros (_ & _ & _ & HCL & _) Hc Hcond H. apply after_cond_inr in H.
  pose proof (forallb_snoc _ _ _ Hc Hcond) as Hs.
  destruct H as [[-> _]|(t & g & tok & l & ts' & -> & H)].
  - apply finish_tree; [left; reflexivity|exact Hs].
  - eapply HCL; [exact Hs|exact H].
Qed.

Lemma parsers_shaped (f : nat) : shaped f.
Proof.
  induction f as [|f IH].
  { repeat split; intros; discriminate. }
  pose proof IH as (HD & HDL & HC & HCL & HN & HG).
  unfold shaped. repeat match goal with |- _ /\ _ => split end.
  - intros ts c rest H. rewrite disjunction_eq in H.
    eapply HDL; [|exact H]. reflexivity.
  - intros conds ts c rest Hc H. rewrite disj_loop_eq in H.
    apply rbind_inr in H. destruct H as ([cond ts1] & H1 & H).
    apply HC in H1.
    assert (Hc' : forallb nary_condition_tree
                    match cond with
                    | PNone => conds
                    | _ => conds ++ [cond]
                    end = true).
    { unfold none_or_tree in H1.
      destruct cond; cbn [is_none orb] in H1; try exact Hc;
        apply forallb_snoc; assumption. }
    destruct ts1 as [|[[g0 tok0] l0] ts1]; [discriminate|].
    cbn [peek lift rbind ret] in H.
    destruct (tok_in tok0 ["|"; "||"; "or"]%string).
    + cbn [next lift rbind ret snd] in H.
      destruct ts1 as [|t ts2]; [discriminate|]. cbn [peek lift rbind ret] in H.
      eapply HDL; [exact Hc'|exact H].
    + injection H as <- _. apply finish_tree; [right; reflexivity|exact Hc'].
  - intros ts c rest H. rewrite conjunction_eq in H.
    destruct ts as [|[[g tok] l] ts]; [discriminate|].
    cbn [peek lift rbind ret] in H. eapply HCL; [|exact H]. reflexivity.
  - intros conds g tok l ts c rest Hc H. rewrite conj_loop_eq in H.
    destruct ((g =? 2) && tok_in (lower tok) ["!"; "not"]%string).
    { apply rbind_inr in H. destruct H as ([cond ts1] & H1 & H).
      apply HN in H1. eapply after_cond_shaped; eassumption. }
    destruct ((g =? 3) && seqb tok (lit "(")).
    { apply rbind_inr in H. destruct H as ([cond ts1] & H1 & H).
      apply HG in H1. eapply after_cond_shaped; eassumption. }
    destruct ((g =? 3) && seqb tok (lit ")")).
    { injection H as <- _. apply finish_tree; [left; reflexivity|exact Hc]. }
    destruct (g =? 10); [|discriminate].
    apply rbind_inr in H. destruct H as ([cond ts1] & H1 & H).
    apply lift_inr in H1. apply statement_inr in H1.
    destruct H1 as (g1 & col & l1 & g2 & op & l2 & g3 & v & l3 & op' & value
                    & _ & -> & Hl).
    eapply after_cond_shaped; [exact IH|exact Hc| |exact H].
    cbn [nary_condition_tree]. rewrite Hl. reflexivity.
  - intros ts c rest H. rewrite negation_eq in H.
    destruct ts as [|[[g tok] l] ts]; [discriminate|].
    cbn [next lift rbind ret] in H.
    destruct ((g =? 2) && tok_in tok ["!"; "not"]%string); [|discriminate].
    cbn [_expect lift rbind ret] in H.
    apply rbind_inr in H. destruct H as ([cond ts1] & H1 & H).
    injection H as <- _. apply HD in H1.
    cbn [nary_condition_tree]. fold nary_condition_tree.
    unfold none_or_tree in H1. rewrite H1.
    apply orb_true_iff. left. apply orb_true_iff. right. reflexivity.
  - intros ts c rest H. rewrite group_eq in H.
    destruct ts as [|[[g tok] l] ts]; [discriminate|].
    cbn [next lift rbind ret] in H.
    destruct ((g =? 3) && seqb tok (lit "(")); [|discriminate].
    cbn [_expect lift rbind ret] in H.
    apply rbind_inr in H. destruct H as ([cond ts1] & H1 & H).
    apply HD in H1.
    destruct ts1 as [|[[g' tok'] l'] ts1]; [discriminate|].
    cbn [next lift rbind ret] in H.
    destruct ((g' =? 3) && seqb tok' (lit ")")); [|discriminate].
    cbn [_expect lift rbind ret] in H.
    unfold none_or_tree in H1.
    destruct cond; cbn [to_tuple is_none orb] in *; try discriminate.
    injection H as <- _. exact H1.
Qed.

(** What [_parse_condition_disjunction] returns is [None] or a
    well-formed condition: comparisons of a column with a text, number
    or date at the leaves, ['not'] over one condition (or [None]), and
    ['and'] and ['or'] nodes over two or more conditions. *)
Theorem parsed_condition_shape (fuel : nat) (ts : list token) (c : pyval)
  (rest : list token) :
  pD fuel ts = Some (inr (c, rest)) ->
  none_or_tree c = true /\ suffix rest ts.
Proof.
  intros H. split.
  - destruct (parsers_shaped fuel) as (HD & _). eapply HD. exact H.
  - destruct (parsers_leave pd fuel) as (HD & _). eapply HD. exact H.
Qed.

End ShapeFacts.

(** *** The condition parsers come to an end *)

(** A run that did not stop for want of fuel. *)
Definition returns {A : Type} (m : run A) : Prop := exists r, m = Some r.

Lemma rbind_returns {A B : Type} (m : run A) (k : A -> run B) :
  returns m -> (forall x, m = Some (inr x) -> returns (k x)) ->
  returns (rbind m k).
Proof.
  intros (r & ->) H. destruct r as [e|x]; cbn [rbind].
  - eexists. reflexivity.
  - apply H. reflexivity.
Qed.

Lemma lift_returns {A : Type} (m : result A) : returns (lift m).
Proof. eexists. reflexivity. Qed.

Section TotalFacts.

Variable pd : str -> option Tsdb.datetime.

Local Abbreviation pD := (_parse_condition_disjunction pd).
Local Abbreviation pDL := (disj_loop pd).
Local Abbreviation pC := (_parse_condition_conjunction pd).
Local Abbreviation pCL := (conj_loop pd).
Local Abbreviation pN := (_parse_condition_negation pd).
Local Abbreviation pG := (_parse_condition_group pd).
Local Abbreviation pS := (_parse_condition_statement pd).

(** Fuel that is enough for [n] tokens: five calls are made at most
    before a token is taken. *)
Definition total (n : nat) : Prop :=
  (forall ts f, List.length ts <= n -> 5 * n + 5 <= f -> returns (pD f ts))
  /\ (forall conds ts f,
        List.length ts <= n -> 5 * n + 4 <= f -> returns (pDL f conds ts))
  /\ (forall ts f, List.length ts <= n -> 5 * n + 3 <= f -> returns (pC f ts))
  /\ (forall conds g tok l ts f,
        List.length ts <= n -> 5 * n + 2 <= f ->
        returns (pCL f conds g tok l ts))
  /\ (forall ts f, List.length ts <= n -> 5 * n + 1 <= f -> returns (pN f ts))
  /\ (forall ts f, List.length ts <= n -> 5 * n + 1 <= f -> returns (pG f ts)).

Lemma after_cond_returns (m f : nat) (conds : list pyval) (cond : pyval)
  (ts : list token) :
  total m -> List.length ts <= S m -> 5 * m + 2 <= f ->
  returns (after_cond pd f conds (cond, ts)).
Proof.
  intros (_ & _ & _ & HCL & _) Hl Hf. unfold after_cond.
  destruct ts as [|[[g0 tok0] l0] ts]; [apply lift_returns|].
  cbn [peek lift rbind ret].
  destruct (tok_in (lower tok0) ["&"; "&&"; "and"]%string);
    [|apply lift_returns].
  cbn [next lift rbind ret snd].
  destruct ts as [|[[g tok] l] ts']; [apply lift_returns|].
  cbn [peek lift rbind ret]. apply HCL; [|exact Hf].
  cbn [List.length] in *. lia.
Qed.

Lemma total_step (n : nat) : (forall m, m < n -> total m) -> total n.
Proof.
  intros IH.
  assert (HN : forall ts f, List.length ts <= n -> 5 * n + 1 <= f ->
                            returns (pN f ts)).
  { intros ts f Hl Hf. destruct f as [|f]; [lia|]. rewrite negation_eq.
    destruct ts as [|[[g tok] l] ts]; [apply lift_returns|].
    cbn [next lift rbind ret].
    destruct ((g =? 2) && tok_in tok ["!"; "not"]%string);
      [|apply lift_returns].
    cbn [_expect lift rbind ret]. cbn [List.length] in Hl.
    apply rbind_returns.
    - destruct (IH (n - 1)) as (HD & _); [lia|]. apply HD; lia.
    - intros [cond ts1] _. apply lift_returns. }
  assert (HG : forall ts f, List.length ts <= n -> 5 * n + 1 <= f ->
                            returns (pG f ts)).
  { intros ts f Hl Hf. destruct f as [|f]; [lia|]. rewrite group_eq.
    destruct ts as [|[[g tok] l] ts]; [apply lift_returns|].
    cbn [next lift rbind ret].
    destruct ((g =? 3) && seqb tok (lit "(")); [|apply lift_returns].
    cbn [_expect lift rbind ret]. cbn [List.length] in Hl.
    apply rbind_returns.
    - destruct (IH (n - 1)) as (HD & _); [lia|]. apply HD; lia.
    - intros [cond ts1] _.
      destruct ts1 as [|[[g' tok'] l'] ts1]; [apply lift_returns|].
      cbn [next lift rbind ret].
      destruct ((g' =? 3) && seqb tok' (lit ")")); [|apply lift_returns].
      cbn [_expect lift rbind ret].
      destruct (to_tuple cond); apply lift_returns. }
  assert (HCL : forall conds g tok l ts f,
             List.length ts <= n -> 5 * n + 2 <= f ->
             returns (pCL f conds g tok l ts)).
  { intros conds g tok l ts f Hl Hf. destruct f as [|f]; [lia|].
    rewrite conj_loop_eq.
    destruct (parsers_leave pd f) as (_ & _ & _ & _ & LN & LG).
    destruct ((g =? 2) && tok_in (lower tok) ["!"; "not"]%string).
    { apply rbind_returns; [apply HN; lia|].
      intros [cond ts1] H1. apply LN in H1.
      destruct H1 as (t & ts' & -> & H1). apply suffix_length in H1.
      cbn [List.length] in Hl.
      apply (after_cond_returns (n - 1)); [apply IH; lia|lia|lia]. }
    destruct ((g =? 3) && seqb tok (lit "(")).
    { apply rbind_returns; [apply HG; lia|].
      intros [cond ts1] H1. apply LG in H1.
      destruct H1 as (t & ts' & -> & H1). apply suffix_length in H1.
      cbn [List.length] in Hl.
      apply (after_cond_returns (n - 1)); [apply IH; lia|lia|lia]. }
    destruct ((g =? 3) && seqb tok (lit ")")); [apply lift_returns|].
    destruct (g =? 10); [|apply lift_returns].
    apply rbind_returns; [apply lift_returns|].
    intros [cond ts1] H1. apply lift_inr in H1. apply statement_inr in H1.
    destruct H1 as (g1 & col & l1 & g2 & op & l2 & g3 & v & l3 & op' & value
                    & -> & _).
    cbn [List.length] in Hl.
    apply (after_cond_returns (n - 1)); [apply IH; lia|lia|lia]. }
  assert (HC : forall ts f, List.length ts <= n -> 5 * n + 3 <= f ->
                            returns (pC f ts)).
  { intros ts f Hl Hf. destruct f as [|f]; [lia|]. rewrite conjunction_eq.
    destruct ts as [|[[g tok] l] ts]; [apply lift_returns|].
    cbn [peek lift rbind ret]. apply HCL; [exact Hl|lia]. }
  assert (HDL : forall conds ts f,
             List.length ts <= n -> 5 * n + 4 <= f ->
             returns (pDL f conds ts)).
  { intros conds ts f Hl Hf. destruct f as [|f]; [lia|].
    rewrite disj_loop_eq.
    apply rbind_returns; [apply HC; lia|].
    intros [cond ts1] H1.
    destruct (parsers_leave pd f) as (_ & _ & LC & _).
    apply LC in H1. apply suffix_length in H1.
    destruct ts1 as [|[[g0 tok0] l0] ts1]; [apply lift_returns|].
    cbn [peek lift rbind ret].
    destruct (tok_in tok0 ["|"; "||"; "or"]%string); [|apply lift_returns].
    cbn [next lift rbind ret snd].
    destruct ts1 as [|t ts2]; [apply lift_returns|].
    cbn [peek lift rbind ret]. cbn [List.length] in H1.
    destruct (IH (n - 1)) as (_ & HDL' & _); [lia|].
    apply HDL'; cbn [List.length]; lia. }
  unfold total. repeat match goal with |- _ /\ _ => split end;
    try assumption.
  intros ts f Hl Hf. destruct f as [|f]; [lia|]. rewrite disjunction_eq.
  apply HDL; [exact Hl|lia].
Qed.

Lemma parsers_total (n : nat) : total n.
Proof.
  induction n as [n IH] using lt_wf_ind. apply total_step. exact IH.
Qed.

(** The condition parser comes to an end on every token stream: with
    fuel for five calls a token, and five more, it returns or raises. *)
Theorem parse_condition_returns (ts : list token) (more : nat) :
  exists r, pD (5 * List.length ts + 5 + more) ts = Some r.
Proof.
  destruct (parsers_total (List.length ts)) as (HD & _).
  apply HD; lia.
Qed.

End TotalFacts.

(** *** Queries *)

Lemma bind_inr {A B : Type} (m : result A) (f : A -> result B) (y : B) :
  bind m f = inr y -> exists x, m = inr x /\ f x = inr y.
Proof.
  destruct m as [e|x]; cbn [bind]; intros H; try discriminate.
  exists x. split; [reflexivity|exact H].
Qed.

Lemma take_identifiers_leaves (ts : list token) (ids : list str)
  (rest : list token) :
  take_identifiers ts = inr (ids, rest) -> suffix rest ts.
Proof.
  revert ids. induction ts as [|[[g tok] l] ts IH]; intros ids H;
    [discriminate|].
  cbn [take_identifiers] in H. destruct (g =? 10).
  - apply bind_inr in H. destruct H as ([ids' rest'] & H1 & H).
    injection H as _ <-. cbn [snd]. apply suffix_cons. eapply IH. exact H1.
  - injection H as _ <-. apply suffix_refl.
Qed.

Lemma take_identifiers_next (ts : list token) (ids : list str)
  (rest : list token) :
  take_identifiers ts = inr (ids, rest) -> rest <> [].
Proof.
  revert ids. induction ts as [|[[g tok] l] ts IH]; intros ids H;
    [discriminate|].
  cbn [take_identifiers] in H. destruct (g =? 10).
  - apply bind_inr in H. destruct H as ([ids' rest'] & H1 & H).
    injection H as _ <-. cbn [snd]. eapply IH. exact H1.
  - injection H as _ <-. discriminate.
Qed.

Lemma projection_leaves (ts : list token) (p : projection)
  (rest : list token) :
  _parse_select_projection ts = inr (p, rest) -> suffix rest ts.
Proof.
  unfold _parse_select_projection.
  destruct ts as [|[[g tok] l] ts]; [discriminate|]. cbn [next bind ret].
  destruct (seqb tok (lit "*")).
  - intros H. injection H as _ <-. apply suffix_cons. apply suffix_refl.
  - destruct (g =? 10); [|discriminate]. intros H.
    apply bind_inr in H. destruct H as ([ids rest'] & H1 & H).
    injection H as _ <-. cbn [snd]. apply suffix_cons.
    eapply take_identifiers_leaves. exact H1.
Qed.

Lemma from_leaves (ts : list token) (tables : list str) (rest : list token) :
  _parse_select_from ts = inr (tables, rest) -> suffix rest ts.
Proof.
  unfold _parse_select_from.
  destruct ts as [|[[g tok] l] ts]; [discriminate|]. cbn [peek bind ret].
  destruct (seqb tok (lit "from")).
  - cbn [next bind ret snd]. intros H. apply suffix_cons.
    eapply take_identifiers_leaves. exact H.
  - intros H. injection H as _ <-. apply suffix_refl.
Qed.

Section QueryFacts.

Variable pd : str -> option Tsdb.datetime.

Lemma where_leaves (f : nat) (ts : list token) (c : pyval)
  (rest : list token) :
  _parse_select_where pd f ts = Some (inr (c, rest)) -> suffix rest ts.
Proof.
  unfold _parse_select_where.
  destruct ts as [|[[g tok] l] ts]; [discriminate|].
  cbn [peek lift rbind ret]. destruct (seqb tok (lit "where")).
  - cbn [next lift rbind ret snd]. intros H. apply suffix_cons.
    destruct (parsers_leave pd f) as (HD & _). eapply HD. exact H.
  - intros H. injection H as _ <-. apply suffix_refl.
Qed.

Lemma select_leaves (f : nat) (ts : list token) (q : query)
  (rest : list token) :
  _parse_select pd f ts = Some (inr (q, rest)) -> suffix rest ts.
Proof.
  unfold _parse_select.
  destruct ts as [|[[g0 tok0] l0] ts0] eqn:E; [discriminate|].
  cbn [peek lift rbind ret]. rewrite <- E. clear E. intros H.
  destruct (_parse_select_projection ts) as [e|[p ts1]] eqn:H1;
    [discriminate|].
  apply projection_leaves in H1.
  destruct (_parse_select_from ts1) as [e|[tables ts2]] eqn:H2;
    [discriminate|].
  apply from_leaves in H2.
  apply rbind_inr in H. destruct H as ([c ts3] & H3 & H).
  apply where_leaves in H3.
  destruct (is_star p && match tables with [] => true | _ => false end
            && is_none c); [discriminate|].
  injection H as _ <-.
  eapply suffix_trans; [exact H3|]. eapply suffix_trans; eassumption.
Qed.

Lemma select_returns (ts : list token) (f : nat) :
  5 * List.length ts + 5 <= f -> returns (_parse_select pd f ts).
Proof.
  intros Hf. unfold _parse_select.
  destruct ts as [|[[g0 tok0] l0] ts0] eqn:E; [apply lift_returns|].
  cbn [peek lift rbind ret]. rewrite <- E in Hf |- *.
  destruct (_parse_select_projection ts) as [e|[p ts1]] eqn:H1;
    [eexists; reflexivity|].
  apply projection_leaves in H1.
  destruct (_parse_select_from ts1) as [e|[tables ts2]] eqn:H2;
    [eexists; reflexivity|].
  apply from_leaves in H2.
  apply rbind_returns.
  - unfold _parse_select_where.
    destruct ts2 as [|[[g tok] l] ts2']; [apply lift_returns|].
    cbn [peek lift rbind ret].
    destruct (seqb tok (lit "where")); [|apply lift_returns].
    cbn [next lift rbind ret snd].
    apply suffix_length in H1, H2. cbn [List.length] in H2.
    destruct (parsers_total pd (List.length ts)) as (HD & _).
    apply HD; lia.
  - intros [c ts3] _.
    destruct (is_star p && match tables with [] => true | _ => false end
              && is_none c); apply lift_returns.
Qed.

(** A query is accepted only from a stream that holds a ['.'] token of
    the operator group. *)
Lemma query_needs_dot (f : nat) (ts : list token) (q : query)
  (rest : list token) :
  _parse_query pd f ts = Some (inr (q, rest)) ->
  exists l, In (2, lit ".", l) ts.
Proof.
  unfold _parse_query.
  destruct ts as [|[[g tok] l] ts]; [discriminate|].
  cbn [next lift rbind ret].
  destruct ((g =? 1)
            && tok_in tok ["info"; "set"; "retrieve"; "select"; "insert"]%string);
    [|discriminate].
  cbn [_expect lift rbind ret].
  destruct (negb (tok_in tok ["retrieve"; "select"]%string)); [discriminate|].
  intros H. apply rbind_inr in H. destruct H as ([q' ts1] & H1 & H).
  apply select_leaves in H1.
  destruct ts1 as [|[[g' tok'] l'] ts1]; [discriminate|].
  cbn [next lift rbind ret] in H.
  destruct (g' =? 2) eqn:Eg; [|discriminate].
  destruct (seqb tok' (lit ".")) eqn:Et; [|discriminate].
  apply Nat.eqb_eq in Eg. apply seqb_eq in Et. subst g' tok'.
  exists l'. right. eapply suffix_in; [exact H1|]. left. reflexivity.
Qed.

Lemma query_returns (ts : list token) (f : nat) :
  5 * List.length ts + 5 <= f -> returns (_parse_query pd f ts).
Proof.
  intros Hf. unfold _parse_query.
  destruct ts as [|[[g tok] l] ts]; [apply lift_returns|].
  cbn [next lift rbind ret].
  destruct ((g =? 1)
            && tok_in tok ["info"; "set"; "retrieve"; "select"; "insert"]%string);
    [|apply lift_returns].
  cbn [_expect lift rbind ret].
  destruct (negb (tok_in tok ["retrieve"; "select"]%string));
    [apply lift_returns|].
  apply rbind_returns.
  - apply select_returns. cbn [List.length] in Hf. lia.
  - intros [q' ts1] _.
    destruct ts1 as [|[[g' tok'] l'] ts1]; [apply lift_returns|].
    cbn [next lift rbind ret].
    destruct ((g' =? 2) && seqb tok' (lit ".")); apply lift_returns.
Qed.

End QueryFacts.

Lemma parsed_condition_shape_witness :
  none_or_tree
    (PTuple [PStr (lit "or");
             PTuple [cmp "==" "i-wf" 0;
                     PTuple [PStr (lit "and");
                             PTuple [cmp "==" "i-wf" 1;
                                     PTuple [PStr (lit "not");
                                             cmp ">" "i-length" 2]]]]])
  = true
  /\ suffix [(1, lit ".", 1)]
       [(10, lit "i-wf", 1); (2, lit "=", 1); (9, lit "0", 1);
        (2, lit "or", 1);
        (10, lit "i-wf", 1); (2, lit "=", 1); (9, lit "1", 1);
        (2, lit "and", 1); (2, lit "not", 1);
        (10, lit "i-length", 1); (2, lit ">", 1); (9, lit "2", 1);
        (1, lit ".", 1)].
Proof.
  apply (parsed_condition_shape (fun _ => None) 20). reflexivity.
Defined.

(** *** The tokens of the lexer *)

Section MatchResults.

Context {A : Type}.
Variable Q : option A -> Prop.
Hypothesis Q_none : Q None.

(** What a match returns is a failure or something its continuation
    returned. *)
Lemma rep_loop_result
  (step : nat -> str -> caps -> (nat -> str -> caps -> option A) -> option A)
  (k : nat -> str -> caps -> option A) :
  (forall pos s cs k',
      (forall p s' cs', Q (k' p s' cs')) -> Q (step pos s cs k')) ->
  (forall p s' cs', Q (k p s' cs')) ->
  forall n lo pos s cs, Q (rep_loop step k n lo pos s cs).
Proof.
  intros Hstep Hk. induction n as [|n IH]; intros lo pos s cs; cbn [rep_loop].
  - destruct (lo =? 0); [apply Hk|exact Q_none].
  - specialize (Hstep pos s cs
                  (fun pos' s' cs' => rep_loop step k n (pred lo) pos' s' cs')).
    destruct (step pos s cs
                (fun pos' s' cs' => rep_loop step k n (pred lo) pos' s' cs'))
      as [x|].
    + apply Hstep. intros p s' cs'. apply IH.
    + destruct (lo =? 0); [apply Hk|exact Q_none].
Qed.

Lemma rmatch_result (ci : bool) (r : re) :
  forall pos s cs (k : nat -> str -> caps -> option A),
    (forall p s' cs', Q (k p s' cs')) -> Q (rmatch ci r pos s cs k).
Proof.
  induction r as [|c|p|a IHa b IHb|a IHa b IHb|r IH lo hi|name r IH| |];
    intros pos s cs k Hk; cbn [rmatch].
  - apply Hk.
  - destruct s as [|d s]; [exact Q_none|].
    destruct (chr_eq ci c d); [apply Hk|exact Q_none].
  - destruct s as [|d s]; [exact Q_none|].
    destruct (p d); [apply Hk|exact Q_none].
  - apply IHa. intros p s' cs'. apply IHb. exact Hk.
  - specialize (IHa pos s cs k Hk).
    destruct (rmatch ci a pos s cs k) as [x|]; [exact IHa|].
    apply IHb. exact Hk.
  - apply rep_loop_result; [|exact Hk].
    intros pos' s' cs' k' Hk'. apply IH. exact Hk'.
  - apply IH. intros p s' cs'. apply Hk.
  - destruct (pos =? 0); [apply Hk|exact Q_none].
  - destruct s as [|c [|d s]]; [apply Hk| |exact Q_none].
    destruct (ceqb c NL); [apply Hk|exact Q_none].
Qed.

End MatchResults.

(** The groups of a match whose last group, if it is the operator
    group, did not take a lone ['.']. *)
Definition no_dot_caps (cs : caps) : Prop :=
  match cs with
  | (g, tok) :: _ => gid_of g = 2 -> tok <> lit "."
  | [] => True
  end.

Definition no_dot_match (x : option (nat * str * caps)) : Prop :=
  match x with
  | Some (_, _, cs) => no_dot_caps cs
  | None => True
  end.

Definition found (p : nat) (rest : str) (cs : caps)
  : option (nat * str * caps) := Some (p, rest, cs).

Lemma no_dot_alt (a b : re) (pos : nat) (s : str) :
  no_dot_match (rmatch true a pos s [] found) ->
  no_dot_match (rmatch true b pos s [] found) ->
  no_dot_match (rmatch true (Alt a b) pos s [] found).
Proof.
  intros Ha Hb. cbn [rmatch].
  destruct (rmatch true a pos s [] found); assumption.
Qed.

Lemma no_dot_group (name : string) (r : re) (pos : nat) (s : str) (cs : caps) :
  gid_of name <> 2 ->
  no_dot_match (rmatch true (Grp name r) pos s cs found).
Proof.
  intros Hn. cbn [rmatch]. apply rmatch_result; [exact I|].
  intros p s' cs' X. contradiction.
Qed.

Lemma no_dot_quoted (q : ascii) (name : string) (r : re) (pos : nat) (s : str) :
  gid_of name <> 2 ->
  no_dot_match (rmatch true (seqs [Chr q; Grp name r; Chr q]) pos s [] found).
Proof.
  intros Hn. cbn [seqs rmatch].
  destruct s as [|d s]; [exact I|]. destruct (chr_eq true q d); [|exact I].
  apply rmatch_result; [exact I|]. intros p s' cs'.
  destruct s' as [|d' s']; [exact I|]. destruct (chr_eq true q d'); [|exact I].
  intros X. contradiction.
Qed.

Lemma firstn_not_dot (n : nat) (d : ascii) (s : str) :
  d <> "."%char -> firstn n (d :: s) <> lit ".".
Proof.
  intros Hd. destruct n as [|n]; [discriminate|].
  cbn [firstn lit list_ascii_of_string]. intros X. injection X as X _.
  contradiction.
Qed.

Lemma no_dot_operator (pos : nat) (s : str) :
  no_dot_match
    (rmatch true (Grp "2" (alts (map Lit _operators))) pos s [] found).
Proof.
  destruct s as [|d s]; [exact I|].
  destruct (ascii_dec d "."%char) as [->|Hd].
  - exact I.
  - cbn [rmatch]. apply rmatch_result; [exact I|].
    intros p s' cs' _. apply firstn_not_dot. exact Hd.
Qed.

Lemma lexer_no_dot (pos : nat) (s : str) :
  no_dot_match (rmatch true _tsql_lex_re pos s [] found).
Proof.
  unfold _tsql_lex_re. cbn [alts].
  repeat apply no_dot_alt;
    try (apply no_dot_group; vm_compute; discriminate);
    try (apply no_dot_quoted; vm_compute; discriminate).
  apply no_dot_operator.
Qed.

Lemma finditer_no_dot (fuel pos : nat) (s : str) :
  Forall (fun ms => no_dot_caps (m_caps (fst ms)))
    (finditer_from fuel true _tsql_lex_re pos s).
Proof.
  revert pos s. induction fuel as [|fuel IH]; intros pos s; [constructor|].
  cbn [finditer_from]. pose proof (lexer_no_dot pos s) as H.
  fold found.
  destruct (rmatch true _tsql_lex_re pos s [] found) as [[[p rest] cs]|].
  - constructor; [exact H|].
    destruct (p =? pos); [|apply IH].
    destruct s; [constructor|apply IH].
  - destruct s; [constructor|apply IH].
Qed.

(** A token that is not a ['.'] of the operator group. *)
Definition no_dot (t : token) : Prop :=
  match t with
  | (g, tok, _) => g = 2 -> tok <> lit "."
  end.

Lemma lex_line_no_dot (lineno : nat) (line : str) (ms : list (mobj * str)) :
  Forall (fun m => no_dot_caps (m_caps (fst m))) ms ->
  forall toks, lex_line lineno line ms = inr toks -> Forall no_dot toks.
Proof.
  induction 1 as [|[m x] ms Hm _ IH]; intros toks H.
  - injection H as <-. constructor.
  - cbn [lex_line] in H. cbn [fst] in Hm.
    destruct (m_caps m) as [|[g tok] cs]; [apply IH; exact H|].
    destruct (gid_of g =? 11); [discriminate|].
    destruct (lex_line lineno line ms) as [e|toks']; [discriminate|].
    injection H as <-. constructor; [exact Hm|]. apply IH. reflexivity.
Qed.

Lemma lex_lines_no_dot (lines : list str) :
  forall lineno toks,
    lex_lines lineno lines = inr toks -> Forall no_dot toks.
Proof.
  induction lines as [|line lines IH]; intros lineno toks H.
  - injection H as <-. constructor.
  - cbn [lex_lines] in H.
    destruct (lex_line lineno line (finditer true _tsql_lex_re line))
      as [e|toks1] eqn:E1; [discriminate|].
    cbn [bind] in H.
    destruct (lex_lines (S lineno) lines) as [e|toks2] eqn:E2; [discriminate|].
    injection H as <-. apply Forall_app. split.
    + eapply lex_line_no_dot; [|exact E1]. apply finditer_no_dot.
    + eapply IH. exact E2.
Qed.

Lemma lex_no_dot (s : str) (toks : list token) :
  _lex s = inr toks -> Forall no_dot toks.
Proof. apply lex_lines_no_dot. Qed.

(** [query] returns on no text: the lexer gives the closing ['.'] as a
    keyword, group 1, and [_parse_query] asks for it in group 2, the
    operators.  With enough fuel the parse ends, in an exception. *)
Theorem query_always_raises (pd : str -> option Tsdb.datetime) (text : str) :
  exists fuel, forall more,
    exists e, parse_query_text pd (fuel + more) text = Some (inl e).
Proof.
  unfold parse_query_text.
  destruct (_lex text) as [e|toks] eqn:L.
  - exists 0. intros more. exists e. reflexivity.
  - exists (5 * List.length toks + 5). intros more. cbn [lift rbind].
    destruct (query_returns pd toks (5 * List.length toks + 5 + more))
      as (r & Hr); [lia|].
    rewrite Hr. destruct r as [e|[q rest]].
    + exists e. reflexivity.
    + exfalso. apply query_needs_dot in Hr. destruct Hr as (l & Hin).
      apply lex_no_dot in L. rewrite Forall_forall in L.
      apply (L _ Hin); reflexivity.
Qed.

(** *** Two edges of the parser *)

(** A bare ['*'] is refused: when the token after it is neither
    ['from'] nor ['where'], [_parse_select] raises its error at the
    ['*'], whatever follows. *)
Theorem select_star_needs_source (pd : str -> option Tsdb.datetime)
  (fuel g l g' l' : nat) (tok' : str) (rest : list token) :
  seqb tok' (lit "from") = false ->
  seqb tok' (lit "where") = false ->
  _parse_select pd fuel ((g, lit "*", l) :: (g', tok', l') :: rest)
  = Some (inl (TSQLSyntaxError
                 (lit "'select *' requires a 'from' or 'where' statement")
                 l (Some (lit "*")))).
Proof.
  intros Hf Hw. unfold _parse_select, _parse_select_projection,
    _parse_select_from, _parse_select_where.
  cbn [peek next lift rbind bind ret].
  change (seqb (lit "*") (lit "*")) with true. cbn iota.
  cbn [peek next lift rbind bind ret]. rewrite Hf.
  cbn [peek next lift rbind bind ret]. rewrite Hw. reflexivity.
Qed.

Lemma select_star_needs_source_witness :
  _parse_select (fun _ => None) 10
    [(1, lit "*", 1); (1, lit ".", 1)]
  = Some (inl (TSQLSyntaxError
                 (lit "'select *' requires a 'from' or 'where' statement")
                 1 (Some (lit "*")))).
Proof. apply select_star_needs_source; reflexivity. Defined.

(** The conjunction parser takes an operator for a negation whatever
    its case, and the negation parser accepts lower case only: a
    negation written in capitals is a syntax error. *)
Theorem negation_in_capitals (pd : str -> option Tsdb.datetime)
  (fuel l : nat) (tok : str) (ts : list token) :
  tok_in (lower tok) ["!"; "not"]%string = true ->
  tok_in tok ["!"; "not"]%string = false ->
  _parse_condition_conjunction pd (S (S (S fuel))) ((2, tok, l) :: ts)
  = Some (inl (TSQLSyntaxError (lit "expected '!' or 'not'") l (Some tok))).
Proof.
  intros Hl Ht. rewrite conjunction_eq. cbn [peek lift rbind ret].
  rewrite conj_loop_eq. cbn [Nat.eqb andb]. rewrite Hl.
  rewrite negation_eq. cbn [next lift rbind ret Nat.eqb andb].
  rewrite Ht. reflexivity.
Qed.

Lemma negation_in_capitals_witness :
  _parse_condition_conjunction (fun _ => None) 3
    [(2, lit "NOT", 1); (10, lit "i-wf", 1); (2, lit "=", 1);
     (9, lit "1", 1); (1, lit ".", 1)]
  = Some (inl (TSQLSyntaxError (lit "expected '!' or 'not'") 1
                 (Some (lit "NOT")))).
Proof. apply negation_in_capitals; reflexivity. Defined.

(** *** Joins *)

Section JoinFacts.

Variable Table : Type.
Variable table_name : Table -> str.
Variable table_keys : Table -> list str.
Variable table_has : Table -> str -> bool.
Variable ts_get : str -> result Table.
Variable join : Table -> Table -> str -> result Table.
Variable rels : Tsdb.Schema.

Lemma scan_direct (tgtkeys : list str) (nm : str) (keys : list str) :
  existsb (fun k => mem k tgtkeys) keys = true ->
  forall visited newpaths,
    exists k,
      In k keys
      /\ scan_paths rels tgtkeys (map (fun key => [(nm, key)]) keys)
           visited newpaths
         = inl [(nm, k)].
Proof.
  induction keys as [|key keys IH]; intros H visited newpaths;
    [discriminate|].
  cbn [map scan_paths last snd]. cbn [existsb] in H.
  destruct (mem key tgtkeys) eqn:E.
  - exists key. split; [left; reflexivity|reflexivity].
  - cbn [orb] in H.
    destruct (extend_path rels [(nm, key)] (nm, key) visited newpaths)
      as [visited' newpaths'].
    destruct (IH H visited' newpaths') as (k & Hk & Hs).
    exists k. split; [right; exact Hk|exact Hs].
Qed.

(** Two tables that share a key are joined directly: when a key of the
    first table is a key of the second, [_transitive_join] is the one
    join of the two, with no table between. *)
Theorem transitive_join_direct (fuel : nat) (tab1 tab2 : Table) (how : str) :
  existsb (fun k => mem k (table_keys tab2)) (table_keys tab1) = true ->
  _transitive_join Table table_name table_keys ts_get join rels (S fuel)
    (Some tab1) tab2 how
  = Some (join tab1 tab2 how).
Proof.
  intros H. unfold _transitive_join, _id_path. cbn [id_path_loop].
  destruct (scan_direct (table_keys tab2) (table_name tab1) _ H
              (split_on "+" (table_name tab1)) []) as (k & _ & ->).
  cbn [tl join_along bind ret lift]. reflexivity.
Qed.

(** Tables that are part of the joined table already are passed over:
    [_select_from] returns the table as it was, and reads nothing. *)
Theorem select_from_joined (fuel : nat) (tables : list str) (t : Table) :
  forallb (fun tab => mem tab (split_on "+" (table_name t))) tables = true ->
  _select_from Table table_name table_keys ts_get join rels fuel tables
    (Some t)
  = Some (inr (Some t)).
Proof.
  unfold _select_from. generalize (split_on "+" (table_name t)) as joined.
  intros joined H. induction tables as [|tab tables IH]; [reflexivity|].
  cbn [forallb] in H. apply andb_true_iff in H. destruct H as [H1 H2].
  cbn [select_from_loop]. rewrite H1. apply IH. exact H2.
Qed.

(** A path that begins at the table [nm] with one of its [keys]. *)
Definition begins (nm : str) (keys : list str) (path : list step) : Prop :=
  exists k rest, path = (nm, k) :: rest /\ In k keys.

Lemma extend_path_begins (nm : str) (keys : list str) (path : list step)
  (laststep : step) (visited : list str) (newpaths : list (list step)) :
  begins nm keys path ->
  Forall (begins nm keys) newpaths ->
  Forall (begins nm keys)
    (snd (extend_path rels path laststep visited newpaths)).
Proof.
  intros Hp. unfold extend_path.
  generalize (filter (fun t => negb (mem t visited))
                (dedup (find rels (snd laststep)))) as tables.
  intros tables. revert visited newpaths.
  induction tables as [|table tables IH]; intros visited newpaths Hn;
    [exact Hn|].
  cbn [fold_left].
  destruct (1 <? List.length (keys_of rels table)); [|apply IH; exact Hn].
  apply IH. generalize (keys_of rels table) as ks. intros ks.
  revert newpaths Hn. induction ks as [|key ks IHk]; intros newpaths Hn;
    [exact Hn|].
  cbn [fold_left]. apply IHk.
  destruct (existsb (step_eqb (table, key)) path); [exact Hn|].
  apply Forall_app. split; [exact Hn|]. constructor; [|constructor].
  destruct Hp as (k & rest & -> & Hk). exists k, (rest ++ [(table, key)]).
  split; [reflexivity|exact Hk].
Qed.

Lemma scan_paths_begins (nm : str) (keys tgtkeys : list str)
  (paths : list (list step)) :
  Forall (begins nm keys) paths ->
  forall visited newpaths,
    Forall (begins nm keys) newpaths ->
    match scan_paths rels tgtkeys paths visited newpaths with
    | inl path =>
        begins nm keys path
        /\ mem (snd (last path ([], []))) tgtkeys = true
    | inr (_, newpaths') => Forall (begins nm keys) newpaths'
    end.
Proof.
  induction 1 as [|path paths Hp _ IH]; intros visited newpaths Hn;
    [exact Hn|].
  cbn [scan_paths].
  destruct (mem (snd (last path ([], []))) tgtkeys) eqn:E;
    [split; assumption|].
  pose proof (extend_path_begins nm keys path (last path ([], []))
                visited newpaths Hp Hn) as X.
  destruct (extend_path rels path (last path ([], [])) visited newpaths)
    as [visited' newpaths'].
  apply IH. exact X.
Qed.

Lemma id_path_loop_begins (nm : str) (keys tgtkeys : list str) (fuel : nat) :
  forall paths visited path,
    Forall (begins nm keys) paths ->
    id_path_loop rels fuel tgtkeys paths visited = Some (Some path) ->
    begins nm keys path /\ mem (snd (last path ([], []))) tgtkeys = true.
Proof.
  induction fuel as [|fuel IH]; intros paths visited path Hp H;
    [discriminate|].
  cbn [id_path_loop] in H.
  pose proof (scan_paths_begins nm keys tgtkeys paths Hp visited []
                (Forall_nil _)) as X.
  destruct (scan_paths rels tgtkeys paths visited []) as [p|[v np]].
  - injection H as <-. exact X.
  - destruct np as [|p np]; [discriminate|]. eapply IH; [exact X|exact H].
Qed.

(** A path that [_id_path] returns begins at the source table with one
    of its keys and ends in a key of the target. *)
Theorem id_path_ends (fuel : nat) (src tgt : Table) (path : list step) :
  _id_path Table table_name table_keys rels fuel src tgt = Some (Some path) ->
  (exists k rest, path = (table_name src, k) :: rest /\ In k (table_keys src))
  /\ mem (snd (last path ([], []))) (table_keys tgt) = true.
Proof.
  unfold _id_path. intros H.
  apply (id_path_loop_begins (table_name src) (table_keys src)) in H;
    [exact H|].
  apply Forall_map. apply Forall_forall. intros k Hk.
  exists k, []. split; [reflexivity|exact Hk].
Qed.

End JoinFacts.

Lemma transitive_join_direct_witness :
  _transitive_join example_table fst snd example_ts_get example_join
    example_schema 1
    (Some (lit "item", [lit "i-id"])) (lit "parse", [lit "parse-id"; lit "i-id"])
    (lit "inner")
  = Some (example_join (lit "item", [lit "i-id"])
            (lit "parse", [lit "parse-id"; lit "i-id"]) (lit "inner")).
Proof. apply transitive_join_direct. reflexivity. Defined.

Lemma select_from_joined_witness :
  _select_from example_table fst snd example_ts_get example_join
    example_schema 0 [lit "parse"; lit "item"]
    (Some (lit "item+parse", [lit "i-id"; lit "parse-id"]))
  = Some (inr (Some (lit "item+parse", [lit "i-id"; lit "parse-id"]))).
Proof. apply select_from_joined. reflexivity. Defined.

(** A schema in which [item] reaches [result] by way of [parse]. *)
Definition chain_schema : Tsdb.Schema :=
  [ (lit "item",
     [Tsdb.Field_init (lit "i-id") (lit ":integer") (Some [lit ":key"]) None]);
    (lit "parse",
     [Tsdb.Field_init (lit "parse-id") (lit ":integer") (Some [lit ":key"]) None;
      Tsdb.Field_init (lit "i-id") (lit ":integer") (Some [lit ":key"]) None]);
    (lit "result",
     [Tsdb.Field_init (lit "parse-id") (lit ":integer") (Some [lit ":key"]) None;
      Tsdb.Field_init (lit "result-id") (lit ":integer") None None]) ].

Lemma id_path_ends_witness :
  (exists k rest,
      [(lit "item", lit "i-id"); (lit "parse", lit "parse-id")]
      = (fst (lit "item", [lit "i-id"]), k) :: rest
      /\ In k (snd (lit "item", [lit "i-id"])))
  /\ mem (snd (last [(lit "item", lit "i-id"); (lit "parse", lit "parse-id")]
                 ([], [])))
       (snd (lit "result", [lit "parse-id"])) = true.
Proof.
  apply (id_path_ends example_table fst snd chain_schema 3
           (lit "item", [lit "i-id"]) (lit "result", [lit "parse-id"])).
  reflexivity.
Defined.

(** *** Qualified columns *)

Lemma rpartition_none (sep : ascii) (s : str) :
  ~ In sep s -> rpartition sep s = None.
Proof.
  induction s as [|c s IH]; intros H; [reflexivity|].
  cbn [rpartition]. rewrite IH by (intros X; apply H; right; exact X).
  assert (E : ceqb c sep = false).
  { apply ceqb_neq. intros ->. apply H. left. reflexivity. }
  rewrite E. reflexivity.
Qed.

Lemma rpartition_last (sep : ascii) (a b : str) :
  ~ In sep b -> rpartition sep (a ++ sep :: b) = Some (a, b).
Proof.
  intros H. induction a as [|c a IH].
  - cbn [app rpartition]. rewrite (rpartition_none sep b H), ceqb_refl.
    reflexivity.
  - cbn [app rpartition]. rewrite IH. reflexivity.
Qed.

Lemma prepare_parts_plain (table : str) (parts : list str) :
  (forall p, In p parts -> ~ In ":"%char p) ->
  prepare_parts table parts = map (fun p => table ++ p) parts.
Proof.
  induction parts as [|p parts IH]; intros H; [reflexivity|].
  cbn [prepare_parts map]. unfold rpartition2.
  rewrite (rpartition_none ":" p) by (apply H; left; reflexivity).
  rewrite IH by (intros x Hx; apply H; right; exact Hx). reflexivity.
Qed.

(** A table qualifier carries over the ['@'] of an extended column:
    [t:a@b@c] stands for [t:a], [t:b] and [t:c]. *)
Theorem prepare_columns_qualifier (q first : str) (others : list str) :
  q <> [] ->
  ~ In "@"%char q ->
  (forall n, In n (first :: others) -> ~ In ":"%char n /\ ~ In "@"%char n) ->
  _prepare_columns [join ["@"%char] ((q ++ lit ":" ++ first) :: others)]
  = map (fun n => q ++ lit ":" ++ n) (first :: others).
Proof.
  intros Hq Hat Hn. unfold _prepare_columns. cbn [flat_map].
  rewrite app_nil_r. rewrite TsdbFacts.split_on_join.
  - cbn [prepare_parts map]. unfold rpartition2.
    change (q ++ lit ":" ++ first) with (q ++ ":"%char :: first).
    rewrite rpartition_last by (apply Hn; left; reflexivity).
    destruct q as [|c q]; [contradiction|]. cbn iota beta.
    f_equal; [rewrite <- app_assoc; reflexivity|].
    rewrite prepare_parts_plain.
    + apply map_ext. intros n. rewrite <- app_assoc. reflexivity.
    + intros p Hp. apply Hn. right. exact Hp.
  - discriminate.
  - intros x [<-|Hx].
    + intros X. apply in_app_or in X. destruct X as [X|X]; [contradiction|].
      cbn [lit list_ascii_of_string app] in X. destruct X as [X|X];
        [discriminate|].
      apply (proj2 (Hn first (or_introl eq_refl))). exact X.
    + apply Hn. right. exact Hx.
Qed.

Lemma prepare_columns_qualifier_witness :
  _prepare_columns
    [join ["@"%char] ((lit "item" ++ lit ":" ++ lit "i-id")
                      :: [lit "i-input"; lit "i-wf"])]
  = map (fun n => lit "item" ++ lit ":" ++ n)
      (lit "i-id" :: [lit "i-input"; lit "i-wf"]).
Proof.
  apply prepare_columns_qualifier.
  - discriminate.
  - intros H. repeat (destruct H as [H|H]; [discriminate|]). exact H.
  - intros n H. split; intros X;
      repeat (destruct H as [<-|H];
              [repeat (destruct X as [X|X]; [discriminate|]); exact X|]);
      exact H.
Defined.

Section MoreJoinFacts.

Variable Table : Type.
Variable table_name : Table -> str.
Variable table_keys : Table -> list str.
Variable table_has : Table -> str -> bool.
Variable ts_get : str -> result Table.
Variable join : Table -> Table -> str -> result Table.
Variable rels : Tsdb.Schema.

(** A column that the joined table has under its bare name brings no
    join, whatever table qualifies it: the qualifier is not looked at. *)
Theorem join_if_missing_present (fuel : nat) (t : Table)
  (tab column how : str) :
  tab <> [] -> ~ In ":"%char column ->
  table_has t column = true ->
  _join_if_missing Table table_name table_keys table_has ts_get join rels
    fuel (Some t) (tab ++ lit ":" ++ column) how
  = Some (inr (Some t)).
Proof.
  intros Ht Hc Hhas. unfold _join_if_missing, rpartition2.
  change (tab ++ lit ":" ++ column) with (tab ++ ":"%char :: column).
  rewrite (rpartition_last ":" tab column Hc).
  destruct tab as [|c tab]; [contradiction|].
  cbn [lift rbind ret]. rewrite Hhas. reflexivity.
Qed.

End MoreJoinFacts.

Lemma join_if_missing_present_witness :
  _join_if_missing example_table fst snd
    (fun t col => mem col (snd t))
    example_ts_get example_join example_schema 0
    (Some (lit "item", [lit "i-id"; lit "i-input"]))
    (lit "fold" ++ lit ":" ++ lit "i-id") (lit "inner")
  = Some (inr (Some (lit "item", [lit "i-id"; lit "i-input"]))).
Proof.
  apply join_if_missing_present; [discriminate| |reflexivity].
  intros H. repeat (destruct H as [H|H]; [discriminate|]). exact H.
Defined.

(** *** Operators that compare nothing *)

Section OperatorFacts.

Variable pd : str -> option Tsdb.datetime.
Variable row : Type.
Variable getitem : row -> pyval -> result pyval.
Variable re_search : pyval -> pyval -> result bool.

(** Between a column and a quoted text the statement parser takes the
    operator tokens that are no comparison ([&], [&&], [|], [||] and
    [!]) as it takes a comparison, and returns the operator with the
    column and the text; [_process_condition] then binds no function
    for it and raises. *)
Theorem statement_with_connective (col op v : str) (g l1 l2 l3 : nat)
  (rest : list token) :
  tok_in op ["&"; "&&"; "|"; "||"; "!"]%string = true ->
  gid_in g [4; 5] = true ->
  _parse_condition_statement pd
    ((10, col, l1) :: (2, op, l2) :: (g, v, l3) :: rest)
  = inr (PTuple [PStr op; PTuple [PStr col; PStr v]], rest)
  /\ _process_condition row getitem re_search
       (PTuple [PStr op; PTuple [PStr col; PStr v]])
     = inl NameError.
Proof.
  intros H Hg. unfold tok_in, mem in H. apply existsb_exists in H.
  destruct H as (x & Hx & E). apply seqb_eq in E. subst x.
  assert (G : g = 4 \/ g = 5).
  { unfold gid_in in Hg. cbn [existsb] in Hg.
    apply orb_true_iff in Hg. destruct Hg as [Hg|Hg];
      [left; apply Nat.eqb_eq; exact Hg|].
    apply orb_true_iff in Hg. destruct Hg as [Hg|Hg]; [|discriminate].
    right. apply Nat.eqb_eq. exact Hg. }
  cbn [map] in Hx.
  destruct G as [-> | ->];
    destruct Hx as [<-|[<-|[<-|[<-|[<-|[]]]]]]; split; reflexivity.
Qed.

End OperatorFacts.

Lemma statement_with_connective_witness :
  _parse_condition_statement (fun _ => None)
    ((10, lit "i-input", 1) :: (2, lit "&&", 1) :: (4, lit "rain", 1)
     :: [(1, lit ".", 1)])
  = inr (PTuple [PStr (lit "&&");
                 PTuple [PStr (lit "i-input"); PStr (lit "rain")]],
         [(1, lit ".", 1)])
  /\ _process_condition example_row example_getitem no_search
       (PTuple [PStr (lit "&&");
                PTuple [PStr (lit "i-input"); PStr (lit "rain")]])
     = inl NameError.
Proof. apply statement_with_connective; reflexivity. Defined.

End TsqlFacts.
